(** * Pool metadata (pmd) engine of mpool: a shallow embedding of [pmd.c]

    The development follows [src/src/pmd.c].  The metadata array, the
    object layouts and the per-MDC bookkeeping are records; the C code is
    written in a state monad over them.  Components that live outside
    [pmd.c] (the paired MDC log, the space map, the layout allocator, the
    record codec) are modelled at their interface: every fallible call
    takes its return code from a script of outcomes carried by the state,
    so every theorem below holds for every behaviour of those components. *)

From Stdlib Require Import ZArith Lia List Bool.
From stdpp Require Import base option list gmap fin_maps sorting.

Local Open Scope Z_scope.

(** ** Machine integers *)

Definition wrap_u8 (z : Z) : Z := z mod 2 ^ 8.
Definition wrap_u16 (z : Z) : Z := z mod 2 ^ 16.
Definition wrap_u32 (z : Z) : Z := z mod 2 ^ 32.
Definition wrap_u64 (z : Z) : Z := z mod 2 ^ 64.

(** [int] and [atomic_t]: two's complement on 32 bits. *)
Definition wrap_s32 (z : Z) : Z := (z + 2 ^ 31) mod 2 ^ 32 - 2 ^ 31.

(** ** Error codes

    [merr_t] packs an errno with the place the error was raised; only the
    errno is kept here, so [merr] and [merr_errno] are the identity and
    [0] is success. *)

Definition merr_t := Z.

Definition EPERM : Z := 1.
Definition ENOENT : Z := 2.
Definition ENOMEM : Z := 12.
Definition EBUSY : Z := 16.
Definition EEXIST : Z := 17.
Definition EINVAL : Z := 22.
Definition EFBIG : Z := 27.
Definition ENOSPC : Z := 28.
Definition EBADSLT : Z := 57.
Definition EOPNOTSUPP : Z := 95.

Definition merr (e : Z) : merr_t := e.
Definition merr_errno (e : merr_t) : Z := e.

(** ** Object ids *)

Inductive obj_type_omf : Type :=
  | OMF_OBJ_UNDEF
  | OMF_OBJ_MBLOCK
  | OMF_OBJ_MLOG.

Global Instance obj_type_omf_eq_dec : EqDecision obj_type_omf.
Proof. solve_decision. Defined.

Definition otype_to_Z (t : obj_type_omf) : Z :=
  match t with
  | OMF_OBJ_UNDEF => 0
  | OMF_OBJ_MBLOCK => 1
  | OMF_OBJ_MLOG => 2
  end.

Definition otype_of_Z (z : Z) : obj_type_omf :=
  if z =? 1 then OMF_OBJ_MBLOCK
  else if z =? 2 then OMF_OBJ_MLOG
  else OMF_OBJ_UNDEF.

(** Modelled from the spec: the header that declares the constants of the
    metadata array is not part of [src/]; the values are the ones the
    specification recommends. *)
Definition MDC_SLOTS : Z := 256.
Definition MDC_TBL_SZ : Z := 16384.
Definition OBJID_UNIQ_DELTA : Z := 256.
Definition MPOOL_MDC_COMPACT_RETRY_DEFAULT : nat := 3.
Definition UROOT_OBJID_MAX : Z := 1.

(** Modelled from the spec: the object-id helpers of the missing header.
    An object id is a 64-bit value with the fields [uniq | type | slot];
    the slot is the low byte, the type the next four bits and the unique
    id the rest. *)
Definition objid_make (uniq : Z) (otype : obj_type_omf) (cslot : Z) : Z :=
  wrap_u64
    (Z.lor (Z.shiftl uniq 12)
       (Z.lor (Z.land (Z.shiftl (otype_to_Z otype) 8) 3840)
              (Z.land cslot 255))).

Definition objid_uniq (objid : Z) : Z := Z.shiftr objid 12.
Definition objid_slot (objid : Z) : Z := Z.land objid 255.
Definition objid_type (objid : Z) : obj_type_omf :=
  otype_of_Z (Z.shiftr (Z.land objid 3840) 8).
Definition pmd_objid_type (objid : Z) : obj_type_omf := objid_type objid.

Definition objtype_user (otype : obj_type_omf) : bool :=
  match otype with
  | OMF_OBJ_MBLOCK | OMF_OBJ_MLOG => true
  | OMF_OBJ_UNDEF => false
  end.

Definition pmd_objid_isuser (objid : Z) : bool :=
  objtype_user (objid_type objid) && negb (objid_slot objid =? 0).

Definition objid_ckpt (objid : Z) : bool :=
  Z.land (objid_uniq objid) (OBJID_UNIQ_DELTA - 1) =? 0.

Definition logid_make (uniq : Z) (cslot : Z) : Z :=
  objid_make uniq OMF_OBJ_MLOG cslot.

Definition MDC0_OBJID_LOG1 : Z := logid_make 0 0.
Definition MDC0_OBJID_LOG2 : Z := logid_make 1 0.

(** The mlogs of MDC0 are its own two logs; the mlogs of the other MDCs,
    which also carry slot 0, are not. *)
Definition objid_mdc0log (objid : Z) : bool :=
  (objid =? MDC0_OBJID_LOG1) || (objid =? MDC0_OBJID_LOG2).

(** ** Object layouts *)

(** State bits of a layout ([ECIO_LYT_*]). *)
Definition ECIO_LYT_NONE : Z := 0.
Definition ECIO_LYT_COMMITTED : Z := 1.
Definition ECIO_LYT_REMOVED : Z := 2.

Record ecio_layout_descriptor : Type := mk_layout {
  eld_objid : Z;
  eld_gen : Z;
  eld_mblen : Z;
  eld_state : Z;
  eld_refcnt : Z;
  eld_isdel : bool;
  ol_pdh : Z;
  ol_zaddr : Z;
  ol_zcnt : Z
}.

Definition set_eld_gen (g : Z) (l : ecio_layout_descriptor) :=
  mk_layout (eld_objid l) g (eld_mblen l) (eld_state l) (eld_refcnt l)
            (eld_isdel l) (ol_pdh l) (ol_zaddr l) (ol_zcnt l).
Definition set_eld_state (s : Z) (l : ecio_layout_descriptor) :=
  mk_layout (eld_objid l) (eld_gen l) (eld_mblen l) s (eld_refcnt l)
            (eld_isdel l) (ol_pdh l) (ol_zaddr l) (ol_zcnt l).
Definition set_eld_refcnt (r : Z) (l : ecio_layout_descriptor) :=
  mk_layout (eld_objid l) (eld_gen l) (eld_mblen l) (eld_state l) r
            (eld_isdel l) (ol_pdh l) (ol_zaddr l) (ol_zcnt l).
Definition set_eld_isdel (b : bool) (l : ecio_layout_descriptor) :=
  mk_layout (eld_objid l) (eld_gen l) (eld_mblen l) (eld_state l)
            (eld_refcnt l) b (ol_pdh l) (ol_zaddr l) (ol_zcnt l).
Definition set_ol_ld (pdh zaddr : Z) (l : ecio_layout_descriptor) :=
  mk_layout (eld_objid l) (eld_gen l) (eld_mblen l) (eld_state l)
            (eld_refcnt l) (eld_isdel l) pdh zaddr (ol_zcnt l).

Global Instance layout_inhabited : Inhabited ecio_layout_descriptor :=
  populate (mk_layout 0 0 0 0 0 false 0 0 0).

Global Instance layout_eq_dec : EqDecision ecio_layout_descriptor.
Proof. solve_decision. Defined.

(** A layout pointer.  [None] stands for [NULL] where a pointer may be
    null. *)
Abbreviation lptr := positive (only parsing).

Definition lyt_committed (l : ecio_layout_descriptor) : bool :=
  negb (Z.land (eld_state l) ECIO_LYT_COMMITTED =? 0).
Definition lyt_removed (l : ecio_layout_descriptor) : bool :=
  negb (Z.land (eld_state l) ECIO_LYT_REMOVED =? 0).

(** Persistent part of a layout, as an [OCREATE] or [OUPDATE] record
    carries it on media. *)
Record omf_layout : Type := mk_omf_layout {
  ol_objid : Z;
  ol_gen : Z;
  ol_mblen : Z;
  ol_dev : Z;
  ol_zone : Z;
  ol_cnt : Z
}.

Global Instance omf_layout_eq_dec : EqDecision omf_layout.
Proof. solve_decision. Defined.

Definition layout_pack (l : ecio_layout_descriptor) : omf_layout :=
  mk_omf_layout (eld_objid l) (eld_gen l) (eld_mblen l)
                (ol_pdh l) (ol_zaddr l) (ol_zcnt l).

(** ** Pool properties *)

Inductive pd_state_omf : Type :=
  | OMF_PD_UNDEF
  | OMF_PD_ACTIVE
  | OMF_PD_REMOVING
  | OMF_PD_REBUILDING
  | OMF_PD_DEFUNCT.

Global Instance pd_state_omf_eq_dec : EqDecision pd_state_omf.
Proof. solve_decision. Defined.

Record mpool_dev_info : Type := mk_pd {
  pdi_state : pd_state_omf;
  pdi_devid : Z;
  dpr_zonepg : Z;
  dpr_zonetot : Z;
  dpr_devsz : Z
}.

Global Instance mpool_dev_info_eq_dec : EqDecision mpool_dev_info.
Proof. solve_decision. Defined.

Global Instance mpool_dev_info_inhabited : Inhabited mpool_dev_info :=
  populate (mk_pd OMF_PD_UNDEF 0 0 0 0).

Record media_class : Type := mk_mc {
  mc_pdmc : Z;
  mcp_classp : Z;
  mcsp_spzone : Z;
  mcsp_align : Z
}.

Global Instance media_class_inhabited : Inhabited media_class :=
  populate (mk_mc (-1) 0 0 0).

Record mpool_config : Type := mk_cfg {
  mc_oid1 : Z;
  mc_oid2 : Z;
  mc_uid : Z;
  mc_gid : Z;
  mc_mode : Z
}.

Global Instance mpool_config_eq_dec : EqDecision mpool_config.
Proof. solve_decision. Defined.

(** ** Metadata content version *)

Record upg_mdccver : Type := mk_mdccver {
  mv_mdccver_major : Z;
  mv_mdccver_minor : Z;
  mv_mdccver_patch : Z;
  mv_mdccver_dev : Z
}.

Global Instance upg_mdccver_eq_dec : EqDecision upg_mdccver.
Proof. solve_decision. Defined.

(** Modelled from the spec: the version comparators of the upgrade
    component, which is not part of [src/]; versions compare field by
    field, major first. *)
Definition upg_ver_cmp_lex (a b : upg_mdccver) : comparison :=
  match mv_mdccver_major a ?= mv_mdccver_major b with
  | Eq =>
      match mv_mdccver_minor a ?= mv_mdccver_minor b with
      | Eq =>
          match mv_mdccver_patch a ?= mv_mdccver_patch b with
          | Eq => mv_mdccver_dev a ?= mv_mdccver_dev b
          | c => c
          end
      | c => c
      end
  | c => c
  end.

Definition upg_ver_gt (a b : upg_mdccver) : bool :=
  match upg_ver_cmp_lex a b with Gt => true | _ => false end.
Definition upg_ver_ge (a b : upg_mdccver) : bool :=
  match upg_ver_cmp_lex a b with Lt => false | _ => true end.
Definition upg_ver_eq (a b : upg_mdccver) : bool :=
  match upg_ver_cmp_lex a b with Eq => true | _ => false end.

(** ** MDC records *)

(** A record as it sits in an MDC log. *)
Inductive mdcrec : Type :=
  | MDR_VERSION (v : upg_mdccver)
  | MDR_OCREATE (l : omf_layout)
  | MDR_ODELETE (objid : Z)
  | MDR_OIDCKPT (objid : Z)
  | MDR_OERASE (objid : Z) (gen : Z)
  | MDR_OUPDATE (l : omf_layout)
  | MDR_MCCONFIG (pd : mpool_dev_info)
  | MDR_MCSPARE (mclassp : Z) (spzone : Z)
  | MDR_MPCONFIG (cfg : mpool_config).

Global Instance mdcrec_eq_dec : EqDecision mdcrec.
Proof. solve_decision. Defined.

(** The in-memory record [struct omf_mdcrec_data] handed to the packer:
    an [OCREATE] refers to the layout by pointer. *)
Inductive omf_mdcrec_data : Type :=
  | CDR_VERSION (v : upg_mdccver)
  | CDR_OCREATE (layout : lptr)
  | CDR_ODELETE (objid : Z)
  | CDR_OIDCKPT (objid : Z)
  | CDR_OERASE (objid : Z) (gen : Z)
  | CDR_MCCONFIG (pd : mpool_dev_info)
  | CDR_MCSPARE (mclassp : Z) (spzone : Z)
  | CDR_MPCONFIG (cfg : mpool_config).

Definition omf_mdcrec_isobj (r : mdcrec) : bool :=
  match r with
  | MDR_OCREATE _ | MDR_ODELETE _ | MDR_OIDCKPT _ | MDR_OERASE _ _
  | MDR_OUPDATE _ => true
  | _ => false
  end.

(** ** Components outside [pmd.c]

    Pure functions and constants of the collaborators whose sources are
    not part of [src/].  The development is parametric in them. *)
Class Externals : Type := {
  (** latest metadata version the binary understands *)
  upg_mdccver_latest : upg_mdccver;
  (** packed length of a record, negative when packing fails *)
  omf_mdcrec_pack_htole : mdcrec -> Z;
  (** what [u.obj.omd_objid] reads on a record that is not an object
      record (the members of the union overlap) *)
  omd_objid_overlay : mdcrec -> Z;
  (** capacity in bytes of an object, from its layout and its device *)
  ecio_obj_get_cap_from_layout :
    list mpool_dev_info -> ecio_layout_descriptor -> Z;
  (** media classes *)
  MP_MED_NUMBER : Z;
  MP_MED_CAPACITY : Z;
  mpool_mc_isvalid : Z -> bool;
  mpool_mc_isbe : Z -> bool;
  mpool_mc_first_get : Z -> Z;
  mclassp_valid : Z -> bool;
  PAGE_SHIFT : Z
}.

(** ** Per-MDC state *)

Record pmd_mdc_stats : Type := mk_stats {
  pms_mblock_alen : Z;
  pms_mblock_wlen : Z;
  pms_mlog_alen : Z;
  pms_mblock_cnt : Z;
  pms_mlog_cnt : Z
}.

Record pre_compact_ctrs : Type := mk_pco {
  pcc_cr : Z;
  pcc_up : Z;
  pcc_del : Z;
  pcc_er : Z;
  pcc_cobj : Z;
  pcc_cap : Z;
  pcc_len : Z
}.

Record pmd_mdc_info : Type := mk_cinfo {
  mmi_obj : gmap Z lptr;
  mmi_uncobj : gmap Z lptr;
  mmi_luniq : Z;
  mmi_lckpt : Z;
  mmi_mdccver : upg_mdccver;
  mmi_recbuf : bool;
  mmi_stats : pmd_mdc_stats;
  mmi_pco_cnt : pre_compact_ctrs;
  ci_slot : Z
}.

Definition set_mmi_obj (f : gmap Z lptr -> gmap Z lptr) (c : pmd_mdc_info) :=
  mk_cinfo (f (mmi_obj c)) (mmi_uncobj c) (mmi_luniq c) (mmi_lckpt c)
           (mmi_mdccver c) (mmi_recbuf c) (mmi_stats c) (mmi_pco_cnt c)
           (ci_slot c).
Definition set_mmi_uncobj (f : gmap Z lptr -> gmap Z lptr) (c : pmd_mdc_info) :=
  mk_cinfo (mmi_obj c) (f (mmi_uncobj c)) (mmi_luniq c) (mmi_lckpt c)
           (mmi_mdccver c) (mmi_recbuf c) (mmi_stats c) (mmi_pco_cnt c)
           (ci_slot c).
Definition set_mmi_luniq (v : Z) (c : pmd_mdc_info) :=
  mk_cinfo (mmi_obj c) (mmi_uncobj c) v (mmi_lckpt c)
           (mmi_mdccver c) (mmi_recbuf c) (mmi_stats c) (mmi_pco_cnt c)
           (ci_slot c).
Definition set_mmi_lckpt (v : Z) (c : pmd_mdc_info) :=
  mk_cinfo (mmi_obj c) (mmi_uncobj c) (mmi_luniq c) v
           (mmi_mdccver c) (mmi_recbuf c) (mmi_stats c) (mmi_pco_cnt c)
           (ci_slot c).
Definition set_mmi_mdccver (v : upg_mdccver) (c : pmd_mdc_info) :=
  mk_cinfo (mmi_obj c) (mmi_uncobj c) (mmi_luniq c) (mmi_lckpt c)
           v (mmi_recbuf c) (mmi_stats c) (mmi_pco_cnt c) (ci_slot c).
Definition set_mmi_recbuf (b : bool) (c : pmd_mdc_info) :=
  mk_cinfo (mmi_obj c) (mmi_uncobj c) (mmi_luniq c) (mmi_lckpt c)
           (mmi_mdccver c) b (mmi_stats c) (mmi_pco_cnt c) (ci_slot c).
Definition set_mmi_stats (f : pmd_mdc_stats -> pmd_mdc_stats)
    (c : pmd_mdc_info) :=
  mk_cinfo (mmi_obj c) (mmi_uncobj c) (mmi_luniq c) (mmi_lckpt c)
           (mmi_mdccver c) (mmi_recbuf c) (f (mmi_stats c)) (mmi_pco_cnt c)
           (ci_slot c).
Definition set_mmi_pco_cnt (f : pre_compact_ctrs -> pre_compact_ctrs)
    (c : pmd_mdc_info) :=
  mk_cinfo (mmi_obj c) (mmi_uncobj c) (mmi_luniq c) (mmi_lckpt c)
           (mmi_mdccver c) (mmi_recbuf c) (mmi_stats c) (f (mmi_pco_cnt c))
           (ci_slot c).
Definition set_ci_slot (v : Z) (c : pmd_mdc_info) :=
  mk_cinfo (mmi_obj c) (mmi_uncobj c) (mmi_luniq c) (mmi_lckpt c)
           (mmi_mdccver c) (mmi_recbuf c) (mmi_stats c) (mmi_pco_cnt c) v.

(** [atomic_inc], [atomic_dec] and [atomic_set] on the pre-compaction
    counters. *)
Definition atomic_inc (v : Z) : Z := wrap_s32 (v + 1).
Definition atomic_dec (v : Z) : Z := wrap_s32 (v - 1).
Definition atomic_set (v : Z) : Z := wrap_s32 v.

Definition pco_inc_cr (p : pre_compact_ctrs) :=
  mk_pco (atomic_inc (pcc_cr p)) (pcc_up p) (pcc_del p) (pcc_er p)
         (pcc_cobj p) (pcc_cap p) (pcc_len p).
Definition pco_inc_up (p : pre_compact_ctrs) :=
  mk_pco (pcc_cr p) (atomic_inc (pcc_up p)) (pcc_del p) (pcc_er p)
         (pcc_cobj p) (pcc_cap p) (pcc_len p).
Definition pco_inc_del (p : pre_compact_ctrs) :=
  mk_pco (pcc_cr p) (pcc_up p) (atomic_inc (pcc_del p)) (pcc_er p)
         (pcc_cobj p) (pcc_cap p) (pcc_len p).
Definition pco_inc_er (p : pre_compact_ctrs) :=
  mk_pco (pcc_cr p) (pcc_up p) (pcc_del p) (atomic_inc (pcc_er p))
         (pcc_cobj p) (pcc_cap p) (pcc_len p).
Definition pco_inc_cobj (p : pre_compact_ctrs) :=
  mk_pco (pcc_cr p) (pcc_up p) (pcc_del p) (pcc_er p)
         (atomic_inc (pcc_cobj p)) (pcc_cap p) (pcc_len p).
Definition pco_dec_cobj (p : pre_compact_ctrs) :=
  mk_pco (pcc_cr p) (pcc_up p) (pcc_del p) (pcc_er p)
         (atomic_dec (pcc_cobj p)) (pcc_cap p) (pcc_len p).

(** [pmd_mda_init]: the state of slot [sidx] before it is used. *)
Definition pmd_mda_init_slot (sidx : Z) : pmd_mdc_info :=
  mk_cinfo ∅ ∅
    (if sidx =? 1 then UROOT_OBJID_MAX else 0)
    (objid_make 0 OMF_OBJ_UNDEF sidx)
    (mk_mdccver 1 0 0 0)
    false
    (mk_stats 0 0 0 0 0)
    (mk_pco 0 0 0 0 0 0 0)
    sidx.

(** ** The paired MDC log

    Modelled from the spec: the MDC log component ([mp_mdc_open], [close],
    [rewind], [read], [append], [cstart], [cend]) is not part of [src/].
    An MDC is a pair of mlogs, one of them active.  [cstart] resets the
    inactive log and directs the appends to it; [cend] makes that log the
    active one and is refused when no compaction was started.  Every call
    can fail; a failed call leaves the logs as they were. *)
Record mp_mdc : Type := mk_mdc {
  mdc_alog : list mdcrec;
  mdc_nlog : list mdcrec;
  mdc_cstarted : bool
}.

Global Instance mp_mdc_inhabited : Inhabited mp_mdc :=
  populate (mk_mdc [] [] false).

(** ** Locks *)

Inductive lockid : Type :=
  | L_pmd_s_lock
  | L_pdvlock
  | L_slotvlock
  | L_compactlock (cslot : Z)
  | L_uqlock (cslot : Z)
  | L_colock (cslot : Z)
  | L_uncolock (cslot : Z)
  | L_reflock (cslot : Z)
  | L_stats_lock (cslot : Z)
  | L_rwlock (layout : lptr).

Global Instance lockid_eq_dec : EqDecision lockid.
Proof. solve_decision. Defined.

(** Calls into the MDC log, in the order they were made (latest first),
    each with its return code; an append also records the locks held. *)
Inductive event : Type :=
  | EvOpen (cslot : Z) (err : merr_t)
  | EvClose (cslot : Z)
  | EvCstart (cslot : Z) (err : merr_t)
  | EvCend (cslot : Z) (err : merr_t)
  | EvAppend (cslot : Z) (r : mdcrec) (sync : bool) (held : list lockid)
             (err : merr_t).

(** ** The pool *)

Record mpool_descriptor : Type := mk_mp {
  mdi_slotv : gmap Z pmd_mdc_info;
  mdi_slotvcnt : Z;
  mdi_slotvcnt_shift : Z;
  mds_tbl : list Z;
  mds_tbl_idx : Z;
  pds_pdv : list mpool_dev_info;
  pds_mc : list media_class;
  pds_cfg : mpool_config
}.

(** The pool descriptor together with what it points to and what it talks
    to: the layouts ([w_heap], [w_brk] being the next pointer handed out),
    the MDC logs by slot, the erase work queue, the locks held, the script
    of return codes of the outside calls still to come and the calls made
    to the MDC logs so far. *)
Record world : Type := mk_world {
  w_mp : mpool_descriptor;
  w_heap : gmap lptr ecio_layout_descriptor;
  w_brk : lptr;
  w_zone : Z;
  w_mdc : gmap Z mp_mdc;
  w_erase_wq : list lptr;
  w_held : list lockid;
  w_oracle : list Z;
  w_trace : list event
}.

Definition set_w_mp (f : mpool_descriptor -> mpool_descriptor) (w : world) :=
  mk_world (f (w_mp w)) (w_heap w) (w_brk w) (w_zone w) (w_mdc w)
           (w_erase_wq w) (w_held w) (w_oracle w) (w_trace w).
Definition set_w_heap
    (f : gmap lptr ecio_layout_descriptor -> gmap lptr ecio_layout_descriptor)
    (w : world) :=
  mk_world (w_mp w) (f (w_heap w)) (w_brk w) (w_zone w) (w_mdc w)
           (w_erase_wq w) (w_held w) (w_oracle w) (w_trace w).
Definition set_w_brk (p : lptr) (w : world) :=
  mk_world (w_mp w) (w_heap w) p (w_zone w) (w_mdc w)
           (w_erase_wq w) (w_held w) (w_oracle w) (w_trace w).
Definition set_w_zone (z : Z) (w : world) :=
  mk_world (w_mp w) (w_heap w) (w_brk w) z (w_mdc w)
           (w_erase_wq w) (w_held w) (w_oracle w) (w_trace w).
Definition set_w_mdc (f : gmap Z mp_mdc -> gmap Z mp_mdc) (w : world) :=
  mk_world (w_mp w) (w_heap w) (w_brk w) (w_zone w) (f (w_mdc w))
           (w_erase_wq w) (w_held w) (w_oracle w) (w_trace w).
Definition set_w_erase_wq (f : list lptr -> list lptr) (w : world) :=
  mk_world (w_mp w) (w_heap w) (w_brk w) (w_zone w) (w_mdc w)
           (f (w_erase_wq w)) (w_held w) (w_oracle w) (w_trace w).
Definition set_w_held (f : list lockid -> list lockid) (w : world) :=
  mk_world (w_mp w) (w_heap w) (w_brk w) (w_zone w) (w_mdc w)
           (w_erase_wq w) (f (w_held w)) (w_oracle w) (w_trace w).
Definition set_w_oracle (o : list Z) (w : world) :=
  mk_world (w_mp w) (w_heap w) (w_brk w) (w_zone w) (w_mdc w)
           (w_erase_wq w) (w_held w) o (w_trace w).
Definition set_w_trace (f : list event -> list event) (w : world) :=
  mk_world (w_mp w) (w_heap w) (w_brk w) (w_zone w) (w_mdc w)
           (w_erase_wq w) (w_held w) (w_oracle w) (f (w_trace w)).

Definition set_mdi_slotv (f : gmap Z pmd_mdc_info -> gmap Z pmd_mdc_info)
    (mp : mpool_descriptor) :=
  mk_mp (f (mdi_slotv mp)) (mdi_slotvcnt mp) (mdi_slotvcnt_shift mp)
        (mds_tbl mp) (mds_tbl_idx mp) (pds_pdv mp) (pds_mc mp) (pds_cfg mp).
Definition set_mdi_slotvcnt (v : Z) (mp : mpool_descriptor) :=
  mk_mp (mdi_slotv mp) v (mdi_slotvcnt_shift mp)
        (mds_tbl mp) (mds_tbl_idx mp) (pds_pdv mp) (pds_mc mp) (pds_cfg mp).
Definition set_mdi_slotvcnt_shift (v : Z) (mp : mpool_descriptor) :=
  mk_mp (mdi_slotv mp) (mdi_slotvcnt mp) v
        (mds_tbl mp) (mds_tbl_idx mp) (pds_pdv mp) (pds_mc mp) (pds_cfg mp).
Definition set_mds_tbl_idx (v : Z) (mp : mpool_descriptor) :=
  mk_mp (mdi_slotv mp) (mdi_slotvcnt mp) (mdi_slotvcnt_shift mp)
        (mds_tbl mp) v (pds_pdv mp) (pds_mc mp) (pds_cfg mp).

(** ** The monad of the code: state passing over [world] *)

Definition M (A : Type) : Type := world -> A * world.

Definition ret {A : Type} (a : A) : M A := fun w => (a, w).

Definition bind {A B : Type} (m : M A) (k : A -> M B) : M B :=
  fun w => let (a, w') := m w in k a w'.

Declare Scope pmd_scope.
Delimit Scope pmd_scope with pmd.
Notation "x <- c1 ;; c2" := (bind c1 (fun x => c2))
  (at level 20, c1 at level 99, c2 at level 200,
   format "'[' x  <-  c1  ;;  '/' c2 ']'") : pmd_scope.
Notation "' pat <- c1 ;; c2" :=
  (bind c1 (fun x => match x with pat => c2 end))
  (at level 20, pat pattern, c1 at level 99, c2 at level 200) : pmd_scope.
Notation "c1 ;; c2" := (bind c1 (fun _ => c2))
  (at level 100, c2 at level 200, right associativity,
   format "'[' c1  ;;  '/' c2 ']'") : pmd_scope.
Local Open Scope pmd_scope.

Definition gets {A : Type} (f : world -> A) : M A := fun w => (f w, w).
Definition modify (f : world -> world) : M unit := fun w => (tt, f w).

(** Return code of the next call to an outside component; once the script
    is used up every call succeeds. *)
Definition pop_oracle : M Z :=
  fun w =>
    match w_oracle w with
    | [] => (0, w)
    | e :: o => (e, set_w_oracle o w)
    end.

Definition log_event (e : event) : M unit :=
  modify (set_w_trace (cons e)).

(** *** Slots *)

Definition slot_of (mp : mpool_descriptor) (cslot : Z) : pmd_mdc_info :=
  default (pmd_mda_init_slot cslot) (mdi_slotv mp !! cslot).

Definition cinfo_of (w : world) (cslot : Z) : pmd_mdc_info :=
  slot_of (w_mp w) cslot.

Definition upd_slot (cslot : Z) (f : pmd_mdc_info -> pmd_mdc_info)
    (w : world) : world :=
  set_w_mp (set_mdi_slotv (fun sv => <[cslot := f (slot_of (w_mp w) cslot)]> sv)) w.

Definition get_cinfo (cslot : Z) : M pmd_mdc_info :=
  gets (fun w => cinfo_of w cslot).

Definition mod_cinfo (cslot : Z) (f : pmd_mdc_info -> pmd_mdc_info) : M unit :=
  modify (upd_slot cslot f).

(** *** Layouts *)

Definition layout_of (w : world) (lp : lptr) : ecio_layout_descriptor :=
  w_heap w !!! lp.

Definition get_layout (lp : lptr) : M ecio_layout_descriptor :=
  gets (fun w => layout_of w lp).

Definition mod_layout (lp : lptr)
    (f : ecio_layout_descriptor -> ecio_layout_descriptor) : M unit :=
  modify (set_w_heap (alter f lp)).

(** Modelled from the spec: [ecio_layout_alloc] and [ecio_layout_free]
    belong to the ECIO component, which is not part of [src/].  A new
    layout carries the given object id, generation, written length and
    zone count, one reference, and no state bit; the call returns [NULL]
    when memory is short. *)
Definition ecio_layout_alloc (objid gen mblen zcnt : Z) : M (option lptr) :=
  e <- pop_oracle ;;
  if e =? 0 then
    p <- gets w_brk ;;
    modify (fun w =>
      set_w_brk (Pos.succ p)
        (set_w_heap
           (insert p (mk_layout objid gen mblen ECIO_LYT_NONE 1 false 0 0 zcnt))
           w)) ;;
    ret (Some p)
  else ret None.

Definition ecio_layout_free (lp : lptr) : M unit :=
  modify (set_w_heap (delete lp)).

(** *** Locks *)

Fixpoint remove_first (l : lockid) (ls : list lockid) : list lockid :=
  match ls with
  | [] => []
  | x :: ls' => if decide (x = l) then ls' else x :: remove_first l ls'
  end.

Definition lock (l : lockid) : M unit := modify (set_w_held (cons l)).
Definition unlock (l : lockid) : M unit := modify (set_w_held (remove_first l)).

(** *** The trees of committed and uncommitted objects

    Modelled from the spec: the red-black tree helpers are declared
    outside [src/].  A tree is an ordered map from object id to layout;
    inserting a key that is present returns the layout found and leaves the
    tree alone; the tree is walked in object-id order. *)
Definition objid_to_layout_search_mdc (root : gmap Z lptr) (objid : Z)
  : option lptr := root !! objid.

Definition objid_to_layout_insert_mdc (root : gmap Z lptr) (objid : Z)
    (lp : lptr) : option lptr * gmap Z lptr :=
  match root !! objid with
  | Some found => (Some found, root)
  | None => (None, <[objid := lp]> root)
  end.

Definition rb_erase (objid : Z) (root : gmap Z lptr) : gmap Z lptr :=
  delete objid root.

Definition objid_le (a b : Z * lptr) : Prop := a.1 <= b.1.

Global Instance objid_le_dec : RelDecision objid_le.
Proof. intros a b. unfold objid_le. apply _. Defined.

(** [rb_first] followed by [rb_next] until the end. *)
Definition rb_walk (root : gmap Z lptr) : list (Z * lptr) :=
  merge_sort objid_le (map_to_list root).

(** *** Calls into the paired MDC log *)

Definition mdc_of (w : world) (cslot : Z) : mp_mdc := w_mdc w !!! cslot.

Definition mod_mdc (cslot : Z) (f : mp_mdc -> mp_mdc) : M unit :=
  modify (fun w => set_w_mdc (insert cslot (f (mdc_of w cslot))) w).

(** Opening the pair settles which log is active: whatever a compaction
    that did not reach [cend] wrote is dropped. *)
Definition mp_mdc_open (cslot : Z) : M merr_t :=
  e <- pop_oracle ;;
  log_event (EvOpen cslot e) ;;
  if e =? 0 then
    mod_mdc cslot (fun m => mk_mdc (mdc_alog m) [] false) ;;
    ret 0
  else ret e.

Definition mp_mdc_close (cslot : Z) : M unit :=
  log_event (EvClose cslot).

Definition mp_mdc_rewind (cslot : Z) : M merr_t := pop_oracle.

Definition mp_mdc_cstart (cslot : Z) : M merr_t :=
  e <- pop_oracle ;;
  log_event (EvCstart cslot e) ;;
  if e =? 0 then
    mod_mdc cslot (fun m => mk_mdc (mdc_alog m) [] true) ;;
    ret 0
  else ret e.

Definition mp_mdc_cend (cslot : Z) : M merr_t :=
  e <- pop_oracle ;;
  m <- gets (fun w => mdc_of w cslot) ;;
  let e' := if e =? 0 then
              if mdc_cstarted m then 0 else merr EINVAL
            else e in
  log_event (EvCend cslot e') ;;
  if e' =? 0 then
    mod_mdc cslot (fun m => mk_mdc (mdc_nlog m) [] false) ;;
    ret 0
  else ret e'.

Definition mdc_push (r : mdcrec) (m : mp_mdc) : mp_mdc :=
  if mdc_cstarted m
  then mk_mdc (mdc_alog m) (mdc_nlog m ++ [r]) true
  else mk_mdc (mdc_alog m ++ [r]) (mdc_nlog m) false.

Definition mp_mdc_append (cslot : Z) (r : mdcrec) (sync : bool) : M merr_t :=
  e <- pop_oracle ;;
  held <- gets w_held ;;
  log_event (EvAppend cslot r sync held e) ;;
  if e =? 0 then
    mod_mdc cslot (mdc_push r) ;;
    ret 0
  else ret e.

Section PMD.

Context `{Ext : Externals}.

Definition upg_latest_ge_1_0_0_1 : bool :=
  upg_ver_ge upg_mdccver_latest (mk_mdccver 1 0 0 1).

(** What the packer writes for an in-memory record: an [OCREATE] takes
    the persistent fields of the layout it points to. *)
Definition cdr_pack (w : world) (cdr : omf_mdcrec_data) : mdcrec :=
  match cdr with
  | CDR_VERSION v => MDR_VERSION v
  | CDR_OCREATE lp => MDR_OCREATE (layout_pack (layout_of w lp))
  | CDR_ODELETE objid => MDR_ODELETE objid
  | CDR_OIDCKPT objid => MDR_OIDCKPT objid
  | CDR_OERASE objid gen => MDR_OERASE objid gen
  | CDR_MCCONFIG pd => MDR_MCCONFIG pd
  | CDR_MCSPARE c s => MDR_MCSPARE c s
  | CDR_MPCONFIG cfg => MDR_MPCONFIG cfg
  end.

(** [pmd_mdc_append] *)
Definition pmd_mdc_append (cslot : Z) (cdr : omf_mdcrec_data) (sync : bool)
  : M merr_t :=
  r <- gets (fun w => cdr_pack w cdr) ;;
  let plen := omf_mdcrec_pack_htole r in
  if plen <? 0 then ret plen
  else mp_mdc_append cslot r sync.

(** [pmd_log_all_mdc_cobjs]: the first loop over the nodes of the
    committed tree; on a failed append the second loop of the source only
    counts the nodes that are left, the current one included. *)
Fixpoint log_all_mdc_cobjs_loop (cslot : Z) (nodes : list (Z * lptr))
    (compacted total : Z) : M (merr_t * (Z * Z)) :=
  match nodes with
  | [] => ret (0, (compacted, total))
  | (_, lp) :: rest =>
      layout <- get_layout lp ;;
      if negb (objid_mdc0log (eld_objid layout)) then
        err <- pmd_mdc_append cslot (CDR_OCREATE lp) false ;;
        if negb (err =? 0) then
          ret (err, (compacted, wrap_u32 (total + Z.of_nat (length nodes))))
        else
          log_all_mdc_cobjs_loop cslot rest
            (wrap_u32 (compacted + 1)) (wrap_u32 (total + 1))
      else
        log_all_mdc_cobjs_loop cslot rest compacted (wrap_u32 (total + 1))
  end.

Definition pmd_log_all_mdc_cobjs (cslot : Z) (compacted total : Z)
  : M (merr_t * (Z * Z)) :=
  cinfo <- get_cinfo cslot ;;
  log_all_mdc_cobjs_loop cslot (rb_walk (mmi_obj cinfo)) compacted total.

(** [pmd_log_non_mdc0_cobjs] *)
Definition pmd_log_non_mdc0_cobjs (cslot : Z) : M merr_t :=
  cinfo <- get_cinfo cslot ;;
  pmd_mdc_append cslot (CDR_OIDCKPT (mmi_lckpt cinfo)) false.

(** [pmd_pre_compact_reset]; the assertion of the source is not part of
    the behaviour. *)
Definition pmd_pre_compact_reset (cslot : Z) (compacted : Z) : M unit :=
  mod_cinfo cslot
    (set_mmi_pco_cnt (fun p =>
       mk_pco (atomic_set compacted) (atomic_set 0) (atomic_set 0)
              (atomic_set 0) (atomic_set compacted) (pcc_cap p) (pcc_len p))).

Section Compact.

(** The synchronous append [pmd_mdc_addrec]: it is mutually recursive with
    the compaction, so the functions of the compaction take it as an
    argument and the knot is tied below. *)
Variable addrec : Z -> omf_mdcrec_data -> M merr_t.

(** [pmd_mdc_addrec_version] *)
Definition pmd_mdc_addrec_version_with (cslot : Z) : M merr_t :=
  addrec cslot (CDR_VERSION upg_mdccver_latest).

(** [pmd_prop_mcconfig] *)
Definition pmd_prop_mcconfig_with (pd : mpool_dev_info) (compacting : bool)
  : M merr_t :=
  if compacting then pmd_mdc_append 0 (CDR_MCCONFIG pd) false
  else addrec 0 (CDR_MCCONFIG pd).

(** [pmd_prop_mcspare] *)
Definition pmd_prop_mcspare_with (mclassp spzone : Z) (compacting : bool)
  : M merr_t :=
  if negb (mclassp_valid mclassp) || (100 <? spzone) then ret (merr EINVAL)
  else if compacting then pmd_mdc_append 0 (CDR_MCSPARE mclassp spzone) false
  else addrec 0 (CDR_MCSPARE mclassp spzone).

(** [pmd_prop_mpconfig] *)
Definition pmd_prop_mpconfig_with (cfg : mpool_config) (compacting : bool)
  : M merr_t :=
  if compacting then pmd_mdc_append 0 (CDR_MPCONFIG cfg) false
  else addrec 0 (CDR_MPCONFIG cfg).

(** [pmd_log_mdc0_cobjs]: the loop over the drives, *)
Fixpoint log_mdc0_pdv_loop (pdv : list mpool_dev_info) : M merr_t :=
  match pdv with
  | [] => ret 0
  | pd :: rest =>
      if negb (bool_decide (pdi_state pd = OMF_PD_DEFUNCT)) then
        err <- pmd_prop_mcconfig_with pd true ;;
        if negb (err =? 0) then ret err else log_mdc0_pdv_loop rest
      else log_mdc0_pdv_loop rest
  end.

(** the loop over the media classes, *)
Fixpoint log_mdc0_mc_loop (mcs : list media_class) : M merr_t :=
  match mcs with
  | [] => ret 0
  | mc :: rest =>
      if 0 <=? mc_pdmc mc then
        err <- pmd_prop_mcspare_with (mcp_classp mc) (mcsp_spzone mc) true ;;
        if negb (err =? 0) then ret err else log_mdc0_mc_loop rest
      else log_mdc0_mc_loop rest
  end.

(** and the function. *)
Definition pmd_log_mdc0_cobjs_with : M merr_t :=
  pdv <- gets (fun w => pds_pdv (w_mp w)) ;;
  err <- log_mdc0_pdv_loop pdv ;;
  if negb (err =? 0) then ret err else
  mcs <- gets (fun w => take (Z.to_nat MP_MED_NUMBER) (pds_mc (w_mp w))) ;;
  err <- log_mdc0_mc_loop mcs ;;
  if negb (err =? 0) then ret err else
  cfg <- gets (fun w => pds_cfg (w_mp w)) ;;
  err <- pmd_prop_mpconfig_with cfg true ;;
  if negb (err =? 0) then ret err else ret 0.

(** [pmd_mdc_compact]: one turn of the retry loop, entered with the error
    of the turn before. *)
Definition compact_attempt (cslot : Z) (err : merr_t) : M merr_t :=
  err <- (if negb (err =? 0) then mp_mdc_open cslot else ret err) ;;
  if negb (err =? 0) then ret err else
  err <- mp_mdc_cstart cslot ;;
  if negb (err =? 0) then ret err else
  err <- (if upg_latest_ge_1_0_0_1
          then pmd_mdc_addrec_version_with cslot else ret err) ;;
  if negb (err =? 0) then mp_mdc_close cslot ;; ret err else
  err <- (if negb (cslot =? 0) then pmd_log_non_mdc0_cobjs cslot
          else pmd_log_mdc0_cobjs_with) ;;
  if negb (err =? 0) then ret err else
  '(err, (compacted, total)) <- pmd_log_all_mdc_cobjs cslot 0 0 ;;
  err <- (if err =? 0 then mp_mdc_cend cslot else ret err) ;;
  if err =? 0 then
    (if negb (cslot =? 0) then pmd_pre_compact_reset cslot compacted
     else ret tt) ;;
    ret err
  else ret err.

Fixpoint compact_loop (retries : nat) (cslot : Z) (err : merr_t) : M merr_t :=
  match retries with
  | O => ret err
  | S retries' =>
      err <- compact_attempt cslot err ;;
      if err =? 0 then ret err else compact_loop retries' cslot err
  end.

Definition pmd_mdc_compact_with (cslot : Z) : M merr_t :=
  compact_loop MPOOL_MDC_COMPACT_RETRY_DEFAULT cslot 0.

End Compact.

(** [pmd_mdc_addrec], with a bound [n] on how deep compactions nest.  A
    nested compaction starts only after an append reported a full log, that
    is after an entry of the script was used, so the length of the script
    bounds the nesting: see [pmd_mdc_addrec] below. *)
Fixpoint pmd_mdc_addrec_n (n : nat) (cslot : Z) (cdr : omf_mdcrec_data)
  : M merr_t :=
  err <- pmd_mdc_append cslot cdr true ;;
  if merr_errno err =? EFBIG then
    match n with
    | O => ret err
    | S n' =>
        err <- pmd_mdc_compact_with (pmd_mdc_addrec_n n') cslot ;;
        if err =? 0 then pmd_mdc_append cslot cdr true else ret err
    end
  else ret err.

Definition pmd_mdc_addrec (cslot : Z) (cdr : omf_mdcrec_data) : M merr_t :=
  fun w => pmd_mdc_addrec_n (S (length (w_oracle w))) cslot cdr w.

Definition pmd_mdc_compact : Z -> M merr_t :=
  pmd_mdc_compact_with pmd_mdc_addrec.

Definition pmd_mdc_addrec_version : Z -> M merr_t :=
  pmd_mdc_addrec_version_with pmd_mdc_addrec.

Definition pmd_log_mdc0_cobjs : M merr_t :=
  pmd_log_mdc0_cobjs_with pmd_mdc_addrec.

(** *** Statistics *)

Inductive pmd_obj_op : Type :=
  | PMD_OBJ_LOAD
  | PMD_OBJ_ALLOC
  | PMD_OBJ_COMMIT
  | PMD_OBJ_ABORT
  | PMD_OBJ_DELETE.

Definition stats_add_wlen (mblen : Z) (s : pmd_mdc_stats) :=
  mk_stats (pms_mblock_alen s) (wrap_u64 (pms_mblock_wlen s + mblen))
           (pms_mlog_alen s) (pms_mblock_cnt s) (pms_mlog_cnt s).
Definition stats_sub_wlen (mblen : Z) (s : pmd_mdc_stats) :=
  mk_stats (pms_mblock_alen s) (wrap_u64 (pms_mblock_wlen s - mblen))
           (pms_mlog_alen s) (pms_mblock_cnt s) (pms_mlog_cnt s).
Definition stats_add_obj (otype : obj_type_omf) (cap : Z) (s : pmd_mdc_stats) :=
  match otype with
  | OMF_OBJ_MLOG =>
      mk_stats (pms_mblock_alen s) (pms_mblock_wlen s)
               (wrap_u64 (pms_mlog_alen s + cap)) (pms_mblock_cnt s)
               (wrap_u32 (pms_mlog_cnt s + 1))
  | OMF_OBJ_MBLOCK =>
      mk_stats (wrap_u64 (pms_mblock_alen s + cap)) (pms_mblock_wlen s)
               (pms_mlog_alen s) (wrap_u32 (pms_mblock_cnt s + 1))
               (pms_mlog_cnt s)
  | OMF_OBJ_UNDEF => s
  end.
Definition stats_sub_obj (otype : obj_type_omf) (cap : Z) (s : pmd_mdc_stats) :=
  match otype with
  | OMF_OBJ_MLOG =>
      mk_stats (pms_mblock_alen s) (pms_mblock_wlen s)
               (wrap_u64 (pms_mlog_alen s - cap)) (pms_mblock_cnt s)
               (wrap_u32 (pms_mlog_cnt s - 1))
  | OMF_OBJ_MBLOCK =>
      mk_stats (wrap_u64 (pms_mblock_alen s - cap)) (pms_mblock_wlen s)
               (pms_mlog_alen s) (wrap_u32 (pms_mblock_cnt s - 1))
               (pms_mlog_cnt s)
  | OMF_OBJ_UNDEF => s
  end.

(** The switch of [pmd_update_mdc_stats], with its two fall-throughs. *)
Definition update_mdc_stats_op (op : pmd_obj_op) (otype : obj_type_omf)
    (mblen cap : Z) (s : pmd_mdc_stats) : pmd_mdc_stats :=
  match op with
  | PMD_OBJ_LOAD =>
      stats_add_obj otype cap
        (if bool_decide (otype = OMF_OBJ_MBLOCK)
         then stats_add_wlen mblen s else s)
  | PMD_OBJ_ALLOC => stats_add_obj otype cap s
  | PMD_OBJ_COMMIT =>
      if bool_decide (otype = OMF_OBJ_MBLOCK) then stats_add_wlen mblen s else s
  | PMD_OBJ_DELETE =>
      stats_sub_obj otype cap
        (if bool_decide (otype = OMF_OBJ_MBLOCK)
         then stats_sub_wlen mblen s else s)
  | PMD_OBJ_ABORT => stats_sub_obj otype cap s
  end.

(** [pmd_update_mdc_stats] *)
Definition pmd_update_mdc_stats (lp : lptr) (cslot : Z) (op : pmd_obj_op)
  : M merr_t :=
  layout <- get_layout lp ;;
  let otype := pmd_objid_type (eld_objid layout) in
  lock (L_stats_lock cslot) ;;
  pdv <- gets (fun w => pds_pdv (w_mp w)) ;;
  let cap := ecio_obj_get_cap_from_layout pdv layout in
  mod_cinfo cslot
    (set_mmi_stats (update_mdc_stats_op op otype (eld_mblen layout) cap)) ;;
  unlock (L_stats_lock cslot) ;;
  ret 0.

(** *** Erasing and freeing a removed object *)

(** Modelled from the spec: the space map is not part of [src/]; its calls
    only report an error code here. *)
Definition smap_insert (pdh zaddr zcnt : Z) : M merr_t := pop_oracle.
Definition smap_free (pdh zaddr zcnt : Z) : M merr_t := pop_oracle.

(** [pmd_smap_insert] *)
Definition pmd_smap_insert (lp : lptr) : M merr_t :=
  layout <- get_layout lp ;;
  smap_insert (ol_pdh layout) (ol_zaddr layout) (ol_zcnt layout).

(** [pmd_layout_free] *)
Definition pmd_layout_free (lp : lptr) : M unit :=
  layout <- get_layout lp ;;
  smap_free (ol_pdh layout) (ol_zaddr layout) (ol_zcnt layout) ;;
  ecio_layout_free lp.

(** [pmd_obj_erase_cb]: the erase of the media is advisory and its result
    is dropped; the layout is freed. *)
Definition pmd_obj_erase_cb (lp : lptr) : M unit :=
  pmd_layout_free lp.

(** [pmd_obj_erase_start]: the work is queued, or done at once when the
    work item cannot be allocated. *)
Definition pmd_obj_erase_start (lp : lptr) : M unit :=
  e <- pop_oracle ;;
  if e =? 0 then modify (set_w_erase_wq (fun q => q ++ [lp]))
  else pmd_obj_erase_cb lp.

Fixpoint erase_wq_run (q : list lptr) : M unit :=
  match q with
  | [] => ret tt
  | lp :: q' => pmd_obj_erase_cb lp ;; erase_wq_run q'
  end.

(** [flush_workqueue(mp->pds_erase_wq)] *)
Definition flush_erase_wq : M unit :=
  q <- gets w_erase_wq ;;
  modify (set_w_erase_wq (fun _ => [])) ;;
  erase_wq_run q.

(** *** Logging one record *)

(** [pmd_log_create] *)
Definition pmd_log_create (lp : lptr) : M merr_t :=
  layout <- get_layout lp ;;
  pmd_mdc_addrec (objid_slot (eld_objid layout)) (CDR_OCREATE lp).

(** [pmd_log_delete] *)
Definition pmd_log_delete (objid : Z) : M merr_t :=
  pmd_mdc_addrec (objid_slot objid) (CDR_ODELETE objid).

(** [pmd_log_erase] *)
Definition pmd_log_erase (objid gen : Z) : M merr_t :=
  pmd_mdc_addrec (objid_slot objid) (CDR_OERASE objid gen).

(** [pmd_log_idckpt] *)
Definition pmd_log_idckpt (objid : Z) : M merr_t :=
  pmd_mdc_addrec (objid_slot objid) (CDR_OIDCKPT objid).

(** *** Object life cycle *)

(** [objid_to_layout_insert_mdc] on the committed tree of a slot, and on
    its uncommitted tree. *)
Definition tree_insert_obj (cslot objid : Z) (lp : lptr) : M (option lptr) :=
  cinfo <- get_cinfo cslot ;;
  match objid_to_layout_insert_mdc (mmi_obj cinfo) objid lp with
  | (Some found, _) => ret (Some found)
  | (None, root) => mod_cinfo cslot (set_mmi_obj (fun _ => root)) ;; ret None
  end.

Definition tree_insert_uncobj (cslot objid : Z) (lp : lptr)
  : M (option lptr) :=
  cinfo <- get_cinfo cslot ;;
  match objid_to_layout_insert_mdc (mmi_uncobj cinfo) objid lp with
  | (Some found, _) => ret (Some found)
  | (None, root) =>
      mod_cinfo cslot (set_mmi_uncobj (fun _ => root)) ;; ret None
  end.

Definition state_set (bit : Z) (l : ecio_layout_descriptor) :=
  set_eld_state (Z.lor (eld_state l) bit) l.
Definition state_clear (bit : Z) (l : ecio_layout_descriptor) :=
  set_eld_state (Z.land (eld_state l) (Z.lnot bit)) l.

(** [pmd_obj_commit] *)
Definition pmd_obj_commit (lp : lptr) : M merr_t :=
  lock (L_rwlock lp) ;;
  layout <- get_layout lp ;;
  let objid := eld_objid layout in
  if negb (objtype_user (objid_type objid)) then
    unlock (L_rwlock lp) ;;
    ret (merr EINVAL)
  else if lyt_committed layout then
    unlock (L_rwlock lp) ;;
    ret 0
  else
    let cslot := objid_slot objid in
    lock (L_compactlock cslot) ;;
    err <- pmd_log_create lp ;;
    err <- (if err =? 0 then
              mod_layout lp (state_set ECIO_LYT_COMMITTED) ;;
              lock (L_uncolock cslot) ;;
              cinfo <- get_cinfo cslot ;;
              (match objid_to_layout_search_mdc (mmi_uncobj cinfo) objid with
               | Some _ => mod_cinfo cslot (set_mmi_uncobj (rb_erase objid))
               | None => ret tt
               end) ;;
              unlock (L_uncolock cslot) ;;
              lock (L_colock cslot) ;;
              found <- tree_insert_obj cslot objid lp ;;
              unlock (L_colock cslot) ;;
              match found with
              | Some _ =>
                  lock (L_uncolock cslot) ;;
                  tree_insert_uncobj cslot objid lp ;;
                  unlock (L_uncolock cslot) ;;
                  ret (merr EEXIST)
              | None =>
                  mod_cinfo cslot (set_mmi_pco_cnt pco_inc_cr) ;;
                  mod_cinfo cslot (set_mmi_pco_cnt pco_inc_cobj) ;;
                  ret err
              end
            else ret err) ;;
    unlock (L_compactlock cslot) ;;
    unlock (L_rwlock lp) ;;
    (if err =? 0 then pmd_update_mdc_stats lp cslot PMD_OBJ_COMMIT
     else ret 0) ;;
    ret err.

(** [pmd_obj_abort] *)
Definition pmd_obj_abort (lp : lptr) : M merr_t :=
  lock (L_rwlock lp) ;;
  layout <- get_layout lp ;;
  let objid := eld_objid layout in
  if negb (objtype_user (objid_type objid)) || lyt_committed layout then
    unlock (L_rwlock lp) ;;
    ret (merr EINVAL)
  else
    let cslot := objid_slot objid in
    lock (L_reflock cslot) ;;
    if eld_isdel layout || (2 <? eld_refcnt layout) then
      let rc := if eld_isdel layout then EINVAL else EBUSY in
      unlock (L_reflock cslot) ;;
      unlock (L_rwlock lp) ;;
      ret (merr rc)
    else
      mod_layout lp (set_eld_refcnt 0) ;;
      mod_layout lp (set_eld_isdel true) ;;
      mod_layout lp (state_set ECIO_LYT_REMOVED) ;;
      unlock (L_reflock cslot) ;;
      lock (L_uncolock cslot) ;;
      cinfo <- get_cinfo cslot ;;
      (match objid_to_layout_search_mdc (mmi_uncobj cinfo) objid with
       | Some _ => mod_cinfo cslot (set_mmi_uncobj (rb_erase objid))
       | None => ret tt
       end) ;;
      unlock (L_uncolock cslot) ;;
      unlock (L_rwlock lp) ;;
      pmd_update_mdc_stats lp cslot PMD_OBJ_ABORT ;;
      pmd_obj_erase_start lp ;;
      ret 0.

(** [pmd_obj_delete_impl]; the [bgdel] argument is not used by the
    source. *)
Definition pmd_obj_delete_impl (lp : lptr) (bgdel : Z) : M merr_t :=
  lock (L_rwlock lp) ;;
  layout <- get_layout lp ;;
  let objid := eld_objid layout in
  if negb (objtype_user (objid_type objid))
     || negb (lyt_committed layout) || lyt_removed layout then
    unlock (L_rwlock lp) ;;
    ret (merr EINVAL)
  else
    let cslot := objid_slot objid in
    lock (L_compactlock cslot) ;;
    lock (L_reflock cslot) ;;
    if eld_isdel layout || (2 <? eld_refcnt layout) then
      let rc := if eld_isdel layout then EINVAL else EBUSY in
      unlock (L_reflock cslot) ;;
      unlock (L_compactlock cslot) ;;
      unlock (L_rwlock lp) ;;
      ret (merr rc)
    else
      mod_layout lp (set_eld_refcnt 0) ;;
      mod_layout lp (set_eld_isdel true) ;;
      mod_layout lp (state_set ECIO_LYT_REMOVED) ;;
      unlock (L_reflock cslot) ;;
      err <- pmd_log_delete objid ;;
      found <- (if err =? 0 then
                  lock (L_colock cslot) ;;
                  cinfo <- get_cinfo cslot ;;
                  let found :=
                    objid_to_layout_search_mdc (mmi_obj cinfo) objid in
                  (match found with
                   | Some _ => mod_cinfo cslot (set_mmi_obj (rb_erase objid))
                   | None => ret tt
                   end) ;;
                  unlock (L_colock cslot) ;;
                  ret found
                else
                  lock (L_reflock cslot) ;;
                  mod_layout lp (set_eld_refcnt 2) ;;
                  mod_layout lp (set_eld_isdel false) ;;
                  mod_layout lp (state_clear ECIO_LYT_REMOVED) ;;
                  unlock (L_reflock cslot) ;;
                  ret None) ;;
      unlock (L_compactlock cslot) ;;
      unlock (L_rwlock lp) ;;
      (match found with
       | Some _ =>
           mod_cinfo cslot (set_mmi_pco_cnt pco_dec_cobj) ;;
           pmd_update_mdc_stats lp cslot PMD_OBJ_DELETE ;;
           ret tt
       | None => ret tt
       end) ;;
      if negb (err =? 0) then ret err
      else
        mod_cinfo cslot (set_mmi_pco_cnt pco_inc_del) ;;
        pmd_obj_erase_start lp ;;
        ret 0.

(** [pmd_obj_delete] *)
Definition pmd_obj_delete (lp : lptr) : M merr_t :=
  pmd_obj_delete_impl lp 0.

Definition wrap_s64 (z : Z) : Z := (z + 2 ^ 63) mod 2 ^ 64 - 2 ^ 63.

(** [pmd_obj_get] *)
Definition pmd_obj_get (lp : lptr) : M merr_t :=
  layout <- get_layout lp ;;
  let cslot := objid_slot (eld_objid layout) in
  lock (L_reflock cslot) ;;
  let rc := if eld_isdel layout then ENOSPC else 0 in
  (if rc =? 0 then mod_layout lp (fun l => set_eld_refcnt (wrap_s64 (eld_refcnt l + 1)) l)
   else ret tt) ;;
  unlock (L_reflock cslot) ;;
  ret (if negb (rc =? 0) then merr rc else 0).

(** [pmd_obj_find_get] *)
Definition pmd_obj_find_get (objid : Z) : M (option lptr) :=
  if negb (objtype_user (objid_type objid)) then ret None
  else
    let cslot := objid_slot objid in
    lock (L_colock cslot) ;;
    cinfo <- get_cinfo cslot ;;
    let found := objid_to_layout_search_mdc (mmi_obj cinfo) objid in
    err <- (match found with
            | Some lp => pmd_obj_get lp
            | None => ret 0
            end) ;;
    unlock (L_colock cslot) ;;
    '(found, err) <-
      (match found with
       | Some _ => ret (found, err)
       | None =>
           lock (L_uncolock cslot) ;;
           cinfo <- get_cinfo cslot ;;
           let found := objid_to_layout_search_mdc (mmi_uncobj cinfo) objid in
           err <- (match found with
                   | Some lp => pmd_obj_get lp
                   | None => ret err
                   end) ;;
           unlock (L_uncolock cslot) ;;
           ret (found, err)
       end) ;;
    ret (if negb (err =? 0) then None else found).

(** *** Validation of MDC0 *)

Definition lcnt_get (lcnt : gmap Z Z) (i : Z) : Z := default 0 (lcnt !! i).

(** [pmd_mdc0_validate]: the walk over the committed tree of MDC0 that
    counts the mlogs of every MDC. *)
Fixpoint mdc0_validate_loop (nodes : list (Z * lptr)) (lcnt : gmap Z Z)
    (mdcmax : Z) : M (merr_t * (gmap Z Z * Z)) :=
  match nodes with
  | [] => ret (0, (lcnt, mdcmax))
  | (_, lp) :: rest =>
      layout <- get_layout lp ;;
      let objid := eld_objid layout in
      let mdcn := Z.shiftr (objid_uniq objid) 1 in
      let lcnt' := if mdcn <? MDC_SLOTS
                   then <[mdcn := wrap_u32 (lcnt_get lcnt mdcn + 1)]> lcnt
                   else lcnt in
      let mdcmax' := if mdcn <? MDC_SLOTS then Z.max mdcmax mdcn else mdcmax in
      if (MDC_SLOTS <=? mdcn)
         || (2 <? lcnt_get lcnt' mdcn)
         || negb (bool_decide (objid_type objid = OMF_OBJ_MLOG))
         || negb (objid_slot objid =? 0)
      then ret (merr EINVAL, (lcnt', mdcmax'))
      else mdc0_validate_loop rest lcnt' mdcmax'
  end.

(** [pmd_mdc0_validate] *)
Definition pmd_mdc0_validate (activation : bool) : M merr_t :=
  lock L_slotvlock ;;
  slotvcnt <- gets (fun w => mdi_slotvcnt (w_mp w)) ;;
  unlock L_slotvlock ;;
  if slotvcnt =? 0 then ret (merr EINVAL) else
  lock (L_colock 0) ;;
  cinfo <- get_cinfo 0 ;;
  '(err, (lcnt, mdcmax)) <-
    mdc0_validate_loop (rb_walk (mmi_obj cinfo)) ∅ 0 ;;
  unlock (L_colock 0) ;;
  if negb (err =? 0) then ret err else
  if mdcmax =? 0 then
    if negb (lcnt_get lcnt 0 =? 2) || negb (slotvcnt =? 1)
    then ret (merr EINVAL) else ret 0
  else
  if negb (mdcmax =? slotvcnt - 1) && negb (mdcmax =? slotvcnt)
  then ret (merr EINVAL) else
  if negb (forallb (fun i => lcnt_get lcnt i =? 2) (seqZ 0 mdcmax))
  then ret (merr ENOENT) else
  if negb (lcnt_get lcnt mdcmax =? 2) || (mdcmax =? slotvcnt) then
    let logid1 := logid_make (wrap_u64 (2 * mdcmax)) 0 in
    let logid2 := logid_make (wrap_u64 (2 * mdcmax + 1)) 0 in
    layout <- pmd_obj_find_get logid1 ;;
    err1 <- (match layout with
             | Some lp => pmd_obj_delete lp
             | None => ret 0
             end) ;;
    layout <- pmd_obj_find_get logid2 ;;
    err2 <- (match layout with
             | Some lp => pmd_obj_delete lp
             | None => ret 0
             end) ;;
    if activation then
      mod_cinfo 0 (set_mmi_luniq (wrap_u64 (mdcmax - 1))) ;;
      modify (set_w_mp (set_mdi_slotvcnt (wrap_u16 mdcmax))) ;;
      ret err
    else
      ret (if negb (err1 =? 0) then err1
           else if negb (err2 =? 0) then err2 else err)
  else ret err.

(** *** Replay of an MDC *)

(** Modelled from the spec: the record codec (OMF) is not part of [src/].
    Unpacking can fail; unpacking an [OCREATE] or an [OUPDATE] builds a
    layout from the record. *)
Definition layout_unpack (ol : omf_layout) : ecio_layout_descriptor :=
  mk_layout (ol_objid ol) (ol_gen ol) (ol_mblen ol) ECIO_LYT_NONE 1 false
            (ol_dev ol) (ol_zone ol) (ol_cnt ol).

Definition omf_mdcrec_unpack_letoh (r : mdcrec) : M (merr_t * option lptr) :=
  e <- pop_oracle ;;
  if negb (e =? 0) then ret (e, None) else
  match r with
  | MDR_OCREATE ol | MDR_OUPDATE ol =>
      p <- gets w_brk ;;
      modify (fun w =>
        set_w_brk (Pos.succ p) (set_w_heap (insert p (layout_unpack ol)) w)) ;;
      ret (0, Some p)
  | _ => ret (0, None)
  end.

(** [cdr.u.obj.omd_objid] after unpacking. *)
Definition mdcrec_objid (r : mdcrec) : Z :=
  match r with
  | MDR_OCREATE ol | MDR_OUPDATE ol => ol_objid ol
  | MDR_ODELETE objid | MDR_OIDCKPT objid | MDR_OERASE objid _ => objid
  | _ => omd_objid_overlay r
  end.

(** [pmd_objs_load]: what the loop does with one record that was read.
    The result is the error that leaves the loop, [0] to go on. *)
Definition objs_load_record (cslot : Z) (r : mdcrec) : M merr_t :=
  match r with
  | MDR_VERSION v =>
      mod_cinfo cslot (set_mmi_mdccver v) ;;
      if upg_ver_gt v upg_mdccver_latest then ret (merr EOPNOTSUPP)
      else ret 0
  | _ =>
    if (cslot =? 0) && negb (omf_mdcrec_isobj r) then ret 0 else
    '(err, ulayout) <- omf_mdcrec_unpack_letoh r ;;
    if negb (err =? 0) then ret err else
    let objid := mdcrec_objid r in
    if negb (objid_slot objid =? cslot) then ret (merr EBADSLT) else
    cinfo <- get_cinfo cslot ;;
    match r, ulayout with
    | MDR_OCREATE _, Some lp =>
        mod_layout lp (set_eld_state ECIO_LYT_COMMITTED) ;;
        found <- tree_insert_obj cslot objid lp ;;
        match found with
        | Some _ => ecio_layout_free lp ;; ret (merr EEXIST)
        | None =>
            mod_cinfo cslot (set_mmi_pco_cnt pco_inc_cr) ;;
            mod_cinfo cslot (set_mmi_pco_cnt pco_inc_cobj) ;;
            ret 0
        end
    | MDR_ODELETE _, _ =>
        match objid_to_layout_search_mdc (mmi_obj cinfo) objid with
        | None => ret (merr ENOENT)
        | Some found =>
            mod_cinfo cslot (set_mmi_obj (rb_erase objid)) ;;
            ecio_layout_free found ;;
            mod_cinfo cslot (set_mmi_pco_cnt pco_inc_del) ;;
            mod_cinfo cslot (set_mmi_pco_cnt pco_dec_cobj) ;;
            ret 0
        end
    | MDR_OIDCKPT _, _ =>
        if (negb (objid_uniq objid =? 0)
            || negb (objid_uniq (mmi_lckpt cinfo) =? 0))
           && (objid_uniq objid <=? objid_uniq (mmi_lckpt cinfo))
        then ret (merr EINVAL)
        else mod_cinfo cslot (set_mmi_lckpt objid) ;; ret 0
    | MDR_OERASE _ gen, _ =>
        match objid_to_layout_search_mdc (mmi_obj cinfo) objid with
        | None => ret (merr ENOENT)
        | Some lp =>
            layout <- get_layout lp ;;
            if gen <? eld_gen layout then ret (merr EINVAL)
            else
              mod_layout lp (set_eld_gen gen) ;;
              mod_cinfo cslot (set_mmi_pco_cnt pco_inc_er) ;;
              ret 0
        end
    | MDR_OUPDATE _, Some lp =>
        match objid_to_layout_search_mdc (mmi_obj cinfo) objid with
        | None => ecio_layout_free lp ;; ret (merr ENOENT)
        | Some found =>
            mod_cinfo cslot (set_mmi_obj (rb_erase objid)) ;;
            ecio_layout_free found ;;
            mod_layout lp (set_eld_state ECIO_LYT_COMMITTED) ;;
            tree_insert_obj cslot objid lp ;;
            mod_cinfo cslot (set_mmi_pco_cnt pco_inc_up) ;;
            ret 0
        end
    | _, _ => ret 0
    end
  end.

(** The [while (true)] loop of [pmd_objs_load]: [mp_mdc_read] hands out
    the records of the log one after the other; no record is appended
    while the loop runs, so the loop is a recursion over the records that
    are left to read. *)
Fixpoint objs_load_loop (cslot : Z) (recs : list mdcrec) : M merr_t :=
  err <- pop_oracle ;;
  if negb (err =? 0) then ret err else
  match recs with
  | [] => ret 0
  | r :: rest =>
      err <- objs_load_record cslot r ;;
      if negb (err =? 0) then ret err else objs_load_loop cslot rest
  end.

(** The loop of [pmd_objs_load] that enters the loaded objects in the
    space map and in the statistics. *)
Fixpoint objs_load_smap_loop (cslot : Z) (nodes : list (Z * lptr))
    (mdcmax : Z) : M (merr_t * Z) :=
  match nodes with
  | [] => ret (0, mdcmax)
  | (_, lp) :: rest =>
      layout <- get_layout lp ;;
      if negb (objid_slot (eld_objid layout) =? cslot)
      then ret (merr EBADSLT, mdcmax) else
      err <- pmd_smap_insert lp ;;
      if negb (err =? 0) then ret (err, mdcmax) else
      err <- pmd_update_mdc_stats lp cslot PMD_OBJ_LOAD ;;
      if negb (err =? 0) then ret (merr ENOMEM, mdcmax) else
      objs_load_smap_loop cslot rest
        (if cslot =? 0
         then Z.max mdcmax (Z.shiftr (objid_uniq (eld_objid layout)) 1)
         else mdcmax)
  end.

(** [__builtin_ctz(roundup_pow_of_two(n))] *)
Definition ctz_roundup_pow_of_two (n : Z) : Z := Z.log2_up n.

(** [pmd_objs_load] *)
Definition pmd_objs_load (cslot : Z) : M merr_t :=
  err <- (if negb (cslot =? 0) then
            e <- pop_oracle ;;
            if negb (e =? 0) then ret (merr ENOMEM)
            else
              mod_cinfo cslot (set_mmi_recbuf true) ;;
              mp_mdc_open cslot
          else ret 0) ;;
  if negb (err =? 0) then ret err else
  err <- mp_mdc_rewind cslot ;;
  if negb (err =? 0) then ret err else
  recs <- gets (fun w => mdc_alog (mdc_of w cslot)) ;;
  err <- objs_load_loop cslot recs ;;
  if negb (err =? 0) then ret err else
  cinfo <- get_cinfo cslot ;;
  '(err, mdcmax) <- objs_load_smap_loop cslot (rb_walk (mmi_obj cinfo)) 0 ;;
  if negb (err =? 0) then ret err else
  if cslot =? 0 then
    mod_cinfo cslot (set_mmi_luniq mdcmax) ;;
    modify (set_w_mp (set_mdi_slotvcnt (wrap_u16 (mdcmax + 1)))) ;;
    modify (set_w_mp (set_mdi_slotvcnt_shift
                        (if 1 <? mdcmax then ctz_roundup_pow_of_two mdcmax
                         else 0))) ;;
    pmd_mdc0_validate true
  else
    cinfo <- get_cinfo cslot ;;
    mod_cinfo cslot
      (set_mmi_luniq
         (wrap_u64 (objid_uniq (mmi_lckpt cinfo) + OBJID_UNIQ_DELTA - 1))) ;;
    ret err.

(** *** Allocation of an object *)

Record pmd_obj_capacity : Type := mk_ocap {
  moc_captgt : Z;
  moc_spare : bool
}.

(** [pmd_alloc_idgen]; the result is the error and [*objid]. *)
Definition pmd_alloc_idgen (otype : obj_type_omf) : M (merr_t * Z) :=
  slotvcnt <- gets (fun w => mdi_slotvcnt (w_mp w)) ;;
  if slotvcnt <? 2 then ret (merr ENOSPC, 0) else
  idx <- gets (fun w => mds_tbl_idx (w_mp w)) ;;
  let idx' := atomic_inc idx in
  modify (set_w_mp (set_mds_tbl_idx idx')) ;;
  let tidx := wrap_u32 (Z.rem idx' MDC_TBL_SZ) in
  cslot <- gets (fun w => mds_tbl (w_mp w) !!! Z.to_nat tidx) ;;
  lock (L_uqlock cslot) ;;
  cinfo <- get_cinfo cslot ;;
  let objid := objid_make (wrap_u64 (mmi_luniq cinfo + 1)) otype cslot in
  err <- (if objid_ckpt objid then
            lock (L_compactlock cslot) ;;
            err <- pmd_log_idckpt objid ;;
            (if err =? 0 then mod_cinfo cslot (set_mmi_lckpt objid)
             else ret tt) ;;
            unlock (L_compactlock cslot) ;;
            ret err
          else ret 0) ;;
  (if err =? 0 then
     mod_cinfo cslot (fun c => set_mmi_luniq (wrap_u64 (mmi_luniq c + 1)) c)
   else ret tt) ;;
  unlock (L_uqlock cslot) ;;
  if negb (err =? 0) then ret (err, 0) else ret (0, objid).

(** [pmd_realloc_idvalidate] *)
Definition pmd_realloc_idvalidate (objid : Z) : M merr_t :=
  let cslot := objid_slot objid in
  let uniq := objid_uniq objid in
  if cslot =? 0 then ret (merr EINVAL) else
  lock L_slotvlock ;;
  slotvcnt <- gets (fun w => mdi_slotvcnt (w_mp w)) ;;
  unlock L_slotvlock ;;
  if slotvcnt <=? cslot then ret (merr EINVAL) else
  lock (L_uqlock cslot) ;;
  cinfo <- get_cinfo cslot ;;
  unlock (L_uqlock cslot) ;;
  if mmi_luniq cinfo <? uniq then ret (merr EINVAL) else ret 0.

(** [pmd_alloc_argcheck] *)
Definition pmd_alloc_argcheck (objid : Z) (otype : obj_type_omf) (mclassp : Z)
  : merr_t :=
  if negb (objtype_user otype) || negb (mpool_mc_isvalid mclassp)
  then merr EINVAL
  else if negb (objid =? 0) && negb (bool_decide (objid_type objid = otype))
  then merr EINVAL
  else 0.

Definition mc_of (w : world) (mclassp : Z) : media_class :=
  if 0 <=? mclassp then pds_mc (w_mp w) !!! Z.to_nat mclassp
  else inhabitant.

Definition pd_of (w : world) (pdh : Z) : mpool_dev_info :=
  if 0 <=? pdh then pds_pdv (w_mp w) !!! Z.to_nat pdh
  else inhabitant.

(** [pmd_layout_calculate] *)
Definition pmd_layout_calculate (ocap : pmd_obj_capacity) (mc : media_class)
  : M Z :=
  pd <- gets (fun w => pd_of w (mc_pdmc mc)) ;;
  let zonepg := dpr_zonepg pd in
  if moc_captgt ocap =? 0 then ret 1
  else ret (wrap_u64 (1 + (moc_captgt ocap - 1)
                          / wrap_u32 (Z.shiftl zonepg PAGE_SHIFT))).

(** [roundup_pow_of_two] *)
Definition roundup_pow_of_two (n : Z) : Z := 2 ^ Z.log2_up n.

(** Modelled from the spec: [smap_alloc] of the space map hands out the
    zones one range after the other. *)
Definition smap_alloc (pdh zcnt align : Z) : M (merr_t * Z) :=
  e <- pop_oracle ;;
  if negb (e =? 0) then ret (e, 0) else
  z <- gets w_zone ;;
  modify (set_w_zone (z + zcnt)) ;;
  ret (0, z).

(** [pmd_layout_alloc]; [mc_smap_parms_get] reads the alignment of the
    class and can fail. *)
Definition pmd_layout_alloc (ocap : pmd_obj_capacity) (lp : lptr)
    (mc : media_class) (zcnt : Z) : M merr_t :=
  err <- pop_oracle ;;
  if negb (err =? 0) then ret err else
  let align := roundup_pow_of_two (Z.min zcnt (mcsp_align mc)) in
  let pdh := wrap_u8 (mc_pdmc mc) in
  '(err, zoneaddr) <- smap_alloc pdh zcnt align ;;
  if negb (err =? 0) then ret err else
  mod_layout lp (set_ol_ld pdh zoneaddr) ;;
  ret 0.

(** [pmd_obj_alloc_cmn]: the [do ... while (beffort)] loop that looks for
    a media class with a device, starting at [mclassp]. *)
Fixpoint alloc_class_pick (fuel : nat) (beffort : bool) (mclassp : Z)
  : M (option (Z * media_class)) :=
  mc <- gets (fun w => mc_of w mclassp) ;;
  if 0 <=? mc_pdmc mc then ret (Some (mclassp, mc))
  else if negb beffort || (MP_MED_NUMBER <=? mclassp + 1) then ret None
  else match fuel with
       | O => ret None
       | S fuel' => alloc_class_pick fuel' beffort (mclassp + 1)
       end.

Definition class_fuel (mclassp : Z) : nat :=
  Z.to_nat (MP_MED_NUMBER - mclassp).

(** [pmd_obj_alloc_cmn]: from the label [retry] to the end of the
    [while (true)] block, with [goto retry] left open: [again err mclassp
    retries flush] stands for the jump.  The result is the error and
    [*layout]. *)
Definition alloc_retry_with
    (again : merr_t -> Z -> Z -> Z -> M (merr_t * option lptr))
    (objid : Z) (ocap : pmd_obj_capacity)
    (beffort : bool) (mclassp retries flush : Z) : M (merr_t * option lptr) :=
  lock L_pdvlock ;;
  pick <- alloc_class_pick (class_fuel mclassp) beffort mclassp ;;
  match pick with
  | None => unlock L_pdvlock ;; ret (merr ENOENT, None)
  | Some (mclassp, mc) =>
      zcnt <- pmd_layout_calculate ocap mc ;;
      layout <- ecio_layout_alloc objid 0 0 zcnt ;;
      match layout with
      | None => unlock L_pdvlock ;; ret (merr ENOMEM, None)
      | Some lp =>
          err <- pmd_layout_alloc ocap lp mc zcnt ;;
          if err =? 0 then unlock L_pdvlock ;; ret (0, Some lp)
          else
            unlock L_pdvlock ;;
            ecio_layout_free lp ;;
            if 0 <? retries then
              (if negb (flush =? 0) && (Z.rem (retries - 1) flush =? 0)
               then flush_erase_wq else ret tt) ;;
              again err mclassp (retries - 1) flush
            else if beffort && (mclassp + 1 <? MP_MED_NUMBER) then
              if mclassp + 1 =? MP_MED_NUMBER - 1
              then again err (mclassp + 1) 1024 (Z.shiftr 1024 3)
              else again err (mclassp + 1) (retries - 1) flush
            else ret (err, None)
      end
  end.

(** The jumps to [retry], counted: a run that would jump once more than
    [fuel] allows gives up with the error at hand (it never comes to
    that with [alloc_fuel], see [alloc_retry_fuel]). *)
Fixpoint alloc_retry (fuel : nat) (objid : Z) (ocap : pmd_obj_capacity)
    (beffort : bool) (mclassp retries flush : Z) : M (merr_t * option lptr) :=
  alloc_retry_with
    (match fuel with
     | O => fun err _ _ _ => ret (err, None)
     | S fuel' => fun _ => alloc_retry fuel' objid ocap beffort
     end)
    objid ocap beffort mclassp retries flush.

(** A bound on the number of times the code goes back to [retry]. *)
Definition alloc_fuel (mclassp retries : Z) : nat :=
  Z.to_nat (Z.max 0 retries + Z.max 0 (MP_MED_NUMBER - mclassp)
            + (if mclassp <? MP_MED_NUMBER - 1 then 1024 else 0)).

(** [pmd_obj_alloc_cmn] *)
Definition pmd_obj_alloc_cmn (objid : Z) (otype : obj_type_omf)
    (ocap : pmd_obj_capacity) (mclassp : Z) (realloc : bool)
  : M (merr_t * option lptr) :=
  let err := pmd_alloc_argcheck objid otype mclassp in
  if negb (err =? 0) then ret (err, None) else
  '(err, objid) <-
     (if objid =? 0 then pmd_alloc_idgen otype
      else if realloc then
        err <- pmd_realloc_idvalidate objid ;; ret (err, objid)
      else ret (0, objid)) ;;
  if negb (err =? 0) then ret (err, None) else
  let beffort := mpool_mc_isbe mclassp in
  let mclassp := mpool_mc_first_get mclassp in
  let fallback := beffort && (mclassp <? MP_MED_NUMBER - 1) in
  let retries := if fallback then 8 else 1024 in
  let flush := if fallback then 0 else Z.shiftr retries 3 in
  '(err, layout) <-
     alloc_retry (alloc_fuel mclassp retries) objid ocap beffort mclassp
                 retries flush ;;
  match layout with
  | None => ret (err, None)
  | Some lp =>
      let cslot := objid_slot objid in
      err <- pmd_update_mdc_stats lp cslot PMD_OBJ_ALLOC ;;
      if negb (err =? 0) then pmd_layout_free lp ;; ret (err, None) else
      lock (L_uncolock cslot) ;;
      err <- (if realloc then
                lock (L_colock cslot) ;;
                cinfo <- get_cinfo cslot ;;
                unlock (L_colock cslot) ;;
                match objid_to_layout_search_mdc (mmi_obj cinfo) objid with
                | Some _ => ret (merr EEXIST)
                | None => ret err
                end
              else ret err) ;;
      err <- (if err =? 0 then
                dup <- tree_insert_uncobj cslot objid lp ;;
                match dup with
                | Some _ => ret (merr EEXIST)
                | None => ret err
                end
              else ret err) ;;
      unlock (L_uncolock cslot) ;;
      if negb (err =? 0) then
        pmd_update_mdc_stats lp cslot PMD_OBJ_ABORT ;;
        pmd_layout_free lp ;;
        ret (err, None)
      else ret (err, Some lp)
  end.

(** [pmd_obj_alloc] *)
Definition pmd_obj_alloc (otype : obj_type_omf) (ocap : pmd_obj_capacity)
    (mclassp : Z) : M (merr_t * option lptr) :=
  pmd_obj_alloc_cmn 0 otype ocap mclassp false.

(** [pmd_obj_realloc] *)
Definition pmd_obj_realloc (objid : Z) (ocap : pmd_obj_capacity)
    (mclassp : Z) : M (merr_t * option lptr) :=
  if negb (pmd_objid_isuser objid) then ret (merr EINVAL, None)
  else pmd_obj_alloc_cmn objid (objid_type objid) ocap mclassp true.

(** *** Allocation of an MDC *)

(** Modelled from the spec: [ecio_mlog_erase] of the ECIO component only
    reports an error code here. *)
Definition ecio_mlog_erase (lp : lptr) : M merr_t := pop_oracle.

(** [pmd_mdc_alloc]: from the allocation of the two mlogs to the
    publication of the new slot; the result is the error that is passed to
    the label [exit].  An allocation that reports no error has set its
    layout, so the two [None]
    branches after a successful allocation are never taken. *)
Definition mdc_alloc_body (mdcslot mincap : Z) (iter : Z) : M merr_t :=
  let mclassp := MP_MED_CAPACITY in
  let pdcnt := 1 in
  let ocap := mk_ocap mincap false in
  let logid1 := logid_make (wrap_u64 (2 * mdcslot)) 0 in
  let logid2 := logid_make (wrap_u64 (2 * mdcslot + 1)) 0 in
  let reverse :=
    (Z.land pdcnt 1 =? 0)
    && negb (Z.land (wrap_u32 (iter * 2) / pdcnt) 1 =? 0) in
  '(err, layout1) <-
     pmd_obj_alloc_cmn (if reverse then logid2 else logid1) OMF_OBJ_MLOG
                       ocap mclassp false ;;
  if negb (err =? 0) then ret err else
  match layout1 with
  | None => ret err
  | Some layout1 =>
  '(err, layout2) <-
     pmd_obj_alloc_cmn (if reverse then logid1 else logid2) OMF_OBJ_MLOG
                       ocap mclassp false ;;
  if negb (err =? 0) then pmd_obj_abort layout1 ;; ret err else
  match layout2 with
  | None => ret err
  | Some layout2 =>
  lock (L_rwlock layout1) ;;
  lock (L_rwlock layout2) ;;
  err <- ecio_mlog_erase layout1 ;;
  err <- (if negb (err =? 0) then ret err else ecio_mlog_erase layout2) ;;
  unlock (L_rwlock layout2) ;;
  unlock (L_rwlock layout1) ;;
  if negb (err =? 0) then
    pmd_obj_abort layout1 ;;
    pmd_obj_abort layout2 ;;
    ret err
  else
  err <- pmd_obj_commit layout1 ;;
  if negb (err =? 0) then
    pmd_obj_abort layout1 ;;
    pmd_obj_abort layout2 ;;
    ret err
  else
  err <- pmd_obj_commit layout2 ;;
  if negb (err =? 0) then
    pmd_obj_delete layout1 ;;
    pmd_obj_abort layout2 ;;
    ret err
  else
  err <- mp_mdc_open mdcslot ;;
  if negb (err =? 0) then
    pmd_obj_delete layout1 ;;
    pmd_obj_delete layout2 ;;
    ret err
  else
  err <- (if upg_latest_ge_1_0_0_1
          then pmd_mdc_addrec_version (wrap_u8 mdcslot) else ret err) ;;
  if negb (err =? 0) then
    pmd_obj_delete layout1 ;;
    pmd_obj_delete layout2 ;;
    ret err
  else
  lock (L_uqlock 0) ;;
  lock L_slotvlock ;;
  mod_cinfo 0 (set_mmi_luniq mdcslot) ;;
  modify (set_w_mp (set_mdi_slotvcnt (wrap_u16 (mdcslot + 1)))) ;;
  modify (set_w_mp (set_mdi_slotvcnt_shift
                      (if 1 <? mdcslot then ctz_roundup_pow_of_two mdcslot
                       else 0))) ;;
  unlock L_slotvlock ;;
  unlock (L_uqlock 0) ;;
  ret err
  end
  end.

(** [pmd_mdc_alloc] *)
Definition pmd_mdc_alloc (mincap : Z) (iter : Z) : M merr_t :=
  lock L_pmd_s_lock ;;
  err <- pmd_mdc0_validate false ;;
  if negb (err =? 0) then unlock L_pmd_s_lock ;; ret err else
  lock (L_uqlock 0) ;;
  cinfo <- get_cinfo 0 ;;
  let mdcslot := mmi_luniq cinfo in
  unlock (L_uqlock 0) ;;
  if MDC_SLOTS - 1 <=? mdcslot then
    unlock L_pmd_s_lock ;;
    ret (merr ENOSPC)
  else
  let mdcslot := wrap_u64 (mdcslot + 1) in
  e <- pop_oracle ;;
  if negb (e =? 0) then unlock L_pmd_s_lock ;; ret (merr ENOMEM) else
  mod_cinfo mdcslot (set_mmi_recbuf true) ;;
  mod_cinfo mdcslot (set_ci_slot mdcslot) ;;
  err <- mdc_alloc_body mdcslot mincap iter ;;
  (if negb (err =? 0) then mod_cinfo mdcslot (set_mmi_recbuf false)
   else ret tt) ;;
  unlock L_pmd_s_lock ;;
  ret err.

End PMD.

(** * Notions used to state the properties *)

(** Two states of a slot that differ at most in the pre-compaction record
    counters. *)
Record same_but_pco (c c' : pmd_mdc_info) : Prop := mk_same_but_pco {
  sb_obj : mmi_obj c' = mmi_obj c;
  sb_uncobj : mmi_uncobj c' = mmi_uncobj c;
  sb_luniq : mmi_luniq c' = mmi_luniq c;
  sb_lckpt : mmi_lckpt c' = mmi_lckpt c;
  sb_mdccver : mmi_mdccver c' = mmi_mdccver c;
  sb_recbuf : mmi_recbuf c' = mmi_recbuf c;
  sb_stats : mmi_stats c' = mmi_stats c;
  sb_ci_slot : ci_slot c' = ci_slot c;
  sb_cap : pcc_cap (mmi_pco_cnt c') = pcc_cap (mmi_pco_cnt c);
  sb_len : pcc_len (mmi_pco_cnt c') = pcc_len (mmi_pco_cnt c)
}.

(** What an append to an MDC, with the compaction it may trigger, leaves
    alone: the layouts, the trees, the identifiers and the statistics of
    every slot, the pool properties and the locks.  Only the logs, the
    record counters, the script and the trace move; the script gets
    shorter and the trace longer. *)
Record compact_rel (w w' : world) : Prop := mk_compact_rel {
  cr_oracle : (length (w_oracle w') <= length (w_oracle w))%nat;
  cr_trace : exists t, w_trace w' = t ++ w_trace w;
  cr_heap : w_heap w' = w_heap w;
  cr_brk : w_brk w' = w_brk w;
  cr_zone : w_zone w' = w_zone w;
  cr_erase_wq : w_erase_wq w' = w_erase_wq w;
  cr_held : w_held w' = w_held w;
  cr_slotvcnt : mdi_slotvcnt (w_mp w') = mdi_slotvcnt (w_mp w);
  cr_slotvcnt_shift :
    mdi_slotvcnt_shift (w_mp w') = mdi_slotvcnt_shift (w_mp w);
  cr_tbl : mds_tbl (w_mp w') = mds_tbl (w_mp w);
  cr_tbl_idx : mds_tbl_idx (w_mp w') = mds_tbl_idx (w_mp w);
  cr_pdv : pds_pdv (w_mp w') = pds_pdv (w_mp w);
  cr_mc : pds_mc (w_mp w') = pds_mc (w_mp w);
  cr_cfg : pds_cfg (w_mp w') = pds_cfg (w_mp w);
  cr_slot : forall s, same_but_pco (cinfo_of w s) (cinfo_of w' s)
}.

(** Two computations that do the same from every state whose script has
    at most [k] entries left. *)
Definition agree_upto {A} (k : nat) (f g : M A) : Prop :=
  forall w, (length (w_oracle w) <= k)%nat -> f w = g w.

(** ** What a compaction writes *)

Definition pushes (rs : list mdcrec) (m : mp_mdc) : mp_mdc :=
  fold_left (fun m r => mdc_push r m) rs m.

Section CompactImage.

Context `{Ext : Externals}.

(** The records that are particular to the slot: the object-id checkpoint
    of a user MDC, the properties of the pool for MDC0. *)
Definition compact_header (w : world) (cslot : Z) : list mdcrec :=
  if cslot =? 0 then
    map MDR_MCCONFIG
      (List.filter (fun pd => negb (bool_decide (pdi_state pd = OMF_PD_DEFUNCT)))
         (pds_pdv (w_mp w)))
    ++ map (fun mc => MDR_MCSPARE (mcp_classp mc) (mcsp_spzone mc))
         (List.filter (fun mc => 0 <=? mc_pdmc mc)
            (take (Z.to_nat MP_MED_NUMBER) (pds_mc (w_mp w))))
    ++ [MDR_MPCONFIG (pds_cfg (w_mp w))]
  else [MDR_OIDCKPT (mmi_lckpt (cinfo_of w cslot))].

(** The nodes of a walk whose layout is not an mlog of MDC0. *)
Definition not_mdc0log_nodes (w : world) (nodes : list (Z * lptr))
  : list (Z * lptr) :=
  List.filter (fun n => negb (objid_mdc0log (eld_objid (layout_of w n.2))))
    nodes.

(** One [OCREATE] for each of them. *)
Definition ocreate_records (w : world) (nodes : list (Z * lptr))
  : list mdcrec :=
  map (fun n => MDR_OCREATE (layout_pack (layout_of w n.2)))
    (not_mdc0log_nodes w nodes).

Definition compact_creates (w : world) (cslot : Z) : list mdcrec :=
  ocreate_records w (rb_walk (mmi_obj (cinfo_of w cslot))).

Definition compact_version : list mdcrec :=
  if upg_latest_ge_1_0_0_1 then [MDR_VERSION upg_mdccver_latest] else [].

End CompactImage.

(** The synchronous appends among the calls made to the MDC logs. *)
Definition sync_appends (t : list event) : list mdcrec :=
  omap (fun e => match e with
                 | EvAppend _ r true _ _ => Some r
                 | _ => None
                 end) t.

(** The [OCREATE] records of a log. *)
Definition ocreates_of (l : list mdcrec) : list mdcrec :=
  List.filter (fun r => match r with MDR_OCREATE _ => true | _ => false end) l.

(** ** Delete *)

(** What the marking and the roll-back of [pmd_obj_delete_impl] do to a
    layout, one after the other. *)
Definition delete_mark (l : ecio_layout_descriptor) : ecio_layout_descriptor :=
  state_set ECIO_LYT_REMOVED (set_eld_isdel true (set_eld_refcnt 0 l)).
Definition delete_unmark (l : ecio_layout_descriptor)
  : ecio_layout_descriptor :=
  state_clear ECIO_LYT_REMOVED (set_eld_isdel false (set_eld_refcnt 2 l)).


(** ** Id generation *)

(** The slot the selector table hands to the next allocation. *)
Definition idgen_slot (w : world) : Z :=
  mds_tbl (w_mp w)
  !!! Z.to_nat (wrap_u32 (Z.rem (atomic_inc (mds_tbl_idx (w_mp w)))
                                MDC_TBL_SZ)).

(** The object id the next allocation of type [otype] gets: [luniq + 1]
    in that slot. *)
Definition idgen_objid (w : world) (otype : obj_type_omf) : Z :=
  objid_make (wrap_u64 (mmi_luniq (cinfo_of w (idgen_slot w)) + 1)) otype
             (idgen_slot w).

(** The state in which the checkpoint of an id is logged: the selector
    has moved on, and the [uq] and the [compact] lock of the slot are
    held. *)
Definition idgen_ckpt_state (w : world) : world :=
  set_w_held (cons (L_compactlock (idgen_slot w)))
    (set_w_held (cons (L_uqlock (idgen_slot w)))
       (set_w_mp (set_mds_tbl_idx (atomic_inc (mds_tbl_idx (w_mp w)))) w)).

(** ** Frames

    A relation between the state before and the state after that every
    step of a computation keeps. *)
Definition preserves {A} (R : world -> world -> Prop) (m : M A) : Prop :=
  forall w, R w (m w).2.

(** ** Replay

    The committed map of a slot as the replay builds it: object id to the
    layout it stands for. *)
Definition tree_view (h : gmap lptr ecio_layout_descriptor)
    (t : gmap Z lptr) : gmap Z ecio_layout_descriptor :=
  (fun lp => h !!! lp) <$> t.

Definition cobj_view (w : world) (cslot : Z)
  : gmap Z ecio_layout_descriptor :=
  tree_view (w_heap w) (mmi_obj (cinfo_of w cslot)).

(** The layout an [OCREATE] or an [OUPDATE] record enters in the map. *)
Definition loaded_layout (ol : omf_layout) : ecio_layout_descriptor :=
  set_eld_state ECIO_LYT_COMMITTED (layout_unpack ol).

(** The net effect of one record on a committed map, in the words of the
    format: an [OCREATE] inserts its layout and a second one for the same
    object id is fatal, an [ODELETE] removes the layout and is fatal when
    there is none, an [OUPDATE] replaces the layout of its object id, an
    [OERASE] sets the generation of the layout; the other records leave
    the map alone. *)
Definition replay_record (r : mdcrec) (m : gmap Z ecio_layout_descriptor)
  : option (gmap Z ecio_layout_descriptor) :=
  match r with
  | MDR_OCREATE ol =>
      match m !! ol_objid ol with
      | Some _ => None
      | None => Some (<[ol_objid ol := loaded_layout ol]> m)
      end
  | MDR_ODELETE objid =>
      match m !! objid with
      | Some _ => Some (delete objid m)
      | None => None
      end
  | MDR_OUPDATE ol => Some (<[ol_objid ol := loaded_layout ol]> m)
  | MDR_OERASE objid gen => Some (alter (set_eld_gen gen) objid m)
  | _ => Some m
  end.

(** The records of a log applied in log order. *)
Fixpoint replay_net (recs : list mdcrec) (m : gmap Z ecio_layout_descriptor)
  : option (gmap Z ecio_layout_descriptor) :=
  match recs with
  | [] => Some m
  | r :: rest =>
      match replay_record r m with
      | Some m' => replay_net rest m'
      | None => None
      end
  end.

(** Every layout of the heap was handed out by the allocator. *)
Definition heap_wf (w : world) : Prop :=
  map_Forall (fun lp _ => (lp < w_brk w)%positive) (w_heap w).

(** The committed map of a slot refers to live layouts, no two object ids
    to the same one. *)
Definition cobj_wf (w : world) (cslot : Z) : Prop :=
  map_Forall (fun _ lp => is_Some (w_heap w !! lp))
             (mmi_obj (cinfo_of w cslot))
  /\ NoDup (map_to_list (mmi_obj (cinfo_of w cslot))).*2.

(** The same, pointer by pointer. *)
Definition tree_ok (h : gmap lptr ecio_layout_descriptor) (t : gmap Z lptr)
  : Prop :=
  (forall k p, t !! k = Some p -> is_Some (h !! p))
  /\ (forall k1 k2 p, t !! k1 = Some p -> t !! k2 = Some p -> k1 = k2).

(** What the calls around the replay loop leave alone: the layouts, the
    committed maps and the active logs. *)
Record load_rel (w w' : world) : Prop := {
  lr_heap : w_heap w' = w_heap w;
  lr_brk : w_brk w' = w_brk w;
  lr_obj : forall s, mmi_obj (cinfo_of w' s) = mmi_obj (cinfo_of w s);
  lr_alog : forall s, mdc_alog (mdc_of w' s) = mdc_alog (mdc_of w s)
}.

(** Layouts keep their place, and the generation of a layout that stays
    does not go down. *)
Definition gen_rel (w w' : world) : Prop :=
  heap_wf w ->
  heap_wf w'
  /\ (w_brk w <= w_brk w')%positive
  /\ forall lp l',
       (lp < w_brk w)%positive ->
       w_heap w' !! lp = Some l' ->
       exists l, w_heap w !! lp = Some l /\ eld_gen l <= eld_gen l'.

(** ** Allocation *)

(** The statistics of a slot as the counters hold them: unsigned, 64 bits
    for the lengths and 32 bits for the numbers of objects. *)
Definition stats_wf (s : pmd_mdc_stats) : Prop :=
  0 <= pms_mblock_alen s < 2 ^ 64
  /\ 0 <= pms_mlog_alen s < 2 ^ 64
  /\ 0 <= pms_mblock_cnt s < 2 ^ 32
  /\ 0 <= pms_mlog_cnt s < 2 ^ 32.

Definition pool_stats_wf (w : world) : Prop :=
  map_Forall (fun _ c => stats_wf (mmi_stats c)) (mdi_slotv (w_mp w)).

(** The statistics of every slot are what they were. *)
Definition stats_rel (w w' : world) : Prop :=
  forall s, mmi_stats (cinfo_of w' s) = mmi_stats (cinfo_of w s).

(** What the claim on the allocation entry points says of a result: the
    layout is there exactly when the call succeeded, and a call that
    failed left the statistics as they were. *)
Definition alloc_post (w : world) (r : (merr_t * option lptr) * world)
  : Prop :=
  (is_Some r.1.2 <-> r.1.1 = 0)
  /\ (r.1.1 <> 0 -> stats_rel w r.2).

(** What the steps between the two updates of the statistics leave
    alone: the layouts, the devices and the statistics. *)
Record mid_rel (w w' : world) : Prop := {
  mr_heap : w_heap w' = w_heap w;
  mr_pdv : pds_pdv (w_mp w') = pds_pdv (w_mp w);
  mr_stats : stats_rel w w'
}.

(** ** Allocation of an MDC *)

(** Nothing was allocated and no slot was added: the allocator of the
    layouts stands where it stood, no layout is new, the last object id of
    every slot and the number of slots are what they were. *)
Record noalloc_rel (w w' : world) : Prop := {
  na_brk : w_brk w' = w_brk w;
  na_heap : forall lp, is_Some (w_heap w' !! lp) -> is_Some (w_heap w !! lp);
  na_luniq : forall s, mmi_luniq (cinfo_of w' s) = mmi_luniq (cinfo_of w s);
  na_slotvcnt : mdi_slotvcnt (w_mp w') = mdi_slotvcnt (w_mp w)
}.

(** The sum of one statistic over the user MDCs, slots 1 to the last one
    in use. *)
Definition sum_stats (f : pmd_mdc_stats -> Z) (w : world) : Z :=
  foldr Z.add 0
    (List.map (fun s => f (mmi_stats (cinfo_of w s)))
              (seqZ 1 (mdi_slotvcnt (w_mp w) - 1))).

(** ** The validation of MDC0 after the replay *)

(** The uncommitted maps are what they were. *)
Definition uncobj_rel (w w' : world) : Prop :=
  forall s, mmi_uncobj (cinfo_of w' s) = mmi_uncobj (cinfo_of w s).

(** What the deletion of the layout [lp], of object id [k], leaves alone:
    every other layout, every other entry of the committed maps, and the
    uncommitted maps. *)
Record del_rel (lp : lptr) (k : Z) (w w' : world) : Prop := mk_del_rel {
  dr_heap : forall p, p <> lp -> w_heap w' !! p = w_heap w !! p;
  dr_obj : forall s objid,
    objid <> k ->
    mmi_obj (cinfo_of w' s) !! objid = mmi_obj (cinfo_of w s) !! objid;
  dr_uncobj : forall s, mmi_uncobj (cinfo_of w' s) = mmi_uncobj (cinfo_of w s)
}.

(** Every member of a committed map is filed under the object id of its
    layout. *)
Definition keys_ok (m : gmap Z ecio_layout_descriptor) : Prop :=
  map_Forall (fun k l => eld_objid l = k) m.

(** The state the validation of MDC0 is entered with: no two object ids
    of MDC0 stand for the same layout, every layout is filed under its
    own object id, and MDC0 has no uncommitted object. *)
Definition mdc0_inv (w : world) : Prop :=
  (forall k1 k2 p, mmi_obj (cinfo_of w 0) !! k1 = Some p ->
                   mmi_obj (cinfo_of w 0) !! k2 = Some p -> k1 = k2)
  /\ keys_ok (cobj_view w 0)
  /\ mmi_uncobj (cinfo_of w 0) = ∅.

(** * A small pool to run the code on *)

(** One way the outside components can be: a binary that understands
    metadata version 1.0.0.1, two media classes, 4 KiB pages. *)
Definition sim_externals : Externals :=
  {| upg_mdccver_latest := mk_mdccver 1 0 0 1;
     omf_mdcrec_pack_htole := fun _ => 64;
     omd_objid_overlay := fun _ => 0;
     ecio_obj_get_cap_from_layout :=
       fun pdv l => wrap_u64 (ol_zcnt l * 4096);
     MP_MED_NUMBER := 2;
     MP_MED_CAPACITY := 1;
     mpool_mc_isvalid := fun c => (0 <=? c) && (c <? 2);
     mpool_mc_isbe := fun _ => false;
     mpool_mc_first_get := fun c => c;
     mclassp_valid := fun c => (0 <=? c) && (c <? 2);
     PAGE_SHIFT := 12 |}.

(** A committed layout with one reference. *)
Definition demo_layout (objid gen mblen zaddr : Z) : ecio_layout_descriptor :=
  mk_layout objid gen mblen ECIO_LYT_COMMITTED 1 false 0 zaddr 1.

Definition demo_mblock : Z := objid_make 5 OMF_OBJ_MBLOCK 1.
Definition demo_mlog : Z := objid_make 3 OMF_OBJ_MLOG 1.

Definition demo_heap : gmap lptr ecio_layout_descriptor :=
  list_to_map
    [ (1%positive, demo_layout MDC0_OBJID_LOG1 0 0 0);
      (2%positive, demo_layout MDC0_OBJID_LOG2 0 0 1);
      (3%positive, demo_layout (logid_make 2 0) 0 0 2);
      (4%positive, demo_layout (logid_make 3 0) 0 0 3);
      (5%positive, demo_layout demo_mblock 0 4096 4);
      (6%positive, demo_layout demo_mlog 7 0 5) ].

Definition demo_slot0 : pmd_mdc_info :=
  mk_cinfo
    (list_to_map [ (MDC0_OBJID_LOG1, 1%positive); (MDC0_OBJID_LOG2, 2%positive);
                   (logid_make 2 0, 3%positive); (logid_make 3 0, 4%positive) ])
    ∅ 1 (objid_make 0 OMF_OBJ_UNDEF 0) (mk_mdccver 1 0 0 1) true
    (mk_stats 0 0 8192 0 2) (mk_pco 2 0 0 0 2 0 0) 0.

Definition demo_slot1 : pmd_mdc_info :=
  mk_cinfo
    (list_to_map [ (demo_mblock, 5%positive); (demo_mlog, 6%positive) ])
    ∅ 255 (objid_make 0 OMF_OBJ_UNDEF 1) (mk_mdccver 1 0 0 1) true
    (mk_stats 4096 4096 4096 1 1) (mk_pco 4 0 2 1 2 0 0) 1.

Definition demo_mp : mpool_descriptor :=
  mk_mp (list_to_map [ (0, demo_slot0); (1, demo_slot1) ]) 2 0 [1; 1; 1; 1] 0
        [ mk_pd OMF_PD_ACTIVE 77 8 1024 1073741824 ]
        [ mk_mc (-1) 0 0 1; mk_mc 0 1 5 1 ]
        (mk_cfg 0 0 0 0 432).

(** The pool at rest, the outside components never failing. *)
Definition demo_world : world :=
  mk_world demo_mp demo_heap 7%positive 6 ∅ [] [] [] [].

(** The same pool with a script of return codes for the outside calls. *)
Definition demo_with (script : list Z) : world :=
  set_w_oracle script demo_world.

(** The pool after a client has taken a reference on the mblock (layout
    5), as [pmd_obj_find_get] leaves it. *)
Definition demo_world_held : world :=
  set_w_heap (alter (set_eld_refcnt 2) 5%positive) demo_world.

Definition demo_held_with (script : list Z) : world :=
  set_w_oracle script demo_world_held.

(** A log of MDC1 to replay: two objects are created, the mlog is erased,
    the mblock is updated and the mlog is deleted. *)
Definition demo_log : list mdcrec :=
  [ MDR_VERSION (mk_mdccver 1 0 0 1);
    MDR_OIDCKPT (objid_make 256 OMF_OBJ_UNDEF 1);
    MDR_OCREATE (mk_omf_layout demo_mblock 0 4096 0 4 1);
    MDR_OCREATE (mk_omf_layout demo_mlog 7 0 0 5 1);
    MDR_OERASE demo_mlog 8;
    MDR_OUPDATE (mk_omf_layout demo_mblock 0 8192 0 4 1);
    MDR_ODELETE demo_mlog ].

(** The pool before MDC1 is loaded: its committed map is empty and its
    log holds [demo_log]. *)
Definition demo_world_unloaded : world :=
  set_w_mdc (insert 1 (mk_mdc demo_log [] false))
    (upd_slot 1 (set_mmi_obj (fun _ => ∅)) demo_world).

(** A pool before MDC0 is loaded.  The log of MDC0 tells of the two mlogs
    of MDC1 and of the first mlog only of MDC2: the creation of MDC2
    stopped half way. *)
Definition demo_log0 : list mdcrec :=
  [ MDR_VERSION (mk_mdccver 1 0 0 1);
    MDR_OCREATE (mk_omf_layout (logid_make 2 0) 0 0 0 2 1);
    MDR_OCREATE (mk_omf_layout (logid_make 3 0) 0 0 0 3 1);
    MDR_OCREATE (mk_omf_layout (logid_make 4 0) 0 0 0 4 1) ].

Definition demo_world_half : world :=
  mk_world
    (mk_mp
       (list_to_map
          [ (0, mk_cinfo
                  (list_to_map [ (MDC0_OBJID_LOG1, 1%positive);
                                 (MDC0_OBJID_LOG2, 2%positive) ])
                  ∅ 0 (objid_make 0 OMF_OBJ_UNDEF 0) (mk_mdccver 1 0 0 0)
                  true (mk_stats 0 0 0 0 0) (mk_pco 0 0 0 0 0 0 0) 0) ])
       1 0 [1; 1; 1; 1] 0
       (pds_pdv demo_mp) (pds_mc demo_mp) (pds_cfg demo_mp))
    (list_to_map
       [ (1%positive, demo_layout MDC0_OBJID_LOG1 0 0 0);
         (2%positive, demo_layout MDC0_OBJID_LOG2 0 0 1) ])
    3%positive 6
    (<[0 := mk_mdc demo_log0 [] false]> ∅) [] [] [] [].

(** A pool with [n] MDCs: MDC0 holds the two mlogs of each of the slots
    0 to [n - 1], and its last object id is [n - 1]. *)
Definition demo_mdc_logs (n : nat) : list (Z * lptr) :=
  List.map (fun i => (logid_make (Z.of_nat i) 0, Pos.of_succ_nat i))
           (seq 0 (2 * n)).

Definition demo_slot0_of (n : nat) : pmd_mdc_info :=
  mk_cinfo (list_to_map (demo_mdc_logs n)) ∅ (Z.of_nat n - 1)
    (objid_make 0 OMF_OBJ_UNDEF 0) (mk_mdccver 1 0 0 1) true
    (mk_stats 0 0 0 0 (2 * Z.of_nat n)) (mk_pco 0 0 0 0 0 0 0) 0.

Definition demo_pool (n : nat) : world :=
  mk_world
    (mk_mp (list_to_map [ (0, demo_slot0_of n) ]) (Z.of_nat n) 8
           [1; 1; 1; 1] 0
           (pds_pdv demo_mp) (pds_mc demo_mp) (pds_cfg demo_mp))
    (list_to_map
       (List.map (fun '(objid, lp) => (lp, demo_layout objid 0 0 (Zpos lp)))
                 (demo_mdc_logs n)))
    (Pos.of_succ_nat (2 * n)) 600 ∅ [] [] [] [].

(** * More of [pmd.c] *)

(** ** A pool with an object that is allocated and not yet committed *)

Definition demo_new_mblock : Z := objid_make 6 OMF_OBJ_MBLOCK 1.

Definition demo_world_new : world :=
  set_w_brk 8%positive
    (set_w_heap
       (insert 7%positive
          (mk_layout demo_new_mblock 0 0 ECIO_LYT_NONE 1 false 0 6 1))
       (upd_slot 1 (set_mmi_uncobj (insert demo_new_mblock 7%positive))
          demo_world)).

Definition demo_new_with (script : list Z) : world :=
  set_w_oracle script demo_world_new.

(** ** Releasing a reference *)

(** [pmd_obj_put]: the layout is given by a pointer that is not [NULL];
    a refusal is only logged. *)
Definition pmd_obj_put (lp : lptr) : M unit :=
  layout <- get_layout lp ;;
  let cslot := objid_slot (eld_objid layout) in
  lock (L_rwlock lp) ;;
  layout <- get_layout lp ;;
  if negb (objtype_user (objid_type (eld_objid layout))) || lyt_removed layout
  then unlock (L_rwlock lp) ;; ret tt
  else
    lock (L_reflock cslot) ;;
    layout <- get_layout lp ;;
    let put := (1 <? eld_refcnt layout) && negb (eld_isdel layout) in
    (if put
     then mod_layout lp (fun l => set_eld_refcnt (wrap_s64 (eld_refcnt l - 1)) l)
     else ret tt) ;;
    unlock (L_reflock cslot) ;;
    unlock (L_rwlock lp) ;;
    ret tt.

(** ** Erasing an mlog *)

(** The image of the MDC0 metadata of the superblock that the pool
    descriptor keeps in [pds_sbmdc0]: the generations of the two mlogs of
    MDC0. *)
Record omf_sb_descriptor : Type := mk_sb {
  osb_mdc01gen : Z;
  osb_mdc02gen : Z
}.

(** Modelled from the spec: [sb_write_update] belongs to the superblock
    component, which is not part of [src/]; the call only reports an error
    code here. *)
Definition sb_write_update : M merr_t := pop_oracle.

(** [pmd_mdc0_meta_update]: the superblock is built in a buffer that may
    fail to be allocated, and written to the drive of the layout. *)
Definition pmd_mdc0_meta_update (lp : lptr) : M merr_t :=
  e <- pop_oracle ;;
  if negb (e =? 0) then ret (merr ENOMEM)
  else sb_write_update.

Section Erase.
Context `{Ext : Externals}.

(** [pmd_obj_erase]: [pds_sbmdc0] is threaded through the call. *)
Definition pmd_obj_erase (lp : lptr) (gen : Z) (sbmdc0 : omf_sb_descriptor)
  : M (merr_t * omf_sb_descriptor) :=
  layout <- get_layout lp ;;
  let objid := eld_objid layout in
  if negb (bool_decide (pmd_objid_type objid = OMF_OBJ_MLOG))
     || negb (lyt_committed layout)
     || lyt_removed layout
     || (gen <=? eld_gen layout)
  then ret (merr EINVAL, sbmdc0)
  else if objid_mdc0log objid then
    let sbmdc0 := if objid =? MDC0_OBJID_LOG1
                  then mk_sb gen (osb_mdc02gen sbmdc0)
                  else mk_sb (osb_mdc01gen sbmdc0) gen in
    err <- pmd_mdc0_meta_update lp ;;
    (if err =? 0 then mod_layout lp (set_eld_gen gen) else ret tt) ;;
    ret (err, sbmdc0)
  else
    let cslot := objid_slot objid in
    lock (L_compactlock cslot) ;;
    err <- pmd_log_erase objid gen ;;
    (if err =? 0 then
       mod_layout lp (set_eld_gen gen) ;;
       if negb (cslot =? 0)
       then mod_cinfo cslot (set_mmi_pco_cnt pco_inc_er)
       else ret tt
     else ret tt) ;;
    unlock (L_compactlock cslot) ;;
    ret (err, sbmdc0).

End Erase.

(** ** The counters of the pre-compaction *)

(** [pmd_mlogid2cslot] *)
Definition pmd_mlogid2cslot (mlogid : Z) : Z :=
  if negb (bool_decide (pmd_objid_type mlogid = OMF_OBJ_MLOG)) then -1
  else if negb (objid_slot mlogid =? 0) then -1
  else
    let uniq := objid_uniq mlogid in
    if 2 * MDC_SLOTS - 1 <? uniq then -1
    else wrap_s32 (uniq / 2).

Definition set_pcc_len (v : Z) (p : pre_compact_ctrs) :=
  mk_pco (pcc_cr p) (pcc_up p) (pcc_del p) (pcc_er p) (pcc_cobj p)
         (pcc_cap p) (wrap_s64 v).
Definition set_pcc_cap (v : Z) (p : pre_compact_ctrs) :=
  mk_pco (pcc_cr p) (pcc_up p) (pcc_del p) (pcc_er p) (pcc_cobj p)
         (wrap_s64 v) (pcc_len p).

(** [pmd_precompact_alsz] *)
Definition pmd_precompact_alsz (objid len cap : Z) : M unit :=
  let ret_ := pmd_mlogid2cslot objid in
  if ret_ <=? 0 then ret tt
  else
    let cslot := wrap_u8 ret_ in
    mod_cinfo cslot (set_mmi_pco_cnt (set_pcc_len len)) ;;
    mod_cinfo cslot (set_mmi_pco_cnt (set_pcc_cap cap)).

(** ** The two need signals *)

(** Modelled from the spec: [struct mpool_params] is declared outside
    [src/]; the pool descriptor keeps it in [pds_params].  Its members
    read by the functions below are unsigned percentages; the functions
    take the record as an argument. *)
Record mpool_params : Type := mk_params {
  mp_pcopctfull : Z;
  mp_pcopctgarbage : Z;
  mp_crtmdcpctfull : Z;
  mp_crtmdcpctgrbg : Z
}.

(** The number of records the counters stand for: four [atomic_read],
    added as [int] and kept in a [u64]. *)
Definition pco_rec (p : pre_compact_ctrs) : Z :=
  wrap_u64 (wrap_s32 (pcc_cr p + pcc_up p + pcc_del p + pcc_er p)).

(** [pmd_need_compact] *)
Definition pmd_need_compact (params : mpool_params) (cslot : Z) : M bool :=
  cinfo <- get_cinfo cslot ;;
  let pco_cnt := mmi_pco_cnt cinfo in
  let cap := wrap_u64 (pcc_cap pco_cnt) in
  if cap =? 0 then ret false else
  let len := wrap_u64 (pcc_len pco_cnt) in
  let rec := pco_rec pco_cnt in
  let cobj := wrap_u64 (pcc_cobj pco_cnt) in
  let pct := wrap_u32 (wrap_u64 (len * 100) / cap) in
  if pct <? mp_pcopctfull params then ret false else
  let garbage :=
    if cobj <? rec
    then wrap_u32 (wrap_u32 (wrap_u64 ((rec - cobj) * 100)) / rec)
    else 0 in
  if garbage <? mp_pcopctgarbage params then ret false else ret true.

(** The sums [pmd_mdc_needed] keeps while it walks the slots. *)
Record mdc_needed_acc : Type := mk_needed {
  na_cap : Z;
  na_used : Z;
  na_garbage : Z;
  na_record : Z;
  na_mdccnt : Z
}.

(** One turn of the loop of [pmd_mdc_needed]. *)
Definition mdc_needed_step (mp : mpool_descriptor) (a : mdc_needed_acc)
    (cslot : Z) : mdc_needed_acc :=
  let pco_cnt := mmi_pco_cnt (slot_of mp cslot) in
  let tcap := wrap_u64 (pcc_cap pco_cnt) in
  if tcap =? 0 then a
  else
    let rec := pco_rec pco_cnt in
    let cobj := wrap_u64 (pcc_cobj pco_cnt) in
    mk_needed (wrap_u64 (na_cap a + tcap))
              (wrap_u64 (na_used a + wrap_u64 (pcc_len pco_cnt)))
              (if cobj <? rec then wrap_u64 (na_garbage a + (rec - cobj))
               else na_garbage a)
              (wrap_u64 (na_record a + rec))
              (wrap_u32 (na_mdccnt a + 1)).

(** [pmd_mdc_needed] *)
Definition pmd_mdc_needed (params : mpool_params) : M bool :=
  mp <- gets w_mp ;;
  if mdi_slotvcnt mp =? MDC_SLOTS then ret false else
  let a := fold_left (mdc_needed_step mp)
             (seqZ 1 (mdi_slotvcnt mp - 1)) (mk_needed 0 0 0 0 0) in
  if na_mdccnt a =? 0 then ret false else
  let pct := wrap_u32 (wrap_u64 (na_used a * 100) / na_cap a) in
  let pctg := if negb (na_garbage a =? 0)
              then wrap_u32 (wrap_u64 (na_garbage a * 100) / na_record a)
              else 0 in
  if (mp_crtmdcpctfull params <? pct) && (pctg <? mp_crtmdcpctgrbg params)
  then ret true
  else ret false.

(** ** The usage of the pool *)

(** Modelled from the spec: [struct mp_usage] is declared outside [src/];
    these are the members [pmd_mpool_usage] writes, unsigned 64-bit
    numbers for the lengths and unsigned 32-bit numbers for the counts. *)
Record mp_usage : Type := mk_usage {
  mpu_mblock_alen : Z;
  mpu_mblock_wlen : Z;
  mpu_mlog_alen : Z;
  mpu_mblock_cnt : Z;
  mpu_mlog_cnt : Z;
  mpu_alen : Z;
  mpu_wlen : Z
}.

(** One turn of the loop of [pmd_mpool_usage]. *)
Definition mpool_usage_step (sidx : Z) (usage : mp_usage) : M mp_usage :=
  cinfo <- get_cinfo sidx ;;
  let pms := mmi_stats cinfo in
  lock (L_stats_lock sidx) ;;
  let usage :=
    mk_usage (wrap_u64 (mpu_mblock_alen usage + pms_mblock_alen pms))
             (wrap_u64 (mpu_mblock_wlen usage + pms_mblock_wlen pms))
             (wrap_u64 (mpu_mlog_alen usage + pms_mlog_alen pms))
             (wrap_u32 (mpu_mblock_cnt usage + pms_mblock_cnt pms))
             (wrap_u32 (mpu_mlog_cnt usage + pms_mlog_cnt pms))
             (mpu_alen usage) (mpu_wlen usage) in
  unlock (L_stats_lock sidx) ;;
  ret usage.

Fixpoint mpool_usage_loop (slots : list Z) (usage : mp_usage) : M mp_usage :=
  match slots with
  | [] => ret usage
  | sidx :: rest =>
      usage <- mpool_usage_step sidx usage ;;
      mpool_usage_loop rest usage
  end.

(** [pmd_mpool_usage]: the count of MDCs is read once, under the lock. *)
Definition pmd_mpool_usage (usage : mp_usage) : M mp_usage :=
  lock L_slotvlock ;;
  slotvcnt <- gets (fun w => mdi_slotvcnt (w_mp w)) ;;
  unlock L_slotvlock ;;
  usage <- mpool_usage_loop (seqZ 1 (slotvcnt - 1)) usage ;;
  if slotvcnt <? 2 then ret usage
  else
    ret (mk_usage (mpu_mblock_alen usage) (mpu_mblock_wlen usage)
                  (mpu_mlog_alen usage) (mpu_mblock_cnt usage)
                  (mpu_mlog_cnt usage)
                  (wrap_u64 (mpu_mblock_alen usage + mpu_mlog_alen usage))
                  (wrap_u64 (mpu_mblock_wlen usage + mpu_mlog_alen usage))).

(** The members of a usage record are in the range of their types. *)
Definition usage_wf (u : mp_usage) : Prop :=
  0 <= mpu_mblock_alen u < 2 ^ 64 /\ 0 <= mpu_mblock_wlen u < 2 ^ 64
  /\ 0 <= mpu_mlog_alen u < 2 ^ 64 /\ 0 <= mpu_mblock_cnt u < 2 ^ 32
  /\ 0 <= mpu_mlog_cnt u < 2 ^ 32.

(** * Facts and theorems *)

(** ** Machine integers *)

Lemma wrap_u64_small z : 0 <= z < 2 ^ 64 -> wrap_u64 z = z.
Proof. intros H. unfold wrap_u64. now apply Z.mod_small. Qed.

Lemma wrap_u32_small z : 0 <= z < 2 ^ 32 -> wrap_u32 z = z.
Proof. intros H. unfold wrap_u32. now apply Z.mod_small. Qed.

Lemma wrap_s32_small z : - 2 ^ 31 <= z < 2 ^ 31 -> wrap_s32 z = z.
Proof. intros H. unfold wrap_s32. rewrite Z.mod_small; lia. Qed.

(** Adding and then subtracting the same amount on a wrapping counter
    gives the counter back. *)
Lemma wrap_u64_add_sub a c :
  0 <= a < 2 ^ 64 -> wrap_u64 (wrap_u64 (a + c) - c) = a.
Proof.
  intros H. unfold wrap_u64.
  rewrite Zminus_mod_idemp_l.
  replace (a + c - c) with a by lia. now apply Z.mod_small.
Qed.

Lemma wrap_u32_add_sub a c :
  0 <= a < 2 ^ 32 -> wrap_u32 (wrap_u32 (a + c) - c) = a.
Proof.
  intros H. unfold wrap_u32.
  rewrite Zminus_mod_idemp_l.
  replace (a + c - c) with a by lia. now apply Z.mod_small.
Qed.

(** ** The state monad *)

Local Open Scope pmd_scope.

Lemma bind_eq {A B} (m : M A) (k : A -> M B) w a w1 :
  m w = (a, w1) -> bind m k w = k a w1.
Proof. intros H. unfold bind. now rewrite H. Qed.

Lemma bind_inv {A B} (m : M A) (k : A -> M B) w r :
  bind m k w = r -> exists a w1, m w = (a, w1) /\ k a w1 = r.
Proof.
  unfold bind. destruct (m w) as [a w1]. intros H. now exists a, w1.
Qed.

Section Preserves.

Variable R : world -> world -> Prop.
Hypothesis R_refl : forall w, R w w.
Hypothesis R_trans : forall w1 w2 w3, R w1 w2 -> R w2 w3 -> R w1 w3.

Lemma preserves_ret {A} (a : A) : preserves R (ret a).
Proof. intros w. apply R_refl. Qed.

Lemma preserves_gets {A} (f : world -> A) : preserves R (gets f).
Proof. intros w. apply R_refl. Qed.

Lemma preserves_bind {A B} (m : M A) (k : A -> M B) :
  preserves R m -> (forall a, preserves R (k a)) -> preserves R (bind m k).
Proof.
  intros Hm Hk w. unfold bind.
  specialize (Hm w). destruct (m w) as [a w1]. simpl in Hm.
  eapply R_trans; [exact Hm | apply Hk].
Qed.

Lemma preserves_modify (f : world -> world) :
  (forall w, R w (f w)) -> preserves R (modify f).
Proof. intros H w. apply H. Qed.

End Preserves.

(** ** Slots, layouts and logs: reading after writing *)

Lemma cinfo_of_upd_slot cslot f w s :
  cinfo_of (upd_slot cslot f w) s =
  if decide (s = cslot) then f (cinfo_of w cslot) else cinfo_of w s.
Proof.
  unfold cinfo_of, upd_slot, slot_of. simpl.
  destruct (decide (s = cslot)) as [-> | Hne].
  - now rewrite lookup_insert_eq.
  - rewrite lookup_insert_ne by congruence. reflexivity.
Qed.

Lemma cinfo_of_upd_slot_eq cslot f w :
  cinfo_of (upd_slot cslot f w) cslot = f (cinfo_of w cslot).
Proof. rewrite cinfo_of_upd_slot. now destruct (decide (cslot = cslot)). Qed.

Lemma cinfo_of_set_w_held f w s :
  cinfo_of (set_w_held f w) s = cinfo_of w s.
Proof. reflexivity. Qed.

Lemma cinfo_of_upd_slot_ne cslot f w s :
  s <> cslot -> cinfo_of (upd_slot cslot f w) s = cinfo_of w s.
Proof.
  intros H. rewrite cinfo_of_upd_slot. now destruct (decide (s = cslot)).
Qed.

Lemma mdc_of_insert cslot m w s :
  mdc_of (set_w_mdc (insert cslot m) w) s =
  if decide (s = cslot) then m else mdc_of w s.
Proof.
  unfold mdc_of. simpl. destruct (decide (s = cslot)) as [-> | Hne].
  - now rewrite lookup_total_insert_eq.
  - rewrite lookup_total_insert_ne by congruence. reflexivity.
Qed.

(** ** What appends and compactions leave alone *)

Lemma same_but_pco_refl c : same_but_pco c c.
Proof. now constructor. Qed.

Lemma same_but_pco_trans c1 c2 c3 :
  same_but_pco c1 c2 -> same_but_pco c2 c3 -> same_but_pco c1 c3.
Proof.
  intros [] []. constructor; congruence.
Qed.

Global Instance compact_rel_preorder : PreOrder compact_rel.
Proof.
  split.
  - intros w. constructor; try reflexivity.
    + now exists [].
    + intros s. apply same_but_pco_refl.
  - intros w1 w2 w3 [] []. constructor; try congruence.
    + lia.
    + destruct cr_trace0 as [t1 E1], cr_trace1 as [t2 E2].
      exists (t2 ++ t1). rewrite E2, E1. now rewrite app_assoc.
    + intros s. eapply same_but_pco_trans; eauto.
Qed.

Create HintDb pmd_pres discriminated.

Lemma pres_bind {A B} (m : M A) (k : A -> M B) :
  preserves compact_rel m -> (forall a, preserves compact_rel (k a)) ->
  preserves compact_rel (bind m k).
Proof. apply preserves_bind. apply compact_rel_preorder. Qed.

Lemma pres_ret {A} (a : A) : preserves compact_rel (ret a).
Proof. apply preserves_ret. apply compact_rel_preorder. Qed.

Lemma pres_gets {A} (f : world -> A) : preserves compact_rel (gets f).
Proof. apply preserves_gets. apply compact_rel_preorder. Qed.

Lemma pres_pop_oracle : preserves compact_rel pop_oracle.
Proof.
  intros w. unfold pop_oracle. destruct (w_oracle w) as [|e o] eqn:E.
  - reflexivity.
  - simpl. constructor; simpl; try reflexivity.
    + rewrite E. simpl. lia.
    + now exists [].
    + intros s. apply same_but_pco_refl.
Qed.

Lemma pres_log_event e : preserves compact_rel (log_event e).
Proof.
  intros w. constructor; simpl; try reflexivity.
  - now exists [e].
  - intros s. apply same_but_pco_refl.
Qed.

Lemma pres_mod_mdc cslot f : preserves compact_rel (mod_mdc cslot f).
Proof.
  intros w. constructor; simpl; try reflexivity.
  - now exists [].
  - intros s. apply same_but_pco_refl.
Qed.

Lemma pres_mod_pco cslot f :
  (forall p, pcc_cap (f p) = pcc_cap p /\ pcc_len (f p) = pcc_len p) ->
  preserves compact_rel (mod_cinfo cslot (set_mmi_pco_cnt f)).
Proof.
  intros Hf w. constructor; simpl; try reflexivity.
  - now exists [].
  - intros s. change (same_but_pco (cinfo_of w s)
      (cinfo_of (upd_slot cslot (set_mmi_pco_cnt f) w) s)).
    rewrite cinfo_of_upd_slot. destruct (decide (s = cslot)) as [-> | Hne].
    + constructor; simpl; try reflexivity; apply Hf.
    + apply same_but_pco_refl.
Qed.

Global Hint Resolve pres_ret pres_gets pres_pop_oracle pres_log_event
  pres_mod_mdc : pmd_pres.

(** Take a computation apart, down to the calls the hints know. *)
Ltac pres :=
  repeat match goal with
  | |- forall _, _ => intro
  | |- preserves _ (bind _ _) => apply pres_bind
  | |- preserves _ (ret _) => apply pres_ret
  | |- preserves _ (gets _) => apply pres_gets
  | |- preserves _ (if ?b then _ else _) => destruct b
  | |- preserves _ (match ?x with _ => _ end) => destruct x
  | |- preserves _ _ => solve [eauto with pmd_pres]
  end.

Section PMDFacts.

Context `{Ext : Externals}.

Lemma pres_mp_mdc_open cslot : preserves compact_rel (mp_mdc_open cslot).
Proof. unfold mp_mdc_open. pres. Qed.

Lemma pres_mp_mdc_close cslot : preserves compact_rel (mp_mdc_close cslot).
Proof. unfold mp_mdc_close. pres. Qed.

Lemma pres_mp_mdc_cstart cslot : preserves compact_rel (mp_mdc_cstart cslot).
Proof. unfold mp_mdc_cstart. pres. Qed.

Lemma pres_mp_mdc_cend cslot : preserves compact_rel (mp_mdc_cend cslot).
Proof. unfold mp_mdc_cend. pres. Qed.

Lemma pres_mp_mdc_append cslot r sync :
  preserves compact_rel (mp_mdc_append cslot r sync).
Proof. unfold mp_mdc_append. pres. Qed.

Hint Resolve pres_mp_mdc_open pres_mp_mdc_close pres_mp_mdc_cstart
  pres_mp_mdc_cend pres_mp_mdc_append : pmd_pres.

Lemma pres_pmd_mdc_append cslot cdr sync :
  preserves compact_rel (pmd_mdc_append cslot cdr sync).
Proof. unfold pmd_mdc_append. pres. Qed.

Hint Resolve pres_pmd_mdc_append : pmd_pres.

Lemma pres_log_all_mdc_cobjs_loop cslot nodes c t :
  preserves compact_rel (log_all_mdc_cobjs_loop cslot nodes c t).
Proof.
  revert c t. induction nodes as [|[k lp] rest IH]; intros c t; simpl.
  - pres.
  - unfold get_layout. pres.
Qed.

Hint Resolve pres_log_all_mdc_cobjs_loop : pmd_pres.

Lemma pres_pmd_log_all_mdc_cobjs cslot c t :
  preserves compact_rel (pmd_log_all_mdc_cobjs cslot c t).
Proof. unfold pmd_log_all_mdc_cobjs, get_cinfo. pres. Qed.

Lemma pres_pmd_log_non_mdc0_cobjs cslot :
  preserves compact_rel (pmd_log_non_mdc0_cobjs cslot).
Proof. unfold pmd_log_non_mdc0_cobjs, get_cinfo. pres. Qed.

Lemma pres_pmd_pre_compact_reset cslot compacted :
  preserves compact_rel (pmd_pre_compact_reset cslot compacted).
Proof. unfold pmd_pre_compact_reset. apply pres_mod_pco. now intros p. Qed.

Hint Resolve pres_pmd_log_all_mdc_cobjs pres_pmd_log_non_mdc0_cobjs
  pres_pmd_pre_compact_reset : pmd_pres.

Section CompactWith.

Variable addrec : Z -> omf_mdcrec_data -> M merr_t.
Hypothesis pres_addrec :
  forall cslot cdr, preserves compact_rel (addrec cslot cdr).

Hint Resolve pres_addrec : pmd_pres.

Lemma pres_addrec_version_with cslot :
  preserves compact_rel (pmd_mdc_addrec_version_with addrec cslot).
Proof. unfold pmd_mdc_addrec_version_with. pres. Qed.

Lemma pres_prop_mcconfig_with pd c :
  preserves compact_rel (pmd_prop_mcconfig_with addrec pd c).
Proof. unfold pmd_prop_mcconfig_with. pres. Qed.

Lemma pres_prop_mcspare_with mclassp spzone c :
  preserves compact_rel (pmd_prop_mcspare_with addrec mclassp spzone c).
Proof. unfold pmd_prop_mcspare_with. pres. Qed.

Lemma pres_prop_mpconfig_with cfg c :
  preserves compact_rel (pmd_prop_mpconfig_with addrec cfg c).
Proof. unfold pmd_prop_mpconfig_with. pres. Qed.

Hint Resolve pres_addrec_version_with pres_prop_mcconfig_with
  pres_prop_mcspare_with pres_prop_mpconfig_with : pmd_pres.

Lemma pres_log_mdc0_pdv_loop pdv :
  preserves compact_rel (log_mdc0_pdv_loop addrec pdv).
Proof. induction pdv as [|pd rest IH]; simpl; pres. Qed.

Lemma pres_log_mdc0_mc_loop mcs :
  preserves compact_rel (log_mdc0_mc_loop addrec mcs).
Proof. induction mcs as [|mc rest IH]; simpl; pres. Qed.

Hint Resolve pres_log_mdc0_pdv_loop pres_log_mdc0_mc_loop : pmd_pres.

Lemma pres_log_mdc0_cobjs_with :
  preserves compact_rel (pmd_log_mdc0_cobjs_with addrec).
Proof. unfold pmd_log_mdc0_cobjs_with. pres. Qed.

Hint Resolve pres_log_mdc0_cobjs_with : pmd_pres.

Lemma pres_compact_attempt cslot err :
  preserves compact_rel (compact_attempt addrec cslot err).
Proof. unfold compact_attempt. pres. Qed.

Hint Resolve pres_compact_attempt : pmd_pres.

Lemma pres_compact_loop n cslot err :
  preserves compact_rel (compact_loop addrec n cslot err).
Proof. revert err. induction n as [|n IH]; intros err; simpl; pres. Qed.

Lemma pres_compact_with cslot :
  preserves compact_rel (pmd_mdc_compact_with addrec cslot).
Proof. apply pres_compact_loop. Qed.

End CompactWith.

Lemma pres_pmd_mdc_addrec_n n cslot cdr :
  preserves compact_rel (pmd_mdc_addrec_n n cslot cdr).
Proof.
  revert cslot cdr. induction n as [|n IH]; intros cslot cdr; simpl.
  - pres.
  - assert (H := fun c => pres_compact_with (pmd_mdc_addrec_n n) IH c).
    pres.
Qed.

Lemma pres_pmd_mdc_addrec cslot cdr :
  preserves compact_rel (pmd_mdc_addrec cslot cdr).
Proof. intros w. apply pres_pmd_mdc_addrec_n. Qed.

Hint Resolve pres_pmd_mdc_addrec : pmd_pres.

Lemma pres_pmd_mdc_compact cslot :
  preserves compact_rel (pmd_mdc_compact cslot).
Proof. apply pres_compact_with. apply pres_pmd_mdc_addrec. Qed.

Hint Resolve pres_pmd_mdc_compact pres_addrec_version_with
  pres_log_mdc0_cobjs_with pres_compact_attempt pres_compact_loop
  : pmd_pres.

(** ** The nesting of compactions is bounded by the script *)

Lemma agree_refl {A} k (f : M A) : agree_upto k f f.
Proof. now intros w _. Qed.

Lemma agree_bind {A B} k (f g : M A) (f' g' : A -> M B) :
  agree_upto k f g -> preserves compact_rel f ->
  (forall a, agree_upto k (f' a) (g' a)) ->
  agree_upto k (bind f f') (bind g g').
Proof.
  intros Hfg Hf Hk w Hw. unfold bind. rewrite <- (Hfg w Hw).
  specialize (Hf w). destruct (f w) as [a w1]. simpl in Hf.
  apply Hk. destruct Hf. lia.
Qed.

Ltac agree :=
  repeat match goal with
  | |- forall _, _ => intro
  | |- agree_upto _ ?f ?f => apply agree_refl
  | |- agree_upto _ (bind _ _) (bind _ _) =>
      apply agree_bind; [ | solve [pres] | ]
  | |- agree_upto _ (if ?b then _ else _) (if ?b then _ else _) => destruct b
  | |- agree_upto _ (match ?x with _ => _ end) (match ?x with _ => _ end) =>
      destruct x
  | |- agree_upto _ _ _ => solve [eauto | apply agree_refl]
  end.

Section CompactAgree.

Variables f g : Z -> omf_mdcrec_data -> M merr_t.
Variable k : nat.
Hypothesis pres_f : forall cslot cdr, preserves compact_rel (f cslot cdr).
Hypothesis agree_fg : forall cslot cdr, agree_upto k (f cslot cdr) (g cslot cdr).

Hint Resolve pres_f : pmd_pres.
Hint Resolve pres_addrec_version_with pres_prop_mcconfig_with
  pres_prop_mcspare_with pres_prop_mpconfig_with pres_log_mdc0_pdv_loop
  pres_log_mdc0_mc_loop pres_log_mdc0_cobjs_with pres_compact_attempt
  : pmd_pres.

Lemma agree_log_mdc0_pdv_loop pdv :
  agree_upto k (log_mdc0_pdv_loop f pdv) (log_mdc0_pdv_loop g pdv).
Proof. induction pdv as [|pd rest IH]; simpl; agree. Qed.

Lemma agree_prop_mcspare_with mclassp spzone c :
  agree_upto k (pmd_prop_mcspare_with f mclassp spzone c)
             (pmd_prop_mcspare_with g mclassp spzone c).
Proof. unfold pmd_prop_mcspare_with. agree. Qed.

Lemma agree_log_mdc0_mc_loop mcs :
  agree_upto k (log_mdc0_mc_loop f mcs) (log_mdc0_mc_loop g mcs).
Proof.
  pose proof agree_prop_mcspare_with.
  induction mcs as [|mc rest IH]; simpl; agree.
Qed.

Lemma agree_log_mdc0_cobjs_with :
  agree_upto k (pmd_log_mdc0_cobjs_with f) (pmd_log_mdc0_cobjs_with g).
Proof.
  pose proof agree_log_mdc0_pdv_loop. pose proof agree_log_mdc0_mc_loop.
  unfold pmd_log_mdc0_cobjs_with. agree.
Qed.

Lemma agree_compact_attempt cslot err :
  agree_upto k (compact_attempt f cslot err) (compact_attempt g cslot err).
Proof.
  pose proof agree_log_mdc0_cobjs_with.
  unfold compact_attempt, pmd_mdc_addrec_version_with. agree.
Qed.

Lemma agree_compact_loop n cslot err :
  agree_upto k (compact_loop f n cslot err) (compact_loop g n cslot err).
Proof.
  pose proof agree_compact_attempt.
  revert err. induction n as [|n IH]; intros err; simpl; agree.
Qed.

Lemma agree_compact_with cslot :
  agree_upto k (pmd_mdc_compact_with f cslot) (pmd_mdc_compact_with g cslot).
Proof. apply agree_compact_loop. Qed.

End CompactAgree.

(** An append that reports a full log has used an entry of the script. *)
Lemma pmd_mdc_append_efbig cslot cdr sync w e w1 :
  pmd_mdc_append cslot cdr sync w = (e, w1) ->
  merr_errno e = EFBIG ->
  (length (w_oracle w1) < length (w_oracle w))%nat.
Proof.
  unfold pmd_mdc_append, mp_mdc_append, pop_oracle, bind, gets, log_event,
    mod_mdc, modify, ret, merr_errno, EFBIG.
  destruct (omf_mdcrec_pack_htole (cdr_pack w cdr) <? 0) eqn:Hp.
  - intros [= <- <-] He. apply Z.ltb_lt in Hp. lia.
  - destruct (w_oracle w) as [|e0 o] eqn:Ho.
    + simpl. intros [= <- <-]. discriminate.
    + destruct (e0 =? 0) eqn:He0.
      * intros [= <- <-]. discriminate.
      * intros [= <- <-] _. simpl. lia.
Qed.

Lemma pmd_mdc_addrec_n_stable n :
  forall m cslot cdr w,
    (length (w_oracle w) < n)%nat -> (length (w_oracle w) < m)%nat ->
    pmd_mdc_addrec_n n cslot cdr w = pmd_mdc_addrec_n m cslot cdr w.
Proof.
  induction n as [|n IH]; intros m cslot cdr w Hn Hm; [lia|].
  destruct m as [|m]; [lia|].
  simpl. unfold bind at 1 3.
  destruct (pmd_mdc_append cslot cdr true w) as [e w1] eqn:Ea.
  destruct (merr_errno e =? EFBIG) eqn:Ee; [|reflexivity].
  apply Z.eqb_eq in Ee.
  pose proof (pmd_mdc_append_efbig _ _ _ _ _ _ Ea Ee) as Hlt.
  unfold bind.
  rewrite (agree_compact_with (pmd_mdc_addrec_n n) (pmd_mdc_addrec_n m)
             (length (w_oracle w1))); [reflexivity | | | lia].
  - intros c r. apply pres_pmd_mdc_addrec_n.
  - intros c r w' Hw'. apply IH; lia.
Qed.

(** [pmd_mdc_addrec] as the source has it: append; on a full log compact
    and, when the compaction succeeded, append again. *)
Lemma pmd_mdc_addrec_unfold cslot cdr w :
  pmd_mdc_addrec cslot cdr w =
  (err <- pmd_mdc_append cslot cdr true ;;
   if merr_errno err =? EFBIG then
     err <- pmd_mdc_compact cslot ;;
     if err =? 0 then pmd_mdc_append cslot cdr true else ret err
   else ret err) w.
Proof.
  unfold pmd_mdc_addrec at 1. simpl. unfold bind at 1 3.
  destruct (pmd_mdc_append cslot cdr true w) as [e w1] eqn:Ea.
  destruct (merr_errno e =? EFBIG) eqn:Ee; [|reflexivity].
  apply Z.eqb_eq in Ee.
  pose proof (pmd_mdc_append_efbig _ _ _ _ _ _ Ea Ee) as Hlt.
  unfold bind, pmd_mdc_compact.
  rewrite (agree_compact_with (pmd_mdc_addrec_n (length (w_oracle w)))
             pmd_mdc_addrec (length (w_oracle w1))); [reflexivity | | | lia].
  - intros c r. apply pres_pmd_mdc_addrec_n.
  - intros c r w' Hw'. unfold pmd_mdc_addrec.
    apply pmd_mdc_addrec_n_stable; lia.
Qed.

(** ** What the calls into the MDC log do to the log *)

(** Take apart an equation [m w = r] for a computation made of binds. *)
Ltac minv H :=
  repeat match type of H with
  | bind _ _ _ = _ =>
      let a := fresh "a" in let w := fresh "w" in
      let H1 := fresh "H" in
      apply bind_inv in H as (a & w & H1 & H)
  end.

Lemma pop_oracle_frame e w w1 :
  pop_oracle w = (e, w1) ->
  w_mdc w1 = w_mdc w /\ w_mp w1 = w_mp w /\ w_heap w1 = w_heap w
  /\ w_held w1 = w_held w /\ w_trace w1 = w_trace w.
Proof.
  unfold pop_oracle. destruct (w_oracle w); intros [= <- <-]; now simpl.
Qed.

Lemma mdc_cstarted_push r m : mdc_cstarted (mdc_push r m) = mdc_cstarted m.
Proof. unfold mdc_push. now destruct (mdc_cstarted m) eqn:E. Qed.

Lemma mdc_cstarted_pushes rs m : mdc_cstarted (pushes rs m) = mdc_cstarted m.
Proof.
  revert m. induction rs as [|r rs IH]; intros m; simpl; [reflexivity|].
  unfold pushes in IH. rewrite IH. apply mdc_cstarted_push.
Qed.

Lemma pushes_app rs1 rs2 m : pushes (rs1 ++ rs2) m = pushes rs2 (pushes rs1 m).
Proof. unfold pushes. apply fold_left_app. Qed.

Lemma pushes_cstarted rs a n :
  pushes rs (mk_mdc a n true) = mk_mdc a (n ++ rs) true.
Proof.
  revert n. induction rs as [|r rs IH]; intros n; simpl.
  - now rewrite app_nil_r.
  - change (pushes rs (mdc_push r (mk_mdc a n true))
            = mk_mdc a (n ++ r :: rs) true).
    unfold mdc_push. simpl. rewrite IH. now rewrite <- app_assoc.
Qed.

Lemma mp_mdc_append_ok cslot r sync w w' :
  mp_mdc_append cslot r sync w = (0, w') ->
  mdc_of w' cslot = mdc_push r (mdc_of w cslot).
Proof.
  unfold mp_mdc_append. intros H. minv H.
  apply pop_oracle_frame in H0 as (Hm & _).
  unfold gets in H1. injection H1 as <- <-.
  unfold log_event, modify in H2. injection H2 as _ <-.
  destruct (a =? 0) eqn:Ea.
  - minv H. unfold mod_mdc, modify in H0. injection H0 as _ <-.
    unfold ret in H. injection H as <-.
    rewrite mdc_of_insert. destruct (decide (cslot = cslot)); [|congruence].
    unfold mdc_of. simpl. now rewrite Hm.
  - unfold ret in H. injection H as -> _. discriminate.
Qed.

Lemma pmd_mdc_append_ok cslot cdr sync w w' :
  pmd_mdc_append cslot cdr sync w = (0, w') ->
  mdc_of w' cslot = mdc_push (cdr_pack w cdr) (mdc_of w cslot).
Proof.
  unfold pmd_mdc_append. intros H. minv H.
  unfold gets in H0. injection H0 as <- <-.
  destruct (_ <? 0) eqn:Hp.
  - unfold ret in H. injection H as Hz _. apply Z.ltb_lt in Hp. lia.
  - now apply mp_mdc_append_ok in H.
Qed.

Lemma mp_mdc_cstart_ok cslot w w' :
  mp_mdc_cstart cslot w = (0, w') ->
  mdc_of w' cslot = mk_mdc (mdc_alog (mdc_of w cslot)) [] true.
Proof.
  unfold mp_mdc_cstart. intros H. minv H.
  apply pop_oracle_frame in H0 as (Hm & _).
  unfold log_event, modify in H1. injection H1 as _ <-.
  destruct (a =? 0) eqn:Ea.
  - minv H. unfold mod_mdc, modify in H0. injection H0 as _ <-.
    unfold ret in H. injection H as <-.
    rewrite mdc_of_insert. destruct (decide (cslot = cslot)); [|congruence].
    unfold mdc_of. simpl. now rewrite Hm.
  - unfold ret in H. injection H as -> _. discriminate.
Qed.

Lemma mp_mdc_cend_ok cslot w w' :
  mp_mdc_cend cslot w = (0, w') ->
  mdc_cstarted (mdc_of w cslot) = true
  /\ mdc_of w' cslot = mk_mdc (mdc_nlog (mdc_of w cslot)) [] false.
Proof.
  unfold mp_mdc_cend. intros H. minv H.
  apply pop_oracle_frame in H0 as (Hm & _).
  unfold gets in H1. injection H1 as <- <-.
  unfold log_event, modify in H2. injection H2 as _ <-.
  assert (Hmdc : mdc_of w0 cslot = mdc_of w cslot)
    by (unfold mdc_of; now rewrite Hm).
  rewrite Hmdc in H.
  destruct (a =? 0) eqn:Ea.
  - destruct (mdc_cstarted (mdc_of w cslot)) eqn:Ec.
    + simpl in H. minv H. unfold mod_mdc, modify in H0. injection H0 as _ <-.
      unfold ret in H. injection H as <-. split; [reflexivity|].
      rewrite mdc_of_insert. destruct (decide (cslot = cslot)); [|congruence].
      unfold mdc_of. simpl. now rewrite Hm.
    + simpl in H. unfold ret in H. injection H as Hz _. discriminate.
  - rewrite Ea in H. unfold ret in H. injection H as -> _. discriminate.
Qed.

(** ** A successful turn of the compaction loop, step by step *)

Lemma ret_inv {A} (a b : A) w w' : ret a w = (b, w') -> a = b /\ w = w'.
Proof. unfold ret. now intros [= -> ->]. Qed.

Lemma compact_attempt_inv addrec cslot err w w' :
  compact_attempt addrec cslot err w = (0, w') ->
  exists wa wb wc wd we wf compacted total,
    (if negb (err =? 0) then mp_mdc_open cslot else ret err) w = (0, wa)
    /\ mp_mdc_cstart cslot wa = (0, wb)
    /\ (if upg_latest_ge_1_0_0_1
        then pmd_mdc_addrec_version_with addrec cslot else ret 0) wb = (0, wc)
    /\ (if negb (cslot =? 0) then pmd_log_non_mdc0_cobjs cslot
        else pmd_log_mdc0_cobjs_with addrec) wc = (0, wd)
    /\ pmd_log_all_mdc_cobjs cslot 0 0 wd = ((0, (compacted, total)), we)
    /\ mp_mdc_cend cslot we = (0, wf)
    /\ (if negb (cslot =? 0) then pmd_pre_compact_reset cslot compacted
        else ret tt) wf = (tt, w').
Proof.
  unfold compact_attempt. intros H.
  apply bind_inv in H as (e1 & wa & H1 & H).
  destruct (e1 =? 0) eqn:E1; simpl in H;
    [apply Z.eqb_eq in E1; subst e1
    | apply ret_inv in H as [-> _]; discriminate].
  apply bind_inv in H as (e2 & wb & H2 & H).
  destruct (e2 =? 0) eqn:E2; simpl in H;
    [apply Z.eqb_eq in E2; subst e2
    | apply ret_inv in H as [-> _]; discriminate].
  apply bind_inv in H as (e3 & wc & H3 & H).
  destruct (e3 =? 0) eqn:E3; simpl in H;
    [apply Z.eqb_eq in E3; subst e3 | ].
  2:{ apply bind_inv in H as (? & ? & _ & H).
      apply ret_inv in H as [-> _]. discriminate. }
  apply bind_inv in H as (e4 & wd & H4 & H).
  destruct (e4 =? 0) eqn:E4; simpl in H;
    [apply Z.eqb_eq in E4; subst e4
    | apply ret_inv in H as [-> _]; discriminate].
  apply bind_inv in H as ([e5 [compacted total]] & we & H5 & H).
  apply bind_inv in H as (e6 & wf & H6 & H).
  destruct (e6 =? 0) eqn:E6;
    [apply Z.eqb_eq in E6; subst e6
    | apply ret_inv in H as [-> _]; discriminate].
  apply bind_inv in H as ([] & wg & H7 & H).
  apply ret_inv in H as [_ <-].
  destruct (e5 =? 0) eqn:E5;
    [apply Z.eqb_eq in E5; subst e5
    | apply ret_inv in H6 as [-> _]; discriminate].
  exists wa, wb, wc, wd, we, wf, compacted, total.
  repeat split; assumption.
Qed.

(** The loop succeeds only through a turn that succeeds. *)
Lemma compact_loop_inv addrec
    (Hpres : forall c r, preserves compact_rel (addrec c r)) n cslot :
  forall err w w',
    compact_loop addrec n cslot err w = (0, w') ->
    (n = O /\ err = 0 /\ w' = w)
    \/ exists e wa, compact_rel w wa
                    /\ compact_attempt addrec cslot e wa = (0, w').
Proof.
  induction n as [|n IH]; intros err w w' H; simpl in H.
  - apply ret_inv in H as [-> ->]. now left.
  - right. apply bind_inv in H as (e & w1 & H1 & H).
    destruct (e =? 0) eqn:E.
    + apply Z.eqb_eq in E. subst e. apply ret_inv in H as [_ <-].
      exists err, w. split; [reflexivity | assumption].
    + apply IH in H as [(_ & -> & _) | (e' & wa & Hr & Ha)]; [discriminate|].
      exists e', wa. split; [|assumption].
      etransitivity; [|exact Hr].
      pose proof (pres_compact_attempt addrec Hpres cslot err w) as Hp.
      now rewrite H1 in Hp.
Qed.

Lemma pmd_mdc_compact_with_inv addrec
    (Hpres : forall c r, preserves compact_rel (addrec c r)) cslot w w' :
  pmd_mdc_compact_with addrec cslot w = (0, w') ->
  exists e wa, compact_rel w wa
               /\ compact_attempt addrec cslot e wa = (0, w').
Proof.
  intros H. apply compact_loop_inv in H as [(Hn & _) | H]; auto.
  discriminate.
Qed.

Lemma mdc_of_pre_compact_reset c w cslot compacted w' :
  (if negb (c =? 0) then pmd_pre_compact_reset c compacted else ret tt) w
  = (tt, w') ->
  mdc_of w' cslot = mdc_of w cslot.
Proof.
  destruct (negb (c =? 0)).
  - unfold pmd_pre_compact_reset, mod_cinfo, modify. now intros [= <-].
  - now intros [_ <-]%ret_inv.
Qed.

(** After a successful compaction no compaction is under way. *)
Lemma compact_attempt_cstarted addrec cslot err w w' :
  compact_attempt addrec cslot err w = (0, w') ->
  mdc_cstarted (mdc_of w' cslot) = false.
Proof.
  intros H. apply compact_attempt_inv in H
    as (wa & wb & wc & wd & we & wf & c & t & _ & _ & _ & _ & _ & H6 & H7).
  apply mp_mdc_cend_ok in H6 as [_ H6].
  apply mdc_of_pre_compact_reset with (cslot := cslot) in H7.
  now rewrite H7, H6.
Qed.

Lemma pmd_mdc_compact_cstarted cslot w w' :
  pmd_mdc_compact cslot w = (0, w') ->
  mdc_cstarted (mdc_of w' cslot) = false.
Proof.
  intros H. apply pmd_mdc_compact_with_inv in H as (e & wa & _ & H).
  - eapply compact_attempt_cstarted; eauto.
  - apply pres_pmd_mdc_addrec.
Qed.

(** A synchronous append that succeeds has pushed its record on the log
    the appends currently go to, unless it went through a compaction, in
    which case no compaction is under way any more. *)
Lemma pmd_mdc_addrec_ok cslot cdr w w' :
  pmd_mdc_addrec cslot cdr w = (0, w') ->
  mdc_of w' cslot = mdc_push (cdr_pack w cdr) (mdc_of w cslot)
  \/ mdc_cstarted (mdc_of w' cslot) = false.
Proof.
  rewrite pmd_mdc_addrec_unfold. intros H.
  apply bind_inv in H as (e1 & w1 & H1 & H).
  destruct (merr_errno e1 =? EFBIG) eqn:E1.
  - right. apply bind_inv in H as (e2 & w2 & H2 & H).
    destruct (e2 =? 0) eqn:E2.
    + apply Z.eqb_eq in E2. subst e2.
      apply pmd_mdc_compact_cstarted in H2.
      apply pmd_mdc_append_ok in H. rewrite H, mdc_cstarted_push. exact H2.
    + apply ret_inv in H as [-> _]. discriminate.
  - left. apply ret_inv in H as [-> <-].
    now apply pmd_mdc_append_ok in H1.
Qed.

(** ** The records a compaction writes *)

Lemma layout_of_heap w w1 lp :
  w_heap w1 = w_heap w -> layout_of w1 lp = layout_of w lp.
Proof. unfold layout_of. now intros ->. Qed.

Lemma not_mdc0log_nodes_heap w w1 nodes :
  w_heap w1 = w_heap w -> not_mdc0log_nodes w1 nodes = not_mdc0log_nodes w nodes.
Proof.
  intros H. unfold not_mdc0log_nodes.
  apply List.filter_ext. intros n. now rewrite (layout_of_heap w w1).
Qed.

Lemma ocreate_records_heap w w1 nodes :
  w_heap w1 = w_heap w -> ocreate_records w1 nodes = ocreate_records w nodes.
Proof.
  intros H. unfold ocreate_records. rewrite (not_mdc0log_nodes_heap w w1) by easy.
  apply map_ext. intros n. now rewrite (layout_of_heap w w1).
Qed.

Lemma compact_header_rel w w1 cslot :
  compact_rel w w1 -> compact_header w1 cslot = compact_header w cslot.
Proof.
  intros []. unfold compact_header.
  rewrite cr_pdv0, cr_mc0, cr_cfg0.
  now destruct (cr_slot0 cslot) as [_ _ _ -> _ _ _ _ _ _].
Qed.

Lemma compact_creates_rel w w1 cslot :
  compact_rel w w1 -> compact_creates w1 cslot = compact_creates w cslot.
Proof.
  intros []. unfold compact_creates.
  destruct (cr_slot0 cslot) as [-> _ _ _ _ _ _ _ _ _].
  now apply ocreate_records_heap.
Qed.

(** Use the relation a computation keeps at a run of it. *)
Ltac pres_at H :=
  match type of H with
  | ?m ?w = (_, ?w1) =>
      let Hr := fresh "Hrel" in
      assert (Hr : compact_rel w w1);
      [ let Hp := fresh in
        assert (Hp : preserves compact_rel m) by (pres; eauto with pmd_pres);
        specialize (Hp w); rewrite H in Hp; exact Hp
      | ]
  end.

Lemma log_all_mdc_cobjs_loop_ok cslot nodes :
  forall c t w c' t' w',
    0 <= c < 2 ^ 32 ->
    log_all_mdc_cobjs_loop cslot nodes c t w = ((0, (c', t')), w') ->
    mdc_of w' cslot = pushes (ocreate_records w nodes) (mdc_of w cslot)
    /\ c' = wrap_u32 (c + Z.of_nat (length (not_mdc0log_nodes w nodes))).
Proof.
  induction nodes as [|[k lp] rest IH]; intros c t w c' t' w' Hc H.
  - simpl in H. apply ret_inv in H as [[= <- <-] <-]. split; [reflexivity|].
    simpl. rewrite Z.add_0_r. symmetry. now apply wrap_u32_small.
  - simpl in H. apply bind_inv in H as (l & w0 & Hl & H).
    unfold get_layout, gets in Hl. injection Hl as <- <-.
    unfold ocreate_records, not_mdc0log_nodes. simpl.
    destruct (negb (objid_mdc0log (eld_objid (layout_of w lp)))) eqn:Em.
    + apply bind_inv in H as (e & w1 & Ha & H).
      destruct (e =? 0) eqn:Ee; simpl in H.
      2:{ apply ret_inv in H as [[= -> _ _] _]. discriminate. }
      apply Z.eqb_eq in Ee. subst e.
      pres_at Ha. apply pmd_mdc_append_ok in Ha.
      apply IH in H as [Hm Hcnt].
      2:{ unfold wrap_u32. apply Z.mod_pos_bound. lia. }
      destruct Hrel.
      rewrite (ocreate_records_heap w w1) in Hm by assumption.
      rewrite (not_mdc0log_nodes_heap w w1) in Hcnt by assumption.
      split.
      * simpl. rewrite Hm, Ha. reflexivity.
      * rewrite Hcnt. simpl length. unfold wrap_u32, not_mdc0log_nodes.
        rewrite Zplus_mod_idemp_l. f_equal. lia.
    + apply IH in H as [Hm Hcnt]; [|assumption]. now split.
Qed.

Lemma pmd_log_all_mdc_cobjs_ok cslot w c t w' :
  pmd_log_all_mdc_cobjs cslot 0 0 w = ((0, (c, t)), w') ->
  mdc_of w' cslot = pushes (compact_creates w cslot) (mdc_of w cslot)
  /\ c = wrap_u32 (Z.of_nat (length
         (not_mdc0log_nodes w (rb_walk (mmi_obj (cinfo_of w cslot)))))).
Proof.
  unfold pmd_log_all_mdc_cobjs. intros H.
  apply bind_inv in H as (ci & w0 & Hc & H).
  unfold get_cinfo, gets in Hc. injection Hc as <- <-.
  apply log_all_mdc_cobjs_loop_ok in H; [|lia]. exact H.
Qed.

Lemma pmd_log_non_mdc0_cobjs_ok cslot w w' :
  pmd_log_non_mdc0_cobjs cslot w = (0, w') ->
  mdc_of w' cslot
  = pushes [MDR_OIDCKPT (mmi_lckpt (cinfo_of w cslot))] (mdc_of w cslot).
Proof.
  unfold pmd_log_non_mdc0_cobjs. intros H.
  apply bind_inv in H as (ci & w0 & Hc & H).
  unfold get_cinfo, gets in Hc. injection Hc as <- <-.
  now apply pmd_mdc_append_ok in H.
Qed.

Section Mdc0Header.

Variable addrec : Z -> omf_mdcrec_data -> M merr_t.
Hypothesis pres_addrec :
  forall cslot cdr, preserves compact_rel (addrec cslot cdr).

Hint Resolve pres_addrec pres_log_mdc0_pdv_loop pres_log_mdc0_mc_loop
  : pmd_pres.

Lemma log_mdc0_pdv_loop_ok pdv :
  forall w w',
    log_mdc0_pdv_loop addrec pdv w = (0, w') ->
    mdc_of w' 0
    = pushes (map MDR_MCCONFIG
                (List.filter (fun pd =>
                   negb (bool_decide (pdi_state pd = OMF_PD_DEFUNCT))) pdv))
             (mdc_of w 0).
Proof.
  induction pdv as [|pd rest IH]; intros w w' H; simpl in H.
  - apply ret_inv in H as [_ <-]. reflexivity.
  - simpl. destruct (negb (bool_decide (pdi_state pd = OMF_PD_DEFUNCT))).
    + apply bind_inv in H as (e & w1 & Ha & H).
      destruct (e =? 0) eqn:Ee; simpl in H.
      2:{ apply ret_inv in H as [-> _]. discriminate. }
      apply Z.eqb_eq in Ee. subst e.
      unfold pmd_prop_mcconfig_with in Ha. apply pmd_mdc_append_ok in Ha.
      apply IH in H. simpl. now rewrite H, Ha.
    + now apply IH.
Qed.

Lemma log_mdc0_mc_loop_ok mcs :
  forall w w',
    log_mdc0_mc_loop addrec mcs w = (0, w') ->
    mdc_of w' 0
    = pushes (map (fun mc => MDR_MCSPARE (mcp_classp mc) (mcsp_spzone mc))
                (List.filter (fun mc => 0 <=? mc_pdmc mc) mcs))
             (mdc_of w 0).
Proof.
  induction mcs as [|mc rest IH]; intros w w' H; simpl in H.
  - apply ret_inv in H as [_ <-]. reflexivity.
  - simpl. destruct (0 <=? mc_pdmc mc).
    + apply bind_inv in H as (e & w1 & Ha & H).
      destruct (e =? 0) eqn:Ee; simpl in H.
      2:{ apply ret_inv in H as [-> _]. discriminate. }
      apply Z.eqb_eq in Ee. subst e.
      unfold pmd_prop_mcspare_with in Ha.
      destruct (_ || _).
      { apply ret_inv in Ha as [Ha _]. discriminate. }
      apply pmd_mdc_append_ok in Ha.
      apply IH in H. simpl. now rewrite H, Ha.
    + now apply IH.
Qed.

Lemma pmd_log_mdc0_cobjs_with_ok w w' :
  pmd_log_mdc0_cobjs_with addrec w = (0, w') ->
  mdc_of w' 0 = pushes (compact_header w 0) (mdc_of w 0).
Proof.
  unfold pmd_log_mdc0_cobjs_with. intros H.
  apply bind_inv in H as (pdv & w0 & Hg & H).
  unfold gets in Hg. injection Hg as <- <-.
  apply bind_inv in H as (e1 & w1 & H1 & H).
  destruct (e1 =? 0) eqn:E1; simpl in H.
  2:{ apply ret_inv in H as [-> _]. discriminate. }
  apply Z.eqb_eq in E1. subst e1.
  apply bind_inv in H as (mcs & w0 & Hg & H).
  unfold gets in Hg. injection Hg as <- <-.
  apply bind_inv in H as (e2 & w2 & H2 & H).
  destruct (e2 =? 0) eqn:E2; simpl in H.
  2:{ apply ret_inv in H as [-> _]. discriminate. }
  apply Z.eqb_eq in E2. subst e2.
  apply bind_inv in H as (cfg & w0 & Hg & H).
  unfold gets in Hg. injection Hg as <- <-.
  apply bind_inv in H as (e3 & w3 & H3 & H).
  destruct (e3 =? 0) eqn:E3; simpl in H.
  2:{ apply ret_inv in H as [-> _]. discriminate. }
  apply Z.eqb_eq in E3. subst e3.
  apply ret_inv in H as [_ <-].
  pres_at H1. pres_at H2.
  apply log_mdc0_pdv_loop_ok in H1. apply log_mdc0_mc_loop_ok in H2.
  unfold pmd_prop_mpconfig_with in H3. apply pmd_mdc_append_ok in H3.
  unfold compact_header. simpl.
  rewrite !pushes_app. rewrite <- H1.
  destruct Hrel, Hrel0.
  rewrite <- cr_mc0, <- H2. simpl in H3.
  rewrite H3. simpl. now rewrite cr_cfg1, cr_cfg0.
Qed.

End Mdc0Header.

Lemma compact_attempt_image cslot err w w' :
  compact_attempt pmd_mdc_addrec cslot err w = (0, w') ->
  mdc_of w' cslot
  = mk_mdc (compact_version ++ compact_header w cslot
            ++ compact_creates w cslot) [] false
  /\ (cslot <> 0 ->
      let compacted :=
        wrap_u32 (Z.of_nat (length
          (not_mdc0log_nodes w (rb_walk (mmi_obj (cinfo_of w cslot)))))) in
      let p := mmi_pco_cnt (cinfo_of w' cslot) in
      pcc_cr p = atomic_set compacted /\ pcc_cobj p = atomic_set compacted
      /\ pcc_up p = 0 /\ pcc_del p = 0 /\ pcc_er p = 0).
Proof.
  intros H. apply compact_attempt_inv in H
    as (wa & wb & wc & wd & we & wf & c & t
        & H1 & H2 & H3 & H4 & H5 & H6 & H7).
  assert (Ra : compact_rel w wa).
  { destruct (negb (err =? 0)); [now pres_at H1|].
    apply ret_inv in H1 as [_ <-]. reflexivity. }
  pres_at H2.
  assert (Rc : compact_rel wb wc).
  { destruct upg_latest_ge_1_0_0_1.
    - unfold pmd_mdc_addrec_version_with in H3. now pres_at H3.
    - apply ret_inv in H3 as [_ <-]. reflexivity. }
  assert (Rd : compact_rel wc wd).
  { destruct (negb (cslot =? 0)); [now pres_at H4|].
    pose proof (pres_log_mdc0_cobjs_with _ pres_pmd_mdc_addrec wc) as Hp.
    now rewrite H4 in Hp. }
  pres_at H5.
  assert (Rwd : compact_rel w wd).
  { etransitivity; [exact Ra|]. etransitivity; [exact Hrel|].
    etransitivity; [exact Rc | exact Rd]. }
  assert (Rwc : compact_rel w wc).
  { etransitivity; [exact Ra|]. etransitivity; [exact Hrel | exact Rc]. }
  (* the logs *)
  apply mp_mdc_cstart_ok in H2.
  assert (Hhdr : mdc_of wd cslot = pushes (compact_header w cslot) (mdc_of wc cslot)).
  { rewrite <- (compact_header_rel w wc) by assumption.
    unfold compact_header.
    destruct (cslot =? 0) eqn:E0; simpl in H4.
    - apply Z.eqb_eq in E0. subst cslot.
      apply pmd_log_mdc0_cobjs_with_ok in H4; [|apply pres_pmd_mdc_addrec].
      unfold compact_header in H4. exact H4.
    - now apply pmd_log_non_mdc0_cobjs_ok in H4. }
  apply pmd_log_all_mdc_cobjs_ok in H5 as [Hcr Hc].
  rewrite (compact_creates_rel w wd) in Hcr by assumption.
  apply mp_mdc_cend_ok in H6 as [Hst Hend].
  assert (Hstc : mdc_cstarted (mdc_of wc cslot) = true).
  { rewrite Hcr, Hhdr in Hst. now rewrite !mdc_cstarted_pushes in Hst. }
  assert (Hver : mdc_of wc cslot
                 = mk_mdc (mdc_alog (mdc_of wa cslot)) compact_version true).
  { unfold compact_version. destruct upg_latest_ge_1_0_0_1.
    - unfold pmd_mdc_addrec_version_with in H3.
      apply pmd_mdc_addrec_ok in H3 as [H3 | H3]; [|congruence].
      rewrite H3, H2. reflexivity.
    - apply ret_inv in H3 as [_ <-]. exact H2. }
  split.
  - rewrite (mdc_of_pre_compact_reset _ _ _ _ _ H7), Hend, Hcr, Hhdr, Hver.
    rewrite <- !pushes_app, pushes_cstarted. reflexivity.
  - intros Hne. apply Z.eqb_neq in Hne. rewrite Hne in H7. simpl in H7.
    unfold pmd_pre_compact_reset, mod_cinfo, modify in H7.
    injection H7 as <-. rewrite cinfo_of_upd_slot_eq. simpl.
    rewrite Hc.
    destruct Rwd as [_ _ Hheap _ _ _ _ _ _ _ _ _ _ _ Hslot].
    destruct (Hslot cslot) as [-> _ _ _ _ _ _ _ _ _].
    rewrite (not_mdc0log_nodes_heap w wd) by assumption.
    repeat split; reflexivity.
Qed.

(** ** The walk of a tree *)

Global Instance objid_le_total : Total objid_le.
Proof. intros a b. unfold objid_le. lia. Qed.

Global Instance objid_le_trans : Transitive objid_le.
Proof. intros a b c. unfold objid_le. lia. Qed.

Lemma rb_walk_perm (root : gmap Z lptr) : rb_walk root ≡ₚ map_to_list root.
Proof. unfold rb_walk. apply merge_sort_Permutation. Qed.

Lemma rb_walk_sorted (root : gmap Z lptr) :
  StronglySorted (fun a b => a.1 < b.1) (rb_walk root).
Proof.
  assert (Hs : StronglySorted objid_le (rb_walk root))
    by (apply StronglySorted_merge_sort; apply _).
  assert (Hn : NoDup (rb_walk root).*1).
  { rewrite (rb_walk_perm root). apply NoDup_fst_map_to_list. }
  induction Hs as [|a l Hs IH Hall]; [constructor|].
  simpl in Hn. apply NoDup_cons in Hn as [Hnotin Hn].
  constructor; [now apply IH|].
  apply Forall_forall. intros b Hb.
  rewrite Forall_forall in Hall. specialize (Hall b Hb). unfold objid_le in Hall.
  assert (a.1 <> b.1).
  { intros E. apply Hnotin. rewrite E. apply list_elem_of_fmap. now exists b. }
  lia.
Qed.

(** ** Compaction *)

(** C2: a successful compaction of slot [cslot] leaves in the new active
    log a VERSION record, then the records particular to the slot (for a
    user MDC one OIDCKPT carrying [lckpt]; for MDC0 the MCCONFIG, MCSPARE
    and MPCONFIG property records), then exactly one OCREATE for every
    member of the committed map whose object id is not an mlog of MDC0,
    the members being taken in object-id order. *)
Theorem pmd_mdc_compact_active_log cslot w w' :
  upg_latest_ge_1_0_0_1 = true ->
  pmd_mdc_compact cslot w = (0, w') ->
  let nodes := rb_walk (mmi_obj (cinfo_of w cslot)) in
  mdc_of w' cslot
  = mk_mdc (MDR_VERSION upg_mdccver_latest
            :: compact_header w cslot ++ ocreate_records w nodes) [] false
  /\ nodes ≡ₚ map_to_list (mmi_obj (cinfo_of w cslot))
  /\ StronglySorted (fun a b => a.1 < b.1) nodes.
Proof.
  intros Hv H nodes.
  split; [|split; [apply rb_walk_perm | apply rb_walk_sorted]].
  apply pmd_mdc_compact_with_inv in H as (e & wa & Hrel & H);
    [|apply pres_pmd_mdc_addrec].
  apply compact_attempt_image in H as [H _].
  rewrite H. unfold compact_version. rewrite Hv.
  rewrite (compact_header_rel w wa), (compact_creates_rel w wa) by assumption.
  reflexivity.
Qed.

Lemma objid_mdc0log_slot objid :
  objid_mdc0log objid = true -> objid_slot objid = 0.
Proof.
  unfold objid_mdc0log. intros H.
  apply orb_true_iff in H as [H | H]; apply Z.eqb_eq in H; subst objid;
    reflexivity.
Qed.

Lemma ocreates_of_ocreate_records w nodes :
  ocreates_of (ocreate_records w nodes) = ocreate_records w nodes.
Proof.
  unfold ocreate_records. induction (not_mdc0log_nodes w nodes) as [|n l IH].
  - reflexivity.
  - simpl. now rewrite IH.
Qed.

Lemma ocreates_of_app l1 l2 :
  ocreates_of (l1 ++ l2) = ocreates_of l1 ++ ocreates_of l2.
Proof. apply List.filter_app. Qed.

Lemma ocreates_of_version : ocreates_of compact_version = [].
Proof. unfold compact_version. now destruct upg_latest_ge_1_0_0_1. Qed.

Lemma ocreates_of_header w cslot :
  cslot <> 0 -> ocreates_of (compact_header w cslot) = [].
Proof.
  intros H. apply Z.eqb_neq in H. unfold compact_header. now rewrite H.
Qed.

Lemma not_mdc0log_nodes_all w cslot nodes :
  cslot <> 0 ->
  (forall n, n ∈ nodes -> objid_slot (eld_objid (layout_of w n.2)) = cslot) ->
  not_mdc0log_nodes w nodes = nodes.
Proof.
  intros Hne. induction nodes as [|n l IH]; intros H; [reflexivity|].
  unfold not_mdc0log_nodes. simpl.
  destruct (objid_mdc0log (eld_objid (layout_of w n.2))) eqn:E.
  - apply objid_mdc0log_slot in E. rewrite (H n) in E by left. contradiction.
  - simpl. f_equal. apply IH. intros n' Hn'. apply H. now right.
Qed.

(** C9, for the user MDCs: immediately after a successful compaction of a
    slot [cslot > 0] whose committed map holds objects of that slot only,
    [pcc_cobj] is the size of the committed map, [pcc_cr] equals it, both
    are the number of OCREATE records the compaction wrote, and [pcc_up],
    [pcc_del] and [pcc_er] are zero.  (The counters are 32-bit: the map
    has less than 2^31 members.) *)
Theorem pmd_mdc_compact_counters cslot w w' :
  cslot <> 0 ->
  map_Forall (fun _ lp => objid_slot (eld_objid (layout_of w lp)) = cslot)
             (mmi_obj (cinfo_of w cslot)) ->
  Z.of_nat (size (mmi_obj (cinfo_of w cslot))) < 2 ^ 31 ->
  pmd_mdc_compact cslot w = (0, w') ->
  let p := mmi_pco_cnt (cinfo_of w' cslot) in
  mmi_obj (cinfo_of w' cslot) = mmi_obj (cinfo_of w cslot)
  /\ pcc_cobj p = Z.of_nat (size (mmi_obj (cinfo_of w' cslot)))
  /\ pcc_cr p = pcc_cobj p
  /\ pcc_cobj p
     = Z.of_nat (length (ocreates_of (mdc_alog (mdc_of w' cslot))))
  /\ pcc_up p = 0 /\ pcc_del p = 0 /\ pcc_er p = 0.
Proof.
  intros Hne Hown Hsz H p.
  pres_at H. destruct Hrel as [_ _ _ _ _ _ _ _ _ _ _ _ _ _ Hslot].
  destruct (Hslot cslot) as [Hobj _ _ _ _ _ _ _ _ _].
  apply pmd_mdc_compact_with_inv in H as (e & wa & Hrel & H);
    [|apply pres_pmd_mdc_addrec].
  apply compact_attempt_image in H as [Hlog Hcnt].
  specialize (Hcnt Hne). simpl in Hcnt.
  destruct Hcnt as (Hcr & Hcobj & Hup & Hdel & Her).
  destruct Hrel as [_ _ Hheap _ _ _ _ _ _ _ _ _ _ _ Hslota].
  destruct (Hslota cslot) as [Hobja Hunc Hlu Hlck _ _ _ _ _ _].
  assert (Hall : not_mdc0log_nodes wa (rb_walk (mmi_obj (cinfo_of wa cslot)))
                 = rb_walk (mmi_obj (cinfo_of w cslot))).
  { rewrite Hobja. apply (not_mdc0log_nodes_all wa cslot); [assumption|].
    intros [k lp] Hin. rewrite (layout_of_heap w wa) by assumption.
    apply (Hown k). simpl.
    rewrite (rb_walk_perm (mmi_obj (cinfo_of w cslot))) in Hin.
    now apply elem_of_map_to_list in Hin. }
  assert (Hlen : Z.of_nat (length (rb_walk (mmi_obj (cinfo_of w cslot))))
                 = Z.of_nat (size (mmi_obj (cinfo_of w cslot)))).
  { rewrite (rb_walk_perm (mmi_obj (cinfo_of w cslot))).
    now rewrite length_map_to_list. }
  rewrite Hall, Hlen in Hcr, Hcobj.
  unfold atomic_set in Hcr, Hcobj.
  rewrite wrap_u32_small, wrap_s32_small in Hcr, Hcobj by lia.
  subst p. rewrite Hobj.
  repeat split; try assumption; try congruence.
  rewrite Hcobj, Hlog. simpl mdc_alog.
  rewrite !ocreates_of_app, ocreates_of_version.
  rewrite ocreates_of_header by assumption.
  unfold compact_creates. rewrite ocreates_of_ocreate_records.
  unfold ocreate_records. rewrite Hall. simpl.
  now rewrite length_map, Hlen.
Qed.

(** ** The append path *)

Lemma cdr_pack_heap w w1 cdr :
  w_heap w1 = w_heap w -> cdr_pack w1 cdr = cdr_pack w cdr.
Proof.
  intros H. destruct cdr; simpl; try reflexivity.
  now rewrite (layout_of_heap w w1).
Qed.

Lemma pmd_mdc_append_packed cslot cdr sync w :
  0 <= omf_mdcrec_pack_htole (cdr_pack w cdr) ->
  pmd_mdc_append cslot cdr sync w = mp_mdc_append cslot (cdr_pack w cdr) sync w.
Proof.
  intros H. unfold pmd_mdc_append, bind, gets.
  destruct (_ <? 0) eqn:E; [|reflexivity].
  apply Z.ltb_lt in E. lia.
Qed.

(** C6, as the code has it: a record that packs is appended once; when
    that append reports a full log the compactor of the slot runs, and the
    append is made again, exactly once, if and only if the compaction
    succeeded.  The error of the compaction, any other error of the first
    append, and whatever the second append returns go back to the caller
    with no further attempt. *)
Theorem pmd_mdc_addrec_compact_retry cslot cdr w e1 w1 :
  0 <= omf_mdcrec_pack_htole (cdr_pack w cdr) ->
  mp_mdc_append cslot (cdr_pack w cdr) true w = (e1, w1) ->
  (merr_errno e1 <> EFBIG /\ pmd_mdc_addrec cslot cdr w = (e1, w1))
  \/ (merr_errno e1 = EFBIG
      /\ exists e2 w2,
           pmd_mdc_compact cslot w1 = (e2, w2)
           /\ ((e2 <> 0 /\ pmd_mdc_addrec cslot cdr w = (e2, w2))
               \/ (e2 = 0
                   /\ pmd_mdc_addrec cslot cdr w
                      = mp_mdc_append cslot (cdr_pack w cdr) true w2))).
Proof.
  intros Hp H1.
  pose proof (pmd_mdc_addrec_unfold cslot cdr w) as Hu.
  unfold bind in Hu.
  rewrite (pmd_mdc_append_packed _ _ _ _ Hp), H1 in Hu.
  destruct (merr_errno e1 =? EFBIG) eqn:E1.
  - right. apply Z.eqb_eq in E1. split; [assumption|].
    destruct (pmd_mdc_compact cslot w1) as [e2 w2] eqn:H2.
    exists e2, w2. split; [reflexivity|].
    destruct (e2 =? 0) eqn:E2.
    + right. apply Z.eqb_eq in E2. split; [assumption|].
      pres_at H2. pres_at H1.
      destruct Hrel as [_ _ Hh _ _ _ _ _ _ _ _ _ _ _ _].
      destruct Hrel0 as [_ _ Hh0 _ _ _ _ _ _ _ _ _ _ _ _].
      rewrite Hu. rewrite <- (cdr_pack_heap w w2 cdr) by congruence.
      apply pmd_mdc_append_packed.
      rewrite (cdr_pack_heap w w2 cdr) by congruence. assumption.
    + left. apply Z.eqb_neq in E2. now split.
  - left. apply Z.eqb_neq in E1. now split.
Qed.

(** ** Object ids *)

Lemma land_shiftl_low u k m :
  0 <= k -> 0 <= m < 2 ^ k -> Z.land (Z.shiftl u k) m = 0.
Proof.
  intros Hk Hm. apply Z.bits_inj'. intros n Hn.
  rewrite Z.land_spec, Z.bits_0.
  destruct (Z.lt_ge_cases n k) as [Hlt | Hge].
  - rewrite Z.shiftl_spec_low by assumption. reflexivity.
  - assert (Z.testbit m n = false) as ->; [|apply andb_false_r].
    destruct (Z.eq_dec m 0) as [-> | Hm0]; [apply Z.bits_0|].
    apply Z.bits_above_log2; [lia|].
    apply Z.log2_lt_pow2; [lia|].
    apply Z.lt_le_trans with (2 ^ k); [lia|].
    apply Z.pow_le_mono_r; lia.
Qed.

Lemma objid_slot_make uniq otype cslot :
  0 <= cslot < 256 -> objid_slot (objid_make uniq otype cslot) = cslot.
Proof.
  intros Hs. unfold objid_slot, objid_make, wrap_u64.
  rewrite <- Z.land_ones by lia.
  rewrite <- Z.land_assoc. change (Z.land (Z.ones 64) 255) with 255.
  rewrite !Z.land_lor_distr_l.
  rewrite land_shiftl_low by lia.
  rewrite <- !Z.land_assoc.
  change (Z.land 3840 255) with 0. change (Z.land 255 255) with 255.
  rewrite Z.land_0_r. simpl.
  change 255 with (Z.ones 8). rewrite Z.land_ones by lia.
  apply Z.mod_small. lia.
Qed.

Lemma objid_uniq_make uniq otype cslot :
  0 <= uniq < 2 ^ 52 -> objid_uniq (objid_make uniq otype cslot) = uniq.
Proof.
  intros Hu. unfold objid_uniq, objid_make, wrap_u64.
  apply Z.bits_inj'. intros n Hn.
  rewrite Z.shiftr_spec by assumption.
  assert (Hhigh : 52 <= n -> Z.testbit uniq n = false).
  { intros H52. destruct (Z.eq_dec uniq 0) as [-> | Hu0]; [apply Z.bits_0|].
    apply Z.bits_above_log2; [lia|].
    apply Z.lt_le_trans with 52; [|assumption].
    apply Z.log2_lt_pow2; lia. }
  destruct (Z.lt_ge_cases (n + 12) 64) as [Hlt | Hge].
  - rewrite Z.mod_pow2_bits_low by assumption.
    rewrite !Z.lor_spec, !Z.land_spec.
    rewrite Z.shiftl_spec by lia.
    replace (n + 12 - 12) with n by lia.
    assert (Z.testbit 3840 (n + 12) = false) as ->
      by (apply Z.bits_above_log2; simpl; lia).
    assert (Z.testbit 255 (n + 12) = false) as ->
      by (apply Z.bits_above_log2; simpl; lia).
    now rewrite !andb_false_r, !orb_false_r.
  - rewrite Z.mod_pow2_bits_high by lia.
    symmetry. apply Hhigh. lia.
Qed.

(** An object id is a checkpoint id exactly when its unique id is a
    multiple of [OBJID_UNIQ_DELTA]. *)
Lemma objid_ckpt_make uniq otype cslot :
  0 <= uniq < 2 ^ 52 ->
  objid_ckpt (objid_make uniq otype cslot)
  = (uniq mod OBJID_UNIQ_DELTA =? 0).
Proof.
  intros Hu. unfold objid_ckpt. rewrite objid_uniq_make by assumption.
  unfold OBJID_UNIQ_DELTA. change (256 - 1) with (Z.ones 8).
  rewrite Z.land_ones by lia. reflexivity.
Qed.

(** ** Running the code by hand *)

(** From [H : m w = (a, w')] with [m] a step that only reads or writes the
    state, get [a] and [w']. *)
Ltac mprim H :=
  match type of H with
  | ret _ _ = _ => unfold ret in H
  | gets _ _ = _ => unfold gets in H
  | get_layout _ _ = _ => unfold get_layout, gets in H
  | get_cinfo _ _ = _ => unfold get_cinfo, gets in H
  | modify _ _ = _ => unfold modify in H
  | lock _ _ = _ => unfold lock, modify in H
  | unlock _ _ = _ => unfold unlock, modify in H
  | mod_layout _ _ _ = _ => unfold mod_layout, modify in H
  | mod_cinfo _ _ _ = _ => unfold mod_cinfo, modify in H
  | mod_mdc _ _ _ = _ => unfold mod_mdc, modify in H
  | log_event _ _ = _ => unfold log_event, modify in H
  | ecio_layout_free _ _ = _ => unfold ecio_layout_free, modify in H
  end;
  match type of H with
  | (_, _) = (?a, ?w) =>
      first [ is_var a; is_var w; injection H as <- <-
            | is_var w; injection H as ? <-
            | injection H as ? ? ]
  end.

(** Run [H : (m ;; k) w = r] through as many such steps as come first. *)
Ltac mexec H :=
  repeat (let a := fresh "a" in let w := fresh "w" in
          let H1 := fresh "Hs" in
          apply bind_inv in H as (a & w & H1 & H);
          mprim H1).

(** The next step is a call: name its result, its final state and the
    equation. *)
Tactic Notation "mcall" hyp(H) "as" simple_intropattern(a)
    simple_intropattern(w) simple_intropattern(Hc) :=
  apply bind_inv in H as (a & w & Hc & H).

(** ** Commit *)

Lemma remove_first_cons l ls : remove_first l (l :: ls) = ls.
Proof. simpl. now destruct (decide (l = l)). Qed.

Arguments remove_first : simpl never.

Lemma world_eta w :
  mk_world (w_mp w) (w_heap w) (w_brk w) (w_zone w) (w_mdc w) (w_erase_wq w)
           (w_held w) (w_oracle w) (w_trace w) = w.
Proof. now destruct w. Qed.

Lemma lock_unlock l w : unlock l (set_w_held (cons l) w) = (tt, w).
Proof.
  unfold unlock, modify, set_w_held. simpl.
  rewrite remove_first_cons. now rewrite world_eta.
Qed.

(** Committing a layout of a user
    type whose state has the COMMITTED bit returns success and changes
    nothing: no call to the log, the committed and uncommitted maps, the
    statistics and the counters as they were. *)
Lemma pmd_obj_commit_committed lp w :
  objtype_user (objid_type (eld_objid (layout_of w lp))) = true ->
  lyt_committed (layout_of w lp) = true ->
  pmd_obj_commit lp w = (0, w).
Proof.
  intros Hu Hc. unfold pmd_obj_commit.
  unfold bind at 1. unfold lock at 1, modify at 1.
  unfold bind at 1. unfold get_layout at 1, gets at 1.
  change (layout_of (set_w_held (cons (L_rwlock lp)) w) lp)
    with (layout_of w lp).
  rewrite Hu, Hc. cbn [negb].
  unfold bind, ret. rewrite (lock_unlock (L_rwlock lp) w). reflexivity.
Qed.

Lemma lyt_committed_state_set l :
  lyt_committed (state_set ECIO_LYT_COMMITTED l) = true.
Proof.
  unfold lyt_committed, state_set, set_eld_state, ECIO_LYT_COMMITTED. simpl.
  rewrite Z.land_lor_distr_l. change (Z.land 1 1) with 1.
  destruct (Z.lor (Z.land (eld_state l) 1) 1 =? 0) eqn:E; [|reflexivity].
  apply Z.eqb_eq in E. apply Z.lor_eq_0_iff in E as [_ E]. discriminate.
Qed.

Lemma pmd_update_mdc_stats_heap lp cslot op w e w1 :
  pmd_update_mdc_stats lp cslot op w = (e, w1) -> w_heap w1 = w_heap w.
Proof.
  unfold pmd_update_mdc_stats. intros H. mexec H. mprim H. reflexivity.
Qed.

Lemma tree_insert_obj_heap cslot objid lp w r w1 :
  tree_insert_obj cslot objid lp w = (r, w1) -> w_heap w1 = w_heap w.
Proof.
  unfold tree_insert_obj. intros H. mexec H.
  destruct (objid_to_layout_insert_mdc _ _ _) as [[f|] root].
  - now mprim H.
  - mexec H. now mprim H.
Qed.

Lemma tree_insert_uncobj_heap cslot objid lp w r w1 :
  tree_insert_uncobj cslot objid lp w = (r, w1) -> w_heap w1 = w_heap w.
Proof.
  unfold tree_insert_uncobj. intros H. mexec H.
  destruct (objid_to_layout_insert_mdc _ _ _) as [[f|] root].
  - now mprim H.
  - mexec H. now mprim H.
Qed.

(** A commit that goes through sets the COMMITTED bit of the layout and
    leaves the other layouts alone. *)
Lemma pmd_obj_commit_heap lp w w1 :
  lyt_committed (layout_of w lp) = false ->
  pmd_obj_commit lp w = (0, w1) ->
  w_heap w1 = alter (state_set ECIO_LYT_COMMITTED) lp (w_heap w).
Proof.
  intros Hc H. unfold pmd_obj_commit in H. mexec H.
  change (layout_of (set_w_held (cons (L_rwlock lp)) w) lp)
    with (layout_of w lp) in H.
  destruct (negb (objtype_user _)).
  { mexec H. mprim H. discriminate. }
  rewrite Hc in H. mexec H.
  mcall H as e wb Hlog.
  unfold pmd_log_create in Hlog. mexec Hlog.
  pres_at Hlog. destruct Hrel as [_ _ Hheap _ _ _ _ _ _ _ _ _ _ _ _].
  simpl in Hheap.
  mcall H as e' wc Hins.
  destruct (e =? 0) eqn:Ee.
  2:{ mprim Hins. mexec H. apply Z.eqb_neq in Ee.
      destruct (e =? 0) eqn:Ee'; [apply Z.eqb_eq in Ee'; congruence|].
      mexec H. mprim H. congruence. }
  mexec Hins.
  mcall Hins as u wd Hunc.
  assert (Hd : w_heap wd = alter (state_set ECIO_LYT_COMMITTED) lp (w_heap w)).
  { destruct (objid_to_layout_search_mdc _ _); mprim Hunc; simpl;
      now rewrite Hheap. }
  mexec Hins.
  mcall Hins as found we Htree.
  apply tree_insert_obj_heap in Htree. simpl in Htree.
  mexec Hins.
  assert (Hc' : w_heap wc = w_heap we).
  { destruct found.
    - mexec Hins. mcall Hins as d wf Hdup.
      apply tree_insert_uncobj_heap in Hdup. mexec Hins. mprim Hins.
      simpl in *. congruence.
    - mexec Hins. now mprim Hins. }
  mexec H. mcall H as s wg Hst.
  assert (Hg : w_heap wg = w_heap wc).
  { destruct (e' =? 0).
    - apply pmd_update_mdc_stats_heap in Hst. simpl in Hst. congruence.
    - now mprim Hst. }
  mprim H. congruence.
Qed.

Lemma layout_of_alter f lp w h :
  is_Some (h !! lp) ->
  w_heap w = alter f lp h -> layout_of w lp = f (h !!! lp).
Proof.
  intros [l Hl] Hw. unfold layout_of. rewrite Hw.
  rewrite !lookup_total_alt, lookup_alter_eq, Hl. reflexivity.
Qed.

(** C8: on a layout whose state has the COMMITTED bit, [pmd_obj_commit]
    returns success and leaves the whole state as it was: nothing is
    appended to a log, the committed and uncommitted maps, the statistics
    and the counters do not change.  Hence a second commit, after a first
    one that succeeded, is not to be told from the first alone.  The
    layouts are those of the objects the commit is for, mblocks and
    mlogs; the refusal of any other type is a step of its own, taken
    before the COMMITTED bit is looked at. *)
Theorem pmd_obj_commit_idempotent lp w :
  objtype_user (objid_type (eld_objid (layout_of w lp))) = true ->
  (lyt_committed (layout_of w lp) = true -> pmd_obj_commit lp w = (0, w))
  /\ (forall w1, is_Some (w_heap w !! lp) ->
                 pmd_obj_commit lp w = (0, w1) ->
                 pmd_obj_commit lp w1 = (0, w1)).
Proof.
  intros Hu. split; [now apply pmd_obj_commit_committed|].
  intros w1 Hin H.
  destruct (lyt_committed (layout_of w lp)) eqn:Hc.
  - rewrite (pmd_obj_commit_committed lp w Hu Hc) in H.
    injection H as <-. now apply pmd_obj_commit_committed.
  - apply pmd_obj_commit_heap in H; [|assumption].
    pose proof (layout_of_alter _ _ _ _ Hin H) as Hl.
    fold (layout_of w lp) in Hl.
    apply pmd_obj_commit_committed; rewrite Hl.
    + exact Hu.
    + apply lyt_committed_state_set.
Qed.

(** On a layout that is not of a user type the commit is refused, be the
    COMMITTED bit set or not; the state is left as it was there too. *)
Lemma pmd_obj_commit_not_user lp w :
  objtype_user (objid_type (eld_objid (layout_of w lp))) = false ->
  pmd_obj_commit lp w = (merr EINVAL, w).
Proof.
  intros Hu. unfold pmd_obj_commit.
  unfold bind at 1. unfold lock at 1, modify at 1.
  unfold bind at 1. unfold get_layout at 1, gets at 1.
  change (layout_of (set_w_held (cons (L_rwlock lp)) w) lp)
    with (layout_of w lp).
  rewrite Hu. cbn [negb].
  unfold bind, ret. rewrite (lock_unlock (L_rwlock lp) w). reflexivity.
Qed.

(** ** Delete *)

Lemma pmd_mdc_append_mp cslot cdr sync w e w1 :
  pmd_mdc_append cslot cdr sync w = (e, w1) ->
  w_mp w1 = w_mp w
  /\ (w_trace w1 = w_trace w
      \/ exists r held, w_trace w1 = EvAppend cslot r sync held e :: w_trace w).
Proof.
  unfold pmd_mdc_append. intros H. mexec H.
  destruct (_ <? 0).
  - mprim H. split; [reflexivity | now left].
  - unfold mp_mdc_append in H. mcall H as e0 w0 Hpop.
    apply pop_oracle_frame in Hpop as (_ & Hmp & _ & _ & Htr).
    mexec H. destruct (e0 =? 0) eqn:E0.
    + mexec H. mprim H. apply Z.eqb_eq in E0. subst e0. simpl.
      split; [assumption|]. right. rewrite Htr. eauto.
    + mprim H. simpl. split; [assumption|]. right. rewrite Htr. eauto.
Qed.

(** A compaction begins with a call to [cstart]. *)
Lemma pmd_mdc_compact_cstart_event cslot w e w' :
  pmd_mdc_compact cslot w = (e, w') ->
  exists t e', w_trace w' = t ++ EvCstart cslot e' :: w_trace w.
Proof.
  unfold pmd_mdc_compact, pmd_mdc_compact_with. simpl. intros H.
  mcall H as e1 w1 Hatt.
  unfold compact_attempt in Hatt. simpl in Hatt. mexec Hatt.
  mcall Hatt as e2 w2 Hcs.
  unfold mp_mdc_cstart in Hcs. mcall Hcs as e3 w3 Hpop.
  apply pop_oracle_frame in Hpop as (_ & _ & _ & _ & Htr).
  mexec Hcs.
  assert (R1 : compact_rel (set_w_trace (cons (EvCstart cslot e3)) w3) w2)
    by (now pres_at Hcs).
  assert (R2 : compact_rel w2 w1) by (now pres_at Hatt).
  assert (R3 : compact_rel w1 w') by (now pres_at H).
  destruct R1 as [_ [t1 T1] _ _ _ _ _ _ _ _ _ _ _ _ _].
  destruct R2 as [_ [t2 T2] _ _ _ _ _ _ _ _ _ _ _ _ _].
  destruct R3 as [_ [t3 T3] _ _ _ _ _ _ _ _ _ _ _ _ _].
  exists (t3 ++ t2 ++ t1), e3. rewrite T3, T2, T1. simpl. rewrite Htr.
  now rewrite <- !app_assoc.
Qed.

(** Either the append failed at once, and only the trace and the script
    moved, or a compaction was started. *)
Lemma pmd_mdc_addrec_counters cslot cdr w e w1 :
  pmd_mdc_addrec cslot cdr w = (e, w1) ->
  w_mp w1 = w_mp w
  \/ exists t e', w_trace w1 = t ++ w_trace w /\ EvCstart cslot e' ∈ t.
Proof.
  rewrite pmd_mdc_addrec_unfold. intros H.
  mcall H as e1 w2 Happ.
  destruct (merr_errno e1 =? EFBIG).
  - right. mcall H as e2 w3 Hcomp.
    assert (R1 : compact_rel w w2) by (now pres_at Happ).
    assert (R3 : compact_rel w3 w1) by (now pres_at H).
    apply pmd_mdc_compact_cstart_event in Hcomp as (t & e' & Ht).
    destruct R1 as [_ [t1 T1] _ _ _ _ _ _ _ _ _ _ _ _ _].
    destruct R3 as [_ [t3 T3] _ _ _ _ _ _ _ _ _ _ _ _ _].
    exists (t3 ++ t ++ EvCstart cslot e' :: t1), e'.
    split.
    + rewrite T3, Ht, T1. rewrite <- !app_assoc. reflexivity.
    + rewrite !elem_of_app. right. right. left.
  - left. mprim H. now apply pmd_mdc_append_mp in Happ as [Hmp _].
Qed.

Lemma state_set_clear_removed s :
  Z.land s ECIO_LYT_REMOVED = 0 ->
  Z.land (Z.lor s ECIO_LYT_REMOVED) (Z.lnot ECIO_LYT_REMOVED) = s.
Proof.
  intros H. apply Z.bits_inj'. intros n Hn.
  rewrite Z.land_spec, Z.lor_spec, Z.lnot_spec by assumption.
  assert (Hb : Z.testbit (Z.land s ECIO_LYT_REMOVED) n = false)
    by (rewrite H; apply Z.bits_0).
  rewrite Z.land_spec in Hb.
  destruct (Z.testbit s n), (Z.testbit ECIO_LYT_REMOVED n); simpl in *;
    congruence.
Qed.

Lemma alter_alter {A} (f g : A -> A) (i : lptr) (m : gmap lptr A) :
  alter f i (alter g i m) = alter (fun x => f (g x)) i m.
Proof.
  apply map_eq. intros j. rewrite !lookup_alter.
  destruct (decide (i = j)); [|reflexivity].
  destruct (decide (i = i)); [|congruence].
  now destruct (m !! i).
Qed.

Lemma delete_unmark_mark l :
  lyt_removed l = false -> eld_isdel l = false ->
  delete_unmark (delete_mark l) = set_eld_refcnt 2 l.
Proof.
  intros Hr Hd. unfold lyt_removed in Hr.
  apply negb_false_iff, Z.eqb_eq in Hr.
  destruct l. unfold delete_unmark, delete_mark, state_clear, state_set,
    set_eld_state, set_eld_isdel, set_eld_refcnt. simpl in *.
  rewrite (state_set_clear_removed _ Hr). now subst.
Qed.


(** ** Id generation *)

Lemma pmd_mdc_addrec_first_event cslot cdr w e w1 :
  0 <= omf_mdcrec_pack_htole (cdr_pack w cdr) ->
  pmd_mdc_addrec cslot cdr w = (e, w1) ->
  exists t e1,
    w_trace w1
    = t ++ EvAppend cslot (cdr_pack w cdr) true (w_held w) e1 :: w_trace w.
Proof.
  intros Hp. rewrite pmd_mdc_addrec_unfold. intros H.
  mcall H as e1 w2 Happ.
  assert (R : compact_rel w2 w1) by (now pres_at H).
  destruct R as [_ [t T] _ _ _ _ _ _ _ _ _ _ _ _ _].
  rewrite pmd_mdc_append_packed in Happ by assumption.
  unfold mp_mdc_append in Happ. mcall Happ as e0 w0 Hpop.
  assert (Hh : w_held w0 = w_held w /\ w_trace w0 = w_trace w).
  { apply pop_oracle_frame in Hpop. tauto. }
  destruct Hh as [Hh Ht].
  mexec Happ.
  assert (T2 : w_trace w2
               = EvAppend cslot (cdr_pack w cdr) true (w_held w) e0
                 :: w_trace w).
  { destruct (e0 =? 0).
    - mexec Happ. mprim Happ. simpl. now rewrite Hh, Ht.
    - mprim Happ. simpl. now rewrite Hh, Ht. }
  exists t, e0. now rewrite T, T2.
Qed.

(** The first append of [pmd_mdc_addrec] decides, unless it reports a full
    log: its error is the one returned and nothing else is appended. *)
Lemma pmd_mdc_addrec_first_outcome cslot cdr w e w1 :
  0 <= omf_mdcrec_pack_htole (cdr_pack w cdr) ->
  pmd_mdc_addrec cslot cdr w = (e, w1) ->
  exists t e1,
    w_trace w1
    = t ++ EvAppend cslot (cdr_pack w cdr) true (w_held w) e1 :: w_trace w
    /\ (merr_errno e1 <> EFBIG -> t = [] /\ e = e1).
Proof.
  intros Hp. rewrite pmd_mdc_addrec_unfold. intros H.
  mcall H as e1 w2 Happ.
  assert (R : compact_rel w2 w1) by (now pres_at H).
  destruct R as [_ [t T] _ _ _ _ _ _ _ _ _ _ _ _ _].
  rewrite pmd_mdc_append_packed in Happ by assumption.
  unfold mp_mdc_append in Happ. mcall Happ as e0 w0 Hpop.
  assert (Hh : w_held w0 = w_held w /\ w_trace w0 = w_trace w).
  { apply pop_oracle_frame in Hpop. tauto. }
  destruct Hh as [Hh Ht].
  mexec Happ.
  assert (T2 : w_trace w2
               = EvAppend cslot (cdr_pack w cdr) true (w_held w) e0
                 :: w_trace w
               /\ e1 = e0).
  { destruct (e0 =? 0) eqn:E0.
    - mexec Happ. apply ret_inv in Happ as [<- <-]. simpl.
      rewrite Hh, Ht. apply Z.eqb_eq in E0. now split.
    - apply ret_inv in Happ as [<- <-]. simpl. now rewrite Hh, Ht. }
  destruct T2 as [T2 <-].
  destruct (merr_errno e1 =? EFBIG) eqn:Ef.
  - exists t, e1. split; [now rewrite T, T2|].
    apply Z.eqb_eq in Ef. intros Hn. contradiction.
  - apply ret_inv in H as [<- <-]. exists [], e1.
    split; [exact T2 | now intros _].
Qed.

(** C3: [pmd_alloc_idgen] on a pool with a user MDC.  The id is made of
    [luniq + 1] in the slot the selector table gives.  When the id is a
    checkpoint id, an OIDCKPT record carrying it is appended
    synchronously to the log of the slot with the [uq] and the [compact]
    lock of the slot held (if the record packs), and the error returned
    is the outcome of that append: the one of [pmd_log_idckpt] run with
    these locks held, which is the error of the append itself unless the
    log was full.  [lckpt] becomes the id, [luniq] advances and the id is
    issued when the append succeeded; otherwise both stay, the id is not
    issued and the error of the append is returned.  When the id is not
    a checkpoint id nothing is appended, [luniq] advances and the id is
    issued. *)
Theorem pmd_alloc_idgen_checkpoint otype w err id w' :
  2 <= mdi_slotvcnt (w_mp w) ->
  0 <= idgen_slot w < 256 ->
  pmd_alloc_idgen otype w = ((err, id), w') ->
  let cslot := idgen_slot w in
  let objid := idgen_objid w otype in
  let cinfo := cinfo_of w cslot in
  let cinfo' := cinfo_of w' cslot in
  (objid_ckpt objid = true ->
     err = (pmd_log_idckpt objid (idgen_ckpt_state w)).1
     /\ (0 <= omf_mdcrec_pack_htole (MDR_OIDCKPT objid) ->
         exists t e1,
           w_trace w'
           = t ++ EvAppend cslot (MDR_OIDCKPT objid) true
                    (L_compactlock cslot :: L_uqlock cslot :: w_held w) e1
                  :: w_trace w
           /\ (merr_errno e1 <> EFBIG -> t = [] /\ err = e1))
     /\ (err = 0 ->
         id = objid /\ mmi_lckpt cinfo' = objid
         /\ mmi_luniq cinfo' = wrap_u64 (mmi_luniq cinfo + 1))
     /\ (err <> 0 ->
         id = 0 /\ mmi_lckpt cinfo' = mmi_lckpt cinfo
         /\ mmi_luniq cinfo' = mmi_luniq cinfo))
  /\ (objid_ckpt objid = false ->
      err = 0 /\ id = objid
      /\ mmi_luniq cinfo' = wrap_u64 (mmi_luniq cinfo + 1)
      /\ mmi_lckpt cinfo' = mmi_lckpt cinfo
      /\ w_trace w' = w_trace w)
  /\ w_held w' = w_held w.
Proof.
  intros Hcnt Hslot H cslot objid cinfo cinfo'.
  unfold pmd_alloc_idgen in H. mexec H.
  assert (Hlt : (mdi_slotvcnt (w_mp w) <? 2) = false) by (apply Z.ltb_ge; lia).
  rewrite Hlt in H. mexec H.
  fold (idgen_slot w) in H. fold cslot in H.
  change (cinfo_of (set_w_held ?a (set_w_mp (set_mds_tbl_idx ?b) w)) ?c)
    with (cinfo_of w c) in H.
  fold cinfo in H.
  change (objid_make (wrap_u64 (mmi_luniq cinfo + 1)) otype cslot)
    with objid in H.
  mcall H as e0 wb Hck.
  mcall H as u wc Hlu.
  mexec H.
  destruct (objid_ckpt objid) eqn:Eck.
  - (* a checkpoint id *)
    mexec Hck. mcall Hck as e1 wd Hlog.
    unfold pmd_log_idckpt in Hlog.
    assert (Hos : objid_slot objid = cslot) by (now apply objid_slot_make).
    rewrite Hos in Hlog.
    match type of Hlog with
    | pmd_mdc_addrec _ _ ?w0 = _ => set (wm := w0) in *
    end.
    assert (Hrel : compact_rel wm wd) by (now pres_at Hlog).
    destruct Hrel as [_ _ _ _ _ _ Hheld _ _ _ _ _ _ _ Hsl].
    destruct (Hsl cslot) as [_ _ Hluq Hlck _ _ _ _ _ _].
    change (cinfo_of wm cslot) with cinfo in Hluq, Hlck.
    mcall Hck as u1 we Hset. mexec Hck. mprim Hck.
    assert (Hfin : w_trace w' = w_trace wd
                   /\ w_held w' = w_held w
                   /\ (e1 = 0 ->
                       err = 0 /\ id = objid /\ mmi_lckpt cinfo' = objid
                       /\ mmi_luniq cinfo' = wrap_u64 (mmi_luniq cinfo + 1))
                   /\ (e1 <> 0 ->
                       err = e1 /\ id = 0
                       /\ mmi_lckpt cinfo' = mmi_lckpt cinfo
                       /\ mmi_luniq cinfo' = mmi_luniq cinfo)).
    { subst cinfo'.
      destruct (e1 =? 0) eqn:E1; simpl in H;
        apply ret_inv in H as [[= He Hid] Hw']; mprim Hset; mprim Hlu;
        subst w'; simpl;
        rewrite ?cinfo_of_set_w_held, ?cinfo_of_upd_slot_eq; simpl;
        rewrite ?cinfo_of_set_w_held, ?cinfo_of_upd_slot_eq; simpl.
      - apply Z.eqb_eq in E1.
        split; [reflexivity|]. split.
        { rewrite Hheld. subst wm. simpl. now rewrite !remove_first_cons. }
        split; [|intros; congruence]. intros _.
        rewrite ?Hluq. repeat split; congruence.
      - apply Z.eqb_neq in E1.
        split; [reflexivity|]. split.
        { rewrite Hheld. subst wm. simpl. now rewrite !remove_first_cons. }
        split; [intros; congruence|]. intros _.
        repeat split; congruence. }
    destruct Hfin as (Htr & Hhd & Hok & Hko).
    assert (Herr : err = e1).
    { destruct (Z.eq_dec e1 0) as [E | E].
      - destruct (Hok E) as (? & _). congruence.
      - now destruct (Hko E) as (? & _). }
    split; [|split; [intros; discriminate | exact Hhd]].
    intros _. split; [|split; [|split]].
    + unfold pmd_log_idckpt. rewrite Hos.
      change (idgen_ckpt_state w) with wm. now rewrite Hlog.
    + intros Hp.
      destruct (pmd_mdc_addrec_first_outcome cslot (CDR_OIDCKPT objid) wm e1
                  wd Hp Hlog) as (t & e' & T & Hout).
      exists t, e'. rewrite Htr. split; [exact T|].
      intros Hn. destruct (Hout Hn) as [-> ->]. now split.
    + intros ->. destruct (Z.eq_dec e1 0) as [E | E].
      * destruct (Hok E) as (_ & ? & ? & ?). now repeat split.
      * destruct (Hko E) as (? & _). congruence.
    + intros Hne. destruct (Z.eq_dec e1 0) as [E | E].
      * destruct (Hok E) as (? & _). congruence.
      * destruct (Hko E) as (_ & ? & ? & ?). now repeat split.
  - (* an ordinary id *)
    mprim Hck. simpl in Hlu. mprim Hlu. simpl in H.
    apply ret_inv in H as [[= He Hid] Hw']. subst w'.
    split; [intros; discriminate|]. split.
    + intros _. subst cinfo'. simpl.
      rewrite ?cinfo_of_set_w_held, ?cinfo_of_upd_slot_eq. simpl.
      rewrite ?cinfo_of_set_w_held.
      change (cinfo_of (set_w_mp (set_mds_tbl_idx ?b) w) ?c)
        with (cinfo_of w c).
      repeat split; congruence.
    + simpl. now rewrite !remove_first_cons.
Qed.

(** ** Replay *)

Lemma NoDup_fmap_inj_on {A B} (f : A -> B) (l : list A) x y :
  NoDup (f <$> l) -> x ∈ l -> y ∈ l -> f x = f y -> x = y.
Proof.
  induction l as [| a l IH]; simpl; intros Hnd Hx Hy Hf.
  - inversion Hx.
  - apply NoDup_cons in Hnd as [Hna Hnd].
    apply elem_of_cons in Hx as [-> | Hx];
      apply elem_of_cons in Hy as [-> | Hy]; auto.
    + exfalso. apply Hna. rewrite Hf. apply list_elem_of_fmap. eauto.
    + exfalso. apply Hna. rewrite <- Hf. apply list_elem_of_fmap. eauto.
Qed.

Lemma cobj_wf_tree_ok w cslot :
  cobj_wf w cslot <-> tree_ok (w_heap w) (mmi_obj (cinfo_of w cslot)).
Proof.
  unfold cobj_wf, tree_ok. set (t := mmi_obj (cinfo_of w cslot)).
  split; intros [Hl Hi]; (split; [exact Hl|]).
  - intros k1 k2 p H1 H2.
    apply elem_of_map_to_list in H1, H2.
    now pose proof (NoDup_fmap_inj_on snd _ _ _ Hi H1 H2 eq_refl) as [= ->].
  - apply NoDup_fmap_2_strong; [|apply NoDup_map_to_list].
    intros [k1 p1] [k2 p2] H1 H2; simpl; intros <-.
    apply elem_of_map_to_list in H1, H2. f_equal. eauto.
Qed.

Lemma tree_view_lookup h t k :
  tree_view h t !! k = (fun lp => h !!! lp) <$> (t !! k).
Proof. exact (lookup_fmap (fun lp => h !!! lp) t k). Qed.

Lemma tree_view_heap_ext h h' t :
  (forall k p, t !! k = Some p -> h' !! p = h !! p) ->
  tree_view h' t = tree_view h t.
Proof.
  intros H. apply map_eq. intros k. rewrite !tree_view_lookup.
  destruct (t !! k) as [p|] eqn:E; simpl; [|reflexivity].
  f_equal. unfold lookup_total, map_lookup_total. now rewrite (H k p E).
Qed.

Lemma tree_view_insert h t k p :
  tree_view h (<[k := p]> t) = <[k := h !!! p]> (tree_view h t).
Proof. exact (fmap_insert (fun lp => h !!! lp) t k p). Qed.

Lemma tree_view_delete h t k :
  tree_view h (delete k t) = delete k (tree_view h t).
Proof. exact (fmap_delete (fun lp => h !!! lp) t k). Qed.

Lemma tree_view_alter_heap h t f k p :
  tree_ok h t -> t !! k = Some p ->
  tree_view (alter f p h) t = alter f k (tree_view h t).
Proof.
  intros [Hl Hi] Hk. apply map_eq. intros k'.
  destruct (decide (k' = k)) as [-> | Hne].
  - rewrite lookup_alter_eq, !tree_view_lookup, Hk. simpl. f_equal.
    destruct (Hl _ _ Hk) as [l Hp].
    unfold lookup_total, map_lookup_total.
    now rewrite lookup_alter_eq, Hp.
  - rewrite lookup_alter_ne, !tree_view_lookup by congruence.
    destruct (t !! k') as [p'|] eqn:E; simpl; [|reflexivity].
    f_equal. unfold lookup_total, map_lookup_total.
    rewrite lookup_alter_ne; [reflexivity|].
    intros <-. apply Hne. eauto.
Qed.

Lemma mmi_obj_upd_slot_pco cslot f w :
  mmi_obj (cinfo_of (upd_slot cslot (set_mmi_pco_cnt f) w) cslot)
  = mmi_obj (cinfo_of w cslot).
Proof. now rewrite cinfo_of_upd_slot_eq. Qed.

Lemma heap_wf_fresh w : heap_wf w -> w_heap w !! w_brk w = None.
Proof.
  intros H. destruct (w_heap w !! w_brk w) eqn:E; [|reflexivity].
  apply H in E. simpl in E. lia.
Qed.

Lemma pop_oracle_brk e w w1 : pop_oracle w = (e, w1) -> w_brk w1 = w_brk w.
Proof.
  unfold pop_oracle. destruct (w_oracle w); intros [= <- <-]; now simpl.
Qed.

(** A record that unpacks: the layout of an [OCREATE] or an [OUPDATE]
    is a new object of the heap. *)
Lemma omf_mdcrec_unpack_letoh_ok r w ul w1 :
  omf_mdcrec_unpack_letoh r w = ((0, ul), w1) ->
  exists w0,
    w_heap w0 = w_heap w /\ w_brk w0 = w_brk w /\ w_mp w0 = w_mp w
    /\ match r with
       | MDR_OCREATE ol | MDR_OUPDATE ol =>
           ul = Some (w_brk w)
           /\ w1 = set_w_brk (Pos.succ (w_brk w))
                     (set_w_heap (insert (w_brk w) (layout_unpack ol)) w0)
       | _ => ul = None /\ w1 = w0
       end.
Proof.
  intros H. unfold omf_mdcrec_unpack_letoh in H.
  apply bind_inv in H as (e0 & w0 & Hpop & H).
  pose proof (pop_oracle_frame _ _ _ Hpop) as (_ & Hm & Hh & _).
  pose proof (pop_oracle_brk _ _ _ Hpop) as Hb.
  exists w0. split; [exact Hh|]. split; [exact Hb|]. split; [exact Hm|].
  destruct (negb (e0 =? 0)) eqn:E.
  { apply ret_inv in H as [[= -> _] _]. discriminate. }
  destruct r; try (apply ret_inv in H as [[= <-] <-]; now split).
  - mexec H. apply ret_inv in H as [[= <-] <-]. now rewrite Hb.
  - mexec H. apply ret_inv in H as [[= <-] <-]. now rewrite Hb.
Qed.

Lemma tree_ok_heap_ext h h' t :
  (forall k p, t !! k = Some p -> h' !! p = h !! p) ->
  tree_ok h t -> tree_ok h' t.
Proof.
  intros He [Hl Hi]. split; [|exact Hi].
  intros k p Hk. rewrite (He _ _ Hk). eauto.
Qed.

Lemma tree_ok_delete h t k p :
  tree_ok h t -> t !! k = Some p -> tree_ok (delete p h) (delete k t).
Proof.
  intros [Hl Hi] Hk. split.
  - intros k' p' [Hne Hk']%lookup_delete_Some.
    rewrite lookup_delete_ne; [eauto|].
    intros <-. apply Hne. eauto.
  - intros k1 k2 p' [_ H1]%lookup_delete_Some [_ H2]%lookup_delete_Some.
    eauto.
Qed.

Lemma tree_view_delete_both h t k p :
  tree_ok h t -> t !! k = Some p ->
  tree_view (delete p h) (delete k t) = delete k (tree_view h t).
Proof.
  intros [Hl Hi] Hk. rewrite <- tree_view_delete.
  apply tree_view_heap_ext.
  intros k' p' [Hne Hk']%lookup_delete_Some.
  apply lookup_delete_ne. intros <-. apply Hne. eauto.
Qed.

(** A layout that comes out of a record enters the heap at the next free
    place and the map under its object id. *)
Lemma tree_load_new h b t k l f :
  map_Forall (fun lp _ => (lp < b)%positive) h ->
  tree_ok h t ->
  t !! k = None ->
  let h' := alter f b (<[b := l]> h) in
  tree_view h' (<[k := b]> t) = <[k := f l]> (tree_view h t)
  /\ map_Forall (fun lp _ => (lp < Pos.succ b)%positive) h'
  /\ tree_ok h' (<[k := b]> t).
Proof.
  intros Hh [Hl Hi] Hk h'.
  assert (Eh' : h' = <[b := f l]> h) by apply alter_insert_eq.
  assert (Hfresh : h !! b = None).
  { destruct (h !! b) eqn:E; [|reflexivity]. apply Hh in E. simpl in E. lia. }
  assert (Hnb : forall k' p, t !! k' = Some p -> p <> b).
  { intros k' p Hp ->. destruct (Hl _ _ Hp) as [x Hx].
    apply Hh in Hx. simpl in Hx. lia. }
  rewrite Eh'. split; [|split].
  - rewrite tree_view_insert.
    unfold lookup_total at 1, map_lookup_total at 1.
    rewrite lookup_insert_eq. simpl. f_equal.
    apply tree_view_heap_ext. intros k' p Hp.
    apply lookup_insert_ne. intros ->. now apply (Hnb _ _ Hp).
  - apply map_Forall_insert_2; [simpl; lia|].
    eapply map_Forall_impl; [exact Hh|]. simpl. intros. lia.
  - split.
    + intros k' p [[-> ->] | [Hne Hp]]%lookup_insert_Some.
      * rewrite lookup_insert_eq. eauto.
      * rewrite lookup_insert_ne; [eauto|].
        intros ->. now apply (Hnb _ _ Hp).
    + intros k1 k2 p [[-> ->] | [Hn1 H1]]%lookup_insert_Some
                     [[-> E2] | [Hn2 H2]]%lookup_insert_Some; eauto.
      * exfalso. now apply (Hnb _ _ H2).
      * exfalso. subst p. now apply (Hnb _ _ H1).
Qed.

Lemma heap_ok_alter (h : gmap lptr ecio_layout_descriptor) b f p :
  map_Forall (fun lp _ => (lp < b)%positive) h ->
  map_Forall (fun lp _ => (lp < b)%positive) (alter f p h).
Proof.
  intros H lp l Hl. destruct (decide (lp = p)) as [-> | Hne].
  - rewrite lookup_alter_eq in Hl.
    destruct (h !! p) eqn:E; [|discriminate]. exact (H _ _ E).
  - rewrite lookup_alter_ne in Hl by congruence. exact (H _ _ Hl).
Qed.

Lemma tree_ok_alter h t f p : tree_ok h t -> tree_ok (alter f p h) t.
Proof.
  intros [Hl Hi]. split; [|exact Hi].
  intros k q Hq. apply lookup_alter_is_Some. eauto.
Qed.

Lemma tree_insert_obj_eq cslot objid lp w :
  tree_insert_obj cslot objid lp w
  = match mmi_obj (cinfo_of w cslot) !! objid with
    | Some found => (Some found, w)
    | None =>
        (None,
         upd_slot cslot
           (set_mmi_obj
              (fun _ => <[objid := lp]> (mmi_obj (cinfo_of w cslot)))) w)
    end.
Proof.
  unfold tree_insert_obj, objid_to_layout_insert_mdc, bind, get_cinfo, gets.
  now destruct (mmi_obj (cinfo_of w cslot) !! objid).
Qed.

(** The part of the loop body that all records but the version record go
    through: the record is unpacked and belongs to the slot. *)
Ltac load_prefix H E0 w0 Hh0 Hb0 Hm0 :=
  match type of H with
  | (if ?c then _ else _) _ = _ =>
      destruct c eqn:E0;
      [ try (simpl in E0; rewrite andb_false_r in E0; discriminate) |]
  end;
  [ .. |
    let e := fresh "e" in let ul := fresh "ul" in let w1 := fresh "w1" in
    let Hu := fresh "Hu" in let Ee := fresh "Ee" in let Es := fresh "Es" in
    mcall H as [e ul] w1 Hu;
    destruct (negb (e =? 0)) eqn:Ee;
    [ apply ret_inv in H as [-> _]; discriminate |];
    apply negb_false_iff, Z.eqb_eq in Ee; subst e;
    apply omf_mdcrec_unpack_letoh_ok in Hu as (w0 & Hh0 & Hb0 & Hm0 & -> & ->);
    match type of H with
    | (if ?c then _ else _) _ = _ =>
        destruct c eqn:Es; [ apply ret_inv in H as [[=] _] |]
    end;
    simpl mdcrec_objid in *;
    mexec H ].

Lemma cinfo_of_mp w w0 cslot :
  w_mp w0 = w_mp w -> cinfo_of w0 cslot = cinfo_of w cslot.
Proof. unfold cinfo_of. now intros ->. Qed.

Lemma cinfo_of_set_w_heap f w s :
  cinfo_of (set_w_heap f w) s = cinfo_of w s.
Proof. reflexivity. Qed.

Lemma cinfo_of_set_w_brk b w s : cinfo_of (set_w_brk b w) s = cinfo_of w s.
Proof. reflexivity. Qed.

Ltac load_norm Hh0 Hb0 Hm0 :=
  unfold cobj_view, heap_wf; simpl w_heap; simpl w_brk;
  repeat first [ rewrite mmi_obj_upd_slot_pco
               | rewrite cinfo_of_set_w_heap
               | rewrite cinfo_of_set_w_brk
               | rewrite cinfo_of_upd_slot_eq ];
  simpl mmi_obj; unfold rb_erase;
  rewrite ?(cinfo_of_mp _ _ _ Hm0), ?Hh0, ?Hb0.

Lemma objs_load_record_net cslot r w w' :
  heap_wf w ->
  tree_ok (w_heap w) (mmi_obj (cinfo_of w cslot)) ->
  objs_load_record cslot r w = (0, w') ->
  replay_record r (cobj_view w cslot) = Some (cobj_view w' cslot)
  /\ heap_wf w'
  /\ tree_ok (w_heap w') (mmi_obj (cinfo_of w' cslot)).
Proof.
  intros Hh Ht H.
  unfold objs_load_record in H.
  destruct r as [v | ol | objid | objid | objid gen | ol | | | ].
  - (* VERSION *)
    mexec H. destruct (upg_ver_gt v upg_mdccver_latest);
      apply ret_inv in H as [[=] <-].
    unfold cobj_view, heap_wf. simpl w_heap. simpl w_brk.
    rewrite cinfo_of_upd_slot_eq. simpl mmi_obj.
    split; [reflexivity | split; assumption].
  - (* OCREATE *)
    load_prefix H E0 w0 Hh0 Hb0 Hm0.
    mcall H as found w2 Hi. rewrite tree_insert_obj_eq in Hi.
    change (cinfo_of (set_w_heap ?a (set_w_brk ?b (set_w_heap ?c w0))) cslot)
      with (cinfo_of w0 cslot) in Hi.
    rewrite (cinfo_of_mp w w0 cslot Hm0) in Hi.
    destruct (mmi_obj (cinfo_of w cslot) !! ol_objid ol) eqn:Ek;
      injection Hi as <- <-.
    { mexec H. apply ret_inv in H as [[=] _]. }
    mexec H. apply ret_inv in H as [_ <-].
    unfold cobj_view, heap_wf. simpl w_heap. simpl w_brk.
    rewrite !mmi_obj_upd_slot_pco, cinfo_of_upd_slot_eq. simpl mmi_obj.
    rewrite ?Hh0, ?Hb0.
    destruct (tree_load_new _ _ _ _ (layout_unpack ol)
                (set_eld_state ECIO_LYT_COMMITTED) Hh Ht Ek) as (Ev & Hh' & Ht').
    split; [|split; assumption].
    rewrite Ev. unfold replay_record, loaded_layout.
    now rewrite tree_view_lookup, Ek.
  - (* ODELETE *)
    load_prefix H E0 w0 Hh0 Hb0 Hm0.
    rewrite (cinfo_of_mp w w0 cslot Hm0) in H.
    unfold objid_to_layout_search_mdc in H.
    destruct (mmi_obj (cinfo_of w cslot) !! objid) as [found|] eqn:Ek.
    2:{ apply ret_inv in H as [[=] _]. }
    mexec H. apply ret_inv in H as [_ <-].
    load_norm Hh0 Hb0 Hm0.
    split; [|split].
    + unfold replay_record. rewrite tree_view_lookup, Ek. simpl. f_equal.
      symmetry. now apply tree_view_delete_both.
    + now apply map_Forall_delete.
    + now apply tree_ok_delete.
  - (* OIDCKPT *)
    load_prefix H E0 w0 Hh0 Hb0 Hm0.
    match type of H with
    | (if ?c then _ else _) _ = _ => destruct c
    end; [apply ret_inv in H as [[=] _]|].
    mexec H. apply ret_inv in H as [_ <-].
    load_norm Hh0 Hb0 Hm0.
    split; [reflexivity | split; assumption].
  - (* OERASE *)
    load_prefix H E0 w0 Hh0 Hb0 Hm0.
    rewrite (cinfo_of_mp w w0 cslot Hm0) in H.
    unfold objid_to_layout_search_mdc in H.
    destruct (mmi_obj (cinfo_of w cslot) !! objid) as [lp|] eqn:Ek.
    2:{ apply ret_inv in H as [[=] _]. }
    mexec H.
    match type of H with
    | (if ?c then _ else _) _ = _ => destruct c
    end; [apply ret_inv in H as [[=] _]|].
    mexec H. apply ret_inv in H as [_ <-].
    load_norm Hh0 Hb0 Hm0.
    split; [|split].
    + unfold replay_record. f_equal. symmetry.
      now apply tree_view_alter_heap.
    + now apply heap_ok_alter.
    + now apply tree_ok_alter.
  - (* OUPDATE *)
    load_prefix H E0 w0 Hh0 Hb0 Hm0.
    rewrite cinfo_of_set_w_brk, cinfo_of_set_w_heap,
      (cinfo_of_mp w w0 cslot Hm0) in H.
    unfold objid_to_layout_search_mdc in H.
    destruct (mmi_obj (cinfo_of w cslot) !! ol_objid ol) as [found|] eqn:Ek.
    2:{ mexec H. apply ret_inv in H as [[=] _]. }
    mexec H. mcall H as fnd w2 Hi. rewrite tree_insert_obj_eq in Hi.
    repeat first [ rewrite cinfo_of_set_w_heap in Hi
                 | rewrite cinfo_of_set_w_brk in Hi
                 | rewrite cinfo_of_upd_slot_eq in Hi ].
    simpl mmi_obj in Hi. unfold rb_erase in Hi.
    rewrite lookup_delete_eq in Hi. injection Hi as <- <-.
    mexec H. apply ret_inv in H as [_ <-].
    load_norm Hh0 Hb0 Hm0.
    assert (Hfb : found <> w_brk w).
    { intros ->. destruct Ht as [Hl _]. destruct (Hl _ _ Ek) as [x Hx].
      apply Hh in Hx. simpl in Hx. lia. }
    rewrite delete_insert_ne by congruence.
    destruct (tree_load_new (delete found (w_heap w)) (w_brk w)
                (delete (ol_objid ol) (mmi_obj (cinfo_of w cslot)))
                (ol_objid ol) (layout_unpack ol)
                (set_eld_state ECIO_LYT_COMMITTED))
      as (Ev & Hh' & Ht').
    { now apply map_Forall_delete. }
    { now apply tree_ok_delete. }
    { apply lookup_delete_eq. }
    split; [|split; assumption].
    rewrite Ev, tree_view_delete_both by assumption.
    unfold replay_record, loaded_layout. now rewrite insert_delete_eq.
  - (* MCCONFIG *)
    load_prefix H E0 w0 Hh0 Hb0 Hm0; apply ret_inv in H as [_ <-];
      [split; [reflexivity | split; assumption]|].
    load_norm Hh0 Hb0 Hm0. split; [reflexivity | split; assumption].
  - (* MCSPARE *)
    load_prefix H E0 w0 Hh0 Hb0 Hm0; apply ret_inv in H as [_ <-];
      [split; [reflexivity | split; assumption]|].
    load_norm Hh0 Hb0 Hm0. split; [reflexivity | split; assumption].
  - (* MPCONFIG *)
    load_prefix H E0 w0 Hh0 Hb0 Hm0; apply ret_inv in H as [_ <-];
      [split; [reflexivity | split; assumption]|].
    load_norm Hh0 Hb0 Hm0. split; [reflexivity | split; assumption].
Qed.

Lemma objs_load_frame w w0 cslot :
  w_heap w0 = w_heap w -> w_brk w0 = w_brk w -> w_mp w0 = w_mp w ->
  cobj_view w0 cslot = cobj_view w cslot
  /\ (heap_wf w -> heap_wf w0)
  /\ (tree_ok (w_heap w) (mmi_obj (cinfo_of w cslot)) ->
      tree_ok (w_heap w0) (mmi_obj (cinfo_of w0 cslot))).
Proof.
  intros Hh Hb Hm. unfold cobj_view, heap_wf.
  rewrite (cinfo_of_mp w w0 cslot Hm), Hh, Hb. auto.
Qed.

Lemma objs_load_loop_net cslot recs :
  forall w w',
    heap_wf w ->
    tree_ok (w_heap w) (mmi_obj (cinfo_of w cslot)) ->
    objs_load_loop cslot recs w = (0, w') ->
    replay_net recs (cobj_view w cslot) = Some (cobj_view w' cslot)
    /\ heap_wf w'
    /\ tree_ok (w_heap w') (mmi_obj (cinfo_of w' cslot)).
Proof.
  induction recs as [| r rest IH]; intros w w' Hh Ht H; simpl in H;
    mcall H as e0 w0 Hpop;
    pose proof (pop_oracle_frame _ _ _ Hpop) as (_ & Hm0 & Hh0 & _);
    pose proof (pop_oracle_brk _ _ _ Hpop) as Hb0;
    destruct (objs_load_frame w w0 cslot Hh0 Hb0 Hm0) as (Ev & Hh' & Ht');
    (destruct (negb (e0 =? 0)) eqn:Ee0;
     [ apply ret_inv in H as [-> _]; discriminate |]).
  - apply ret_inv in H as [_ <-]. simpl. rewrite Ev. auto.
  - mcall H as e1 w1 Hr.
    destruct (negb (e1 =? 0)) eqn:Ee1.
    { apply ret_inv in H as [-> _]. discriminate. }
    apply negb_false_iff, Z.eqb_eq in Ee1. subst e1.
    apply objs_load_record_net in Hr as (Hr & Hh1 & Ht1); auto.
    apply IH in H as (Hn & Hh2 & Ht2); auto.
    simpl. rewrite <- Ev, Hr. auto.
Qed.

(** A record that is read and unpacked, and that belongs to the slot. *)
Lemma objs_load_record_fatal cslot w :
  (pop_oracle w).1 = 0 ->
  (forall ol,
     objid_slot (ol_objid ol) = cslot ->
     is_Some (mmi_obj (cinfo_of w cslot) !! ol_objid ol) ->
     (objs_load_record cslot (MDR_OCREATE ol) w).1 = merr EEXIST)
  /\ (forall objid,
        objid_slot objid = cslot ->
        mmi_obj (cinfo_of w cslot) !! objid = None ->
        (objs_load_record cslot (MDR_ODELETE objid) w).1 = merr ENOENT).
Proof.
  intros Hpop. destruct (pop_oracle w) as [e0 w0] eqn:Ep. simpl in Hpop.
  subst e0.
  pose proof (pop_oracle_frame _ _ _ Ep) as (_ & Hm0 & _).
  split.
  - intros ol Hs [found Hf].
    destruct (objs_load_record cslot (MDR_OCREATE ol) w) as [e w'] eqn:H.
    unfold objs_load_record in H.
    simpl omf_mdcrec_isobj in H. rewrite andb_false_r in H.
    mcall H as [e1 ul] w1 Hu. unfold omf_mdcrec_unpack_letoh in Hu.
    mcall Hu as e0 w0' Hp. rewrite Ep in Hp. injection Hp as <- <-.
    simpl negb in Hu. cbv iota in Hu. mexec Hu.
    apply ret_inv in Hu as [[= <- <-] <-].
    change (negb (0 =? 0)) with false in H. cbv iota in H.
    change (mdcrec_objid (MDR_OCREATE ol)) with (ol_objid ol) in H.
    rewrite Hs, Z.eqb_refl in H.
    simpl negb in H. cbv iota in H. mexec H.
    mcall H as f w2 Hi. rewrite tree_insert_obj_eq in Hi.
    rewrite cinfo_of_set_w_heap, cinfo_of_set_w_brk, cinfo_of_set_w_heap,
      (cinfo_of_mp w w0 cslot Hm0), Hf in Hi.
    injection Hi as <- <-. mexec H. now apply ret_inv in H as [<- _].
  - intros objid Hs Hf.
    destruct (objs_load_record cslot (MDR_ODELETE objid) w) as [e w'] eqn:H.
    unfold objs_load_record in H.
    simpl omf_mdcrec_isobj in H. rewrite andb_false_r in H.
    mcall H as [e1 ul] w1 Hu. unfold omf_mdcrec_unpack_letoh in Hu.
    mcall Hu as e0 w0' Hp. rewrite Ep in Hp. injection Hp as <- <-.
    simpl negb in Hu. cbv iota in Hu.
    apply ret_inv in Hu as [[= <- <-] <-].
    change (negb (0 =? 0)) with false in H. cbv iota in H.
    change (mdcrec_objid (MDR_ODELETE objid)) with objid in H.
    rewrite Hs, Z.eqb_refl in H.
    simpl negb in H. cbv iota in H. mexec H.
    unfold objid_to_layout_search_mdc in H.
    rewrite (cinfo_of_mp w w0 cslot Hm0), Hf in H.
    now apply ret_inv in H as [<- _].
Qed.

(** *** The calls around the loop *)

Lemma load_rel_refl w : load_rel w w.
Proof. now constructor. Qed.

Lemma load_rel_trans w1 w2 w3 :
  load_rel w1 w2 -> load_rel w2 w3 -> load_rel w1 w3.
Proof.
  intros [] []. constructor; congruence.
Qed.

Lemma load_rel_pop_oracle : preserves load_rel pop_oracle.
Proof.
  intros w. unfold pop_oracle. destruct (w_oracle w); now constructor.
Qed.

Lemma load_rel_mod_cinfo cslot f :
  (forall c, mmi_obj (f c) = mmi_obj c) ->
  preserves load_rel (mod_cinfo cslot f).
Proof.
  intros Hf w. unfold mod_cinfo, modify. simpl.
  constructor; try reflexivity.
  intros s. rewrite cinfo_of_upd_slot.
  destruct (decide (s = cslot)) as [-> |]; auto.
Qed.

Lemma load_rel_held f : preserves load_rel (modify (set_w_held f)).
Proof. intros w. now constructor. Qed.

Lemma load_rel_trace f : preserves load_rel (modify (set_w_trace f)).
Proof. intros w. now constructor. Qed.

Lemma load_rel_mod_mdc cslot f :
  (forall m, mdc_alog (f m) = mdc_alog m) ->
  preserves load_rel (mod_mdc cslot f).
Proof.
  intros Hf w. unfold mod_mdc, modify. simpl.
  constructor; try reflexivity.
  intros s. rewrite mdc_of_insert.
  destruct (decide (s = cslot)) as [-> |]; auto.
Qed.

Ltac lpres :=
  repeat match goal with
  | |- forall _, _ => intro
  | |- preserves load_rel (bind _ _) =>
      apply (preserves_bind load_rel load_rel_trans)
  | |- preserves load_rel (ret _) =>
      apply (preserves_ret load_rel load_rel_refl)
  | |- preserves load_rel (gets _) =>
      apply (preserves_gets load_rel load_rel_refl)
  | |- preserves load_rel (get_cinfo _) =>
      apply (preserves_gets load_rel load_rel_refl)
  | |- preserves load_rel (get_layout _) =>
      apply (preserves_gets load_rel load_rel_refl)
  | |- preserves load_rel pop_oracle => apply load_rel_pop_oracle
  | |- preserves load_rel (lock _) => apply load_rel_held
  | |- preserves load_rel (unlock _) => apply load_rel_held
  | |- preserves load_rel (log_event _) => apply load_rel_trace
  | |- preserves load_rel (mod_cinfo _ _) =>
      apply load_rel_mod_cinfo; reflexivity
  | |- preserves load_rel (mod_mdc _ _) =>
      apply load_rel_mod_mdc; reflexivity
  | |- preserves load_rel (if ?b then _ else _) => destruct b
  | |- preserves load_rel (match ?x with _ => _ end) => destruct x
  end.

Lemma load_rel_mp_mdc_open cslot : preserves load_rel (mp_mdc_open cslot).
Proof. unfold mp_mdc_open. lpres. Qed.

Lemma load_rel_smap_loop cslot nodes :
  forall mdcmax, preserves load_rel (objs_load_smap_loop cslot nodes mdcmax).
Proof.
  induction nodes as [| [k lp] rest IH]; intros mdcmax; simpl.
  - lpres.
  - unfold pmd_smap_insert, smap_insert, pmd_update_mdc_stats.
    lpres; apply IH.
Qed.

Ltac lpres_at H Hr :=
  match type of H with
  | ?m ?w = (_, ?w1) =>
      assert (Hr : load_rel w w1);
      [ let Hp := fresh in
        assert (Hp : preserves load_rel m)
          by (lpres; auto using load_rel_mp_mdc_open, load_rel_smap_loop);
        specialize (Hp w); rewrite H in Hp; exact Hp
      | ]
  end.

Lemma load_rel_view w w1 cslot :
  load_rel w w1 ->
  cobj_view w1 cslot = cobj_view w cslot
  /\ (heap_wf w -> heap_wf w1)
  /\ (tree_ok (w_heap w) (mmi_obj (cinfo_of w cslot)) ->
      tree_ok (w_heap w1) (mmi_obj (cinfo_of w1 cslot))).
Proof.
  intros [Hh Hb Ho _]. unfold cobj_view, heap_wf.
  rewrite Ho, Hh, Hb. auto.
Qed.

(** The replay of a user MDC, from the log to the committed map. *)
Lemma pmd_objs_load_net cslot w w' :
  cslot <> 0 ->
  heap_wf w ->
  tree_ok (w_heap w) (mmi_obj (cinfo_of w cslot)) ->
  pmd_objs_load cslot w = (0, w') ->
  replay_net (mdc_alog (mdc_of w cslot)) (cobj_view w cslot)
  = Some (cobj_view w' cslot).
Proof.
  intros Hc Hh Ht H. unfold pmd_objs_load in H.
  apply Z.eqb_neq in Hc. rewrite Hc in H. simpl negb in H. cbv iota in H.
  mcall H as e1 w1 Hpre. lpres_at Hpre R1.
  destruct (negb (e1 =? 0)) eqn:E1.
  { apply ret_inv in H as [-> _]. discriminate. }
  mcall H as e2 w2 Hrw. unfold mp_mdc_rewind in Hrw. lpres_at Hrw R2.
  destruct (negb (e2 =? 0)) eqn:E2.
  { apply ret_inv in H as [-> _]. discriminate. }
  mexec H. mcall H as e3 w3 Hloop.
  destruct (negb (e3 =? 0)) eqn:E3.
  { apply ret_inv in H as [-> _]. discriminate. }
  apply negb_false_iff, Z.eqb_eq in E3. subst e3.
  pose proof (load_rel_trans _ _ _ R1 R2) as R.
  destruct (load_rel_view w w2 cslot R) as (Ev & Hh2 & Ht2).
  apply objs_load_loop_net in Hloop as (Hn & _ & _); auto.
  rewrite (lr_alog _ _ R), Ev in Hn. rewrite Hn. f_equal.
  mexec H. mcall H as [e4 mx] w4 Hs. lpres_at Hs R4.
  destruct (negb (e4 =? 0)) eqn:E4.
  { apply ret_inv in H as [-> _]. discriminate. }
  mexec H. apply ret_inv in H as [_ <-].
  unfold cobj_view. simpl w_heap. rewrite cinfo_of_upd_slot_eq. simpl mmi_obj.
  now rewrite (lr_heap _ _ R4), (lr_obj _ _ R4).
Qed.

(** *** Generations *)

Lemma gen_rel_refl w : gen_rel w w.
Proof.
  intros Hh. split; [exact Hh|]. split; [lia|].
  intros lp l' _ Hl. exists l'. split; [exact Hl | lia].
Qed.

Lemma gen_rel_trans w1 w2 w3 : gen_rel w1 w2 -> gen_rel w2 w3 -> gen_rel w1 w3.
Proof.
  intros H12 H23 Hh1.
  destruct (H12 Hh1) as (Hh2 & Hb12 & Hg12).
  destruct (H23 Hh2) as (Hh3 & Hb23 & Hg23).
  split; [exact Hh3|]. split; [lia|].
  intros lp l3 Hlt Hl3.
  destruct (Hg23 lp l3) as (l2 & Hl2 & Hle23); [lia | exact Hl3 |].
  destruct (Hg12 lp l2 Hlt Hl2) as (l1 & Hl1 & Hle12).
  exists l1. split; [exact Hl1 | lia].
Qed.

Lemma gen_rel_eq w w' :
  w_heap w' = w_heap w -> w_brk w' = w_brk w -> gen_rel w w'.
Proof.
  intros Eh Eb Hh. unfold heap_wf. rewrite Eh, Eb.
  now apply gen_rel_refl.
Qed.

Lemma gen_rel_frame (f : world -> world) :
  (forall w, w_heap (f w) = w_heap w) ->
  (forall w, w_brk (f w) = w_brk w) ->
  preserves gen_rel (modify f).
Proof. intros Hfh Hfb w. unfold modify. simpl. now apply gen_rel_eq. Qed.

Lemma gen_rel_pop_oracle : preserves gen_rel pop_oracle.
Proof.
  intros w. unfold pop_oracle.
  destruct (w_oracle w); simpl; now apply gen_rel_eq.
Qed.

Lemma gen_rel_free lp : preserves gen_rel (ecio_layout_free lp).
Proof.
  intros w Hh. unfold ecio_layout_free, modify. simpl.
  split; [now apply map_Forall_delete|]. split; [lia|].
  intros p l' _ [_ Hl]%lookup_delete_Some.
  exists l'. split; [exact Hl | lia].
Qed.

Lemma gen_rel_alter lp f w :
  (forall l, w_heap w !! lp = Some l -> eld_gen l <= eld_gen (f l)) ->
  gen_rel w (set_w_heap (alter f lp) w).
Proof.
  intros Hf Hh. simpl.
  split; [now apply heap_ok_alter|]. split; [lia|].
  intros p l' _ Hl. destruct (decide (p = lp)) as [-> | Hne].
  - rewrite lookup_alter_eq in Hl.
    destruct (w_heap w !! lp) as [l|] eqn:E; [|discriminate].
    injection Hl as <-. exists l. split; [reflexivity | now apply Hf].
  - rewrite lookup_alter_ne in Hl by congruence.
    exists l'. split; [exact Hl | lia].
Qed.

Lemma gen_rel_set_state lp s :
  preserves gen_rel (mod_layout lp (set_eld_state s)).
Proof.
  intros w. unfold mod_layout, modify. simpl.
  apply gen_rel_alter. intros l _. simpl. lia.
Qed.

Lemma gen_rel_new l w :
  gen_rel w (set_w_brk (Pos.succ (w_brk w))
               (set_w_heap (insert (w_brk w) l) w)).
Proof.
  intros Hh. simpl. split; [|split; [lia|]].
  - apply map_Forall_insert_2; [simpl; lia|].
    eapply map_Forall_impl; [exact Hh|]. simpl. intros. lia.
  - intros p l' Hlt Hl. rewrite lookup_insert_ne in Hl by lia.
    exists l'. split; [exact Hl | lia].
Qed.

Lemma gen_rel_unpack r : preserves gen_rel (omf_mdcrec_unpack_letoh r).
Proof.
  intros w. unfold omf_mdcrec_unpack_letoh, bind.
  pose proof (gen_rel_pop_oracle w) as Hp.
  destruct (pop_oracle w) as [e w0]. simpl in Hp.
  destruct (negb (e =? 0)); [exact Hp|].
  destruct r; try exact Hp;
    (eapply gen_rel_trans; [exact Hp | apply gen_rel_new]).
Qed.

(** The generation test of the replay loop and what follows it. *)
Lemma gen_rel_erase cslot lp gen :
  preserves gen_rel
    (layout <- get_layout lp ;;
     if gen <? eld_gen layout then ret (merr EINVAL)
     else
       mod_layout lp (set_eld_gen gen) ;;
       mod_cinfo cslot (set_mmi_pco_cnt pco_inc_er) ;;
       ret 0).
Proof.
  intros w. unfold bind, get_layout, gets.
  destruct (gen <? eld_gen (layout_of w lp)) eqn:E.
  - apply gen_rel_refl.
  - unfold mod_layout, mod_cinfo, modify, ret. simpl.
    eapply gen_rel_trans; [|now apply gen_rel_eq].
    apply gen_rel_alter. intros l Hl. simpl.
    apply Z.ltb_ge in E. unfold layout_of in E.
    rewrite (lookup_total_correct _ _ _ Hl) in E. exact E.
Qed.

Ltac gpres :=
  repeat match goal with
  | |- forall _, _ => intro
  | |- preserves gen_rel (bind (get_layout _) _) => apply gen_rel_erase
  | |- preserves gen_rel (bind _ _) =>
      apply (preserves_bind gen_rel gen_rel_trans)
  | |- preserves gen_rel (ret _) =>
      apply (preserves_ret gen_rel gen_rel_refl)
  | |- preserves gen_rel (gets _) =>
      apply (preserves_gets gen_rel gen_rel_refl)
  | |- preserves gen_rel (get_cinfo _) =>
      apply (preserves_gets gen_rel gen_rel_refl)
  | |- preserves gen_rel pop_oracle => apply gen_rel_pop_oracle
  | |- preserves gen_rel (omf_mdcrec_unpack_letoh _) => apply gen_rel_unpack
  | |- preserves gen_rel (ecio_layout_free _) => apply gen_rel_free
  | |- preserves gen_rel (mod_layout _ (set_eld_state _)) =>
      apply gen_rel_set_state
  | |- preserves gen_rel (mod_cinfo _ _) =>
      apply gen_rel_frame; reflexivity
  | |- preserves gen_rel (if ?b then _ else _) => destruct b
  | |- preserves gen_rel (match ?x with _ => _ end) => destruct x
  end.

Lemma gen_rel_objs_load_record cslot r :
  preserves gen_rel (objs_load_record cslot r).
Proof.
  unfold objs_load_record, tree_insert_obj, objid_to_layout_insert_mdc.
  destruct r; gpres.
Qed.

Lemma gen_rel_objs_load_loop cslot recs :
  preserves gen_rel (objs_load_loop cslot recs).
Proof.
  induction recs as [| r rest IH]; simpl; gpres;
    auto using gen_rel_objs_load_record.
Qed.

Lemma objs_load_loop_cons cslot r rest :
  objs_load_loop cslot (r :: rest)
  = (err <- pop_oracle ;;
     if negb (err =? 0) then ret err else
     err <- objs_load_record cslot r ;;
     if negb (err =? 0) then ret err else objs_load_loop cslot rest).
Proof. reflexivity. Qed.

Lemma objs_load_record_oerase cslot objid gen lp l w e w' :
  (pop_oracle w).1 = 0 ->
  objid_slot objid = cslot ->
  mmi_obj (cinfo_of w cslot) !! objid = Some lp ->
  w_heap w !! lp = Some l ->
  objs_load_record cslot (MDR_OERASE objid gen) w = (e, w') ->
  (gen < eld_gen l -> e = merr EINVAL /\ w_heap w' = w_heap w)
  /\ (eld_gen l <= gen ->
      e = 0 /\ w_heap w' = <[lp := set_eld_gen gen l]> (w_heap w)).
Proof.
  intros Hpop Hs Hf Hl H.
  destruct (pop_oracle w) as [e0 w0] eqn:Ep. simpl in Hpop. subst e0.
  pose proof (pop_oracle_frame _ _ _ Ep) as (_ & Hm0 & Hh0 & _).
  unfold objs_load_record in H.
  simpl omf_mdcrec_isobj in H. rewrite andb_false_r in H.
  mcall H as [e1 ul] w1 Hu. unfold omf_mdcrec_unpack_letoh in Hu.
  mcall Hu as e0 w0' Hp. rewrite Ep in Hp. injection Hp as <- <-.
  simpl negb in Hu. cbv iota in Hu.
  apply ret_inv in Hu as [[= <- <-] <-].
  change (negb (0 =? 0)) with false in H. cbv iota in H.
  change (mdcrec_objid (MDR_OERASE objid gen)) with objid in H.
  rewrite Hs, Z.eqb_refl in H.
  simpl negb in H. cbv iota in H. mexec H.
  unfold objid_to_layout_search_mdc in H.
  rewrite (cinfo_of_mp w w0 cslot Hm0), Hf in H.
  mexec H. unfold layout_of in H. rewrite Hh0 in H.
  rewrite (lookup_total_correct _ _ _ Hl) in H.
  destruct (gen <? eld_gen l) eqn:E.
  - apply ret_inv in H as [<- <-]. apply Z.ltb_lt in E.
    split; [now intros _ | intros; lia].
  - mexec H. apply ret_inv in H as [<- <-]. apply Z.ltb_ge in E.
    split; [intros; lia | intros _].
    split; [reflexivity|]. simpl. rewrite Hh0.
    apply map_eq. intros p. destruct (decide (p = lp)) as [-> | Hne].
    + now rewrite lookup_alter_eq, lookup_insert_eq, Hl.
    + now rewrite lookup_alter_ne, lookup_insert_ne by congruence.
Qed.

(** C4, as the code has it: in the replay loop of [pmd_objs_load] an
    OERASE record whose generation is less than the generation of the
    layout it refers to is invalid and ends the replay with EINVAL; an
    OERASE whose generation is equal or greater is accepted and becomes
    the generation of the layout.  So, over any sequence of replayed
    records, the generation of a layout that is still there has not gone
    down. *)
Theorem objs_load_oerase_gen cslot w :
  heap_wf w ->
  (forall recs e w' lp l l',
     objs_load_loop cslot recs w = (e, w') ->
     w_heap w !! lp = Some l ->
     w_heap w' !! lp = Some l' ->
     eld_gen l <= eld_gen l')
  /\ (forall objid gen lp l,
        (pop_oracle w).1 = 0 ->
        objid_slot objid = cslot ->
        mmi_obj (cinfo_of w cslot) !! objid = Some lp ->
        w_heap w !! lp = Some l ->
        let r := objs_load_record cslot (MDR_OERASE objid gen) w in
        (gen < eld_gen l ->
         r.1 = merr EINVAL
         /\ w_heap r.2 = w_heap w
         /\ forall rest w0,
              pop_oracle w0 = (0, w) ->
              (objs_load_loop cslot (MDR_OERASE objid gen :: rest) w0).1
              = merr EINVAL)
        /\ (eld_gen l <= gen ->
            r.1 = 0
            /\ w_heap r.2 = <[lp := set_eld_gen gen l]> (w_heap w))).
Proof.
  intros Hh. split.
  - intros recs e w' lp l l' H Hl Hl'.
    pose proof (gen_rel_objs_load_loop cslot recs w) as Hg.
    rewrite H in Hg. simpl in Hg.
    destruct (Hg Hh) as (_ & _ & Hgen).
    destruct (Hgen lp l') as (l0 & Hl0 & Hle); [exact (Hh _ _ Hl) | exact Hl' |].
    congruence.
  - intros objid gen lp l Hpop Hs Hf Hl r.
    destruct r as [e w'] eqn:Er.
    destruct (objs_load_record_oerase cslot objid gen lp l w e w'
                Hpop Hs Hf Hl Er) as [Hlt Hge].
    split.
    + intros Hg. destruct (Hlt Hg) as [-> Hheap].
      split; [reflexivity|]. split; [exact Hheap|].
      intros rest w0 Hp0. rewrite objs_load_loop_cons. unfold bind at 1.
      rewrite Hp0. change (negb (0 =? 0)) with false. cbv iota.
      unfold bind at 1.
      change (objs_load_record cslot (MDR_OERASE objid gen) w) with r.
      rewrite Er. reflexivity.
    + intros Hg. now destruct (Hge Hg) as [-> Hheap].
Qed.

(** ** Allocation of an object *)

(** *** The jumps back to [retry] come to an end *)

Lemma alloc_class_pick_spec n b m w :
  exists r,
    alloc_class_pick n b m w = (r, w)
    /\ forall m' mc, r = Some (m', mc) -> m <= m'.
Proof.
  revert m. induction n as [| n IH]; intros m; simpl;
    unfold bind, gets, ret;
    destruct (0 <=? mc_pdmc (mc_of w m));
    try (eexists; split; [reflexivity|]; intros m' mc [= <- _]; lia);
    destruct (negb b || (MP_MED_NUMBER <=? m + 1));
    try (eexists; split; [reflexivity|]; intros m' mc [=]).
  destruct (IH (m + 1)) as (r & Hr & Hle).
  exists r. split; [exact Hr|]. intros m' mc Hs.
  specialize (Hle m' mc Hs). lia.
Qed.

Lemma alloc_class_pick_fuel b w n1 :
  forall n2 m,
    (class_fuel m <= n1)%nat -> (class_fuel m <= n2)%nat ->
    alloc_class_pick n1 b m w = alloc_class_pick n2 b m w.
Proof.
  induction n1 as [| n1 IH]; intros n2 m H1 H2;
    destruct n2 as [| n2]; simpl; unfold bind, gets;
    destruct (0 <=? mc_pdmc (mc_of w m)); try reflexivity;
    destruct (negb b || (MP_MED_NUMBER <=? m + 1)) eqn:E; try reflexivity;
    apply orb_false_iff in E as [_ E]; apply Z.leb_gt in E;
    unfold class_fuel in *; try lia.
  apply IH; unfold class_fuel; lia.
Qed.

Lemma alloc_fuel_retry m m' r :
  m <= m' -> 0 < r -> (alloc_fuel m' (r - 1) < alloc_fuel m r)%nat.
Proof.
  intros Hm Hr. unfold alloc_fuel.
  destruct (m' <? MP_MED_NUMBER - 1) eqn:E1;
    destruct (m <? MP_MED_NUMBER - 1) eqn:E2;
    try apply Z.ltb_lt in E1; try apply Z.ltb_ge in E1;
    try apply Z.ltb_lt in E2; try apply Z.ltb_ge in E2; lia.
Qed.

Lemma alloc_fuel_last m m' r :
  m <= m' -> r <= 0 -> m' + 1 = MP_MED_NUMBER - 1 ->
  (alloc_fuel (m' + 1) 1024 < alloc_fuel m r)%nat.
Proof.
  intros Hm Hr Hl. unfold alloc_fuel.
  destruct (m' + 1 <? MP_MED_NUMBER - 1) eqn:E1;
    destruct (m <? MP_MED_NUMBER - 1) eqn:E2;
    try apply Z.ltb_lt in E1; try apply Z.ltb_ge in E1;
    try apply Z.ltb_lt in E2; try apply Z.ltb_ge in E2; lia.
Qed.

Lemma alloc_fuel_next m m' r :
  m <= m' -> r <= 0 -> m' + 1 < MP_MED_NUMBER ->
  (alloc_fuel (m' + 1) (r - 1) < alloc_fuel m r)%nat.
Proof.
  intros Hm Hr Hl. unfold alloc_fuel.
  destruct (m' + 1 <? MP_MED_NUMBER - 1) eqn:E1;
    destruct (m <? MP_MED_NUMBER - 1) eqn:E2;
    try apply Z.ltb_lt in E1; try apply Z.ltb_ge in E1;
    try apply Z.ltb_lt in E2; try apply Z.ltb_ge in E2; lia.
Qed.

Lemma bind_ext {A B} (c : M A) (k1 k2 : A -> M B) w :
  (forall a w1, c w = (a, w1) -> k1 a w1 = k2 a w1) ->
  bind c k1 w = bind c k2 w.
Proof. intros H. unfold bind. destruct (c w) as [a w1]. now apply H. Qed.

Lemma alloc_retry_with_ext k1 k2 objid ocap b m r f w :
  (forall e m' r' f' w',
     (alloc_fuel m' r' < alloc_fuel m r)%nat ->
     k1 e m' r' f' w' = k2 e m' r' f' w') ->
  alloc_retry_with k1 objid ocap b m r f w
  = alloc_retry_with k2 objid ocap b m r f w.
Proof.
  intros Hk. unfold alloc_retry_with.
  apply bind_ext. intros _ w1 _.
  apply bind_ext. intros pick w2 Hpick.
  destruct (alloc_class_pick_spec (class_fuel m) b m w1) as (p & Hp & Hle).
  rewrite Hp in Hpick. injection Hpick as -> _.
  destruct pick as [[m' mc] |]; [|reflexivity].
  specialize (Hle m' mc eq_refl).
  apply bind_ext. intros zcnt w3 _.
  apply bind_ext. intros [lp |] w4 _; [|reflexivity].
  apply bind_ext. intros err w5 _.
  destruct (err =? 0); [reflexivity|].
  apply bind_ext. intros _ w6 _.
  apply bind_ext. intros _ w7 _.
  destruct (0 <? r) eqn:Er.
  - apply Z.ltb_lt in Er. apply bind_ext. intros _ w8 _.
    apply Hk. now apply alloc_fuel_retry.
  - apply Z.ltb_ge in Er.
    destruct (b && (m' + 1 <? MP_MED_NUMBER)) eqn:Eb; [|reflexivity].
    apply andb_true_iff in Eb as [_ Eb]. apply Z.ltb_lt in Eb.
    destruct (m' + 1 =? MP_MED_NUMBER - 1) eqn:El.
    + apply Z.eqb_eq in El. apply Hk. now apply alloc_fuel_last.
    + apply Hk. now apply alloc_fuel_next.
Qed.

Lemma alloc_retry_eq n objid ocap b m r f :
  alloc_retry n objid ocap b m r f
  = alloc_retry_with
      (match n with
       | O => fun err _ _ _ => ret (err, None)
       | S n' => fun _ => alloc_retry n' objid ocap b
       end) objid ocap b m r f.
Proof. now destruct n. Qed.

(** Whatever the state and the outcomes of the outside calls, the count
    [alloc_fuel] is never used up: more of it changes nothing. *)
Lemma alloc_retry_fuel objid ocap b n1 :
  forall n2 m r f w,
    (alloc_fuel m r <= n1)%nat -> (alloc_fuel m r <= n2)%nat ->
    alloc_retry n1 objid ocap b m r f w
    = alloc_retry n2 objid ocap b m r f w.
Proof.
  induction n1 as [| n1 IH]; intros n2 m r f w H1 H2;
    rewrite !alloc_retry_eq; apply alloc_retry_with_ext;
    intros e m' r' f' w' Hlt; [lia|].
  destruct n2 as [| n2]; [lia|].
  apply IH; lia.
Qed.

(** *** The statistics through an allocation *)

Lemma stats_rel_refl w : stats_rel w w.
Proof. now intros s. Qed.

Lemma stats_rel_trans w1 w2 w3 :
  stats_rel w1 w2 -> stats_rel w2 w3 -> stats_rel w1 w3.
Proof. intros H12 H23 s. now rewrite H23, H12. Qed.

Lemma stats_rel_modify (f : world -> world) :
  (forall w s, mmi_stats (cinfo_of (f w) s) = mmi_stats (cinfo_of w s)) ->
  preserves stats_rel (modify f).
Proof. intros Hf w s. unfold modify. simpl. apply Hf. Qed.

Lemma stats_rel_pop_oracle : preserves stats_rel pop_oracle.
Proof.
  intros w s. unfold pop_oracle. now destruct (w_oracle w).
Qed.

Lemma stats_rel_mod_cinfo cslot f :
  (forall c, mmi_stats (f c) = mmi_stats c) ->
  preserves stats_rel (mod_cinfo cslot f).
Proof.
  intros Hf w s. unfold mod_cinfo, modify. simpl.
  rewrite cinfo_of_upd_slot. destruct (decide (s = cslot)) as [-> |]; auto.
Qed.

Lemma stats_rel_compact w w' : compact_rel w w' -> stats_rel w w'.
Proof. intros H s. apply (cr_slot _ _ H s). Qed.

Lemma stats_rel_addrec cslot cdr :
  preserves stats_rel (pmd_mdc_addrec cslot cdr).
Proof. intros w. apply stats_rel_compact. apply pres_pmd_mdc_addrec. Qed.

Ltac spres :=
  repeat match goal with
  | |- forall _, _ => intro
  | |- preserves stats_rel (bind _ _) =>
      apply (preserves_bind stats_rel stats_rel_trans)
  | |- preserves stats_rel (ret _) =>
      apply (preserves_ret stats_rel stats_rel_refl)
  | |- preserves stats_rel (gets _) =>
      apply (preserves_gets stats_rel stats_rel_refl)
  | |- preserves stats_rel (get_cinfo _) =>
      apply (preserves_gets stats_rel stats_rel_refl)
  | |- preserves stats_rel (get_layout _) =>
      apply (preserves_gets stats_rel stats_rel_refl)
  | |- preserves stats_rel pop_oracle => apply stats_rel_pop_oracle
  | |- preserves stats_rel (pmd_mdc_addrec _ _) => apply stats_rel_addrec
  | |- preserves stats_rel (mod_cinfo _ _) =>
      apply stats_rel_mod_cinfo; reflexivity
  | |- preserves stats_rel (modify _) =>
      apply stats_rel_modify; reflexivity
  | |- preserves stats_rel (lock _) => apply stats_rel_modify; reflexivity
  | |- preserves stats_rel (unlock _) => apply stats_rel_modify; reflexivity
  | |- preserves stats_rel (mod_layout _ _) =>
      apply stats_rel_modify; reflexivity
  | |- preserves stats_rel (ecio_layout_free _) =>
      apply stats_rel_modify; reflexivity
  | |- preserves stats_rel (if ?b then _ else _) => destruct b
  | |- preserves stats_rel (match ?x with _ => _ end) => destruct x
  end.

Lemma stats_rel_idgen otype : preserves stats_rel (pmd_alloc_idgen otype).
Proof. unfold pmd_alloc_idgen, pmd_log_idckpt. spres. Qed.

Lemma stats_rel_idvalidate objid :
  preserves stats_rel (pmd_realloc_idvalidate objid).
Proof. unfold pmd_realloc_idvalidate. spres. Qed.

Lemma stats_rel_layout_free lp : preserves stats_rel (pmd_layout_free lp).
Proof. unfold pmd_layout_free, smap_free. spres. Qed.

Lemma stats_rel_erase_wq_run q : preserves stats_rel (erase_wq_run q).
Proof.
  induction q as [| lp q IH]; simpl; unfold pmd_obj_erase_cb; spres;
    auto using stats_rel_layout_free.
Qed.

Lemma stats_rel_flush : preserves stats_rel flush_erase_wq.
Proof. unfold flush_erase_wq. spres. apply stats_rel_erase_wq_run. Qed.

Lemma stats_rel_class_pick n b : forall m,
  preserves stats_rel (alloc_class_pick n b m).
Proof. induction n as [| n IH]; intros m; simpl; spres. apply IH. Qed.

Lemma stats_rel_retry_with k objid ocap b m r f :
  (forall e m' r' f', preserves stats_rel (k e m' r' f')) ->
  preserves stats_rel (alloc_retry_with k objid ocap b m r f).
Proof.
  intros Hk.
  unfold alloc_retry_with, pmd_layout_calculate, ecio_layout_alloc,
    pmd_layout_alloc, smap_alloc.
  spres; auto using stats_rel_class_pick, stats_rel_flush.
Qed.

Lemma stats_rel_retry objid ocap b n :
  forall m r f, preserves stats_rel (alloc_retry n objid ocap b m r f).
Proof.
  induction n as [| n IH]; intros m r f; rewrite alloc_retry_eq;
    apply stats_rel_retry_with; intros; [spres | apply IH].
Qed.

(** *** The layout and the error *)

Lemma is_Some_None_iff (e : Z) : e <> 0 -> is_Some (@None lptr) <-> e = 0.
Proof. intros He. split; [intros [x Hx]; discriminate | contradiction]. Qed.

Lemma is_Some_Some_iff (lp : lptr) : is_Some (Some lp) <-> 0 = 0.
Proof. split; eauto. Qed.

Lemma alloc_retry_with_result k objid ocap b m r f w e lay w' :
  (forall err m' r' f' w0 e lay w',
     err <> 0 ->
     k err m' r' f' w0 = ((e, lay), w') -> is_Some lay <-> e = 0) ->
  alloc_retry_with k objid ocap b m r f w = ((e, lay), w') ->
  is_Some lay <-> e = 0.
Proof.
  intros Hk H. unfold alloc_retry_with in H.
  mexec H. mcall H as pick w1 Hpick.
  destruct pick as [[m' mc] |].
  2:{ mexec H. apply ret_inv in H as [[= <- <-] _].
      now apply is_Some_None_iff. }
  mcall H as zcnt w2 Hz. mcall H as l w3 Hl.
  destruct l as [lp |].
  2:{ mexec H. apply ret_inv in H as [[= <- <-] _].
      now apply is_Some_None_iff. }
  mcall H as err w4 Ha.
  destruct (err =? 0) eqn:Ee.
  { mexec H. apply ret_inv in H as [[= <- <-] _]. apply is_Some_Some_iff. }
  apply Z.eqb_neq in Ee. mexec H.
  destruct (0 <? r).
  - mcall H as u w5 Hf. now apply Hk in H.
  - destruct (b && (m' + 1 <? MP_MED_NUMBER)).
    + destruct (m' + 1 =? MP_MED_NUMBER - 1); now apply Hk in H.
    + apply ret_inv in H as [[= <- <-] _]. now apply is_Some_None_iff.
Qed.

Lemma alloc_retry_result objid ocap b n :
  forall m r f w e lay w',
    alloc_retry n objid ocap b m r f w = ((e, lay), w') ->
    is_Some lay <-> e = 0.
Proof.
  induction n as [| n IH]; intros m r f w e lay w' H;
    rewrite alloc_retry_eq in H;
    apply alloc_retry_with_result in H; auto.
  - intros err m' r' f' w0 e0 lay0 w0' Herr H0.
    apply ret_inv in H0 as [[= <- <-] _]. now apply is_Some_None_iff.
  - intros err m' r' f' w0 e0 lay0 w0' _ H0. now apply IH in H0.
Qed.

(** Counting an object in and out again leaves the statistics of a slot
    as they were. *)
Lemma stats_alloc_abort otype mblen cap s :
  stats_wf s ->
  update_mdc_stats_op PMD_OBJ_ABORT otype mblen cap
    (update_mdc_stats_op PMD_OBJ_ALLOC otype mblen cap s) = s.
Proof.
  intros (Hba & Hla & Hbc & Hlc). destruct s as [ba bw la bc lc].
  simpl in *. unfold update_mdc_stats_op, stats_sub_obj, stats_add_obj.
  assert (W64 : forall a, 0 <= a < 2 ^ 64 ->
                          wrap_u64 (wrap_u64 (a + cap) - cap) = a).
  { intros a Ha. unfold wrap_u64. rewrite Zminus_mod_idemp_l.
    replace (a + cap - cap) with a by lia. now apply Z.mod_small. }
  assert (W32 : forall a, 0 <= a < 2 ^ 32 ->
                          wrap_u32 (wrap_u32 (a + 1) - 1) = a).
  { intros a Ha. unfold wrap_u32. rewrite Zminus_mod_idemp_l.
    replace (a + 1 - 1) with a by lia. now apply Z.mod_small. }
  destruct otype; simpl; rewrite ?W64, ?W32 by assumption; reflexivity.
Qed.

Lemma pool_stats_wf_slot w s :
  pool_stats_wf w -> stats_wf (mmi_stats (cinfo_of w s)).
Proof.
  intros H. unfold cinfo_of, slot_of.
  destruct (mdi_slotv (w_mp w) !! s) as [c|] eqn:E; simpl.
  - exact (H _ _ E).
  - unfold stats_wf. simpl. lia.
Qed.

Ltac spres_at H Hr :=
  match type of H with
  | ?m ?w = (_, ?w1) =>
      assert (Hr : stats_rel w w1);
      [ let Hp := fresh in
        assert (Hp : preserves stats_rel m)
          by (spres; auto using stats_rel_idgen, stats_rel_idvalidate,
                stats_rel_retry, stats_rel_layout_free);
        specialize (Hp w); rewrite H in Hp; exact Hp
      | ]
  end.

Lemma pmd_update_mdc_stats_inv lp cslot op w e w1 :
  pmd_update_mdc_stats lp cslot op w = (e, w1) ->
  e = 0
  /\ w_heap w1 = w_heap w
  /\ pds_pdv (w_mp w1) = pds_pdv (w_mp w)
  /\ forall s,
       mmi_stats (cinfo_of w1 s)
       = if decide (s = cslot)
         then update_mdc_stats_op op
                (pmd_objid_type (eld_objid (layout_of w lp)))
                (eld_mblen (layout_of w lp))
                (ecio_obj_get_cap_from_layout (pds_pdv (w_mp w))
                   (layout_of w lp))
                (mmi_stats (cinfo_of w s))
         else mmi_stats (cinfo_of w s).
Proof.
  unfold pmd_update_mdc_stats. intros H. mexec H.
  apply ret_inv in H as [<- <-].
  split; [reflexivity|]. split; [reflexivity|]. split; [reflexivity|].
  intros s. rewrite cinfo_of_set_w_held, cinfo_of_upd_slot.
  destruct (decide (s = cslot)) as [-> |]; reflexivity.
Qed.

Lemma mid_rel_refl w : mid_rel w w.
Proof. constructor; try reflexivity. apply stats_rel_refl. Qed.

Lemma mid_rel_trans w1 w2 w3 : mid_rel w1 w2 -> mid_rel w2 w3 -> mid_rel w1 w3.
Proof.
  intros [] []. constructor; try congruence.
Qed.

Lemma mid_rel_held f : preserves mid_rel (modify (set_w_held f)).
Proof. intros w. constructor; try reflexivity. now intros s. Qed.

Lemma mid_rel_uncobj cslot f :
  preserves mid_rel (mod_cinfo cslot (set_mmi_uncobj f)).
Proof.
  intros w. constructor; try reflexivity.
  now apply (stats_rel_mod_cinfo cslot (set_mmi_uncobj f)).
Qed.

Ltac mpres :=
  repeat match goal with
  | |- forall _, _ => intro
  | |- preserves mid_rel (bind _ _) =>
      apply (preserves_bind mid_rel mid_rel_trans)
  | |- preserves mid_rel (ret _) =>
      apply (preserves_ret mid_rel mid_rel_refl)
  | |- preserves mid_rel (get_cinfo _) =>
      apply (preserves_gets mid_rel mid_rel_refl)
  | |- preserves mid_rel (lock _) => apply mid_rel_held
  | |- preserves mid_rel (unlock _) => apply mid_rel_held
  | |- preserves mid_rel (mod_cinfo _ (set_mmi_uncobj _)) =>
      apply mid_rel_uncobj
  | |- preserves mid_rel (if ?b then _ else _) => destruct b
  | |- preserves mid_rel (match ?x with _ => _ end) => destruct x
  end.

Ltac mpres_at H Hr :=
  match type of H with
  | ?m ?w = (_, ?w1) =>
      assert (Hr : mid_rel w w1);
      [ let Hp := fresh in
        assert (Hp : preserves mid_rel m)
          by (unfold tree_insert_uncobj, objid_to_layout_insert_mdc; mpres);
        specialize (Hp w); rewrite H in Hp; exact Hp
      | ]
  end.

Lemma pmd_obj_alloc_cmn_post objid otype ocap mclassp realloc w :
  pool_stats_wf w ->
  alloc_post w (pmd_obj_alloc_cmn objid otype ocap mclassp realloc w).
Proof.
  intros Hwf.
  destruct (pmd_obj_alloc_cmn objid otype ocap mclassp realloc w)
    as [[e lay] w'] eqn:H.
  unfold alloc_post. simpl. unfold pmd_obj_alloc_cmn in H.
  destruct (negb (pmd_alloc_argcheck objid otype mclassp =? 0)) eqn:Ea.
  { apply ret_inv in H as [[= <- <-] <-].
    apply negb_true_iff, Z.eqb_neq in Ea.
    split; [now apply is_Some_None_iff | intros _; apply stats_rel_refl]. }
  mcall H as [e1 objid1] w1 Hid. spres_at Hid R1.
  destruct (negb (e1 =? 0)) eqn:E1.
  { apply ret_inv in H as [[= <- <-] <-].
    apply negb_true_iff, Z.eqb_neq in E1.
    split; [now apply is_Some_None_iff | intros _; exact R1]. }
  mcall H as [e2 l2] w2 Hre. spres_at Hre R2.
  apply alloc_retry_result in Hre.
  pose proof (stats_rel_trans _ _ _ R1 R2) as R12.
  destruct l2 as [lp |].
  2:{ apply ret_inv in H as [[= <- <-] <-].
      assert (e2 <> 0) by (intros ->; destruct Hre as [_ Hx];
                           destruct (Hx eq_refl); discriminate).
      split; [now apply is_Some_None_iff | intros _; exact R12]. }
  set (cslot := objid_slot objid1) in *.
  mcall H as ea wa Hal.
  apply pmd_update_mdc_stats_inv in Hal as (-> & Hha & Hpa & Hsa).
  change (negb (0 =? 0)) with false in H. cbv iota in H.
  mcall H as u wl Hlk. mpres_at Hlk Rl.
  mcall H as err0 wb Hm1. mpres_at Hm1 Rb.
  mcall H as err1 wc Hm2. mpres_at Hm2 Rc.
  mcall H as u' wu Hul. mpres_at Hul Ru.
  pose proof (mid_rel_trans _ _ _ (mid_rel_trans _ _ _ Rl Rb)
                (mid_rel_trans _ _ _ Rc Ru)) as [Hhm Hpm Hsm].
  destruct (negb (err1 =? 0)) eqn:E3.
  2:{ apply ret_inv in H as [[= <- <-] <-].
      apply negb_false_iff, Z.eqb_eq in E3. subst err1.
      split; [apply is_Some_Some_iff | now intros []]. }
  apply negb_true_iff, Z.eqb_neq in E3.
  mcall H as eb wd Hab.
  apply pmd_update_mdc_stats_inv in Hab as (_ & Hhd & Hpd & Hsd).
  mcall H as u'' we Hfr. spres_at Hfr Rf.
  apply ret_inv in H as [[= <- <-] <-].
  split; [now apply is_Some_None_iff | intros _].
  intros s. rewrite Rf, Hsd, Hsm, Hsa.
  unfold layout_of. rewrite Hhm, Hha, Hpm, Hpa.
  destruct (decide (s = cslot)) as [-> |]; [|apply R12].
  rewrite stats_alloc_abort; [apply R12|].
  rewrite R12. now apply pool_stats_wf_slot.
Qed.

(** C10: each of the three entry points of the allocation returns a
    layout exactly when it returns success: where it fails, whatever the
    place (the check of the arguments, the generation or the validation
    of the object id, the choice of the media class, the allocation of
    the layout or of its zones, the statistics, the object id found in
    the committed or in the uncommitted tree), the layout handed back is
    [NULL], and the statistics of every slot are what they were before
    the call: the update made for the new object has been undone. *)
Theorem pmd_obj_alloc_layout_iff w :
  pool_stats_wf w ->
  (forall objid otype ocap mclassp realloc,
     alloc_post w (pmd_obj_alloc_cmn objid otype ocap mclassp realloc w))
  /\ (forall otype ocap mclassp,
        alloc_post w (pmd_obj_alloc otype ocap mclassp w))
  /\ (forall objid ocap mclassp,
        alloc_post w (pmd_obj_realloc objid ocap mclassp w)).
Proof.
  intros Hwf. split; [|split].
  - intros. now apply pmd_obj_alloc_cmn_post.
  - intros. unfold pmd_obj_alloc. now apply pmd_obj_alloc_cmn_post.
  - intros. unfold pmd_obj_realloc.
    destruct (negb (pmd_objid_isuser objid)).
    + unfold alloc_post, ret. simpl.
      split; [now apply is_Some_None_iff | intros _; apply stats_rel_refl].
    + now apply pmd_obj_alloc_cmn_post.
Qed.

(** ** Allocation of an MDC *)

Lemma noalloc_rel_refl w : noalloc_rel w w.
Proof. now constructor. Qed.

Lemma noalloc_rel_trans w1 w2 w3 :
  noalloc_rel w1 w2 -> noalloc_rel w2 w3 -> noalloc_rel w1 w3.
Proof. intros [] []. constructor; try congruence. auto. Qed.

Lemma noalloc_modify (f : world -> world) :
  (forall w, w_brk (f w) = w_brk w) ->
  (forall w, w_heap (f w) = w_heap w) ->
  (forall w, w_mp (f w) = w_mp w) ->
  preserves noalloc_rel (modify f).
Proof.
  intros Hb Hh Hm w. unfold modify. simpl.
  constructor; unfold cinfo_of; rewrite ?Hb, ?Hh, ?Hm; auto.
Qed.

Lemma noalloc_pop_oracle : preserves noalloc_rel pop_oracle.
Proof.
  intros w. unfold pop_oracle. destruct (w_oracle w); now constructor.
Qed.

Lemma noalloc_mod_cinfo cslot f :
  (forall c, mmi_luniq (f c) = mmi_luniq c) ->
  preserves noalloc_rel (mod_cinfo cslot f).
Proof.
  intros Hf w. unfold mod_cinfo, modify. simpl.
  constructor; try reflexivity; [auto|].
  intros s. rewrite cinfo_of_upd_slot.
  destruct (decide (s = cslot)) as [-> |]; auto.
Qed.

Lemma noalloc_mod_layout lp f : preserves noalloc_rel (mod_layout lp f).
Proof.
  intros w. unfold mod_layout, modify. simpl.
  constructor; try reflexivity. simpl.
  intros p Hp. now apply lookup_alter_is_Some in Hp.
Qed.

Lemma noalloc_free lp : preserves noalloc_rel (ecio_layout_free lp).
Proof.
  intros w. unfold ecio_layout_free, modify. simpl.
  constructor; try reflexivity. simpl.
  intros p [x [_ Hp]%lookup_delete_Some]. eauto.
Qed.

Lemma noalloc_compact w w' : compact_rel w w' -> noalloc_rel w w'.
Proof.
  intros H. constructor.
  - apply (cr_brk _ _ H).
  - intros lp. now rewrite (cr_heap _ _ H).
  - intros s. apply (cr_slot _ _ H s).
  - apply (cr_slotvcnt _ _ H).
Qed.

Lemma noalloc_addrec cslot cdr :
  preserves noalloc_rel (pmd_mdc_addrec cslot cdr).
Proof. intros w. apply noalloc_compact. apply pres_pmd_mdc_addrec. Qed.

Ltac npres :=
  repeat match goal with
  | |- forall _, _ => intro
  | |- preserves noalloc_rel (bind _ _) =>
      apply (preserves_bind noalloc_rel noalloc_rel_trans)
  | |- preserves noalloc_rel (ret _) =>
      apply (preserves_ret noalloc_rel noalloc_rel_refl)
  | |- preserves noalloc_rel (gets _) =>
      apply (preserves_gets noalloc_rel noalloc_rel_refl)
  | |- preserves noalloc_rel (get_cinfo _) =>
      apply (preserves_gets noalloc_rel noalloc_rel_refl)
  | |- preserves noalloc_rel (get_layout _) =>
      apply (preserves_gets noalloc_rel noalloc_rel_refl)
  | |- preserves noalloc_rel pop_oracle => apply noalloc_pop_oracle
  | |- preserves noalloc_rel (pmd_mdc_addrec _ _) => apply noalloc_addrec
  | |- preserves noalloc_rel (mod_cinfo _ _) =>
      apply noalloc_mod_cinfo; reflexivity
  | |- preserves noalloc_rel (mod_layout _ _) => apply noalloc_mod_layout
  | |- preserves noalloc_rel (ecio_layout_free _) => apply noalloc_free
  | |- preserves noalloc_rel (modify _) =>
      apply noalloc_modify; reflexivity
  | |- preserves noalloc_rel (lock _) => apply noalloc_modify; reflexivity
  | |- preserves noalloc_rel (unlock _) => apply noalloc_modify; reflexivity
  | |- preserves noalloc_rel (if ?b then _ else _) => destruct b
  | |- preserves noalloc_rel (match ?x with _ => _ end) => destruct x
  end.

Lemma noalloc_obj_delete lp : preserves noalloc_rel (pmd_obj_delete lp).
Proof.
  unfold pmd_obj_delete, pmd_obj_delete_impl, pmd_log_delete,
    pmd_update_mdc_stats, pmd_obj_erase_start, pmd_obj_erase_cb,
    pmd_layout_free, smap_free.
  npres.
Qed.

Lemma noalloc_obj_find_get objid :
  preserves noalloc_rel (pmd_obj_find_get objid).
Proof. unfold pmd_obj_find_get, pmd_obj_get. npres. Qed.

Lemma noalloc_validate_loop nodes :
  forall lcnt mdcmax,
    preserves noalloc_rel (mdc0_validate_loop nodes lcnt mdcmax).
Proof.
  induction nodes as [| [k lp] rest IH]; intros lcnt mdcmax; simpl; npres.
  apply IH.
Qed.

Lemma noalloc_validate :
  preserves noalloc_rel (pmd_mdc0_validate false).
Proof.
  unfold pmd_mdc0_validate. cbv iota.
  npres; auto using noalloc_validate_loop, noalloc_obj_find_get,
           noalloc_obj_delete.
Qed.

(** C7, as the code has it: when the last object id of MDC0 has reached
    [MDC_SLOTS - 1], so that the slot to reserve, that id plus one, would
    be [MDC_SLOTS] or more (all the [MDC_SLOTS] slots exist),
    [pmd_mdc_alloc] returns the no-space error as soon as MDC0 has been
    validated, or the error of the validation if that fails.  Nothing is
    allocated: the state is the one the validation left, with the lock
    released; no layout is new, no slot is added. *)
Theorem pmd_mdc_alloc_nospace mincap iter w :
  MDC_SLOTS - 1 <= mmi_luniq (cinfo_of w 0) ->
  let v := pmd_mdc0_validate false (set_w_held (cons L_pmd_s_lock) w) in
  pmd_mdc_alloc mincap iter w
  = (if v.1 =? 0 then merr ENOSPC else v.1,
     set_w_held (remove_first L_pmd_s_lock) v.2)
  /\ noalloc_rel w (pmd_mdc_alloc mincap iter w).2
  /\ (pmd_mdc_alloc mincap iter w).1 <> 0.
Proof.
  intros Hl v.
  pose proof (noalloc_validate (set_w_held (cons L_pmd_s_lock) w)) as Rv.
  fold v in Rv. destruct v as [ev wv] eqn:Ev. simpl in Rv. simpl fst.
  simpl snd.
  assert (Hrun : pmd_mdc_alloc mincap iter w
                 = (if ev =? 0 then merr ENOSPC else ev,
                    set_w_held (remove_first L_pmd_s_lock) wv)).
  { unfold pmd_mdc_alloc. unfold bind at 1. unfold lock at 1, modify at 1.
    unfold bind at 1. subst v. rewrite Ev.
    destruct (ev =? 0) eqn:Ee; simpl negb; cbv iota; [|reflexivity].
    assert (Hge : (MDC_SLOTS - 1 <=? mmi_luniq (cinfo_of wv 0)) = true).
    { apply Z.leb_le. rewrite (na_luniq _ _ Rv 0). exact Hl. }
    assert (Hlu : forall l w0,
               set_w_held (remove_first l) (set_w_held (cons l) w0) = w0).
    { intros l w0. pose proof (lock_unlock l w0) as Hx.
      unfold unlock, modify in Hx. now injection Hx. }
    unfold bind, lock, unlock, modify, get_cinfo, gets, ret.
    change (negb true) with false. cbv beta iota.
    rewrite cinfo_of_set_w_held, Hge, Hlu. reflexivity. }
  rewrite Hrun. simpl. split; [reflexivity|]. split.
  - destruct Rv as [Hb Hh Hu Hs]. constructor; auto.
  - destruct (ev =? 0) eqn:Ee; [discriminate|]. now apply Z.eqb_neq.
Qed.

(** * Further properties of the code *)

(** ** The append path: what a successful append leaves *)

Lemma mdc_push_alog_last r m :
  mdc_cstarted m = false ->
  last (mdc_alog (mdc_push r m)) = Some r
  /\ mdc_cstarted (mdc_push r m) = false.
Proof.
  intros H. unfold mdc_push. rewrite H. simpl. split; [|reflexivity].
  apply last_snoc.
Qed.

(** After a successful append from a state in which no compaction of the
    slot is under way, the record is the last one of the active log. *)
Lemma pmd_mdc_addrec_last cslot cdr w w' :
  mdc_cstarted (mdc_of w cslot) = false ->
  pmd_mdc_addrec cslot cdr w = (0, w') ->
  last (mdc_alog (mdc_of w' cslot)) = Some (cdr_pack w cdr)
  /\ mdc_cstarted (mdc_of w' cslot) = false.
Proof.
  intros Hc H.
  rewrite pmd_mdc_addrec_unfold in H.
  mcall H as e1 w1 H1.
  destruct (merr_errno e1 =? EFBIG) eqn:E1.
  - mcall H as e2 w2 H2.
    destruct (e2 =? 0) eqn:E2.
    + apply Z.eqb_eq in E2. subst e2.
      assert (R1 : compact_rel w w1) by (now pres_at H1).
      assert (R2 : compact_rel w1 w2) by (now pres_at H2).
      apply pmd_mdc_compact_cstarted in H2.
      apply pmd_mdc_append_ok in H. rewrite H.
      rewrite (cdr_pack_heap w w2).
      * now apply mdc_push_alog_last.
      * rewrite (cr_heap _ _ R2). apply (cr_heap _ _ R1).
    + apply ret_inv in H as [[=] _]. apply Z.eqb_neq in E2. congruence.
  - apply ret_inv in H as [-> <-].
    apply pmd_mdc_append_ok in H1. rewrite H1.
    now apply mdc_push_alog_last.
Qed.

Lemma pmd_mdc_addrec_rel cslot cdr w e w' :
  mdc_cstarted (mdc_of w cslot) = false ->
  pmd_mdc_addrec cslot cdr w = (e, w') ->
  compact_rel w w'
  /\ (e = 0 ->
      last (mdc_alog (mdc_of w' cslot)) = Some (cdr_pack w cdr)
      /\ mdc_cstarted (mdc_of w' cslot) = false).
Proof.
  intros Hc H. split; [now pres_at H|]. intros ->.
  now apply pmd_mdc_addrec_last.
Qed.

(** X1: an append through [pmd_mdc_addrec], with the compaction it may run,
    moves nothing but the logs, the record counters, the script of the
    outcomes and the trace; when it succeeds, from a state in which no
    compaction of the slot is under way, the record is the last one of
    the active log of the slot. *)
Theorem pmd_mdc_addrec_durable cslot cdr w e w' :
  mdc_cstarted (mdc_of w cslot) = false ->
  pmd_mdc_addrec cslot cdr w = (e, w') ->
  compact_rel w w'
  /\ (e = 0 ->
      last (mdc_alog (mdc_of w' cslot)) = Some (cdr_pack w cdr)
      /\ mdc_cstarted (mdc_of w' cslot) = false).
Proof.
  intros Hc H. split.
  - now pres_at H.
  - intros ->. now apply pmd_mdc_addrec_last.
Qed.

(** ** Commit *)

Lemma uncobj_erase_eq cslot objid w u w1 :
  (match objid_to_layout_search_mdc (mmi_uncobj (cinfo_of w cslot)) objid with
   | Some _ => mod_cinfo cslot (set_mmi_uncobj (rb_erase objid))
   | None => ret tt
   end) w = (u, w1) ->
  w1 = upd_slot cslot (set_mmi_uncobj (rb_erase objid)) w
  \/ (w1 = w /\ mmi_uncobj (cinfo_of w cslot) !! objid = None).
Proof.
  unfold objid_to_layout_search_mdc.
  destruct (mmi_uncobj (cinfo_of w cslot) !! objid) eqn:E; intros H.
  - left. now mprim H.
  - right. now mprim H.
Qed.

(** X2: a commit that succeeds on a layout that was not committed has
    written the OCREATE record of the layout as the last record of the
    active log of its slot, has set the COMMITTED bit of the layout and
    of no other, has taken the object id out of the uncommitted map and
    put it in the committed map, where it was not before, and has
    released the locks it took. *)
Theorem pmd_obj_commit_moves lp w w' :
  lyt_committed (layout_of w lp) = false ->
  mdc_cstarted (mdc_of w (objid_slot (eld_objid (layout_of w lp)))) = false ->
  pmd_obj_commit lp w = (0, w') ->
  let objid := eld_objid (layout_of w lp) in
  let cslot := objid_slot objid in
  mmi_obj (cinfo_of w cslot) !! objid = None
  /\ mmi_obj (cinfo_of w' cslot) = <[objid := lp]> (mmi_obj (cinfo_of w cslot))
  /\ mmi_uncobj (cinfo_of w' cslot)
     = delete objid (mmi_uncobj (cinfo_of w cslot))
  /\ w_heap w' = alter (state_set ECIO_LYT_COMMITTED) lp (w_heap w)
  /\ last (mdc_alog (mdc_of w' cslot))
     = Some (MDR_OCREATE (layout_pack (layout_of w lp)))
  /\ w_held w' = w_held w.
Proof.
  intros Hc Hcs H objid cslot.
  pose proof (pmd_obj_commit_heap lp w w' Hc H) as Hheap.
  unfold pmd_obj_commit in H. mexec H.
  change (layout_of (set_w_held (cons (L_rwlock lp)) w) lp)
    with (layout_of w lp) in H.
  destruct (negb (objtype_user _)).
  { mexec H. mprim H. discriminate. }
  rewrite Hc in H. mexec H.
  fold objid in H. fold cslot in H.
  mcall H as e wb Hlog.
  unfold pmd_log_create in Hlog. mexec Hlog.
  match type of Hlog with
  | pmd_mdc_addrec _ _ ?w0 = _ => set (wa := w0) in *
  end.
  mcall H as e' wc Hins.
  destruct (e =? 0) eqn:Ee.
  2:{ mprim Hins. mexec H. apply Z.eqb_neq in Ee.
      destruct (e =? 0) eqn:Ee'; [apply Z.eqb_eq in Ee'; congruence|].
      mexec H. mprim H. congruence. }
  apply Z.eqb_eq in Ee. subst e.
  change (layout_of wa lp) with (layout_of w lp) in Hlog.
  fold objid in Hlog. fold cslot in Hlog.
  apply pmd_mdc_addrec_rel in Hlog as (R & Hlast); [|exact Hcs].
  destruct (Hlast eq_refl) as [Hlast' _]. clear Hlast.
  change (cdr_pack wa (CDR_OCREATE lp))
    with (MDR_OCREATE (layout_pack (layout_of w lp))) in Hlast'.
  mexec Hins. mcall Hins as u wd Hunc.
  assert (Hwb : mmi_obj (cinfo_of wb cslot) = mmi_obj (cinfo_of w cslot)
                /\ mmi_uncobj (cinfo_of wb cslot)
                   = mmi_uncobj (cinfo_of w cslot)).
  { destruct (cr_slot _ _ R cslot) as [Ho Hu _ _ _ _ _ _ _ _].
    split; [exact Ho | exact Hu]. }
  destruct Hwb as [Hob Hub].
  assert (Hwd : mmi_obj (cinfo_of wd cslot) = mmi_obj (cinfo_of w cslot)
                /\ mmi_uncobj (cinfo_of wd cslot)
                   = delete objid (mmi_uncobj (cinfo_of w cslot))
                /\ w_mdc wd = w_mdc wb
                /\ w_held wd = L_uncolock cslot :: w_held wb).
  { apply uncobj_erase_eq in Hunc as [-> | [-> Hn]].
    - rewrite cinfo_of_upd_slot_eq, cinfo_of_set_w_held, cinfo_of_set_w_heap.
      simpl. unfold rb_erase. rewrite Hob, Hub. auto.
    - rewrite cinfo_of_set_w_held, cinfo_of_set_w_heap in *.
      rewrite Hob, Hub. rewrite Hub in Hn.
      rewrite delete_id by exact Hn. auto. }
  destruct Hwd as (Hod & Hud & Hmd & Hhd).
  mexec Hins. mcall Hins as found we Htree.
  rewrite tree_insert_obj_eq in Htree.
  rewrite !cinfo_of_set_w_held, Hod in Htree.
  destruct (mmi_obj (cinfo_of w cslot) !! objid) as [f|] eqn:Ek;
    injection Htree as <- <-.
  { mexec Hins. mcall Hins as d wf Hdup. mexec Hins. mprim Hins.
    mexec H. destruct (merr EEXIST =? 0) eqn:E; [discriminate|].
    mexec H. mprim H. discriminate. }
  mexec Hins. mprim Hins.
  mexec H. change (0 =? 0) with true in H. cbv iota in H.
  mcall H as s wg Hst.
  unfold pmd_update_mdc_stats in Hst. mexec Hst. mprim Hst.
  apply ret_inv in H as [_ <-].
  split; [reflexivity|].
  repeat first [ rewrite cinfo_of_set_w_held
               | rewrite cinfo_of_upd_slot_eq ].
  simpl mmi_obj. simpl mmi_uncobj. rewrite Hud.
  split; [reflexivity|]. split; [reflexivity|]. split; [exact Hheap|].
  split.
  - unfold mdc_of in *. simpl. rewrite Hmd. exact Hlast'.
  - simpl. rewrite Hhd, (cr_held _ _ R). subst wa. simpl.
    now rewrite !remove_first_cons.
Qed.

Lemma compact_rel_unlock l w wb :
  compact_rel (set_w_held (cons l) w) wb ->
  compact_rel w (set_w_held (remove_first l) wb).
Proof.
  intros [A B C D E F G H I J K L M N O].
  constructor; simpl in *; try assumption.
  rewrite G. apply remove_first_cons.
Qed.

Lemma tree_insert_uncobj_eq cslot objid lp w :
  tree_insert_uncobj cslot objid lp w
  = match mmi_uncobj (cinfo_of w cslot) !! objid with
    | Some found => (Some found, w)
    | None =>
        (None,
         upd_slot cslot
           (set_mmi_uncobj
              (fun _ => <[objid := lp]> (mmi_uncobj (cinfo_of w cslot)))) w)
    end.
Proof.
  unfold tree_insert_uncobj, objid_to_layout_insert_mdc, bind, get_cinfo,
    gets.
  now destruct (mmi_uncobj (cinfo_of w cslot) !! objid).
Qed.

(** X3: a commit that fails.  Unless the object id is already in the
    committed map, nothing has moved but the logs, the record counters,
    the script and the trace: the layout is still uncommitted and where
    it was.  When the object id is in the committed map and the OCREATE
    record could be written, the error is EEXIST, the committed map is
    as it was and the layout is back in the uncommitted map, with the
    COMMITTED bit set. *)
Theorem pmd_obj_commit_fails lp w e w' :
  pmd_obj_commit lp w = (e, w') ->
  e <> 0 ->
  let objid := eld_objid (layout_of w lp) in
  let cslot := objid_slot objid in
  compact_rel w w'
  \/ (e = merr EEXIST
      /\ is_Some (mmi_obj (cinfo_of w cslot) !! objid)
      /\ mmi_obj (cinfo_of w' cslot) = mmi_obj (cinfo_of w cslot)
      /\ mmi_uncobj (cinfo_of w' cslot)
         = <[objid := lp]> (mmi_uncobj (cinfo_of w cslot))
      /\ w_heap w' = alter (state_set ECIO_LYT_COMMITTED) lp (w_heap w)
      /\ w_held w' = w_held w).
Proof.
  intros H He objid cslot.
  destruct (objtype_user (objid_type objid)) eqn:Hu.
  2:{ rewrite pmd_obj_commit_not_user in H by exact Hu.
      injection H as <- <-. left. reflexivity. }
  destruct (lyt_committed (layout_of w lp)) eqn:Hc.
  { rewrite pmd_obj_commit_committed in H by assumption.
    injection H as <- <-. congruence. }
  unfold pmd_obj_commit in H. mexec H.
  change (layout_of (set_w_held (cons (L_rwlock lp)) w) lp)
    with (layout_of w lp) in H.
  fold objid in H. rewrite Hu, Hc in H. simpl negb in H. cbv iota in H.
  mexec H. fold cslot in H.
  mcall H as e0 wb Hlog.
  unfold pmd_log_create in Hlog. mexec Hlog.
  match type of Hlog with
  | pmd_mdc_addrec _ _ ?w0 = _ => set (wa := w0) in *
  end.
  assert (R : compact_rel wa wb) by (now pres_at Hlog).
  mcall H as e' wc Hins.
  destruct (e0 =? 0) eqn:Ee.
  2:{ apply ret_inv in Hins as [<- <-]. mexec H. rewrite Ee in H.
      mexec H. apply ret_inv in H as [_ <-]. left.
      apply compact_rel_unlock, compact_rel_unlock. exact R. }
  apply Z.eqb_eq in Ee. subst e0.
  mexec Hins. mcall Hins as u wd Hunc.
  destruct (cr_slot _ _ R cslot) as [Hob Hub _ _ _ _ _ _ _ _].
  change (cinfo_of wa cslot) with (cinfo_of w cslot) in Hob, Hub.
  assert (Hwd : mmi_obj (cinfo_of wd cslot) = mmi_obj (cinfo_of w cslot)
                /\ mmi_uncobj (cinfo_of wd cslot)
                   = delete objid (mmi_uncobj (cinfo_of w cslot))
                /\ w_heap wd = alter (state_set ECIO_LYT_COMMITTED) lp
                                 (w_heap w)
                /\ w_held wd = L_uncolock cslot :: w_held wb).
  { apply uncobj_erase_eq in Hunc as [-> | [-> Hn]].
    - rewrite cinfo_of_upd_slot_eq, cinfo_of_set_w_held, cinfo_of_set_w_heap.
      simpl. unfold rb_erase. rewrite Hob, Hub, (cr_heap _ _ R). auto.
    - rewrite cinfo_of_set_w_held, cinfo_of_set_w_heap in *.
      rewrite Hob, Hub. rewrite Hub in Hn.
      rewrite delete_id by exact Hn. simpl. rewrite (cr_heap _ _ R). auto. }
  destruct Hwd as (Hod & Hud & Hhd & Hld).
  mexec Hins. mcall Hins as found we Htree.
  rewrite tree_insert_obj_eq in Htree.
  rewrite !cinfo_of_set_w_held, Hod in Htree.
  destruct (mmi_obj (cinfo_of w cslot) !! objid) as [f|] eqn:Ek;
    injection Htree as <- <-.
  2:{ mexec Hins. apply ret_inv in Hins as [<- _]. mexec H.
      change (0 =? 0) with true in H. cbv iota in H.
      mcall H as s wg Hst. apply ret_inv in H as [<- _]. congruence. }
  right. mexec Hins. mcall Hins as d wf Hdup.
  rewrite tree_insert_uncobj_eq in Hdup.
  rewrite !cinfo_of_set_w_held, Hud, lookup_delete_eq in Hdup.
  injection Hdup as <- <-.
  mexec Hins. apply ret_inv in Hins as [<- <-].
  mexec H. change (merr EEXIST =? 0) with false in H. cbv iota in H.
  mexec H. apply ret_inv in H as [<- <-].
  split; [reflexivity|]. split; [eauto|].
  repeat first [ rewrite cinfo_of_set_w_held
               | rewrite cinfo_of_upd_slot_eq ].
  simpl mmi_obj. simpl mmi_uncobj.
  split; [exact Hod|]. split; [apply insert_delete_eq|].
  split; [exact Hhd|].
  simpl. rewrite Hld, (cr_held _ _ R). subst wa. simpl.
  now rewrite !remove_first_cons.
Qed.

(** ** Abort *)

Lemma unlock_lock_eq l w :
  set_w_held (remove_first l) (set_w_held (cons l) w) = w.
Proof.
  pose proof (lock_unlock l w) as H. unfold unlock, modify in H.
  now injection H.
Qed.

(** X4: [pmd_obj_abort] succeeds exactly on a layout of a user type that
    is not committed, not being deleted and held by at most two
    references; every refusal (EINVAL, or EBUSY for the references)
    leaves the state as it was.  A successful abort takes the object id
    out of the uncommitted map, touches no committed map, no log and no
    other layout, releases its locks, and either has freed the layout or
    has queued it, marked as removed, for the erase work. *)
Theorem pmd_obj_abort_spec lp w e w' :
  pmd_obj_abort lp w = (e, w') ->
  let l := layout_of w lp in
  let objid := eld_objid l in
  let cslot := objid_slot objid in
  (e <> 0 -> w' = w /\ (e = merr EINVAL \/ e = merr EBUSY /\ 2 < eld_refcnt l))
  /\ (e = 0 <->
      objtype_user (objid_type objid) = true /\ lyt_committed l = false
      /\ eld_isdel l = false /\ eld_refcnt l <= 2)
  /\ (e = 0 ->
      mmi_uncobj (cinfo_of w' cslot)
      = delete objid (mmi_uncobj (cinfo_of w cslot))
      /\ (forall s, mmi_obj (cinfo_of w' s) = mmi_obj (cinfo_of w s))
      /\ w_mdc w' = w_mdc w /\ w_trace w' = w_trace w
      /\ w_held w' = w_held w
      /\ (forall p, p <> lp -> w_heap w' !! p = w_heap w !! p)
      /\ (w_heap w' !! lp = None /\ w_erase_wq w' = w_erase_wq w
          \/ w_erase_wq w' = w_erase_wq w ++ [lp]
             /\ w_heap w'
                = alter (fun l => state_set ECIO_LYT_REMOVED
                                    (set_eld_isdel true (set_eld_refcnt 0 l)))
                        lp (w_heap w))).
Proof.
  intros H l objid cslot.
  unfold pmd_obj_abort in H. mexec H.
  change (layout_of (set_w_held (cons (L_rwlock lp)) w) lp) with l in H.
  fold objid in H. fold cslot in H.
  destruct (objtype_user (objid_type objid)) eqn:Hu; simpl negb in H;
    simpl orb in H.
  2:{ mexec H. apply ret_inv in H as [<- <-]. rewrite unlock_lock_eq.
      split; [auto|]. split; [|discriminate].
      split; [discriminate | intros [? _]; discriminate]. }
  destruct (lyt_committed l) eqn:Hc.
  { mexec H. apply ret_inv in H as [<- <-]. rewrite unlock_lock_eq.
    split; [auto|]. split; [|discriminate].
    split; [discriminate | intros (_ & ? & _); discriminate]. }
  mexec H.
  destruct (eld_isdel l) eqn:Hd; simpl orb in H.
  { mexec H. apply ret_inv in H as [<- <-]. rewrite !unlock_lock_eq.
    split; [auto|]. split; [|discriminate].
    split; [discriminate | intros (_ & _ & ? & _); discriminate]. }
  destruct (2 <? eld_refcnt l) eqn:Hr.
  { mexec H. apply ret_inv in H as [<- <-]. rewrite !unlock_lock_eq.
    apply Z.ltb_lt in Hr.
    split; [auto|]. split; [|discriminate].
    split; [discriminate | intros (_ & _ & _ & ?); lia]. }
  apply Z.ltb_ge in Hr.
  mexec H. mcall H as u wd Hunc.
  match type of Hunc with
  | _ ?w0 = _ => set (ws := w0) in *
  end.
  change (cinfo_of ws cslot) with (cinfo_of w cslot) in Hunc.
  assert (Hwd : mmi_uncobj (cinfo_of wd cslot)
                = delete objid (mmi_uncobj (cinfo_of w cslot))
                /\ (forall s, mmi_obj (cinfo_of wd s) = mmi_obj (cinfo_of w s))
                /\ w_heap wd = w_heap ws /\ w_held wd = w_held ws
                /\ w_mdc wd = w_mdc w /\ w_trace wd = w_trace w
                /\ w_erase_wq wd = w_erase_wq w).
  { unfold objid_to_layout_search_mdc in Hunc.
    destruct (mmi_uncobj (cinfo_of w cslot) !! objid) eqn:E;
      mprim Hunc.
    - rewrite cinfo_of_upd_slot_eq. simpl.
      split; [reflexivity|]. split; [|now repeat split].
      intros s. rewrite cinfo_of_upd_slot.
      now destruct (decide (s = cslot)) as [-> |].
    - split; [now rewrite delete_id|]. now repeat split. }
  destruct Hwd as (Hud & Hod & Hhd & Hld & Hmd & Htd & Hqd).
  mexec H. mcall H as es wg Hst.
  unfold pmd_update_mdc_stats in Hst. mexec Hst. mprim Hst.
  mcall H as u' wh Her. apply ret_inv in H as [<- <-].
  split; [congruence|]. split; [tauto|]. intros _.
  match type of Her with
  | _ ?w0 = _ => set (wx := w0) in *
  end.
  assert (Hwx : mmi_uncobj (cinfo_of wx cslot)
                = delete objid (mmi_uncobj (cinfo_of w cslot))
                /\ (forall s, mmi_obj (cinfo_of wx s) = mmi_obj (cinfo_of w s))
                /\ w_heap wx
                   = alter (fun l => state_set ECIO_LYT_REMOVED
                                       (set_eld_isdel true
                                          (set_eld_refcnt 0 l)))
                           lp (w_heap w)
                /\ w_held wx = w_held w
                /\ w_mdc wx = w_mdc w /\ w_trace wx = w_trace w
                /\ w_erase_wq wx = w_erase_wq w).
  { subst wx.
    repeat first [ rewrite cinfo_of_set_w_held
                 | rewrite cinfo_of_upd_slot_eq ].
    simpl mmi_uncobj. split; [exact Hud|]. split.
    { intros s. rewrite cinfo_of_set_w_held, cinfo_of_upd_slot.
      destruct (decide (s = cslot)) as [-> |];
        rewrite ?cinfo_of_set_w_held; simpl; apply Hod. }
    simpl. rewrite Hhd, Hld. subst ws. simpl.
    rewrite !remove_first_cons, !alter_alter.
    now repeat split. }
  clearbody wx.
  destruct Hwx as (Hux & Hox & Hhx & Hlx & Hmx & Htx & Hqx).
  unfold pmd_obj_erase_start in Her. mcall Her as eo wo Hpop.
  pose proof (pop_oracle_frame _ _ _ Hpop) as (Hm & Hmp & Hh & Hl & Ht).
  assert (Hq : w_erase_wq wo = w_erase_wq wx).
  { unfold pop_oracle in Hpop.
    destruct (w_oracle _); now injection Hpop as _ <-. }
  destruct (eo =? 0).
  - mprim Her.
    match goal with
    | |- context [cinfo_of ?w0 cslot] => set (wfin := w0)
    end.
    assert (Hmpf : w_mp wfin = w_mp wx) by exact Hmp.
    rewrite (cinfo_of_mp wx wfin cslot Hmpf).
    split; [exact Hux|]. split.
    { intros s. rewrite (cinfo_of_mp wx wfin s Hmpf). apply Hox. }
    subst wfin. simpl.
    split; [congruence|]. split; [congruence|]. split; [congruence|].
    split; [|right].
    + intros p Hp. rewrite Hh, Hhx. now apply lookup_alter_ne.
    + split; congruence.
  - unfold pmd_obj_erase_cb, pmd_layout_free, smap_free in Her.
    mexec Her. mcall Her as ef wf Hpf. mprim Her.
    pose proof (pop_oracle_frame _ _ _ Hpf) as (Hm' & Hmp' & Hh' & Hl' & Ht').
    assert (Hq' : w_erase_wq wf = w_erase_wq wo).
    { unfold pop_oracle in Hpf.
      destruct (w_oracle _); now injection Hpf as _ <-. }
    match goal with
    | |- context [cinfo_of ?w0 cslot] => set (wfin := w0)
    end.
    assert (Hmpf : w_mp wfin = w_mp wx)
      by (subst wfin; simpl; congruence).
    rewrite (cinfo_of_mp wx wfin cslot Hmpf).
    split; [exact Hux|]. split.
    { intros s. rewrite (cinfo_of_mp wx wfin s Hmpf). apply Hox. }
    subst wfin. simpl.
    split; [congruence|]. split; [congruence|]. split; [congruence|].
    split; [|left].
    + intros p Hp. rewrite lookup_delete_ne by congruence.
      rewrite Hh', Hh, Hhx. now apply lookup_alter_ne.
    + split; [apply lookup_delete_eq | congruence].
Qed.

(** ** Delete *)

Lemma pop_oracle_wq e w w1 :
  pop_oracle w = (e, w1) -> w_erase_wq w1 = w_erase_wq w.
Proof.
  unfold pop_oracle. destruct (w_oracle w); now intros [= _ <-].
Qed.

(** What [pmd_obj_erase_start] does with a layout: the erase work is
    queued, or the layout is freed at once. *)
Lemma pmd_obj_erase_start_inv lp w u w' :
  pmd_obj_erase_start lp w = (u, w') ->
  w_mp w' = w_mp w /\ w_mdc w' = w_mdc w /\ w_trace w' = w_trace w
  /\ w_held w' = w_held w
  /\ (w_heap w' = delete lp (w_heap w) /\ w_erase_wq w' = w_erase_wq w
      \/ w_heap w' = w_heap w /\ w_erase_wq w' = w_erase_wq w ++ [lp]).
Proof.
  intros H. unfold pmd_obj_erase_start in H. mcall H as eo wo Hpop.
  pose proof (pop_oracle_frame _ _ _ Hpop) as (Hm & Hmp & Hh & Hl & Ht).
  pose proof (pop_oracle_wq _ _ _ Hpop) as Hq.
  destruct (eo =? 0).
  - mprim H. simpl. repeat split; try assumption. right. split; congruence.
  - unfold pmd_obj_erase_cb, pmd_layout_free, smap_free in H.
    mexec H. mcall H as ef wf Hpf. mprim H.
    pose proof (pop_oracle_frame _ _ _ Hpf) as (Hm' & Hmp' & Hh' & Hl' & Ht').
    pose proof (pop_oracle_wq _ _ _ Hpf) as Hq'.
    simpl. repeat split; try congruence. left. split; congruence.
Qed.

(** X5: a delete that succeeds was made on a committed layout of a user
    type, not removed, not being deleted and held by at most two
    references; it has written the ODELETE record as the last record of
    the active log of the slot, has taken the object id out of the
    committed map, has released its locks, has touched no other layout,
    and either has freed the layout or has queued it, marked as removed,
    for the erase work. *)
Theorem pmd_obj_delete_success lp bgdel w w' :
  mdc_cstarted (mdc_of w (objid_slot (eld_objid (layout_of w lp)))) = false ->
  pmd_obj_delete_impl lp bgdel w = (0, w') ->
  let l := layout_of w lp in
  let objid := eld_objid l in
  let cslot := objid_slot objid in
  (objtype_user (objid_type objid) = true /\ lyt_committed l = true
   /\ lyt_removed l = false /\ eld_isdel l = false /\ eld_refcnt l <= 2)
  /\ mmi_obj (cinfo_of w' cslot) = delete objid (mmi_obj (cinfo_of w cslot))
  /\ mmi_uncobj (cinfo_of w' cslot) = mmi_uncobj (cinfo_of w cslot)
  /\ last (mdc_alog (mdc_of w' cslot)) = Some (MDR_ODELETE objid)
  /\ w_held w' = w_held w
  /\ (forall p, p <> lp -> w_heap w' !! p = w_heap w !! p)
  /\ (w_heap w' !! lp = None /\ w_erase_wq w' = w_erase_wq w
      \/ w_erase_wq w' = w_erase_wq w ++ [lp]
         /\ w_heap w'
            = alter (fun l => state_set ECIO_LYT_REMOVED
                                (set_eld_isdel true (set_eld_refcnt 0 l)))
                    lp (w_heap w)).
Proof.
  intros Hcs H l objid cslot.
  unfold pmd_obj_delete_impl in H. mexec H.
  change (layout_of (set_w_held (cons (L_rwlock lp)) w) lp) with l in H.
  fold objid in H. fold cslot in H.
  destruct (objtype_user (objid_type objid)) eqn:Hu; simpl negb in H;
    simpl orb in H.
  2:{ mexec H. apply ret_inv in H as [[=] _]. }
  destruct (lyt_committed l) eqn:Hc; simpl negb in H; simpl orb in H.
  2:{ mexec H. apply ret_inv in H as [[=] _]. }
  destruct (lyt_removed l) eqn:Hrm.
  { mexec H. apply ret_inv in H as [[=] _]. }
  mexec H.
  destruct (eld_isdel l) eqn:Hd; simpl orb in H.
  { mexec H. apply ret_inv in H as [[=] _]. }
  destruct (2 <? eld_refcnt l) eqn:Hr.
  { mexec H. apply ret_inv in H as [[=] _]. }
  apply Z.ltb_ge in Hr. split; [auto|].
  mexec H. mcall H as e wb Hlog.
  unfold pmd_log_delete in Hlog.
  match type of Hlog with
  | pmd_mdc_addrec _ _ ?w0 = _ => set (wa := w0) in *
  end.
  apply pmd_mdc_addrec_rel in Hlog as (R & Hlast); [|exact Hcs].
  destruct (e =? 0) eqn:Ee.
  2:{ mcall H as f wc Hrb. mexec Hrb. apply ret_inv in Hrb as [<- <-].
      mexec H. simpl negb in H. cbv iota in H.
      apply ret_inv in H as [-> _]. discriminate. }
  apply Z.eqb_eq in Ee. subst e. destruct (Hlast eq_refl) as [Hlast' _].
  simpl cdr_pack in Hlast'. clear Hlast.
  destruct (cr_slot _ _ R cslot) as [Hob Hub _ _ _ _ _ _ _ _].
  change (cinfo_of wa cslot) with (cinfo_of w cslot) in Hob, Hub.
  mcall H as found wc Hf. mexec Hf.
  rewrite cinfo_of_set_w_held in Hf.
  unfold objid_to_layout_search_mdc in Hf. rewrite Hob in Hf.
  assert (Hfw :
    mmi_obj (cinfo_of wc cslot) = delete objid (mmi_obj (cinfo_of w cslot))
    /\ mmi_uncobj (cinfo_of wc cslot) = mmi_uncobj (cinfo_of w cslot)
    /\ w_mdc wc = w_mdc wb /\ w_heap wc = w_heap wb
    /\ w_erase_wq wc = w_erase_wq wb /\ w_held wc = w_held wb).
  { destruct (mmi_obj (cinfo_of w cslot) !! objid) eqn:Eo.
    - mexec Hf. mprim Hf. rewrite cinfo_of_set_w_held, cinfo_of_upd_slot_eq.
      rewrite cinfo_of_set_w_held. simpl. rewrite Hob, Hub.
      rewrite remove_first_cons. now repeat split.
    - mexec Hf. mprim Hf. rewrite !cinfo_of_set_w_held. simpl.
      rewrite Hob, Hub, delete_id, remove_first_cons by assumption.
      now repeat split. }
  destruct Hfw as (Hobc & Hubc & Hmdc & Hheapc & Hwqc & Hheldc).
  clear Hf.
  assert (Hheldb : w_held wb = L_compactlock cslot :: L_rwlock lp :: w_held w).
  { rewrite (cr_held _ _ R). subst wa. simpl. now rewrite remove_first_cons. }
  assert (Hheapb : w_heap wb
    = alter (fun l0 => state_set ECIO_LYT_REMOVED
                         (set_eld_isdel true (set_eld_refcnt 0 l0))) lp
        (w_heap w)).
  { rewrite (cr_heap _ _ R). subst wa. simpl. rewrite !alter_alter.
    reflexivity. }
  assert (Hwqb : w_erase_wq wb = w_erase_wq w).
  { rewrite (cr_erase_wq _ _ R). reflexivity. }
  mcall H as u1 w1 H1. mprim H1. mcall H as u2 w2 H2. mprim H2.
  mcall H as u3 w3 H3. simpl negb in H. cbv iota in H.
  assert (Hw3 :
    mmi_obj (cinfo_of w3 cslot) = mmi_obj (cinfo_of wc cslot)
    /\ mmi_uncobj (cinfo_of w3 cslot) = mmi_uncobj (cinfo_of wc cslot)
    /\ w_mdc w3 = w_mdc wc /\ w_heap w3 = w_heap wc
    /\ w_erase_wq w3 = w_erase_wq wc /\ w_held w3 = w_held w).
  { destruct found.
    - mexec H3. mcall H3 as e4 w4 H4. mprim H3.
      unfold pmd_update_mdc_stats in H4. mexec H4. mprim H4.
      rewrite !cinfo_of_set_w_held, cinfo_of_upd_slot_eq.
      rewrite !cinfo_of_set_w_held, cinfo_of_upd_slot_eq.
      rewrite !cinfo_of_set_w_held. simpl.
      rewrite Hheldc, Hheldb, !remove_first_cons. now repeat split.
    - mprim H3. rewrite !cinfo_of_set_w_held. simpl.
      rewrite Hheldc, Hheldb, !remove_first_cons. now repeat split. }
  destruct Hw3 as (Ho3 & Hu3 & Hm3 & Hh3 & Hq3 & Hl3). clear H3.
  mcall H as u5 w5 H5. mprim H5. mcall H as u6 w6 H6.
  apply ret_inv in H as [_ <-].
  apply pmd_obj_erase_start_inv in H6 as (Hmp6 & Hm6 & _ & Hl6 & Hcase).
  rewrite (cinfo_of_mp _ _ cslot Hmp6), cinfo_of_upd_slot_eq.
  unfold mdc_of. rewrite Hm6. simpl.
  rewrite Ho3, Hu3, Hobc, Hubc, Hm3, Hmdc, Hl6. simpl. rewrite Hl3.
  repeat split; try reflexivity.
  - exact Hlast'.
  - intros p Hp. destruct Hcase as [[-> _] | [-> _]]; simpl;
      rewrite ?lookup_delete_ne by congruence;
      rewrite Hh3, Hheapc, Hheapb; now rewrite lookup_alter_ne by congruence.
  - destruct Hcase as [[-> ->] | [-> ->]]; simpl.
    + left. rewrite lookup_delete_eq. split; [reflexivity | congruence].
    + right. split; congruence.
Qed.

(** ** References: [pmd_obj_get] and [pmd_obj_find_get] *)

Lemma pmd_obj_get_inv lp w e w' :
  pmd_obj_get lp w = (e, w') ->
  if eld_isdel (layout_of w lp)
  then e = merr ENOSPC /\ w' = w
  else e = 0
       /\ w' = set_w_heap
                 (alter (fun l => set_eld_refcnt (wrap_s64 (eld_refcnt l + 1)) l)
                        lp) w.
Proof.
  intros H. unfold pmd_obj_get in H. mexec H.
  change (layout_of (set_w_held (cons _) w) lp) with (layout_of w lp) in *.
  destruct (eld_isdel (layout_of w lp)); cbv zeta in H.
  - change (ENOSPC =? 0) with false in H. cbv iota in H.
    mexec H. apply ret_inv in H as [<- <-].
    split; [reflexivity|]. apply unlock_lock_eq.
  - change (0 =? 0) with true in H. cbv iota in H.
    mexec H. apply ret_inv in H as [<- <-]. split; [reflexivity|].
    unfold set_w_held, set_w_heap. simpl. rewrite remove_first_cons.
    reflexivity.
Qed.

(** X6: [pmd_obj_find_get] looks the object id up in the committed map of
    its slot and, only when it is not there, in the uncommitted map.  It
    returns the layout found with exactly one more reference and nothing
    else changed; it returns nothing, and leaves the state as it was, when
    the type is not a user type, when neither map holds the id, or when
    the layout found is being deleted. *)
Theorem pmd_obj_find_get_spec objid w r w' :
  pmd_obj_find_get objid w = (r, w') ->
  let ci := cinfo_of w (objid_slot objid) in
  let hit := match mmi_obj ci !! objid with
             | Some lp => Some lp
             | None => mmi_uncobj ci !! objid
             end in
  match r with
  | Some lp =>
      objtype_user (objid_type objid) = true
      /\ hit = Some lp /\ eld_isdel (layout_of w lp) = false
      /\ w' = set_w_heap
                (alter (fun l => set_eld_refcnt (wrap_s64 (eld_refcnt l + 1)) l)
                       lp) w
  | None =>
      w' = w
      /\ (objtype_user (objid_type objid) = false \/ hit = None
          \/ exists lp, hit = Some lp /\ eld_isdel (layout_of w lp) = true)
  end.
Proof.
  intros H ci hit. unfold pmd_obj_find_get in H.
  destruct (objtype_user (objid_type objid)) eqn:Hu; simpl negb in H;
    cbv iota in H.
  2:{ apply ret_inv in H as [<- <-]. split; [reflexivity | now left]. }
  mexec H. rewrite cinfo_of_set_w_held in H. fold ci in H.
  unfold objid_to_layout_search_mdc in H. subst hit.
  destruct (mmi_obj ci !! objid) as [lp|] eqn:Eo.
  - mcall H as e w1 Hg. apply pmd_obj_get_inv in Hg.
    change (layout_of (set_w_held (cons _) w) lp) with (layout_of w lp) in Hg.
    mexec H. destruct (eld_isdel (layout_of w lp)) eqn:Ed.
    + destruct Hg as [-> ->]. apply ret_inv in H as [<- <-].
      rewrite unlock_lock_eq. split; [reflexivity|]. right. right.
      now exists lp.
    + destruct Hg as [-> ->]. apply ret_inv in H as [<- <-].
      repeat split; try reflexivity; try assumption.
      unfold set_w_held, set_w_heap. simpl. now rewrite remove_first_cons.
  - mexec H. rewrite unlock_lock_eq in H.
    mcall H as [f e] w2 Hx. mexec Hx.
    rewrite cinfo_of_set_w_held in Hx. fold ci in Hx.
    destruct (mmi_uncobj ci !! objid) as [lp|] eqn:Eu.
    + mcall Hx as e1 w1 Hg. apply pmd_obj_get_inv in Hg.
      change (layout_of (set_w_held (cons _) w) lp) with (layout_of w lp)
        in Hg.
      mexec Hx. apply ret_inv in Hx as [[= <- <-] <-].
      destruct (eld_isdel (layout_of w lp)) eqn:Ed.
      * destruct Hg as [-> ->]. apply ret_inv in H as [<- <-].
        rewrite unlock_lock_eq. split; [reflexivity|]. right. right.
        now exists lp.
      * destruct Hg as [-> ->]. apply ret_inv in H as [<- <-].
        repeat split; try reflexivity; try assumption.
        unfold set_w_held, set_w_heap. simpl. now rewrite remove_first_cons.
    + mexec Hx. apply ret_inv in Hx as [[= <- <-] <-].
      apply ret_inv in H as [<- <-].
      rewrite unlock_lock_eq. split; [reflexivity|]. now right; left.
Qed.

(** What [pmd_obj_put] does, the locks taken and released apart. *)
Lemma pmd_obj_put_inv lp w u w' :
  pmd_obj_put lp w = (u, w') ->
  let l := layout_of w lp in
  if objtype_user (objid_type (eld_objid l)) && negb (lyt_removed l)
     && (1 <? eld_refcnt l) && negb (eld_isdel l)
  then w' = set_w_heap
              (alter (fun l => set_eld_refcnt (wrap_s64 (eld_refcnt l - 1)) l)
                     lp) w
  else w' = w.
Proof.
  intros H l. unfold pmd_obj_put in H. mexec H.
  change (layout_of (set_w_held (cons _) w) lp) with l in H.
  destruct (objtype_user (objid_type (eld_objid l))); simpl negb in H;
    simpl orb in H; simpl andb.
  2:{ mexec H. apply ret_inv in H as [_ <-]. apply unlock_lock_eq. }
  destruct (lyt_removed l); simpl negb; simpl andb; cbv iota in H.
  { mexec H. apply ret_inv in H as [_ <-]. apply unlock_lock_eq. }
  mexec H.
  change (layout_of (set_w_held (cons _) (set_w_held (cons _) w)) lp)
    with l in H.
  destruct ((1 <? eld_refcnt l) && negb (eld_isdel l)).
  - mexec H. apply ret_inv in H as [_ <-].
    unfold set_w_held, set_w_heap. simpl. now rewrite !remove_first_cons.
  - mexec H. apply ret_inv in H as [_ <-].
    now rewrite !unlock_lock_eq.
Qed.

Lemma wrap_s64_id z : - 2 ^ 63 <= z < 2 ^ 63 -> wrap_s64 z = z.
Proof. intros H. unfold wrap_s64. rewrite Z.mod_small; lia. Qed.

(** X7: a reference taken with [pmd_obj_get] is given back by
    [pmd_obj_put].  On a layout of a user type that is not removed and
    has at least one reference (and room for one more), a get that
    succeeds followed by a put leaves the whole state as it was before the
    get. *)
Theorem pmd_obj_get_put lp w w1 :
  is_Some (w_heap w !! lp) ->
  objtype_user (objid_type (eld_objid (layout_of w lp))) = true ->
  lyt_removed (layout_of w lp) = false ->
  1 <= eld_refcnt (layout_of w lp) < 2 ^ 63 - 1 ->
  pmd_obj_get lp w = (0, w1) ->
  pmd_obj_put lp w1 = (tt, w).
Proof.
  intros Hin Hu Hrm Hr Hg. apply pmd_obj_get_inv in Hg.
  destruct (eld_isdel (layout_of w lp)) eqn:Hd.
  { destruct Hg as [Hg _]. discriminate. }
  destruct Hg as [_ ->].
  destruct (pmd_obj_put lp _) as [[] w2] eqn:Hp.
  apply pmd_obj_put_inv in Hp. cbv zeta in Hp.
  set (f := fun l => set_eld_refcnt (wrap_s64 (eld_refcnt l + 1)) l) in *.
  assert (Hl1 : layout_of (set_w_heap (alter f lp) w) lp = f (layout_of w lp))
    by (now apply layout_of_alter).
  rewrite Hl1 in Hp. subst f. cbv beta in Hp.
  assert (Ew : wrap_s64 (eld_refcnt (layout_of w lp) + 1)
               = eld_refcnt (layout_of w lp) + 1)
    by (apply wrap_s64_id; lia).
  replace (objtype_user _ && _ && _ && _) with true in Hp.
  2:{ symmetry. unfold lyt_removed in *. simpl. rewrite Hu, Hrm, Hd, Ew.
      simpl. rewrite andb_true_r. apply Z.ltb_lt. lia. }
  subst w2. f_equal.
  unfold set_w_heap. simpl. rewrite alter_alter.
  rewrite alter_id; [apply world_eta|]. intros l Hl.
  assert (El : layout_of w lp = l)
    by (unfold layout_of; now rewrite lookup_total_alt, Hl).
  rewrite El in Ew. simpl. rewrite Ew.
  replace (eld_refcnt l + 1 - 1) with (eld_refcnt l) by lia.
  rewrite wrap_s64_id by (rewrite <- El; lia). now destruct l.
Qed.

(** ** Erasing an mlog *)

Lemma pmd_mdc0_meta_update_inv lp w e w' :
  pmd_mdc0_meta_update lp w = (e, w') ->
  w_mdc w' = w_mdc w /\ w_mp w' = w_mp w /\ w_heap w' = w_heap w
  /\ w_held w' = w_held w /\ w_trace w' = w_trace w.
Proof.
  intros H. unfold pmd_mdc0_meta_update, sb_write_update in H.
  mcall H as e1 w1 H1. apply pop_oracle_frame in H1 as (A & B & C & D & E).
  destruct (e1 =? 0); simpl negb in H; cbv iota in H.
  - apply pop_oracle_frame in H as (A' & B' & C' & D' & E').
    repeat split; congruence.
  - apply ret_inv in H as [_ <-]. now repeat split.
Qed.

(** X8: [pmd_obj_erase] refuses, with EINVAL and nothing changed, a layout
    that is not a committed mlog, that is removed, or whose generation is
    not below the new one.  When it succeeds the layout carries the new
    generation, which is strictly higher, and nothing else of the heap
    changed; before that, for a log of MDC0 the new generation was put in
    the superblock image, and for any other mlog the OERASE record was
    appended last to the log of the slot.  When it fails no layout
    changes: the generation in memory moves only after the one on media
    did.  The locks held are the same at the end. *)
Theorem pmd_obj_erase_spec lp gen sb w e sb' w' :
  mdc_cstarted (mdc_of w (objid_slot (eld_objid (layout_of w lp)))) = false ->
  pmd_obj_erase lp gen sb w = ((e, sb'), w') ->
  let l := layout_of w lp in
  let objid := eld_objid l in
  let cslot := objid_slot objid in
  let ok := pmd_objid_type objid = OMF_OBJ_MLOG /\ lyt_committed l = true
            /\ lyt_removed l = false /\ eld_gen l < gen in
  (~ ok -> e = merr EINVAL /\ w' = w /\ sb' = sb)
  /\ (e = 0 ->
      ok
      /\ w_heap w' = alter (set_eld_gen gen) lp (w_heap w)
      /\ if objid_mdc0log objid
         then sb' = (if objid =? MDC0_OBJID_LOG1
                     then mk_sb gen (osb_mdc02gen sb)
                     else mk_sb (osb_mdc01gen sb) gen)
              /\ w_mdc w' = w_mdc w
         else sb' = sb
              /\ last (mdc_alog (mdc_of w' cslot))
                 = Some (MDR_OERASE objid gen))
  /\ (e <> 0 -> w_heap w' = w_heap w)
  /\ w_held w' = w_held w.
Proof.
  intros Hcs H l objid cslot ok. unfold pmd_obj_erase in H. mexec H.
  fold l in H. fold objid in H. fold cslot in H.
  destruct (bool_decide (pmd_objid_type objid = OMF_OBJ_MLOG)) eqn:Ht;
    simpl negb in H; simpl orb in H.
  2:{ apply ret_inv in H as [[= <- <-] <-].
      apply bool_decide_eq_false in Ht.
      split; [now intros _|]. split; [discriminate|]. split; [reflexivity|].
      reflexivity. }
  apply bool_decide_eq_true in Ht.
  destruct (lyt_committed l) eqn:Hc; simpl negb in H; simpl orb in H.
  2:{ apply ret_inv in H as [[= <- <-] <-].
      split; [now intros _|]. split; [discriminate|]. now split. }
  destruct (lyt_removed l) eqn:Hrm; simpl orb in H.
  { apply ret_inv in H as [[= <- <-] <-].
    split; [now intros _|]. split; [discriminate|]. now split. }
  destruct (gen <=? eld_gen l) eqn:Hg.
  { apply ret_inv in H as [[= <- <-] <-].
    split; [now intros _|]. split; [discriminate|]. now split. }
  apply Z.leb_gt in Hg.
  assert (Hok : ok) by (now repeat split).
  split; [intros Hn; now destruct Hn|].
  destruct (objid_mdc0log objid) eqn:H0.
  - mcall H as err w1 Hm.
    apply pmd_mdc0_meta_update_inv in Hm as (A & B & C & D & E).
    destruct (err =? 0) eqn:Ee.
    + mexec H. apply ret_inv in H as [[= <- <-] <-]. simpl.
      rewrite C, D. split; [|split; [intros Hn|reflexivity]].
      * intros _. split; [exact Hok|]. split; [reflexivity|].
        split; [reflexivity | exact A].
      * apply Z.eqb_eq in Ee. congruence.
    + mexec H. apply ret_inv in H as [[= <- <-] <-].
      split; [|split; [intros _; exact C | exact D]].
      intros ->. discriminate.
  - mexec H. mcall H as err w1 Hlog. unfold pmd_log_erase in Hlog.
    fold cslot in Hlog.
    apply pmd_mdc_addrec_rel in Hlog as (R & Hlast); [|exact Hcs].
    assert (Hh : w_heap w1 = w_heap w) by (now rewrite (cr_heap _ _ R)).
    assert (Hl : w_held w1 = L_compactlock cslot :: w_held w)
      by (now rewrite (cr_held _ _ R)).
    destruct (err =? 0) eqn:Ee.
    + apply Z.eqb_eq in Ee. subst err.
      destruct (Hlast eq_refl) as [Hlast' _]. simpl cdr_pack in Hlast'.
      destruct (negb (cslot =? 0)).
      * mexec H. apply ret_inv in H as [[= <- <-] <-]. simpl.
        rewrite Hh, Hl, remove_first_cons.
        split; [|split; [intros Hn; congruence | reflexivity]].
        intros _. split; [exact Hok|]. split; [reflexivity|].
        split; [reflexivity | exact Hlast'].
      * mexec H. apply ret_inv in H as [[= <- <-] <-]. simpl.
        rewrite Hh, Hl, remove_first_cons.
        split; [|split; [intros Hn; congruence | reflexivity]].
        intros _. split; [exact Hok|]. split; [reflexivity|].
        split; [reflexivity | exact Hlast'].
    + mexec H. apply ret_inv in H as [[= <- <-] <-]. simpl.
      rewrite Hl, remove_first_cons.
      split; [|split; [intros _; exact Hh | reflexivity]].
      intros ->. discriminate.
Qed.

(** ** The sizes of the MDC logs, as the pre-compaction sees them *)

Lemma objid_type_make uniq otype cslot :
  objid_type (objid_make uniq otype cslot) = otype.
Proof.
  unfold objid_type, objid_make, wrap_u64.
  assert (E : Z.shiftr
                (Z.land
                   (Z.lor (Z.shiftl uniq 12)
                      (Z.lor (Z.land (Z.shiftl (otype_to_Z otype) 8) 3840)
                             (Z.land cslot 255)) mod 2 ^ 64) 3840) 8
              = otype_to_Z otype).
  { apply Z.bits_inj'. intros n Hn.
    rewrite Z.shiftr_spec, Z.land_spec by assumption.
    destruct (Z.lt_ge_cases n 4) as [Hlt | Hge].
    - rewrite Z.mod_pow2_bits_low by lia.
      rewrite !Z.lor_spec, !Z.land_spec, !Z.shiftl_spec by lia.
      rewrite (Z.testbit_neg_r uniq) by lia.
      replace (n + 8 - 8) with n by lia.
      assert (H38 : Z.testbit 3840 (n + 8) = true).
      { assert (Hc : n = 0 \/ n = 1 \/ n = 2 \/ n = 3) by lia.
        destruct Hc as [-> | [-> | [-> | ->]]]; reflexivity. }
      assert (H255 : Z.testbit 255 (n + 8) = false).
      { change 255 with (Z.ones 8). apply Z.ones_spec_high. lia. }
      rewrite H38, H255. simpl. now rewrite !andb_true_r, andb_false_r, orb_false_r.
    - assert (H38 : Z.testbit 3840 (n + 8) = false).
      { apply Z.bits_above_log2; [lia|]. change (Z.log2 3840) with 11. lia. }
      rewrite H38, andb_false_r. symmetry.
      destruct otype; simpl.
      + apply Z.bits_0.
      + apply Z.bits_above_log2; [lia|]. simpl. lia.
      + apply Z.bits_above_log2; [lia|]. simpl. lia. }
  rewrite E. now destruct otype.
Qed.

Lemma pmd_mlogid2cslot_mdc i k :
  0 <= i < MDC_SLOTS -> 0 <= k <= 1 ->
  pmd_mlogid2cslot (logid_make (2 * i + k) 0) = i.
Proof.
  unfold MDC_SLOTS. intros Hi Hk. unfold pmd_mlogid2cslot, logid_make.
  unfold pmd_objid_type. rewrite objid_type_make, objid_slot_make by lia.
  rewrite objid_uniq_make by lia.
  rewrite bool_decide_eq_true_2 by reflexivity. simpl negb. cbv iota.
  unfold MDC_SLOTS.
  destruct (2 * 256 - 1 <? 2 * i + k) eqn:E; [apply Z.ltb_lt in E; lia|].
  replace ((2 * i + k) / 2) with i by (apply Z.div_unique with k; lia).
  apply wrap_s32_small. lia.
Qed.

(** X9: the sizes reported with [pmd_precompact_alsz] for one of the two
    mlogs of MDC i, i from 1 to 255, land in the counters [pcc_len] and
    [pcc_cap] of slot i and nowhere else; a report for a log of MDC0, for
    an object that is not an mlog, or for an object of another slot than
    0 (a client object) changes nothing. *)
Theorem pmd_precompact_alsz_spec len cap w :
  (forall objid,
     objid_slot objid <> 0 \/ pmd_objid_type objid <> OMF_OBJ_MLOG ->
     pmd_precompact_alsz objid len cap w = (tt, w))
  /\ (forall k, 0 <= k <= 1 ->
      pmd_precompact_alsz (logid_make k 0) len cap w = (tt, w))
  /\ (forall i k, 1 <= i < MDC_SLOTS -> 0 <= k <= 1 ->
      let w' := (pmd_precompact_alsz (logid_make (2 * i + k) 0) len cap w).2 in
      cinfo_of w' i
      = set_mmi_pco_cnt (fun p => set_pcc_cap cap (set_pcc_len len p))
          (cinfo_of w i)
      /\ (forall s, s <> i -> cinfo_of w' s = cinfo_of w s)
      /\ set_w_mp (fun _ => w_mp w) w' = w).
Proof.
  split; [|split].
  - intros objid Hn. unfold pmd_precompact_alsz, pmd_mlogid2cslot.
    destruct (bool_decide (pmd_objid_type objid = OMF_OBJ_MLOG)) eqn:Ht;
      [|reflexivity].
    apply bool_decide_eq_true in Ht.
    destruct Hn as [Hn | Hn]; [|contradiction]. simpl negb.
    apply Z.eqb_neq in Hn. rewrite Hn. reflexivity.
  - intros k Hk. unfold pmd_precompact_alsz.
    replace k with (2 * 0 + k) by lia.
    rewrite pmd_mlogid2cslot_mdc by (unfold MDC_SLOTS; lia). reflexivity.
  - intros i k Hi Hk w'. subst w'. unfold pmd_precompact_alsz.
    rewrite pmd_mlogid2cslot_mdc by lia.
    unfold MDC_SLOTS in Hi.
    destruct (i <=? 0) eqn:E; [apply Z.leb_le in E; lia|].
    assert (E8 : wrap_u8 i = i) by (unfold wrap_u8; apply Z.mod_small; lia).
    rewrite E8. unfold bind, mod_cinfo, modify. simpl.
    split; [|split].
    + rewrite !cinfo_of_upd_slot_eq. now destruct (cinfo_of w i).
    + intros s Hs. now rewrite !cinfo_of_upd_slot_ne.
    + unfold upd_slot, set_w_mp. simpl. apply world_eta.
Qed.

(** ** The need signal of one MDC *)

(** The counters a successful compaction of a user MDC leaves: as many
    records as committed objects, and no update, delete or erase. *)
Lemma pmd_mdc_compact_resets cslot w w' :
  cslot <> 0 ->
  pmd_mdc_compact cslot w = (0, w') ->
  let p := mmi_pco_cnt (cinfo_of w' cslot) in
  pcc_cr p = pcc_cobj p /\ pcc_up p = 0 /\ pcc_del p = 0 /\ pcc_er p = 0
  /\ - 2 ^ 31 <= pcc_cobj p < 2 ^ 31.
Proof.
  intros Hs H p. subst p.
  apply pmd_mdc_compact_with_inv in H as (e & wa & _ & H);
    [|apply pres_pmd_mdc_addrec].
  apply compact_attempt_inv in H
    as (w1 & w2 & w3 & w4 & w5 & w6 & compacted & total & _ & _ & _ & _ & _
        & _ & H).
  apply Z.eqb_neq in Hs. rewrite Hs in H. simpl negb in H. cbv iota in H.
  unfold pmd_pre_compact_reset, mod_cinfo, modify in H.
  injection H as <-. rewrite cinfo_of_upd_slot_eq. simpl.
  split; [reflexivity|]. do 3 (split; [reflexivity|]).
  unfold atomic_set, wrap_s32.
  pose proof (Z.mod_pos_bound (compacted + 2 ^ 31) (2 ^ 32)). lia.
Qed.

(** X10: right after a compaction of a user MDC that succeeded,
    [pmd_need_compact] does not ask for another one, whatever the filling
    of the log, as soon as the garbage threshold is positive: the counters
    were reset to one record per committed object, so no garbage is seen.
    The call leaves the state as it is. *)
Theorem pmd_need_compact_after_compact params cslot w w' :
  cslot <> 0 ->
  0 < mp_pcopctgarbage params ->
  pmd_mdc_compact cslot w = (0, w') ->
  pmd_need_compact params cslot w' = (false, w').
Proof.
  intros Hs Hg H.
  apply pmd_mdc_compact_resets in H as (Hcr & Hup & Hdel & Her & Hr);
    [|exact Hs].
  unfold pmd_need_compact, bind, get_cinfo, gets.
  set (p := mmi_pco_cnt (cinfo_of w' cslot)) in *.
  destruct (wrap_u64 (pcc_cap p) =? 0); [reflexivity|].
  destruct (_ <? mp_pcopctfull params); [reflexivity|].
  assert (Hrec : pco_rec p = wrap_u64 (pcc_cobj p)).
  { unfold pco_rec. rewrite Hcr, Hup, Hdel, Her. f_equal.
    rewrite !Z.add_0_r. now apply wrap_s32_small. }
  rewrite Hrec, Z.ltb_irrefl.
  destruct (0 <? mp_pcopctgarbage params) eqn:E; [reflexivity|].
  apply Z.ltb_ge in E. lia.
Qed.

(** ** The need signal of the pool *)

Lemma mdc_needed_fold_closed mp slots a :
  Forall (fun s => wrap_u64 (pcc_cap (mmi_pco_cnt (slot_of mp s))) = 0) slots ->
  fold_left (mdc_needed_step mp) slots a = a.
Proof.
  induction 1 as [|s slots Hs _ IH]; [reflexivity|]. simpl.
  unfold mdc_needed_step at 2. rewrite Hs. simpl. exact IH.
Qed.

Lemma mdc_needed_fold_ext mp mp' slots a :
  Forall (fun s => slot_of mp' s = slot_of mp s) slots ->
  fold_left (mdc_needed_step mp') slots a
  = fold_left (mdc_needed_step mp) slots a.
Proof.
  intros H. revert a. induction H as [|s slots Hs _ IH]; intros a;
    [reflexivity|].
  simpl. rewrite IH. unfold mdc_needed_step at 2 4. now rewrite Hs.
Qed.

(** X11: [pmd_mdc_needed] only reads the state.  When it asks for new
    MDCs the pool is not at its maximum of MDCs and at least one user MDC,
    of a slot from 1 to the last one in use, is open (its capacity counter
    is not 0).  MDC0 is never taken into account: whatever slot 0 holds,
    the answer is the same. *)
Theorem pmd_mdc_needed_spec params w :
  (pmd_mdc_needed params w).2 = w
  /\ ((pmd_mdc_needed params w).1 = true ->
      mdi_slotvcnt (w_mp w) <> MDC_SLOTS
      /\ exists s, 1 <= s < mdi_slotvcnt (w_mp w)
           /\ wrap_u64 (pcc_cap (mmi_pco_cnt (cinfo_of w s))) <> 0)
  /\ (forall f,
        (pmd_mdc_needed params (upd_slot 0 f w)).1
        = (pmd_mdc_needed params w).1).
Proof.
  split; [|split].
  - unfold pmd_mdc_needed, bind, gets. simpl.
    destruct (_ =? MDC_SLOTS); [reflexivity|].
    destruct (_ =? 0); [reflexivity|].
    now destruct (_ && _).
  - unfold pmd_mdc_needed, bind, gets. simpl.
    destruct (mdi_slotvcnt (w_mp w) =? MDC_SLOTS) eqn:Em; [discriminate|].
    apply Z.eqb_neq in Em. intros H. split; [exact Em|].
    set (slots := seqZ 1 (mdi_slotvcnt (w_mp w) - 1)) in *.
    destruct (decide (Forall (fun s =>
                wrap_u64 (pcc_cap (mmi_pco_cnt (slot_of (w_mp w) s))) = 0)
                slots)) as [Hall | Hex].
    + rewrite (mdc_needed_fold_closed _ _ _ Hall) in H. discriminate.
    + apply not_Forall_Exists in Hex; [|intros s; apply Z.eq_dec].
      apply Exists_exists in Hex as (s & Hin & Hs).
      apply elem_of_seqZ in Hin.
      exists s. split; [lia | exact Hs].
  - intros f. unfold pmd_mdc_needed, bind, gets. simpl.
    rewrite (mdc_needed_fold_ext (w_mp w)).
    + destruct (_ =? MDC_SLOTS); [reflexivity|].
      destruct (_ =? 0); [reflexivity|].
      now destruct (_ && _).
    + apply Forall_forall. intros s Hin. apply elem_of_seqZ in Hin.
      apply (cinfo_of_upd_slot_ne 0 f w s). lia.
Qed.

(** ** The usage of the pool *)

Lemma wrap_u64_add_l a b : wrap_u64 (wrap_u64 a + b) = wrap_u64 (a + b).
Proof. unfold wrap_u64. now rewrite Z.add_mod_idemp_l by lia. Qed.

Lemma wrap_u32_add_l a b : wrap_u32 (wrap_u32 a + b) = wrap_u32 (a + b).
Proof. unfold wrap_u32. now rewrite Z.add_mod_idemp_l by lia. Qed.

Lemma mpool_usage_loop_inv slots : forall usage w,
  let r := (mpool_usage_loop slots usage w).1 in
  let sum f := foldr Z.add 0
                 (List.map (fun s => f (mmi_stats (cinfo_of w s))) slots) in
  (mpool_usage_loop slots usage w).2 = w
  /\ wrap_u64 (mpu_mblock_alen r)
     = wrap_u64 (mpu_mblock_alen usage + sum pms_mblock_alen)
  /\ wrap_u64 (mpu_mblock_wlen r)
     = wrap_u64 (mpu_mblock_wlen usage + sum pms_mblock_wlen)
  /\ wrap_u64 (mpu_mlog_alen r)
     = wrap_u64 (mpu_mlog_alen usage + sum pms_mlog_alen)
  /\ wrap_u32 (mpu_mblock_cnt r)
     = wrap_u32 (mpu_mblock_cnt usage + sum pms_mblock_cnt)
  /\ wrap_u32 (mpu_mlog_cnt r)
     = wrap_u32 (mpu_mlog_cnt usage + sum pms_mlog_cnt)
  /\ mpu_alen r = mpu_alen usage /\ mpu_wlen r = mpu_wlen usage
  /\ (usage_wf usage -> usage_wf r).
Proof.
  induction slots as [|s slots IH]; intros usage w; cbv zeta.
  - simpl. rewrite !Z.add_0_r. do 8 (split; [reflexivity|]). auto.
  - simpl mpool_usage_loop. unfold bind at 1.
    unfold mpool_usage_step at 1 2 3 4 5 6 7 8 9.
    unfold bind, get_cinfo, gets, lock, unlock, modify, ret.
    cbv beta iota. rewrite unlock_lock_eq.
    set (u1 := mk_usage _ _ _ _ _ _ _).
    destruct (IH u1 w) as (Hw & H1 & H2 & H3 & H4 & H5 & H6 & H7 & H8).
    split; [exact Hw|].
    rewrite H1, H2, H3, H4, H5, H6, H7. subst u1. simpl.
    rewrite !wrap_u64_add_l, !wrap_u32_add_l, !Z.add_assoc.
    do 7 (split; [reflexivity|]).
    intros _. apply H8. unfold usage_wf, wrap_u64, wrap_u32. simpl.
    repeat split; apply Z.mod_pos_bound; lia.
Qed.

(** X12: [pmd_mpool_usage] only reads the state (its locks are released).
    It adds to each member of the usage record, in the width of the
    member, the statistic of the user MDCs, slots 1 to the last one in
    use; the statistics of MDC0 never enter.  With fewer than two MDCs
    the record comes back as it was given; otherwise the allocated length
    is the one of the mblocks plus the one of the mlogs, and the written
    length is the written length of the mblocks plus the allocated length
    of the mlogs. *)
Theorem pmd_mpool_usage_spec usage w :
  usage_wf usage ->
  let r := (pmd_mpool_usage usage w).1 in
  (pmd_mpool_usage usage w).2 = w
  /\ mpu_mblock_alen r
     = wrap_u64 (mpu_mblock_alen usage + sum_stats pms_mblock_alen w)
  /\ mpu_mblock_wlen r
     = wrap_u64 (mpu_mblock_wlen usage + sum_stats pms_mblock_wlen w)
  /\ mpu_mlog_alen r
     = wrap_u64 (mpu_mlog_alen usage + sum_stats pms_mlog_alen w)
  /\ mpu_mblock_cnt r
     = wrap_u32 (mpu_mblock_cnt usage + sum_stats pms_mblock_cnt w)
  /\ mpu_mlog_cnt r
     = wrap_u32 (mpu_mlog_cnt usage + sum_stats pms_mlog_cnt w)
  /\ (if mdi_slotvcnt (w_mp w) <? 2 then r = usage
      else mpu_alen r = wrap_u64 (mpu_mblock_alen r + mpu_mlog_alen r)
           /\ mpu_wlen r = wrap_u64 (mpu_mblock_wlen r + mpu_mlog_alen r)).
Proof.
  intros Hwf r. set (n := mdi_slotvcnt (w_mp w)).
  pose proof (mpool_usage_loop_inv (seqZ 1 (n - 1)) usage w) as H.
  cbv zeta in H.
  assert (E : pmd_mpool_usage usage w
              = let u1 := (mpool_usage_loop (seqZ 1 (n - 1)) usage w).1 in
                (if n <? 2 then u1
                 else mk_usage (mpu_mblock_alen u1) (mpu_mblock_wlen u1)
                        (mpu_mlog_alen u1) (mpu_mblock_cnt u1)
                        (mpu_mlog_cnt u1)
                        (wrap_u64 (mpu_mblock_alen u1 + mpu_mlog_alen u1))
                        (wrap_u64 (mpu_mblock_wlen u1 + mpu_mlog_alen u1)),
                 w)).
  { unfold pmd_mpool_usage, bind, lock, unlock, gets, modify.
    rewrite unlock_lock_eq.
    change (mdi_slotvcnt (w_mp (set_w_held (cons L_slotvlock) w))) with n.
    destruct H as [Hw _].
    destruct (mpool_usage_loop (seqZ 1 (n - 1)) usage w) as [u1 w1].
    simpl in Hw. subst w1. simpl. now destruct (n <? 2). }
  subst r. rewrite E. clear E.
  destruct (mpool_usage_loop (seqZ 1 (n - 1)) usage w) as [u1 w1] eqn:El.
  simpl in H. destruct H as (-> & H1 & H2 & H3 & H4 & H5 & H6 & H7 & H8).
  destruct (H8 Hwf) as (R1 & R2 & R3 & R4 & R5).
  rewrite wrap_u64_small in H1, H2, H3 by assumption.
  rewrite wrap_u32_small in H4, H5 by assumption.
  fold (sum_stats pms_mblock_alen w) in H1.
  fold (sum_stats pms_mblock_wlen w) in H2.
  fold (sum_stats pms_mlog_alen w) in H3.
  fold (sum_stats pms_mblock_cnt w) in H4.
  fold (sum_stats pms_mlog_cnt w) in H5.
  cbv zeta. simpl fst. simpl snd.
  destruct (n <? 2) eqn:En.
  - do 6 (split; [assumption || reflexivity|]).
    apply Z.ltb_lt in En.
    assert (Es : seqZ 1 (n - 1) = []).
    { unfold seqZ. replace (Z.to_nat (n - 1)) with 0%nat by lia.
      reflexivity. }
    rewrite Es in El. simpl in El. apply ret_inv in El as [-> _]. reflexivity.
  - simpl. do 6 (split; [assumption || reflexivity|]). now split.
Qed.

(** * The replay of MDC0 and the validation that follows *)

(** ** What the replay leaves of the uncommitted maps *)

Lemma uncobj_rel_refl w : uncobj_rel w w.
Proof. now intros s. Qed.

Lemma uncobj_rel_trans w1 w2 w3 :
  uncobj_rel w1 w2 -> uncobj_rel w2 w3 -> uncobj_rel w1 w3.
Proof. intros H1 H2 s. now rewrite H2, H1. Qed.

Lemma uncobj_rel_mp w w' : w_mp w' = w_mp w -> uncobj_rel w w'.
Proof. intros H s. now rewrite (cinfo_of_mp w w' s H). Qed.

Lemma uncobj_rel_modify f :
  (forall w, w_mp (f w) = w_mp w) -> preserves uncobj_rel (modify f).
Proof. intros H w. apply uncobj_rel_mp. apply H. Qed.

Lemma uncobj_rel_pop_oracle : preserves uncobj_rel pop_oracle.
Proof.
  intros w. apply uncobj_rel_mp.
  destruct (pop_oracle w) as [e w1] eqn:E.
  now apply pop_oracle_frame in E as (_ & ? & _).
Qed.

Lemma uncobj_rel_mod_cinfo cslot f :
  (forall c, mmi_uncobj (f c) = mmi_uncobj c) ->
  preserves uncobj_rel (mod_cinfo cslot f).
Proof.
  intros Hf w s. unfold mod_cinfo, modify. simpl.
  rewrite cinfo_of_upd_slot. destruct (decide (s = cslot)) as [-> |]; auto.
Qed.

Ltac upres :=
  repeat match goal with
  | |- forall _, _ => intro
  | |- preserves uncobj_rel (bind _ _) =>
      apply (preserves_bind uncobj_rel uncobj_rel_trans)
  | |- preserves uncobj_rel (ret _) =>
      apply (preserves_ret uncobj_rel uncobj_rel_refl)
  | |- preserves uncobj_rel (gets _) =>
      apply (preserves_gets uncobj_rel uncobj_rel_refl)
  | |- preserves uncobj_rel (get_cinfo _) =>
      apply (preserves_gets uncobj_rel uncobj_rel_refl)
  | |- preserves uncobj_rel (get_layout _) =>
      apply (preserves_gets uncobj_rel uncobj_rel_refl)
  | |- preserves uncobj_rel pop_oracle => apply uncobj_rel_pop_oracle
  | |- preserves uncobj_rel (mod_cinfo _ _) =>
      apply uncobj_rel_mod_cinfo; reflexivity
  | |- preserves uncobj_rel (mod_layout _ _) =>
      apply uncobj_rel_modify; reflexivity
  | |- preserves uncobj_rel (ecio_layout_free _) =>
      apply uncobj_rel_modify; reflexivity
  | |- preserves uncobj_rel (modify _) =>
      apply uncobj_rel_modify; reflexivity
  | |- preserves uncobj_rel (lock _) => apply uncobj_rel_modify; reflexivity
  | |- preserves uncobj_rel (unlock _) => apply uncobj_rel_modify; reflexivity
  | |- preserves uncobj_rel (if ?b then _ else _) => destruct b
  | |- preserves uncobj_rel (match ?x with _ => _ end) => destruct x
  end.

Lemma uncobj_rel_objs_load_record cslot r :
  preserves uncobj_rel (objs_load_record cslot r).
Proof.
  unfold objs_load_record, tree_insert_obj, objid_to_layout_insert_mdc,
    omf_mdcrec_unpack_letoh.
  destruct r; upres.
Qed.

Lemma uncobj_rel_objs_load_loop cslot recs :
  preserves uncobj_rel (objs_load_loop cslot recs).
Proof.
  induction recs as [| r rest IH]; simpl; upres;
    auto using uncobj_rel_objs_load_record.
Qed.

Lemma uncobj_rel_smap_loop cslot nodes :
  forall mdcmax,
    preserves uncobj_rel (objs_load_smap_loop cslot nodes mdcmax).
Proof.
  induction nodes as [| [k lp] rest IH]; intros mdcmax; simpl.
  - upres.
  - unfold pmd_smap_insert, smap_insert, pmd_update_mdc_stats.
    upres; apply IH.
Qed.

(** ** What a deletion leaves alone *)

Lemma del_rel_refl lp k w : del_rel lp k w w.
Proof. now constructor. Qed.

Lemma del_rel_trans lp k w1 w2 w3 :
  del_rel lp k w1 w2 -> del_rel lp k w2 w3 -> del_rel lp k w1 w3.
Proof.
  intros [A1 B1 C1] [A2 B2 C2]. constructor.
  - intros p Hp. now rewrite A2, A1.
  - intros s objid Ho. now rewrite B2, B1.
  - intros s. now rewrite C2, C1.
Qed.

Lemma del_rel_frame lp k w w' :
  w_heap w' = w_heap w -> w_mp w' = w_mp w -> del_rel lp k w w'.
Proof.
  intros Hh Hm. constructor; intros.
  - now rewrite Hh.
  - now rewrite (cinfo_of_mp w w' s Hm).
  - now rewrite (cinfo_of_mp w w' s Hm).
Qed.

Lemma del_rel_modify lp k f :
  (forall w, w_heap (f w) = w_heap w) -> (forall w, w_mp (f w) = w_mp w) ->
  preserves (del_rel lp k) (modify f).
Proof. intros Hh Hm w. unfold modify. simpl. apply del_rel_frame; auto. Qed.

Lemma del_rel_pop_oracle lp k : preserves (del_rel lp k) pop_oracle.
Proof.
  intros w. destruct (pop_oracle w) as [e w1] eqn:E.
  apply pop_oracle_frame in E as (_ & Hm & Hh & _).
  now apply del_rel_frame.
Qed.

Lemma del_rel_mod_layout lp k f : preserves (del_rel lp k) (mod_layout lp f).
Proof.
  intros w. unfold mod_layout, modify. simpl. constructor; try reflexivity.
  intros p Hp. simpl. now rewrite lookup_alter_ne by congruence.
Qed.

Lemma del_rel_free lp k : preserves (del_rel lp k) (ecio_layout_free lp).
Proof.
  intros w. unfold ecio_layout_free, modify. simpl.
  constructor; try reflexivity.
  intros p Hp. simpl. now rewrite lookup_delete_ne by congruence.
Qed.

Lemma del_rel_mod_cinfo lp k cslot f :
  (forall c, mmi_uncobj (f c) = mmi_uncobj c) ->
  (forall c objid, objid <> k -> mmi_obj (f c) !! objid = mmi_obj c !! objid) ->
  preserves (del_rel lp k) (mod_cinfo cslot f).
Proof.
  intros Hu Ho w. unfold mod_cinfo, modify. simpl.
  constructor; try reflexivity.
  - intros s objid Hk. rewrite cinfo_of_upd_slot.
    destruct (decide (s = cslot)) as [-> |]; auto.
  - intros s. rewrite cinfo_of_upd_slot.
    destruct (decide (s = cslot)) as [-> |]; auto.
Qed.

Lemma del_rel_erase lp k cslot :
  preserves (del_rel lp k) (mod_cinfo cslot (set_mmi_obj (rb_erase k))).
Proof.
  apply del_rel_mod_cinfo; [reflexivity|].
  intros c objid Hk. unfold rb_erase. simpl.
  now rewrite lookup_delete_ne by congruence.
Qed.

Lemma del_rel_addrec lp k cslot cdr :
  preserves (del_rel lp k) (pmd_mdc_addrec cslot cdr).
Proof.
  intros w. pose proof (pres_pmd_mdc_addrec cslot cdr w) as R.
  constructor.
  - intros p _. now rewrite (cr_heap _ _ R).
  - intros s objid _. now rewrite (sb_obj _ _ (cr_slot _ _ R s)).
  - intros s. apply (sb_uncobj _ _ (cr_slot _ _ R s)).
Qed.

Ltac dpres :=
  repeat match goal with
  | |- forall _, _ => intro
  | |- preserves (del_rel _ _) (bind _ _) =>
      apply (preserves_bind _ (del_rel_trans _ _))
  | |- preserves (del_rel _ _) (ret _) =>
      apply (preserves_ret _ (del_rel_refl _ _))
  | |- preserves (del_rel _ _) (gets _) =>
      apply (preserves_gets _ (del_rel_refl _ _))
  | |- preserves (del_rel _ _) (get_cinfo _) =>
      apply (preserves_gets _ (del_rel_refl _ _))
  | |- preserves (del_rel _ _) (get_layout _) =>
      apply (preserves_gets _ (del_rel_refl _ _))
  | |- preserves (del_rel _ _) pop_oracle => apply del_rel_pop_oracle
  | |- preserves (del_rel _ _) (pmd_mdc_addrec _ _) => apply del_rel_addrec
  | |- preserves (del_rel _ ?k) (mod_cinfo _ (set_mmi_obj (rb_erase ?k))) =>
      apply del_rel_erase
  | |- preserves (del_rel _ _) (mod_cinfo _ _) =>
      apply del_rel_mod_cinfo; reflexivity
  | |- preserves (del_rel ?lp _) (mod_layout ?lp _) => apply del_rel_mod_layout
  | |- preserves (del_rel ?lp _) (ecio_layout_free ?lp) => apply del_rel_free
  | |- preserves (del_rel _ _) (modify _) =>
      apply del_rel_modify; reflexivity
  | |- preserves (del_rel _ _) (lock _) => apply del_rel_modify; reflexivity
  | |- preserves (del_rel _ _) (unlock _) => apply del_rel_modify; reflexivity
  | |- preserves (del_rel _ _) (if ?b then _ else _) => destruct b
  | |- preserves (del_rel _ _) (match ?x with _ => _ end) => destruct x
  end.

(** A deletion, whatever its outcome, touches the layout it is given
    and the entry of its object id, nothing else of the heap and of the
    maps. *)
Lemma pmd_obj_delete_frame lp bgdel w e w' :
  pmd_obj_delete_impl lp bgdel w = (e, w') ->
  del_rel lp (eld_objid (layout_of w lp)) w w'.
Proof.
  intros H. unfold pmd_obj_delete_impl in H.
  mexec H.
  change (layout_of (set_w_held (cons (L_rwlock lp)) w) lp)
    with (layout_of w lp) in H.
  set (l := layout_of w lp) in *.
  match type of H with
  | ?m ?w0 = _ =>
      assert (Hp : preserves (del_rel lp (eld_objid l)) m);
      [ unfold pmd_log_delete, pmd_update_mdc_stats, pmd_obj_erase_start,
          pmd_obj_erase_cb, pmd_layout_free, smap_free,
          objid_to_layout_search_mdc; dpres
      | specialize (Hp w0); rewrite H in Hp ]
  end.
  eapply del_rel_trans; [|exact Hp].
  apply del_rel_frame; reflexivity.
Qed.

(** ** The validation of MDC0 *)

(** The walk of the validation only reads; the highest MDC number it
    finds is below [MDC_SLOTS], and when the walk succeeds no mlog it saw
    has a higher one. *)
Lemma mdc0_validate_loop_inv nodes :
  forall lcnt mdcmax w e lcnt' mdcmax' w',
    mdc0_validate_loop nodes lcnt mdcmax w = ((e, (lcnt', mdcmax')), w') ->
    w' = w
    /\ (0 <= mdcmax < MDC_SLOTS -> 0 <= mdcmax' < MDC_SLOTS)
    /\ (e = 0 ->
        mdcmax <= mdcmax'
        /\ (forall k lp, (k, lp) ∈ nodes ->
             Z.shiftr (objid_uniq (eld_objid (layout_of w lp))) 1 <= mdcmax')
        /\ (mdcmax' = mdcmax
            \/ exists k lp,
                 (k, lp) ∈ nodes
                 /\ Z.shiftr (objid_uniq (eld_objid (layout_of w lp))) 1
                    = mdcmax')).
Proof.
  induction nodes as [| [k lp] rest IH]; intros lcnt mdcmax w e lcnt' mdcmax'
    w' H; simpl in H.
  - apply ret_inv in H as [[= _ _ <-] <-]. split; [reflexivity|].
    split; [auto|]. intros _. split; [lia|]. split; [|now left].
    intros k lp Hin. now apply elem_of_nil in Hin.
  - mexec H.
    set (mdcn := Z.shiftr (objid_uniq (eld_objid (layout_of w lp))) 1) in *.
    assert (Hm : 0 <= mdcmax < MDC_SLOTS ->
                 0 <= (if mdcn <? MDC_SLOTS then Z.max mdcmax mdcn
                       else mdcmax) < MDC_SLOTS).
    { intros Hb. destruct (mdcn <? MDC_SLOTS) eqn:E; [|exact Hb].
      apply Z.ltb_lt in E. lia. }
    destruct (MDC_SLOTS <=? mdcn) eqn:Es; simpl orb in H.
    { apply ret_inv in H as [[= <- _ <-] <-]. split; [reflexivity|].
      split; [auto | discriminate]. }
    apply Z.leb_gt in Es.
    assert (El : (mdcn <? MDC_SLOTS) = true) by (apply Z.ltb_lt; lia).
    rewrite El in *.
    destruct (_ || _ || _).
    + apply ret_inv in H as [[= <- _ <-] <-]. split; [reflexivity|].
      split; [auto | discriminate].
    + apply IH in H as (-> & Hb & Hok). split; [reflexivity|].
      split; [auto|]. intros He. destruct (Hok He) as (Hle & Hall & Hat).
      split; [lia|]. split.
      * intros k' lp' Hin.
        apply elem_of_cons in Hin as [[= -> ->] | Hin];
          [|exact (Hall k' lp' Hin)].
        fold mdcn. lia.
      * destruct Hat as [-> | (k' & lp' & Hin & Heq)].
        -- destruct (Z.max_spec mdcmax mdcn) as [[_ ->] | [_ ->]].
           ++ right. exists k, lp. split; [left | reflexivity].
           ++ now left.
        -- right. exists k', lp'. split; [now right | exact Heq].
Qed.

(** With no uncommitted object in the slot, [pmd_obj_find_get] returns
    the member of the committed map, with one more reference. *)
Lemma pmd_obj_find_get_committed objid w r w' :
  mmi_uncobj (cinfo_of w (objid_slot objid)) = ∅ ->
  pmd_obj_find_get objid w = (r, w') ->
  match r with
  | Some lp =>
      mmi_obj (cinfo_of w (objid_slot objid)) !! objid = Some lp
      /\ w' = set_w_heap
                (alter (fun l => set_eld_refcnt (wrap_s64 (eld_refcnt l + 1)) l)
                       lp) w
  | None => w' = w
  end.
Proof.
  intros Hun H. unfold pmd_obj_find_get in H.
  destruct (objtype_user (objid_type objid)); simpl negb in H; cbv iota in H.
  2:{ now apply ret_inv in H as [<- <-]. }
  mexec H. rewrite cinfo_of_set_w_held in H.
  unfold objid_to_layout_search_mdc in H.
  destruct (mmi_obj (cinfo_of w (objid_slot objid)) !! objid) as [lp|] eqn:Eo.
  - mcall H as e w1 Hg. apply pmd_obj_get_inv in Hg.
    change (layout_of (set_w_held (cons _) w) lp) with (layout_of w lp) in Hg.
    mexec H. destruct (eld_isdel (layout_of w lp)).
    + destruct Hg as [-> ->]. apply ret_inv in H as [<- <-].
      apply unlock_lock_eq.
    + destruct Hg as [-> ->]. apply ret_inv in H as [<- <-].
      split; [reflexivity|].
      unfold set_w_held, set_w_heap. simpl. now rewrite remove_first_cons.
  - mexec H. rewrite unlock_lock_eq in H.
    mcall H as [f e] w2 Hx. mexec Hx.
    rewrite cinfo_of_set_w_held, Hun, lookup_empty in Hx.
    mexec Hx. apply ret_inv in Hx as [[= <- <-] <-].
    apply ret_inv in H as [<- <-]. apply unlock_lock_eq.
Qed.

Lemma eld_objid_alter_refcnt (h : gmap lptr ecio_layout_descriptor) lp g :
  eld_objid (alter (fun l => set_eld_refcnt (g l) l) lp h !!! lp)
  = eld_objid (h !!! lp).
Proof.
  rewrite !lookup_total_alt, lookup_alter_eq.
  now destruct (h !! lp).
Qed.

(** Looking an object id up and deleting what was found touches the
    entry of that id and the layout it stood for, nothing else. *)
Lemma find_del_frame k w r w1 e w2 :
  mmi_uncobj (cinfo_of w (objid_slot k)) = ∅ ->
  (forall lp, mmi_obj (cinfo_of w (objid_slot k)) !! k = Some lp ->
              eld_objid (layout_of w lp) = k) ->
  pmd_obj_find_get k w = (r, w1) ->
  (match r with
   | Some lp => pmd_obj_delete lp
   | None => ret 0
   end) w1 = (e, w2) ->
  (forall s objid, objid <> k ->
     mmi_obj (cinfo_of w2 s) !! objid = mmi_obj (cinfo_of w s) !! objid)
  /\ (forall s, mmi_uncobj (cinfo_of w2 s) = mmi_uncobj (cinfo_of w s))
  /\ (forall p, mmi_obj (cinfo_of w (objid_slot k)) !! k <> Some p ->
                w_heap w2 !! p = w_heap w !! p).
Proof.
  intros Hun Hk Hf Hd. apply pmd_obj_find_get_committed in Hf; [|exact Hun].
  destruct r as [lp|].
  - destruct Hf as [Hin ->]. unfold pmd_obj_delete in Hd.
    apply pmd_obj_delete_frame in Hd as [A B C].
    unfold layout_of in A, B, C. simpl w_heap in *.
    rewrite eld_objid_alter_refcnt in B.
    fold (layout_of w lp) in B. rewrite (Hk lp Hin) in B.
    split; [|split].
    + intros s objid Ho. now rewrite B.
    + intros s. now rewrite C.
    + intros p Hp. assert (p <> lp) by congruence.
      rewrite A by assumption. simpl. now rewrite lookup_alter_ne by congruence.
  - subst w1. apply ret_inv in Hd as [_ <-]. auto.
Qed.

Lemma view_frame k objid (w w2 : world) :
  (forall p, mmi_obj (cinfo_of w 0) !! objid = Some p ->
             mmi_obj (cinfo_of w 0) !! k <> Some p) ->
  mmi_obj (cinfo_of w2 0) !! objid = mmi_obj (cinfo_of w 0) !! objid ->
  (forall p, mmi_obj (cinfo_of w 0) !! k <> Some p ->
             w_heap w2 !! p = w_heap w !! p) ->
  cobj_view w2 0 !! objid = cobj_view w 0 !! objid.
Proof.
  intros Hinj Ht Hh. unfold cobj_view. rewrite !tree_view_lookup, Ht.
  destruct (mmi_obj (cinfo_of w 0) !! objid) as [p|] eqn:E; [|reflexivity].
  simpl. f_equal. rewrite !lookup_total_alt. rewrite Hh; [reflexivity|].
  now apply Hinj.
Qed.

Lemma mdc0_inv_key w k lp :
  mdc0_inv w -> mmi_obj (cinfo_of w 0) !! k = Some lp ->
  eld_objid (layout_of w lp) = k.
Proof.
  intros (_ & Hk & _) H. apply (Hk k (layout_of w lp)).
  unfold cobj_view. rewrite tree_view_lookup, H. reflexivity.
Qed.

(** Two such steps in a row, for two object ids of MDC0. *)
Lemma find_del_twice k1 k2 w r1 wa1 e1 wa r2 wb1 e2 wb :
  mdc0_inv w -> objid_slot k1 = 0 -> objid_slot k2 = 0 -> k1 <> k2 ->
  pmd_obj_find_get k1 w = (r1, wa1) ->
  (match r1 with
   | Some lp => pmd_obj_delete lp
   | None => ret 0
   end) wa1 = (e1, wa) ->
  pmd_obj_find_get k2 wa = (r2, wb1) ->
  (match r2 with
   | Some lp => pmd_obj_delete lp
   | None => ret 0
   end) wb1 = (e2, wb) ->
  forall objid, objid <> k1 -> objid <> k2 ->
    cobj_view wb 0 !! objid = cobj_view w 0 !! objid.
Proof.
  intros Hinv Hs1 Hs2 Hne Hf1 Hd1 Hf2 Hd2 objid Ho1 Ho2.
  pose proof Hinv as (Hinj & _ & Hun).
  destruct (find_del_frame k1 w r1 wa1 e1 wa) as (M1 & U1 & H1); auto.
  { now rewrite Hs1. }
  { rewrite Hs1. intros lp. now apply mdc0_inv_key. }
  rewrite Hs1 in H1.
  assert (Hp2 : forall p, mmi_obj (cinfo_of w 0) !! k2 = Some p ->
                          mmi_obj (cinfo_of w 0) !! k1 <> Some p).
  { intros p E2 E1. apply Hne. exact (Hinj _ _ _ E1 E2). }
  destruct (find_del_frame k2 wa r2 wb1 e2 wb) as (M2 & U2 & H2); auto.
  { now rewrite Hs2, U1. }
  { rewrite Hs2. intros lp Hin. rewrite M1 in Hin by congruence.
    unfold layout_of. rewrite lookup_total_alt, H1 by now apply Hp2.
    rewrite <- lookup_total_alt. now apply mdc0_inv_key. }
  rewrite Hs2 in H2.
  transitivity (cobj_view wa 0 !! objid).
  - apply (view_frame k2); auto.
    intros p E Ek. rewrite M1 in E, Ek by congruence.
    apply Ho2. exact (Hinj _ _ _ E Ek).
  - apply (view_frame k1); auto.
    intros p E Ek. apply Ho1. exact (Hinj _ _ _ E Ek).
Qed.

Lemma logid_make_slot0 u : objid_slot (logid_make u 0) = 0.
Proof. unfold logid_make. now apply objid_slot_make. Qed.

Lemma logid_make_pair n :
  0 <= n < MDC_SLOTS -> logid_make (2 * n) 0 <> logid_make (2 * n + 1) 0.
Proof.
  unfold MDC_SLOTS, logid_make. intros Hn E.
  apply (f_equal objid_uniq) in E.
  rewrite !objid_uniq_make in E by lia. lia.
Qed.

Lemma rb_walk_elem (t : gmap Z lptr) k lp :
  (k, lp) ∈ rb_walk t <-> t !! k = Some lp.
Proof. rewrite (rb_walk_perm t). apply elem_of_map_to_list. Qed.

(** A validation of MDC0 that succeeds changes the committed map of MDC0
    at most at the object ids of the two mlogs of one MDC: the one with
    the highest number among the mlogs of the map. *)
Lemma pmd_mdc0_validate_frame activation w w' :
  mdc0_inv w ->
  pmd_mdc0_validate activation w = (0, w') ->
  exists n, 0 <= n < MDC_SLOTS
    /\ (forall k lp, mmi_obj (cinfo_of w 0) !! k = Some lp ->
                     Z.shiftr (objid_uniq k) 1 <= n)
    /\ (n = 0 \/ exists k lp, mmi_obj (cinfo_of w 0) !! k = Some lp
                              /\ Z.shiftr (objid_uniq k) 1 = n)
    /\ forall objid,
         objid <> logid_make (2 * n) 0 -> objid <> logid_make (2 * n + 1) 0 ->
         cobj_view w' 0 !! objid = cobj_view w 0 !! objid.
Proof.
  intros Hinv H.
  unfold pmd_mdc0_validate in H. mexec H. rewrite unlock_lock_eq in H.
  destruct (_ =? 0).
  { apply ret_inv in H as [[=] _]. }
  mexec H. rewrite cinfo_of_set_w_held in H.
  mcall H as [err [lcnt mdcmax]] w1 Hloop.
  apply mdc0_validate_loop_inv in Hloop as (-> & Hb & Hok).
  assert (Hmax : 0 <= mdcmax < MDC_SLOTS) by (apply Hb; unfold MDC_SLOTS; lia).
  clear Hb. mexec H. rewrite unlock_lock_eq in H.
  destruct (err =? 0) eqn:Ee; simpl negb in H; cbv iota in H.
  2:{ apply ret_inv in H as [-> _]. discriminate. }
  apply Z.eqb_eq in Ee. subst err.
  destruct (Hok eq_refl) as (_ & Hall & Hat). clear Hok.
  assert (Hhigh : forall k lp, mmi_obj (cinfo_of w 0) !! k = Some lp ->
                               Z.shiftr (objid_uniq k) 1 <= mdcmax).
  { intros k lp Hin.
    pose proof (Hall k lp (proj2 (rb_walk_elem _ _ _) Hin)) as Hle.
    change (layout_of (set_w_held (cons (L_colock 0)) w) lp)
      with (layout_of w lp) in Hle.
    now rewrite (mdc0_inv_key w k lp Hinv Hin) in Hle. }
  assert (Hatt : mdcmax = 0
                 \/ exists k lp, mmi_obj (cinfo_of w 0) !! k = Some lp
                                 /\ Z.shiftr (objid_uniq k) 1 = mdcmax).
  { destruct Hat as [-> | (k & lp & Hin & Heq)]; [now left|]. right.
    apply rb_walk_elem in Hin. exists k, lp. split; [exact Hin|].
    change (layout_of (set_w_held (cons (L_colock 0)) w) lp)
      with (layout_of w lp) in Heq.
    now rewrite (mdc0_inv_key w k lp Hinv Hin) in Heq. }
  exists mdcmax. split; [exact Hmax|]. split; [exact Hhigh|].
  split; [exact Hatt|].
  assert (Hsame : w' = w -> forall objid,
         objid <> logid_make (2 * mdcmax) 0 ->
         objid <> logid_make (2 * mdcmax + 1) 0 ->
         cobj_view w' 0 !! objid = cobj_view w 0 !! objid).
  { now intros ->. }
  destruct (mdcmax =? 0).
  { destruct (_ || _); apply ret_inv in H as [_ <-]; now apply Hsame. }
  destruct (_ && _).
  { apply ret_inv in H as [_ <-]. now apply Hsame. }
  destruct (negb (forallb _ _)).
  { apply ret_inv in H as [_ <-]. now apply Hsame. }
  destruct (_ || _).
  2:{ apply ret_inv in H as [_ <-]. now apply Hsame. }
  assert (Ew1 : wrap_u64 (2 * mdcmax) = 2 * mdcmax)
    by (apply wrap_u64_small; unfold MDC_SLOTS in Hmax; lia).
  assert (Ew2 : wrap_u64 (2 * mdcmax + 1) = 2 * mdcmax + 1)
    by (apply wrap_u64_small; unfold MDC_SLOTS in Hmax; lia).
  rewrite Ew1, Ew2 in H.
  mcall H as r1 wa1 Hf1. mcall H as e1 wa Hd1.
  mcall H as r2 wb1 Hf2. mcall H as e2 wb Hd2.
  intros objid Ho1 Ho2.
  pose proof (find_del_twice _ _ _ _ _ _ _ _ _ _ _ Hinv
                (logid_make_slot0 _) (logid_make_slot0 _)
                (logid_make_pair _ Hmax) Hf1 Hd1 Hf2 Hd2 objid Ho1 Ho2) as Hv.
  rewrite <- Hv.
  destruct activation.
  - mexec H. apply ret_inv in H as [_ <-]. unfold cobj_view. simpl w_heap.
    change (cinfo_of (set_w_mp (set_mdi_slotvcnt ?v) ?x) 0)
      with (cinfo_of x 0).
    now rewrite cinfo_of_upd_slot_eq.
  - now apply ret_inv in H as [_ <-].
Qed.

(** ** The replay of MDC0 *)

Lemma replay_net_keys recs :
  forall m m', keys_ok m -> replay_net recs m = Some m' -> keys_ok m'.
Proof.
  induction recs as [| r rest IH]; intros m m' Hk H; simpl in H.
  - now injection H as <-.
  - destruct (replay_record r m) as [m1|] eqn:E; [|discriminate].
    apply (IH m1); [|exact H]. clear IH H.
    unfold keys_ok in *. destruct r; simpl in E; try (now injection E as <-).
    + destruct (m !! ol_objid l); [discriminate|]. injection E as <-.
      now apply map_Forall_insert_2.
    + destruct (m !! objid); [|discriminate]. injection E as <-.
      now apply map_Forall_delete.
    + injection E as <-. intros k x Hx.
      apply lookup_alter_Some in Hx as [(-> & y & Hy & ->) | [_ Hx]].
      * simpl. exact (Hk _ _ Hy).
      * exact (Hk _ _ Hx).
    + injection E as <-. now apply map_Forall_insert_2.
Qed.

Ltac upres_at H Hr :=
  match type of H with
  | ?m ?w = (_, ?w1) =>
      assert (Hr : uncobj_rel w w1);
      [ let Hp := fresh in
        assert (Hp : preserves uncobj_rel m)
          by (upres; auto using uncobj_rel_objs_load_loop,
                uncobj_rel_smap_loop);
        specialize (Hp w); rewrite H in Hp; exact Hp
      | ]
  end.

(** The replay of MDC0, from the log to the committed map: the map is
    the net effect of the records but for what the validation deleted. *)
Lemma pmd_objs_load_mdc0 w w' :
  heap_wf w ->
  tree_ok (w_heap w) (mmi_obj (cinfo_of w 0)) ->
  keys_ok (cobj_view w 0) ->
  mmi_uncobj (cinfo_of w 0) = ∅ ->
  pmd_objs_load 0 w = (0, w') ->
  exists net n,
    replay_net (mdc_alog (mdc_of w 0)) (cobj_view w 0) = Some net
    /\ 0 <= n < MDC_SLOTS
    /\ (forall objid, is_Some (net !! objid) ->
                      Z.shiftr (objid_uniq objid) 1 <= n)
    /\ (n = 0 \/ exists objid, is_Some (net !! objid)
                               /\ Z.shiftr (objid_uniq objid) 1 = n)
    /\ forall objid,
         objid <> logid_make (2 * n) 0 -> objid <> logid_make (2 * n + 1) 0 ->
         cobj_view w' 0 !! objid = net !! objid.
Proof.
  intros Hh Ht Hk Hun H. unfold pmd_objs_load in H.
  change (negb (0 =? 0)) with false in H. cbv iota in H.
  mcall H as e1 w1 Hpre. apply ret_inv in Hpre as [<- <-].
  change (negb (0 =? 0)) with false in H. cbv iota in H.
  mcall H as e2 w2 Hrw. unfold mp_mdc_rewind in Hrw.
  lpres_at Hrw R2. upres_at Hrw U2.
  destruct (negb (e2 =? 0)) eqn:E2.
  { apply ret_inv in H as [-> _]. discriminate. }
  mexec H. mcall H as e3 w3 Hloop. upres_at Hloop U3.
  destruct (negb (e3 =? 0)) eqn:E3.
  { apply ret_inv in H as [-> _]. discriminate. }
  apply negb_false_iff, Z.eqb_eq in E3. subst e3.
  destruct (load_rel_view w w2 0 R2) as (Ev & Hh2 & Ht2).
  apply objs_load_loop_net in Hloop as (Hn & Hh3 & Ht3); auto.
  rewrite (lr_alog _ _ R2), Ev in Hn.
  mexec H. mcall H as [e4 mx] w4 Hs. lpres_at Hs R4. upres_at Hs U4.
  destruct (negb (e4 =? 0)) eqn:E4.
  { apply ret_inv in H as [-> _]. discriminate. }
  destruct (load_rel_view w3 w4 0 R4) as (Ev4 & _ & Ht4).
  specialize (Ht4 Ht3).
  change (0 =? 0) with true in H. cbv iota in H.
  mcall H as u1 x1 H1. mprim H1. mcall H as u2 x2 H2. mprim H2.
  mcall H as u3 x3 H3. mprim H3.
  match type of H with
  | pmd_mdc0_validate true ?w0 = _ => set (w5 := w0) in *
  end.
  assert (Ev5 : cobj_view w5 0 = cobj_view w3 0).
  { rewrite <- Ev4. subst w5. unfold cobj_view. simpl w_heap.
    change (cinfo_of (set_w_mp (set_mdi_slotvcnt_shift ?a)
                        (set_w_mp (set_mdi_slotvcnt ?b) ?x)) 0)
      with (cinfo_of x 0).
    now rewrite cinfo_of_upd_slot_eq. }
  assert (Hinv : mdc0_inv w5).
  { split; [|split].
    - destruct Ht4 as [_ Hinj]. subst w5.
      change (cinfo_of (set_w_mp (set_mdi_slotvcnt_shift ?a)
                          (set_w_mp (set_mdi_slotvcnt ?b) ?x)) 0)
        with (cinfo_of x 0).
      rewrite cinfo_of_upd_slot_eq. simpl mmi_obj. exact Hinj.
    - rewrite Ev5. now apply (replay_net_keys _ _ _ Hk Hn).
    - subst w5.
      change (cinfo_of (set_w_mp (set_mdi_slotvcnt_shift ?a)
                          (set_w_mp (set_mdi_slotvcnt ?b) ?x)) 0)
        with (cinfo_of x 0).
      rewrite cinfo_of_upd_slot_eq. simpl mmi_uncobj.
      now rewrite U4, U3, U2. }
  apply pmd_mdc0_validate_frame in H as (n & Hb & Hhi & Hat & Hv);
    [|exact Hinv].
  exists (cobj_view w3 0), n. split; [exact Hn|]. split; [exact Hb|].
  split; [|split].
  - intros objid [l Hl]. rewrite <- Ev5 in Hl. unfold cobj_view in Hl.
    rewrite tree_view_lookup in Hl.
    destruct (mmi_obj (cinfo_of w5 0) !! objid) as [lp|] eqn:E;
      [|discriminate].
    exact (Hhi objid lp E).
  - destruct Hat as [-> | (k & lp & Hin & Heq)]; [now left|]. right.
    exists k. split; [|exact Heq]. rewrite <- Ev5. unfold cobj_view.
    rewrite tree_view_lookup, Hin. simpl. eauto.
  - intros objid H1 H2. rewrite <- Ev5. now apply Hv.
Qed.


End PMDFacts.


(** * The theorems at work on the small pool *)

Lemma pmd_mdc_compact_active_log_witness :
  let w' := (pmd_mdc_compact (Ext := sim_externals) 1 demo_world).2 in
  let w0 := (pmd_mdc_compact (Ext := sim_externals) 0 demo_world).2 in
  mdc_alog (mdc_of w' 1)
  = [ MDR_VERSION (mk_mdccver 1 0 0 1);
      MDR_OIDCKPT 1;
      MDR_OCREATE (mk_omf_layout demo_mlog 7 0 0 5 1);
      MDR_OCREATE (mk_omf_layout demo_mblock 0 4096 0 4 1) ]
  /\ mdc_alog (mdc_of w0 0)
     = [ MDR_VERSION (mk_mdccver 1 0 0 1);
         MDR_MCCONFIG (mk_pd OMF_PD_ACTIVE 77 8 1024 1073741824);
         MDR_MCSPARE 1 5;
         MDR_MPCONFIG (mk_cfg 0 0 0 0 432);
         MDR_OCREATE (mk_omf_layout (logid_make 2 0) 0 0 0 2 1);
         MDR_OCREATE (mk_omf_layout (logid_make 3 0) 0 0 0 3 1) ].
Proof.
  intros w' w0. split.
  - destruct (pmd_mdc_compact_active_log (Ext := sim_externals) 1 demo_world
                w') as [H _].
    + reflexivity.
    + vm_compute. reflexivity.
    + rewrite H. vm_compute. reflexivity.
  - destruct (pmd_mdc_compact_active_log (Ext := sim_externals) 0 demo_world
                w0) as [H _].
    + reflexivity.
    + vm_compute. reflexivity.
    + rewrite H. vm_compute. reflexivity.
Defined.

Lemma pmd_mdc_compact_counters_witness :
  let w' := (pmd_mdc_compact (Ext := sim_externals) 1 demo_world).2 in
  let p := mmi_pco_cnt (cinfo_of w' 1) in
  pcc_cobj p = 2 /\ pcc_cr p = 2
  /\ pcc_up p = 0 /\ pcc_del p = 0 /\ pcc_er p = 0.
Proof.
  intros w' p.
  destruct (pmd_mdc_compact_counters (Ext := sim_externals) 1 demo_world w')
    as (_ & H1 & H2 & _ & H3 & H4 & H5).
  - discriminate.
  - refine (bool_decide_unpack _ _). vm_compute. exact I.
  - vm_compute. reflexivity.
  - vm_compute. reflexivity.
  - fold p in H1, H2, H3, H4, H5. rewrite H2, H1.
    repeat split; try assumption; vm_compute; reflexivity.
Defined.

(** C9 does not hold for MDC0: its compaction leaves the counters alone,
    and its committed map holds the two mlogs of MDC0 itself, which no
    OCREATE ever counted.  Here the compaction of slot 0 succeeds, the map
    has four members and [pcc_cobj] is 2. *)
Lemma pmd_mdc_compact_counters_mdc0 :
  let r := pmd_mdc_compact (Ext := sim_externals) 0 demo_world in
  r.1 = 0
  /\ size (mmi_obj (cinfo_of r.2 0)) = 4%nat
  /\ pcc_cobj (mmi_pco_cnt (cinfo_of r.2 0)) = 2.
Proof. vm_compute. repeat split; reflexivity. Qed.

Lemma pmd_mdc_addrec_compact_retry_witness :
  pmd_mdc_addrec (Ext := sim_externals) 1 (CDR_ODELETE demo_mblock)
    (demo_with [EFBIG])
  = mp_mdc_append 1 (MDR_ODELETE demo_mblock) true
      (pmd_mdc_compact (Ext := sim_externals) 1
         (mp_mdc_append 1 (MDR_ODELETE demo_mblock) true
            (demo_with [EFBIG])).2).2.
Proof.
  destruct (pmd_mdc_addrec_compact_retry (Ext := sim_externals) 1
              (CDR_ODELETE demo_mblock) (demo_with [EFBIG]) EFBIG
              (mp_mdc_append 1 (MDR_ODELETE demo_mblock) true
                 (demo_with [EFBIG])).2)
    as [[H _] | (_ & e2 & w2 & Hc & [[H _] | [_ H]])].
  - vm_compute. discriminate.
  - vm_compute. reflexivity.
  - exfalso. apply H. reflexivity.
  - exfalso. apply H. assert (E : (e2, w2).1 = 0) by (rewrite <- Hc; vm_compute; reflexivity). exact E.
  - rewrite H. f_equal.
    change w2 with (e2, w2).2. now rewrite <- Hc.
Defined.

(** C6 does not hold when the compaction fails: the append reports a full
    log, the three turns of the compaction fail, and the error of the
    compaction comes back; the record was handed to the log once and the
    append was not made again. *)
Lemma pmd_mdc_addrec_no_retry :
  let w := demo_with [EFBIG; 5; 5; 5] in
  let r := pmd_mdc_addrec (Ext := sim_externals) 1 (CDR_ODELETE demo_mblock) w in
  (mp_mdc_append 1 (MDR_ODELETE demo_mblock) true w).1 = EFBIG
  /\ r.1 = 5
  /\ w_trace r.2
     = [ EvOpen 1 5; EvOpen 1 5; EvCstart 1 5;
         EvAppend 1 (MDR_ODELETE demo_mblock) true [] EFBIG ]
  /\ sync_appends (w_trace r.2) = [ MDR_ODELETE demo_mblock ].
Proof. vm_compute. repeat split; reflexivity. Qed.

Lemma pmd_obj_commit_idempotent_witness :
  pmd_obj_commit (Ext := sim_externals) 5%positive demo_world = (0, demo_world)
  /\ pmd_obj_commit (Ext := sim_externals) 5%positive
       (pmd_obj_commit (Ext := sim_externals) 5%positive demo_world).2
     = (0, (pmd_obj_commit (Ext := sim_externals) 5%positive demo_world).2).
Proof.
  destruct (pmd_obj_commit_idempotent (Ext := sim_externals) 5%positive
              demo_world) as [H1 H2].
  - reflexivity.
  - split.
    + apply H1. reflexivity.
    + apply H2.
      * exists (demo_layout demo_mblock 0 4096 4). reflexivity.
      * rewrite (H1 eq_refl). reflexivity.
Defined.



(** The roll-back writes the reference count 2 whatever it was: a layout
    entered with one reference leaves with two. *)
Example pmd_obj_delete_rollback_refcnt :
  let w := demo_with [5] in
  let r := pmd_obj_delete_impl (Ext := sim_externals) 5%positive 0 w in
  r.1 = 5
  /\ eld_refcnt (layout_of w 5%positive) = 1
  /\ eld_refcnt (layout_of r.2 5%positive) = 2.
Proof. vm_compute. repeat split; reflexivity. Qed.

Lemma pmd_alloc_idgen_checkpoint_witness :
  let w := demo_world in
  let r := pmd_alloc_idgen (Ext := sim_externals) OMF_OBJ_MBLOCK w in
  let wf := demo_with [5] in
  let rf := pmd_alloc_idgen (Ext := sim_externals) OMF_OBJ_MBLOCK wf in
  let objid := objid_make 256 OMF_OBJ_MBLOCK 1 in
  objid_ckpt objid = true
  /\ (r.1 = (0, objid)
      /\ mmi_lckpt (cinfo_of r.2 1) = objid
      /\ mmi_luniq (cinfo_of r.2 1) = 256
      /\ w_trace r.2 = [ EvAppend 1 (MDR_OIDCKPT objid) true
                           [L_compactlock 1; L_uqlock 1] 0 ]
      /\ w_held r.2 = [])
  /\ (rf.1 = (5, 0)
      /\ (pmd_log_idckpt (Ext := sim_externals) objid (idgen_ckpt_state wf)).1
         = 5
      /\ mmi_lckpt (cinfo_of rf.2 1) = mmi_lckpt (cinfo_of wf 1)
      /\ mmi_luniq (cinfo_of rf.2 1) = 255
      /\ w_trace rf.2 = [ EvAppend 1 (MDR_OIDCKPT objid) true
                            [L_compactlock 1; L_uqlock 1] 5 ]).
Proof.
  intros w r wf rf objid.
  split; [reflexivity|]. split.
  - destruct (pmd_alloc_idgen_checkpoint (Ext := sim_externals)
                OMF_OBJ_MBLOCK w r.1.1 r.1.2 r.2) as (Hck & _ & Hheld).
    + vm_compute. discriminate.
    + vm_compute. split; [discriminate | reflexivity].
    + reflexivity.
    + destruct Hck as (_ & _ & Hok & _); [reflexivity|].
      destruct Hok as (_ & Hl & Hu); [reflexivity|].
      split; [reflexivity|]. split; [exact Hl|]. split; [exact Hu|].
      split; [reflexivity | exact Hheld].
  - destruct (pmd_alloc_idgen_checkpoint (Ext := sim_externals)
                OMF_OBJ_MBLOCK wf 5 0 rf.2) as (Hck & _ & _).
    + vm_compute. discriminate.
    + vm_compute. split; [discriminate | reflexivity].
    + vm_compute. reflexivity.
    + destruct Hck as (He & _ & _ & Hko); [reflexivity|].
      destruct Hko as (_ & Hl & Hu); [discriminate|].
      split; [vm_compute; reflexivity|]. split; [symmetry; exact He|].
      split; [exact Hl|]. split; [exact Hu|]. vm_compute. reflexivity.
Defined.



Lemma objs_load_oerase_gen_witness :
  let w := demo_world in
  (objs_load_record (Ext := sim_externals) 1 (MDR_OERASE demo_mlog 5) w).1
  = merr EINVAL
  /\ (objs_load_record (Ext := sim_externals) 1 (MDR_OERASE demo_mlog 9) w).1
     = 0
  /\ eld_gen
       (layout_of
          (objs_load_record (Ext := sim_externals) 1
             (MDR_OERASE demo_mlog 9) w).2 6%positive)
     = 9.
Proof.
  intros w.
  destruct (objs_load_oerase_gen (Ext := sim_externals) 1 w) as [_ H].
  - refine (bool_decide_unpack _ _). vm_compute. exact I.
  - pose proof (H demo_mlog 5 6%positive (demo_layout demo_mlog 7 0 5)
                  eq_refl eq_refl eq_refl eq_refl) as [Hlt _].
    pose proof (H demo_mlog 9 6%positive (demo_layout demo_mlog 7 0 5)
                  eq_refl eq_refl eq_refl eq_refl) as [_ Hge].
    destruct Hlt as (He5 & _); [reflexivity|].
    destruct Hge as (He9 & Hheap); [vm_compute; discriminate|].
    split; [exact He5|]. split; [exact He9|].
    unfold layout_of. rewrite Hheap.
    now rewrite lookup_total_insert_eq.
Defined.

(** C4 does not hold for an OERASE whose generation equals the one of
    the layout: the mlog was loaded with generation 7, the record carries
    generation 7, and the replay goes on to the end of the log without an
    error. *)
Lemma objs_load_oerase_equal_gen :
  let w := demo_world in
  let r := objs_load_loop (Ext := sim_externals) 1
             [MDR_OERASE demo_mlog 7] w in
  mmi_obj (cinfo_of w 1) !! demo_mlog = Some 6%positive
  /\ eld_gen (layout_of w 6%positive) = 7
  /\ r.1 = 0
  /\ eld_gen (layout_of r.2 6%positive) = 7.
Proof. vm_compute. repeat split; reflexivity. Qed.

Lemma pmd_obj_alloc_layout_iff_witness :
  let w := demo_world in
  let r := pmd_obj_realloc (Ext := sim_externals) demo_mblock
             (mk_ocap 4096 false) 1 w in
  let a := pmd_obj_alloc (Ext := sim_externals) OMF_OBJ_MBLOCK
             (mk_ocap 4096 false) 1 w in
  r.1.1 = merr EEXIST
  /\ r.1.2 = None
  /\ mmi_stats (cinfo_of r.2 1) = mmi_stats (cinfo_of w 1)
  /\ a.1.1 = 0
  /\ is_Some a.1.2.
Proof.
  intros w r a.
  destruct (pmd_obj_alloc_layout_iff (Ext := sim_externals) w)
    as (_ & Ha & Hr).
  - refine (bool_decide_unpack _ _). vm_compute. exact I.
  - destruct (Hr demo_mblock (mk_ocap 4096 false) 1) as [Hiff Hst].
    destruct (Ha OMF_OBJ_MBLOCK (mk_ocap 4096 false) 1) as [Hiffa _].
    fold r in Hiff, Hst. fold a in Hiffa.
    assert (He : r.1.1 = merr EEXIST) by (vm_compute; reflexivity).
    assert (Hea : a.1.1 = 0) by (vm_compute; reflexivity).
    split; [exact He|]. split; [|split; [|split; [exact Hea|]]].
    + destruct (r.1.2) as [lp |] eqn:E; [|reflexivity].
      destruct Hiff as [Hiff _]. rewrite Hiff in He by eauto. discriminate.
    + apply Hst. rewrite He. discriminate.
    + apply Hiffa. exact Hea.
Defined.

Lemma pmd_mdc_alloc_nospace_witness :
  let w := demo_pool 256 in
  let r := pmd_mdc_alloc (Ext := sim_externals) 4096 0 w in
  mdi_slotvcnt (w_mp w) = MDC_SLOTS
  /\ r.1 = merr ENOSPC
  /\ w_brk r.2 = w_brk w
  /\ mdi_slotvcnt (w_mp r.2) = MDC_SLOTS.
Proof.
  intros w r.
  destruct (pmd_mdc_alloc_nospace (Ext := sim_externals) 4096 0 w)
    as (Hrun & Hna & _).
  - vm_compute. discriminate.
  - fold r in Hrun, Hna. split; [reflexivity|]. split; [|split].
    + rewrite Hrun. vm_compute. reflexivity.
    + apply (na_brk _ _ Hna).
    + rewrite (na_slotvcnt _ _ Hna). reflexivity.
Defined.

(** C7 does not hold at [MDC_SLOTS - 1] slots: the last object id of MDC0
    is 254, the slot to reserve is 255, which is [MDC_SLOTS - 1], and
    the call does not end with the no-space error: it allocates the two
    mlogs of the new MDC, logs them in MDC0 and publishes slot 255. *)
Lemma pmd_mdc_alloc_last_slot :
  let w := demo_pool 255 in
  let r := pmd_mdc_alloc (Ext := sim_externals) 4096 0 w in
  mdi_slotvcnt (w_mp w) = MDC_SLOTS - 1
  /\ mmi_luniq (cinfo_of w 0) + 1 = MDC_SLOTS - 1
  /\ r.1 = 0
  /\ mdi_slotvcnt (w_mp r.2) = MDC_SLOTS
  /\ size (w_heap w) = 510%nat
  /\ size (w_heap r.2) = 512%nat
  /\ sync_appends (w_trace r.2)
     = [ MDR_VERSION (mk_mdccver 1 0 0 1);
         MDR_OCREATE (mk_omf_layout (logid_make 511 0) 0 0 0 601 1);
         MDR_OCREATE (mk_omf_layout (logid_make 510 0) 0 0 0 600 1) ].
Proof. vm_compute. repeat split; reflexivity. Qed.

(** * The further properties at work *)

Lemma pmd_mdc_addrec_durable_witness :
  let r := pmd_mdc_addrec (Ext := sim_externals) 1 (CDR_ODELETE demo_mblock)
             demo_world in
  compact_rel demo_world r.2
  /\ last (mdc_alog (mdc_of r.2 1)) = Some (MDR_ODELETE demo_mblock).
Proof.
  intros r.
  destruct (pmd_mdc_addrec_durable (Ext := sim_externals) 1
              (CDR_ODELETE demo_mblock) demo_world r.1 r.2) as [R H].
  - reflexivity.
  - vm_compute. reflexivity.
  - split; [exact R|]. destruct H as [H _]; [vm_compute; reflexivity|].
    exact H.
Defined.

Lemma pmd_obj_commit_moves_witness :
  let w' := (pmd_obj_commit (Ext := sim_externals) 7%positive
               demo_world_new).2 in
  mmi_obj (cinfo_of w' 1)
  = <[demo_new_mblock := 7%positive]> (mmi_obj (cinfo_of demo_world_new 1))
  /\ mmi_uncobj (cinfo_of w' 1) = ∅.
Proof.
  intros w'.
  destruct (pmd_obj_commit_moves (Ext := sim_externals) 7%positive
              demo_world_new w') as (_ & Ho & Hu & _).
  - reflexivity.
  - vm_compute. reflexivity.
  - vm_compute. reflexivity.
  - split; [exact Ho|]. etransitivity; [exact Hu|]. vm_compute. reflexivity.
Defined.

Lemma pmd_obj_commit_fails_witness :
  let w := demo_new_with [5] in
  compact_rel w (pmd_obj_commit (Ext := sim_externals) 7%positive w).2.
Proof.
  intros w.
  destruct (pmd_obj_commit_fails (Ext := sim_externals) 7%positive w 5
              (pmd_obj_commit (Ext := sim_externals) 7%positive w).2)
    as [R | (He & _)].
  - vm_compute. reflexivity.
  - discriminate.
  - exact R.
  - vm_compute in He. discriminate He.
Defined.

Lemma pmd_obj_abort_spec_witness :
  let r := pmd_obj_abort (Ext := sim_externals) 7%positive demo_world_new in
  r.1 = 0
  /\ mmi_uncobj (cinfo_of r.2 1)
     = delete demo_new_mblock (mmi_uncobj (cinfo_of demo_world_new 1))
  /\ w_heap r.2 !! 5%positive = w_heap demo_world_new !! 5%positive.
Proof.
  intros r.
  destruct (pmd_obj_abort_spec (Ext := sim_externals) 7%positive
              demo_world_new r.1 r.2) as (_ & [_ He] & H).
  - vm_compute. reflexivity.
  - assert (E : r.1 = 0).
    { apply He. vm_compute. repeat split; try reflexivity. discriminate. }
    destruct (H E) as (Hu & _ & _ & _ & _ & Hp & _).
    split; [exact E|]. split; [exact Hu|]. apply Hp. discriminate.
Defined.

Lemma pmd_obj_delete_success_witness :
  let w' := (pmd_obj_delete_impl (Ext := sim_externals) 5%positive 0
               demo_world).2 in
  mmi_obj (cinfo_of w' 1) = delete demo_mblock (mmi_obj (cinfo_of demo_world 1))
  /\ last (mdc_alog (mdc_of w' 1)) = Some (MDR_ODELETE demo_mblock)
  /\ w_held w' = [].
Proof.
  intros w'.
  destruct (pmd_obj_delete_success (Ext := sim_externals) 5%positive 0
              demo_world w') as (_ & Ho & _ & Hl & Hh & _).
  - reflexivity.
  - vm_compute. reflexivity.
  - split; [exact Ho|]. split; [exact Hl|]. exact Hh.
Defined.

Lemma pmd_obj_find_get_spec_witness :
  let r := pmd_obj_find_get demo_mblock demo_world in
  r.1 = Some 5%positive /\ r.2 = demo_world_held.
Proof.
  intros r.
  destruct (pmd_obj_find_get_spec demo_mblock demo_world
              (Some 5%positive) r.2) as (_ & _ & _ & H).
  - vm_compute. reflexivity.
  - split; [vm_compute; reflexivity|]. rewrite H. vm_compute. reflexivity.
Defined.

Lemma pmd_obj_get_put_witness :
  pmd_obj_put 5%positive (pmd_obj_get 5%positive demo_world).2
  = (tt, demo_world).
Proof.
  apply pmd_obj_get_put.
  - vm_compute. eexists. reflexivity.
  - vm_compute. reflexivity.
  - vm_compute. reflexivity.
  - vm_compute. split; [discriminate | reflexivity].
  - vm_compute. reflexivity.
Defined.

Lemma pmd_obj_erase_spec_witness :
  let r := pmd_obj_erase (Ext := sim_externals) 3%positive 5 (mk_sb 0 0)
             demo_world in
  let r0 := pmd_obj_erase (Ext := sim_externals) 1%positive 5 (mk_sb 0 0)
              demo_world in
  (r.1 = (0, mk_sb 0 0)
   /\ w_heap r.2 = alter (set_eld_gen 5) 3%positive demo_heap
   /\ last (mdc_alog (mdc_of r.2 0)) = Some (MDR_OERASE (logid_make 2 0) 5))
  /\ (r0.1 = (0, mk_sb 5 0)
      /\ w_heap r0.2 = alter (set_eld_gen 5) 1%positive demo_heap
      /\ w_mdc r0.2 = w_mdc demo_world).
Proof.
  intros r r0. split.
  - destruct (pmd_obj_erase_spec (Ext := sim_externals) 3%positive 5
                (mk_sb 0 0) demo_world 0 (mk_sb 0 0) r.2) as (_ & H & _).
    + reflexivity.
    + vm_compute. reflexivity.
    + destruct H as (_ & Hh & _ & Hl); [reflexivity|].
      split; [vm_compute; reflexivity|]. split; [exact Hh | exact Hl].
  - destruct (pmd_obj_erase_spec (Ext := sim_externals) 1%positive 5
                (mk_sb 0 0) demo_world 0 (mk_sb 5 0) r0.2) as (_ & H & _).
    + reflexivity.
    + vm_compute. reflexivity.
    + destruct H as (_ & Hh & _ & Hm); [reflexivity|].
      split; [vm_compute; reflexivity|]. split; [exact Hh | exact Hm].
Defined.

Lemma pmd_precompact_alsz_spec_witness :
  let w' := (pmd_precompact_alsz (logid_make 2 0) 100 200 demo_world).2 in
  pcc_len (mmi_pco_cnt (cinfo_of w' 1)) = 100
  /\ pcc_cap (mmi_pco_cnt (cinfo_of w' 1)) = 200
  /\ cinfo_of w' 0 = cinfo_of demo_world 0.
Proof.
  intros w'.
  destruct (pmd_precompact_alsz_spec 100 200 demo_world) as (_ & _ & H).
  destruct (H 1 0) as (H1 & H2 & _); [unfold MDC_SLOTS; lia | lia |].
  change (pmd_precompact_alsz (logid_make (2 * 1 + 0) 0) 100 200 demo_world).2
    with w' in H1, H2.
  rewrite H1. split; [reflexivity|]. split; [reflexivity|].
  apply H2. discriminate.
Defined.

Lemma pmd_need_compact_after_compact_witness :
  let w' := (pmd_mdc_compact (Ext := sim_externals) 1 demo_world).2 in
  pmd_need_compact (mk_params 0 1 0 0) 1 w' = (false, w').
Proof.
  intros w'.
  apply (pmd_need_compact_after_compact (Ext := sim_externals)
           (mk_params 0 1 0 0) 1 demo_world w').
  - discriminate.
  - simpl. lia.
  - vm_compute. reflexivity.
Defined.

Lemma pmd_mdc_needed_spec_witness :
  let w := (pmd_precompact_alsz (logid_make 2 0) 90 100 demo_world).2 in
  (pmd_mdc_needed (mk_params 0 0 50 80) w).1 = true
  /\ exists s, 1 <= s < 2
       /\ wrap_u64 (pcc_cap (mmi_pco_cnt (cinfo_of w s))) <> 0.
Proof.
  intros w.
  destruct (pmd_mdc_needed_spec (mk_params 0 0 50 80) w) as (_ & H & _).
  destruct H as [_ Hex]; [vm_compute; reflexivity|].
  split; [vm_compute; reflexivity | exact Hex].
Defined.

Lemma pmd_mpool_usage_spec_witness :
  let r := (pmd_mpool_usage (mk_usage 0 0 0 0 0 0 0) demo_world).1 in
  mpu_mblock_cnt r = 1 /\ mpu_alen r = 8192 /\ mpu_wlen r = 8192.
Proof.
  intros r.
  destruct (pmd_mpool_usage_spec (mk_usage 0 0 0 0 0 0 0) demo_world)
    as (_ & H1 & H2 & H3 & H4 & _ & H6).
  - unfold usage_wf. simpl. lia.
  - change (mdi_slotvcnt (w_mp demo_world) <? 2) with false in H6.
    destruct H6 as [Ha Hw]. fold r in H1, H2, H3, H4, Ha, Hw.
    rewrite Ha, Hw, H1, H2, H3, H4. vm_compute. repeat split; reflexivity.
Defined.
